(** * Ultimate vibe agent: core runtime, shallow embedding and properties

  The TypeScript sources are embedded as Rocq functions.  JavaScript
  strings are sequences of code units; the embedding uses [string], i.e.
  code units below 256.  Exceptions are explicit: a function that can
  throw returns a sum whose left summand is the error.  Interaction with
  the outside world (file system, child processes, the chat client, the
  terminal user, built-ins such as [JSON.parse]) enters through explicit
  state or through section variables. *)

From Stdlib Require Import ZArith List Ascii String Lia Bool QArith Qround DecimalString.
From stdpp Require Import gmap strings list.

(** ** JavaScript string primitives used by the sources *)

Module JS.

(** [s.slice(0, n)] and [s.slice(n)] for [0 <= n]. *)
Fixpoint take (n : nat) (s : string) : string :=
  match n, s with
  | S n', String c s' => String c (take n' s')
  | _, _ => EmptyString
  end.

Fixpoint drop (n : nat) (s : string) : string :=
  match n, s with
  | S n', String _ s' => drop n' s'
  | _, _ => s
  end.

(** [s.slice(-n)] for [0 < n]. *)
Definition takeRight (n : nat) (s : string) : string :=
  drop (String.length s - n) s.

Definition startsWith (s p : string) : bool := String.prefix p s.

Definition endsWith (s p : string) : bool :=
  (String.length p <=? String.length s)%nat
  && String.eqb (takeRight (String.length p) s) p.

(** [s.includes(sub)] *)
Fixpoint includes (s sub : string) : bool :=
  String.prefix sub s
  || match s with
     | EmptyString => false
     | String _ s' => includes s' sub
     end.

(** White space and line terminators among the code units below 256
    (TAB, LF, VT, FF, CR, SP, NBSP). *)
Definition isSpace (c : ascii) : bool :=
  let n := nat_of_ascii c in
  ((9 <=? n) && (n <=? 13) || (n =? 32) || (n =? 160))%nat.

Fixpoint trimStart (s : string) : string :=
  match s with
  | String c s' => if isSpace c then trimStart s' else s
  | EmptyString => EmptyString
  end.

Fixpoint trimEnd (s : string) : string :=
  match s with
  | EmptyString => EmptyString
  | String c s' =>
      match trimEnd s' with
      | EmptyString => if isSpace c then EmptyString else String c EmptyString
      | t => String c t
      end
  end.

Definition trim (s : string) : string := trimEnd (trimStart s).

Definition lowerChar (c : ascii) : ascii :=
  let n := nat_of_ascii c in
  if ((65 <=? n) && (n <=? 90)
      || (192 <=? n) && (n <=? 222) && negb (n =? 215))%nat
  then ascii_of_nat (n + 32) else c.

Fixpoint toLowerCase (s : string) : string :=
  match s with
  | EmptyString => EmptyString
  | String c s' => String (lowerChar c) (toLowerCase s')
  end.

(** [s.split(sep)] for a one-character separator: never empty. *)
Fixpoint split (sep : ascii) (s : string) : list string :=
  match s with
  | EmptyString => [EmptyString]
  | String c s' =>
      if Ascii.eqb c sep then EmptyString :: split sep s'
      else match split sep s' with
           | [] => [String c EmptyString]
           | h :: t => String c h :: t
           end
  end.

(** [parts.join(sep)] *)
Definition join (sep : string) (parts : list string) : string :=
  String.concat sep parts.

(** [s.indexOf(c)] and [s.lastIndexOf(c)] for a character. *)
Fixpoint indexOfChar (c : ascii) (s : string) : option nat :=
  match s with
  | EmptyString => None
  | String a s' => if Ascii.eqb a c then Some 0 else option_map S (indexOfChar c s')
  end.

Fixpoint lastIndexOfChar (c : ascii) (s : string) : option nat :=
  match s with
  | EmptyString => None
  | String a s' =>
      match lastIndexOfChar c s' with
      | Some i => Some (S i)
      | None => if Ascii.eqb a c then Some 0 else None
      end
  end.

(** [s.slice(i, j)] for [0 <= i] and [0 <= j]. *)
Definition slice (i j : nat) (s : string) : string := take (j - i) (drop i s).

(** The double quote character, and a text between double quotes. *)
Definition quote : string := String (ascii_of_nat 34) "".

Definition quoted (s : string) : string := quote +:+ s +:+ quote.

(** Truthiness of a string: non-empty. *)
Definition nonEmpty (s : string) : bool :=
  match s with EmptyString => false | _ => true end.

End JS.

(** ** The process and its host

    What the sources read from the process and the operating system:
    [process.platform], [process.cwd()], the functions of node:path for
    Windows, and the outcome of the calls of node:fs. *)

Module Host.

(** [path.resolve], [path.relative] and [path.join] of node:path on
    Windows, in one process. *)
Record Win32Functions := {
  win32Resolve : list string → string;
  win32Relative : string → string → string;
  win32Join : string → string → string;
}.

(** [process.platform]: "win32" or another, with what node:path is there. *)
Inductive Platform := Posix | Win32 (path : Win32Functions).

(** The regular files: absolute path to the bytes held. *)
Abbreviation FS := (gmap string string).

(** The calls of node:fs/promises that the sources make. *)
Inductive IoCall := IoAccess | IoRead | IoMkdir | IoWrite | IoAppend | IoUnlink.

(** [ioError call path files] is the error, other than a missing entry,
    with which the operating system refuses a call on a path (a directory
    in the place of a file, a missing permission, a full or read-only
    disk); for [IoMkdir] the path is that of the file whose directory is
    made.  [otherEntry path files] tells that the path names an entry that
    is no regular file, such as a directory.  A call that is refused leaves
    the regular files as they are.  [utf8Decode] is the text that reading
    bytes as UTF-8 gives and [utf8Encode] the bytes written for a text. *)
Record Process := {
  platform : Platform;
  workingDirectory : string;
  ioError : IoCall → string → FS → option string;
  otherEntry : string → FS → bool;
  utf8Decode : string → string;
  utf8Encode : string → string;
}.

(** A POSIX process in a working directory, on a host that refuses no
    call, with files of plain text. *)
Definition posix (cwd : string) : Process :=
  {| platform := Posix;
     workingDirectory := cwd;
     ioError := λ _ _ _, None;
     otherEntry := λ _ _, false;
     utf8Decode := λ bytes, bytes;
     utf8Encode := λ text, text |}.

End Host.

Coercion Host.posix : string >-> Host.Process.

(** ** Path sandbox (utils/path.ts) *)

Module PathSandbox.
Export Host.

Inductive Error := PathEscape (userPath : string).

(** One step of Node's [normalizeString] on the segment stack (top first). *)
Definition normalizeStep (allowAboveRoot : bool) (acc : list string) (seg : string)
  : list string :=
  if String.eqb seg "" || String.eqb seg "." then acc
  else if String.eqb seg ".." then
    match acc with
    | top :: rest =>
        if String.eqb top ".." then (if allowAboveRoot then seg :: acc else acc)
        else rest
    | [] => if allowAboveRoot then [seg] else []
    end
  else seg :: acc.

Definition normalizeSegments (allowAboveRoot : bool) (p : string) : list string :=
  rev (fold_left (normalizeStep allowAboveRoot) (JS.split "/"%char p) []).

(** The right-to-left loop of [path.resolve] (posix): returns the
    concatenated path and whether an absolute component was reached;
    [process.cwd()] is used last. *)
Fixpoint resolveLoop (cwd : string) (argsRev : list string) (resolved : string)
  : string * bool :=
  match argsRev with
  | [] =>
      if JS.nonEmpty cwd
      then (cwd +:+ "/" +:+ resolved, JS.startsWith cwd "/")
      else (resolved, false)
  | p :: rest =>
      if JS.nonEmpty p then
        if JS.startsWith p "/" then (p +:+ "/" +:+ resolved, true)
        else resolveLoop cwd rest (p +:+ "/" +:+ resolved)
      else resolveLoop cwd rest resolved
  end.

(** [path.resolve(...args)] of node:path (posix). *)
Definition posix_resolve (cwd : string) (args : list string) : string :=
  let '(resolved, absolute) := resolveLoop cwd (rev args) "" in
  let normalized := JS.join "/" (normalizeSegments (negb absolute) resolved) in
  if absolute then "/" +:+ normalized
  else if JS.nonEmpty normalized then normalized else ".".

(** [path.resolve(...args)] in a process. *)
Definition path_resolve (cwd : Process) (args : list string) : string :=
  match platform cwd with
  | Posix => posix_resolve (workingDirectory cwd) args
  | Win32 win32 => win32Resolve win32 args
  end.

Definition backslash : string := String (ascii_of_nat 92) "".

(** [path.sep] *)
Definition path_sep (cwd : Process) : string :=
  match platform cwd with
  | Posix => "/"
  | Win32 _ => backslash
  end.

Definition normalizeForComparison (cwd : Process) (value : string) : string :=
  let normalized := path_resolve cwd [value] in
  match platform cwd with
  | Win32 _ => JS.toLowerCase normalized
  | Posix => normalized
  end.

Definition resolveWorkspacePath (cwd : Process) (workspaceRoot userPath : string)
  : Error + string :=
  let rootResolved := path_resolve cwd [workspaceRoot] in
  let candidate := path_resolve cwd [rootResolved; userPath] in
  let rootCmp := normalizeForComparison cwd rootResolved in
  let candidateCmp := normalizeForComparison cwd candidate in
  let rootPrefix :=
    if JS.endsWith rootCmp (path_sep cwd) then rootCmp
    else rootCmp +:+ path_sep cwd in
  if negb (String.eqb candidateCmp rootCmp)
     && negb (JS.startsWith candidateCmp rootPrefix)
  then inl (PathEscape userPath)
  else inr candidate.

(** The non-empty components of a POSIX path: what the path denotes. *)
Definition segments (p : string) : list string :=
  List.filter JS.nonEmpty (JS.split "/"%char p).

End PathSandbox.

(** ** [path.resolve] of node:path for Windows, as in Node.js 18 and 20 *)

Module Win32Path.
Import PathSandbox.

Definition isPathSeparator (c : ascii) : bool :=
  Ascii.eqb c "/" || Ascii.eqb c (ascii_of_nat 92).

(** A to Z and a to z. *)
Definition isWindowsDeviceRoot (c : ascii) : bool :=
  let n := nat_of_ascii c in
  ((65 <=? n) && (n <=? 90) || (97 <=? n) && (n <=? 122))%nat.

(** The longest start of a text whose characters all satisfy [p], and the
    rest: one of the scanning loops of the sources. *)
Fixpoint span (p : ascii → bool) (s : string) : string * string :=
  match s with
  | EmptyString => (EmptyString, EmptyString)
  | String c s' =>
      if p c then let '(taken, rest) := span p s' in (String c taken, rest)
      else (EmptyString, s)
  end.

(** [s.split] at every path separator. *)
Fixpoint splitSep (s : string) : list string :=
  match s with
  | EmptyString => [EmptyString]
  | String c s' =>
      if isPathSeparator c then EmptyString :: splitSep s'
      else match splitSep s' with
           | [] => [String c EmptyString]
           | h :: t => String c h :: t
           end
  end.

(** [normalizeString(path, allowAboveRoot, "\\", isPathSeparator)], as the
    list of the components kept. *)
Definition normalizeSegments (allowAboveRoot : bool) (p : string) : list string :=
  rev (fold_left (normalizeStep allowAboveRoot) (splitSep p) []).

(** The root of one path: its device, the text after the root
    ([path.slice(rootEnd)]) and whether the path is absolute. *)
Record Root := {
  device : string;
  afterRoot : string;
  isAbsolute : bool;
}.

Definition parseRoot (path : string) : Root :=
  let relative := {| device := ""; afterRoot := path; isAbsolute := false |} in
  match path with
  | EmptyString => relative
  | String c rest =>
      if isPathSeparator c then
        match rest with
        | EmptyString => {| device := ""; afterRoot := ""; isAbsolute := true |}
        | String c1 rest1 =>
            if isPathSeparator c1 then
              (* a possible UNC root; [rootEnd] stays 0 when it is not matched *)
              let unmatched := {| device := ""; afterRoot := path; isAbsolute := true |} in
              let '(firstPart, r1) := span (λ a, negb (isPathSeparator a)) rest1 in
              if JS.nonEmpty firstPart && JS.nonEmpty r1 then
                let '(_, r2) := span isPathSeparator r1 in
                if JS.nonEmpty r2 then
                  let '(share, r3) := span (λ a, negb (isPathSeparator a)) r2 in
                  {| device := backslash +:+ backslash +:+ firstPart +:+ backslash +:+ share;
                     afterRoot := r3; isAbsolute := true |}
                else unmatched
              else unmatched
            else {| device := ""; afterRoot := rest; isAbsolute := true |}
        end
      else if isWindowsDeviceRoot c then
        match rest with
        | String c1 rest1 =>
            if Ascii.eqb c1 ":" then
              let drive := String c (String c1 EmptyString) in
              match rest1 with
              | String c2 rest2 =>
                  if isPathSeparator c2
                  then {| device := drive; afterRoot := rest2; isAbsolute := true |}
                  else {| device := drive; afterRoot := rest1; isAbsolute := false |}
              | EmptyString => {| device := drive; afterRoot := ""; isAbsolute := false |}
              end
            else relative
        | EmptyString => relative
        end
      else relative
  end.

(** The variables of the loop of [resolve]. *)
Record Resolved := {
  resolvedDevice : string;
  resolvedTail : string;
  resolvedAbsolute : bool;
}.

(** One turn of the loop on a non-empty path: the variables after it and
    whether the loop is left. *)
Definition resolveStep (path : string) (r : Resolved) : Resolved * bool :=
  let root := parseRoot path in
  if JS.nonEmpty (device root) && JS.nonEmpty (resolvedDevice r)
     && negb (String.eqb (JS.toLowerCase (device root))
                (JS.toLowerCase (resolvedDevice r)))
  then (r, false)                      (* another device: not applicable *)
  else
    let dev :=
      if JS.nonEmpty (device root) && negb (JS.nonEmpty (resolvedDevice r))
      then device root else resolvedDevice r in
    if resolvedAbsolute r then
      ({| resolvedDevice := dev; resolvedTail := resolvedTail r;
          resolvedAbsolute := true |}, JS.nonEmpty dev)
    else
      ({| resolvedDevice := dev;
          resolvedTail := afterRoot root +:+ backslash +:+ resolvedTail r;
          resolvedAbsolute := isAbsolute root |},
       isAbsolute root && JS.nonEmpty dev).

Section Resolve.

(** [process.cwd()] and [process.env["=X:"]], the working directory of a
    drive. *)
Variable cwd : string.
Variable driveCwd : string → option string.

(** The path of the last turn, taken from the process. *)
Definition processPath (r : Resolved) : string :=
  if negb (JS.nonEmpty (resolvedDevice r)) then cwd
  else
    let path :=
      match driveCwd (resolvedDevice r) with
      | Some dir => if JS.nonEmpty dir then dir else cwd
      | None => cwd
      end in
    if negb (String.eqb (JS.toLowerCase (JS.take 2 path))
               (JS.toLowerCase (resolvedDevice r)))
       && String.eqb (JS.slice 2 3 path) backslash
    then resolvedDevice r +:+ backslash
    else path.

Fixpoint resolveLoop (argsRev : list string) (r : Resolved) : Resolved :=
  match argsRev with
  | [] => (resolveStep (processPath r) r).1
  | path :: rest =>
      if negb (JS.nonEmpty path) then resolveLoop rest r
      else
        let '(r', leave) := resolveStep path r in
        if leave then r' else resolveLoop rest r'
  end.

Definition resolve (args : list string) : string :=
  let r :=
    resolveLoop (rev args)
      {| resolvedDevice := ""; resolvedTail := ""; resolvedAbsolute := false |} in
  let tail :=
    JS.join backslash
      (normalizeSegments (negb (resolvedAbsolute r)) (resolvedTail r)) in
  if resolvedAbsolute r then resolvedDevice r +:+ backslash +:+ tail
  else if JS.nonEmpty (resolvedDevice r +:+ tail) then resolvedDevice r +:+ tail
  else ".".

End Resolve.

(** A Windows process in a working directory, with the working directories
    of its drives and the other two functions of node:path, on a host that
    refuses no call. *)
Definition windows (cwd : string) (driveCwd : string → option string)
    (relative join : string → string → string) : Process :=
  {| platform :=
       Win32 {| win32Resolve := resolve cwd driveCwd;
                win32Relative := relative;
                win32Join := join |};
     workingDirectory := cwd;
     ioError := λ _ _ _, None;
     otherEntry := λ _ _, false;
     utf8Decode := λ bytes, bytes;
     utf8Encode := λ text, text |}.

End Win32Path.


(** ** Shell runner (tools/terminalTools.ts) *)

Module Shell.

Record CommandResult := {
  command : string;
  exitCode : option Z;      (* null when the child was ended by a signal *)
  timedOut : bool;
  durationMs : Z;
  stdout : string;
  stderr : string;
}.

Definition appendCapped (current chunk : string) (maxChars : Z) : string :=
  if (maxChars <=? Z.of_nat (String.length current))%Z then current
  else
    let remaining := (maxChars - Z.of_nat (String.length current))%Z in
    current +:+ JS.take (Z.to_nat remaining) chunk.

(** What the runtime delivers to the handlers registered by
    [runShellCommand], in order of delivery.  [ProcClose] carries the exit
    code and the rounded time elapsed since the start. *)
Inductive ProcEvent :=
| StdoutData (chunk : string)
| StderrData (chunk : string)
| TimerFired
| ProcError (message : string)
| ProcClose (code : option Z) (elapsedMs : Z).

(** The variables captured by the handlers; [kills] counts the calls of
    [child.kill()], [outcome] is how the promise was settled. *)
Record Runner := {
  r_stdout : string;
  r_stderr : string;
  r_timedOut : bool;
  r_settled : bool;
  r_kills : nat;
  r_outcome : option (string + CommandResult);
}.

Definition runnerInit : Runner :=
  {| r_stdout := ""; r_stderr := ""; r_timedOut := false; r_settled := false;
     r_kills := 0; r_outcome := None |}.

Definition handle (cmd : string) (maxOutputChars : Z) (r : Runner) (ev : ProcEvent)
  : Runner :=
  match ev with
  | StdoutData chunk =>
      {| r_stdout := appendCapped (r_stdout r) chunk maxOutputChars;
         r_stderr := r_stderr r; r_timedOut := r_timedOut r;
         r_settled := r_settled r; r_kills := r_kills r; r_outcome := r_outcome r |}
  | StderrData chunk =>
      {| r_stdout := r_stdout r;
         r_stderr := appendCapped (r_stderr r) chunk maxOutputChars;
         r_timedOut := r_timedOut r;
         r_settled := r_settled r; r_kills := r_kills r; r_outcome := r_outcome r |}
  | TimerFired =>
      (* the timer is cleared once the promise is settled *)
      if r_settled r then r
      else
        {| r_stdout := r_stdout r; r_stderr := r_stderr r; r_timedOut := true;
           r_settled := r_settled r; r_kills := S (r_kills r);
           r_outcome := r_outcome r |}
  | ProcError message =>
      if r_settled r then r
      else
        {| r_stdout := r_stdout r; r_stderr := r_stderr r;
           r_timedOut := r_timedOut r; r_settled := true; r_kills := r_kills r;
           r_outcome := Some (inl message) |}
  | ProcClose code elapsedMs =>
      if r_settled r then r
      else
        {| r_stdout := r_stdout r; r_stderr := r_stderr r;
           r_timedOut := r_timedOut r; r_settled := true; r_kills := r_kills r;
           r_outcome :=
             Some (inr {| command := cmd; exitCode := code;
                          timedOut := r_timedOut r; durationMs := elapsedMs;
                          stdout := r_stdout r; stderr := r_stderr r |}) |}
  end.

Definition runEvents (cmd : string) (maxOutputChars : Z) (events : list ProcEvent)
  : Runner :=
  fold_left (handle cmd maxOutputChars) events runnerInit.

(** [runShellCommand]: [None] while the promise is pending, [Some (inl _)]
    when it is rejected, [Some (inr _)] when it is resolved. *)
Definition runShellCommand (cmd : string) (maxOutputChars : Z)
    (events : list ProcEvent) : option (string + CommandResult) :=
  r_outcome (runEvents cmd maxOutputChars events).

End Shell.

(** ** File toolkit (tools/fileTools.ts) over the regular files of the host *)

Module FileTools.
Export Host.

(** The regular files of the host. *)
Abbreviation FS := Host.FS.

(** What a file tool throws: the error of the path sandbox, or the error of
    a call of node:fs. *)
Inductive Error :=
| Sandbox (e : PathSandbox.Error)
| IoFailure (message : string).

(** [fs.mkdir(path.dirname(absolutePath), {recursive: true})] and then
    [fs.writeFile(absolutePath, content, "utf8")]. *)
Definition writeFile (cwd : Process) (workspaceRoot filePath content : string) (fs : FS)
  : Error + FS :=
  match PathSandbox.resolveWorkspacePath cwd workspaceRoot filePath with
  | inl e => inl (Sandbox e)
  | inr absolutePath =>
      match ioError cwd IoMkdir absolutePath fs with
      | Some message => inl (IoFailure message)
      | None =>
          match ioError cwd IoWrite absolutePath fs with
          | Some message => inl (IoFailure message)
          | None => inr (<[absolutePath := utf8Encode cwd content]> fs)
          end
      end
  end.

(** [fs.readFile(absolutePath, "utf8")], with the error of a missing file
    caught. *)
Definition readFileIfExists (cwd : Process) (workspaceRoot filePath : string) (fs : FS)
  : Error + string :=
  match PathSandbox.resolveWorkspacePath cwd workspaceRoot filePath with
  | inl e => inl (Sandbox e)
  | inr absolutePath =>
      match ioError cwd IoRead absolutePath fs with
      | Some message => inl (IoFailure message)
      | None =>
          match fs !! absolutePath with
          | Some bytes => inr (utf8Decode cwd bytes)
          | None => inr ""
          end
      end
  end.

(** [fs.access(absolutePath)] with every error caught. *)
Definition fileExists (cwd : Process) (workspaceRoot filePath : string) (fs : FS)
  : Error + bool :=
  match PathSandbox.resolveWorkspacePath cwd workspaceRoot filePath with
  | inl e => inl (Sandbox e)
  | inr absolutePath =>
      match ioError cwd IoAccess absolutePath fs with
      | Some _ => inr false
      | None =>
          inr (bool_decide (is_Some (fs !! absolutePath))
               || otherEntry cwd absolutePath fs)
      end
  end.

(** [fs.unlink(absolutePath)], with the error of a missing file caught. *)
Definition deleteFileIfExists (cwd : Process) (workspaceRoot filePath : string) (fs : FS)
  : Error + FS :=
  match PathSandbox.resolveWorkspacePath cwd workspaceRoot filePath with
  | inl e => inl (Sandbox e)
  | inr absolutePath =>
      match ioError cwd IoUnlink absolutePath fs with
      | Some message => inl (IoFailure message)
      | None => inr (delete absolutePath fs)
      end
  end.

End FileTools.

(** ** Change tracker (reliability/changeTracker.ts) *)

Module ChangeTracker.
Import FileTools.

Record FileSnapshot := {
  path : string;
  existed : bool;
  before : string;
  after : string;
}.

Record t := {
  snapshots : gmap string FileSnapshot;
  order : list string;
}.

Definition empty : t := {| snapshots := ∅; order := [] |}.

Definition recordBefore (p : string) (existed0 : bool) (before0 : string) (ct : t) : t :=
  match snapshots ct !! p with
  | Some _ => ct
  | None =>
      {| snapshots :=
           <[p := {| path := p; existed := existed0; before := before0;
                     after := before0 |}]> (snapshots ct);
         order := order ct ++ [p] |}
  end.

Definition recordAfter (p : string) (after0 : string) (ct : t) : t :=
  match snapshots ct !! p with
  | None => ct
  | Some existing =>
      {| snapshots :=
           <[p := {| path := path existing; existed := existed existing;
                     before := before existing; after := after0 |}]> (snapshots ct);
         order := order ct |}
  end.

Definition changed (s : FileSnapshot) : bool :=
  negb (String.eqb (before s) (after s)).

Definition hasChanges (ct : t) : bool :=
  existsb (λ p, match snapshots ct !! p with
                | Some s => changed s
                | None => false
                end) (order ct).

Definition getChangedFiles (ct : t) : list FileSnapshot :=
  List.filter changed (omap (λ p, snapshots ct !! p) (order ct)).

(** The loop of [rollback] over the reversed order; an exception raised by a
    file operation ends it and leaves the files restored so far. *)
Fixpoint rollbackLoop (cwd : Process) (workspaceRoot : string)
    (snaps : gmap string FileSnapshot)
    (targets : list string) (restored : list string) (fs : FS)
  : (Error + list string) * FS :=
  match targets with
  | [] => (inr restored, fs)
  | p :: rest =>
      match snaps !! p with
      | None => rollbackLoop cwd workspaceRoot snaps rest restored fs
      | Some snapshot =>
          if negb (changed snapshot)
          then rollbackLoop cwd workspaceRoot snaps rest restored fs
          else
            let step :=
              if existed snapshot
              then writeFile cwd workspaceRoot (path snapshot) (before snapshot) fs
              else deleteFileIfExists cwd workspaceRoot (path snapshot) fs in
            match step with
            | inl e => (inl e, fs)
            | inr fs' =>
                rollbackLoop cwd workspaceRoot snaps rest
                  (restored ++ [path snapshot]) fs'
            end
      end
  end.

Definition rollback (cwd : Process) (workspaceRoot : string) (ct : t) (fs : FS)
  : (Error + list string) * FS :=
  match rollbackLoop cwd workspaceRoot (snapshots ct) (rev (order ct)) [] fs with
  | (inr restored, fs') => (inr (rev restored), fs')
  | (inl e, fs') => (inl e, fs')
  end.

End ChangeTracker.

(** ** Regular expressions: the backtracking matcher of ECMAScript

    A pattern is matched by a matcher that takes the current state and a
    continuation, as in the language definition.  Only the constructs that
    the regular expression literals of the sources use are present. *)

Module Regex.

Inductive t :=
| Empty
| Chr (c : ascii)
| Class (member : ascii → bool)
| Seq (r1 r2 : t)
| Alt (r1 r2 : t)
| Repeat (greedy : bool) (min : nat) (max : option nat) (r : t)
| Group (r : t)          (* the capturing group number 1 *)
| WordBoundary.

(** A literal run of pattern characters. *)
Fixpoint lit (s : string) : t :=
  match s with
  | EmptyString => Empty
  | String c EmptyString => Chr c
  | String c s' => Seq (Chr c) (lit s')
  end.

(** The input left of the cursor (nearest first), the input right of it, and
    the text captured by group 1. *)
Record MatchState := {
  before : list ascii;
  after : list ascii;
  capture : option string;
}.

Definition inRange (lo hi : nat) (c : ascii) : bool :=
  ((lo <=? nat_of_ascii c) && (nat_of_ascii c <=? hi))%nat.

Definition isDigit (c : ascii) : bool := inRange 48 57 c.
Definition isUpper (c : ascii) : bool := inRange 65 90 c.
Definition isLower (c : ascii) : bool := inRange 97 122 c.
Definition isAlnum (c : ascii) : bool := isDigit c || isUpper c || isLower c.

(** [\w] *)
Definition isWordChar (c : ascii) : bool := isAlnum c || Ascii.eqb c "_".

Definition wordAt (l : list ascii) : bool :=
  match l with
  | c :: _ => isWordChar c
  | [] => false
  end.

Definition atWordBoundary (st : MatchState) : bool :=
  xorb (wordAt (before st)) (wordAt (after st)).

Definition sameChar (ignoreCase : bool) (a c : ascii) : bool :=
  if ignoreCase then Ascii.eqb (JS.lowerChar a) (JS.lowerChar c) else Ascii.eqb a c.

Definition consume (st : MatchState) (ok : ascii → bool) : option MatchState :=
  match after st with
  | a :: rest =>
      if ok a
      then Some {| before := a :: before st; after := rest; capture := capture st |}
      else None
  | [] => None
  end.

(** The text between two states of one match. *)
Definition consumedBetween (st st' : MatchState) : string :=
  string_of_list_ascii
    (firstn (length (after st) - length (after st')) (after st)).

Fixpoint run (ignoreCase : bool) (r : t) (st : MatchState)
    (k : MatchState → option MatchState) : option MatchState :=
  match r with
  | Empty => k st
  | Chr c =>
      match consume st (λ a, sameChar ignoreCase a c) with
      | Some st' => k st'
      | None => None
      end
  | Class member =>
      match consume st member with
      | Some st' => k st'
      | None => None
      end
  | Seq r1 r2 => run ignoreCase r1 st (λ st', run ignoreCase r2 st' k)
  | Alt r1 r2 =>
      match run ignoreCase r1 st k with
      | Some res => Some res
      | None => run ignoreCase r2 st k
      end
  | Group r1 =>
      run ignoreCase r1 st
        (λ st', k {| before := before st'; after := after st';
                     capture := Some (consumedBetween st st') |})
  | WordBoundary => if atWordBoundary st then k st else None
  | Repeat greedy min0 max0 r1 =>
      (fix rep (fuel min : nat) (max : option nat) (st : MatchState)
         {struct fuel} : option MatchState :=
         match fuel with
         | O => None
         | S fuel' =>
             match max with
             | Some O => k st
             | _ =>
                 let d := λ st' : MatchState,
                   if ((min =? 0) && (length (after st') =? length (after st)))%nat
                   then None
                   else rep fuel' (Nat.pred min) (option_map Nat.pred max) st' in
                 if negb (min =? 0)%nat then run ignoreCase r1 st d
                 else if greedy then
                   match run ignoreCase r1 st d with
                   | Some res => Some res
                   | None => k st
                   end
                 else
                   match k st with
                   | Some res => Some res
                   | None => run ignoreCase r1 st d
                   end
             end
         end) (S (min0 + length (after st))) min0 max0 st
  end.

(** One match attempt at the cursor. *)
Definition matchHere (ignoreCase : bool) (r : t) (st : MatchState)
  : option MatchState :=
  run ignoreCase r st Some.

(** [exec]: the first position at or after the cursor where the pattern
    matches, with the state at the end of the match. *)
Fixpoint search (ignoreCase : bool) (r : t) (bef aft : list ascii)
  : option (MatchState * MatchState) :=
  let st := {| before := bef; after := aft; capture := None |} in
  match matchHere ignoreCase r st with
  | Some e => Some (st, e)
  | None =>
      match aft with
      | [] => None
      | a :: rest => search ignoreCase r (a :: bef) rest
      end
  end.

(** [s.match(r)] for a pattern without the global flag: the matched text and
    the capture of group 1. *)
Definition matchFirst (ignoreCase : bool) (r : t) (s : string)
  : option (string * option string) :=
  match search ignoreCase r [] (list_ascii_of_string s) with
  | Some (st, e) => Some (consumedBetween st e, capture e)
  | None => None
  end.

(** [s.matchAll(r)] for a global pattern: the matched texts, left to right.
    After an empty match the cursor advances by one. *)
Fixpoint matchAllFrom (fuel : nat) (ignoreCase : bool) (r : t)
    (bef aft : list ascii) : list string :=
  match fuel with
  | O => []
  | S fuel' =>
      match search ignoreCase r bef aft with
      | None => []
      | Some (st, e) =>
          let raw := consumedBetween st e in
          if (length (after e) =? length (after st))%nat then
            match after e with
            | [] => [raw]
            | a :: rest => raw :: matchAllFrom fuel' ignoreCase r (a :: before e) rest
            end
          else raw :: matchAllFrom fuel' ignoreCase r (before e) (after e)
      end
  end.

Definition matchAll (ignoreCase : bool) (r : t) (s : string) : list string :=
  matchAllFrom (S (String.length s)) ignoreCase r [] (list_ascii_of_string s).

End Regex.

(** ** Secret detection (security/secrets.ts) *)

Module Secrets.
Import Regex.

Record SecretFinding := {
  type : string;
  snippet : string;
}.

Record SecretRule := {
  rule_type : string;
  regex : Regex.t;
}.

(** [\b<prefix><class>{min,max}\b] *)
Definition keyPattern (prefix : string) (member : ascii → bool)
    (min : nat) (max : option nat) : Regex.t :=
  Seq WordBoundary
    (Seq (lit prefix) (Seq (Repeat true min max (Class member)) WordBoundary)).

Definition SECRET_RULES : list SecretRule :=
  [ {| rule_type := "Groq API key";
       regex := keyPattern "gsk_" isAlnum 20 None |};
    {| rule_type := "OpenAI API key";
       regex := keyPattern "sk-" isAlnum 20 None |};
    {| rule_type := "GitHub token";
       regex := keyPattern "ghp_" isAlnum 20 None |};
    {| rule_type := "AWS access key";
       regex := keyPattern "AKIA" (λ c, isDigit c || isUpper c) 16 (Some 16) |};
    {| rule_type := "Google API key";
       regex := keyPattern "AIza"
                  (λ c, isAlnum c || Ascii.eqb c "-" || Ascii.eqb c "_") 20 None |};
    {| rule_type := "Private key block";
       regex := Seq (lit "-----BEGIN ")
                  (Seq (Alt (lit "RSA") (Alt (lit "OPENSSH") (Alt (lit "EC") (lit "DSA"))))
                       (lit " PRIVATE KEY-----")) |} ].

(** The snippet stored for a matched text. *)
Definition mask (raw : string) : string :=
  if (12 <? String.length raw)%nat
  then JS.take 6 raw +:+ "..." +:+ JS.takeRight 4 raw
  else raw.

(** The inner loop over the matches of one rule; the flag tells that the
    function has returned from inside the loop. *)
Fixpoint scanMatches (ruleType : string) (matches : list string)
    (findings : list SecretFinding) : bool * list SecretFinding :=
  match matches with
  | [] => (false, findings)
  | raw :: rest =>
      if negb (JS.nonEmpty raw) then scanMatches ruleType rest findings
      else
        let findings' := findings ++ [{| type := ruleType; snippet := mask raw |}] in
        if (20 <=? length findings')%nat then (true, findings')
        else scanMatches ruleType rest findings'
  end.

Fixpoint scanRules (rules : list SecretRule) (content : string)
    (findings : list SecretFinding) : list SecretFinding :=
  match rules with
  | [] => findings
  | rule :: rest =>
      match scanMatches (rule_type rule) (matchAll false (regex rule) content) findings with
      | (true, findings') => findings'
      | (false, findings') => scanRules rest content findings'
      end
  end.

Definition detectSecrets (content : string) : list SecretFinding :=
  scanRules SECRET_RULES content [].

End Secrets.

(** ** JSON values as [JSON.parse] returns them *)

Module Json.

(** A number held by a parsed value: finite, or an infinity (an overflowing
    literal such as 1e999). *)
Inductive number :=
| Finite (q : Q)
| Infinite (negative : bool).

(** An object lists its own properties in enumeration order. *)
#[warnings="-register-all"]
Inductive value :=
| JNull
| JBool (b : bool)
| JNumber (n : number)
| JString (s : string)
| JArray (items : list value)
| JObject (props : list (string * value)).

Definition isZero (n : number) : bool :=
  match n with
  | Finite q => Qeq_bool q 0
  | Infinite _ => false
  end.

(** ToBoolean *)
Definition truthy (v : value) : bool :=
  match v with
  | JNull => false
  | JBool b => b
  | JNumber n => negb (isZero n)
  | JString s => JS.nonEmpty s
  | JArray _ | JObject _ => true
  end.

(** [typeof v === "object"] *)
Definition typeofObject (v : value) : bool :=
  match v with
  | JNull | JArray _ | JObject _ => true
  | _ => false
  end.

Fixpoint assoc (key : string) (props : list (string * value)) : option value :=
  match props with
  | [] => None
  | (k, v) :: rest => if String.eqb k key then Some v else assoc key rest
  end.

(** [v.key] for a non-null [v] and a key that the prototypes of objects,
    arrays and primitives do not define: an own property of an object, else
    [undefined] ([None]). *)
Definition get (v : value) (key : string) : option value :=
  match v with
  | JObject props => assoc key props
  | _ => None
  end.

(** [v ?? fallback] on the result of a property read. *)
Definition orElse (v : option value) (fallback : value) : value :=
  match v with
  | None | Some JNull => fallback
  | Some x => x
  end.

(** [typeof v === "string" ? v : undefined] *)
Definition asString (v : option value) : option string :=
  match v with
  | Some (JString s) => Some s
  | _ => None
  end.

Definition asBoolean (v : option value) : option bool :=
  match v with
  | Some (JBool b) => Some b
  | _ => None
  end.

(** [Number.isFinite(v) ? Number(v) : undefined] *)
Definition asFiniteNumber (v : option value) : option number :=
  match v with
  | Some (JNumber (Finite q)) => Some (Finite q)
  | _ => None
  end.

Definition natToString (n : nat) : string :=
  NilEmpty.string_of_uint (Nat.to_uint n).

(** [Object.entries(v)] for an object or an array. *)
Definition entries (v : value) : list (string * value) :=
  match v with
  | JObject props => props
  | JArray items => imap (λ i item, (natToString i, item)) items
  | _ => []
  end.

Inductive TypeError := CannotConvertObjectToPrimitive.

Section Coercion.

(** Number::toString, supplied by the runtime. *)
Variable numberToString : number → string.

(** [String(v)].  An array joins the conversions of its elements with commas,
    [null] elements giving the empty string.  An object is converted by
    [OrdinaryToPrimitive]: an own property "toString" of a parsed value is
    never callable and hides [Object.prototype.toString], and [valueOf]
    yields no primitive, so the conversion throws; without such a property
    the result is "[object Object]".  The recursion of [Array.prototype.join]
    is followed to any depth: the size of the call stack, which ends the
    conversion of arrays nested some thousand levels deep with a
    [RangeError], is not part of this model. *)
Fixpoint toStr (v : value) : TypeError + string :=
  match v with
  | JNull => inr "null"
  | JBool true => inr "true"
  | JBool false => inr "false"
  | JNumber n => inr (numberToString n)
  | JString s => inr s
  | JArray items =>
      (fix joinItems (l : list value) : TypeError + string :=
         match l with
         | [] => inr ""
         | x :: rest =>
             let head := match x with
                         | JNull => inr ""
                         | _ => toStr x
                         end in
             match head with
             | inl e => inl e
             | inr h =>
                 match rest with
                 | [] => inr h
                 | _ =>
                     match joinItems rest with
                     | inl e => inl e
                     | inr t => inr (h +:+ "," +:+ t)
                     end
                 end
             end
         end) items
  | JObject props =>
      match assoc "toString" props with
      | Some _ => inl CannotConvertObjectToPrimitive
      | None => inr "[object Object]"
      end
  end.

(** [items.map((item) => String(item))]: the first failing conversion is the
    exception of the whole call. *)
Fixpoint mapToStr (items : list value) : TypeError + list string :=
  match items with
  | [] => inr []
  | x :: rest =>
      match toStr x with
      | inl e => inl e
      | inr s =>
          match mapToStr rest with
          | inl e => inl e
          | inr l => inr (s :: l)
          end
      end
  end.

End Coercion.

End Json.

(** ** Model response protocol (types.ts, agent/responseParser.ts) *)

Module ResponseParser.
Import Json.

Inductive AgentStatus := StatusContinue | StatusDone | StatusNeedUser.

Inductive AgentAction :=
| ListFiles (path : option string) (recursive : option bool)
    (depth maxEntries : option number)
| ReadFile (path : string) (startLine endLine : option number)
| Grep (pattern : string) (glob : option string) (maxMatches : option number)
| RunCommand (command : string)
| WriteFile (path content : string)
| ScanProject (refresh : option bool) (maxFiles : option number)
| SymbolLookup (query : string) (language : option string) (limit : option number)
| FindReferences (symbol : string) (language : option string) (limit : option number)
| DependencyMap
| MemorySet (key value : string)
| MemoryGet (key : string).

(** The [tool] tag of an action. *)
Definition toolOf (a : AgentAction) : string :=
  match a with
  | ListFiles _ _ _ _ => "list_files"
  | ReadFile _ _ _ => "read_file"
  | Grep _ _ _ => "grep"
  | RunCommand _ => "run_command"
  | WriteFile _ _ => "write_file"
  | ScanProject _ _ => "scan_project"
  | SymbolLookup _ _ _ => "symbol_lookup"
  | FindReferences _ _ _ => "find_references"
  | DependencyMap => "dependency_map"
  | MemorySet _ _ => "memory_set"
  | MemoryGet _ => "memory_get"
  end.

Record VerifyCommand := { command : string }.

(** [kv] holds the entries handed to [Object.fromEntries]. *)
Record MemoryUpdates := {
  projectRules : option (list string);
  architectureNotes : option (list string);
  commonCommands : option (list string);
  kv : option (list (string * string));
}.

Record AgentModelResponse := {
  status : AgentStatus;
  assistant_message : string;
  plan : list string;
  actions : list AgentAction;
  verify : list VerifyCommand;
  question : option string;
  memory_updates : option MemoryUpdates;
}.

Definition fenceRegex : Regex.t :=
  Regex.Seq (Regex.lit "```")
    (Regex.Seq (Regex.Repeat true 0 (Some 1) (Regex.lit "json"))
       (Regex.Seq (Regex.Repeat true 0 None (Regex.Class JS.isSpace))
          (Regex.Seq (Regex.Group (Regex.Repeat false 0 None (Regex.Class (λ _, true))))
             (Regex.lit "```")))).

Definition extractJson (input : string) : string :=
  let trimmed := JS.trim input in
  if JS.startsWith trimmed "{" && JS.endsWith trimmed "}" then trimmed
  else
    let fenced :=
      match Regex.matchFirst true fenceRegex trimmed with
      | Some (_, Some group1) => if JS.nonEmpty group1 then Some group1 else None
      | _ => None
      end in
    match fenced with
    | Some group1 => JS.trim group1
    | None =>
        match JS.indexOfChar "{" trimmed, JS.lastIndexOfChar "}" trimmed with
        | Some firstBrace, Some lastBrace =>
            if (firstBrace <? lastBrace)%nat
            then JS.slice firstBrace (S lastBrace) trimmed
            else trimmed
        | _, _ => trimmed
        end
    end.

Definition normalizeStatus (v : option value) : AgentStatus :=
  match v with
  | Some (JString s) =>
      if String.eqb s "done" then StatusDone
      else if String.eqb s "need_user" then StatusNeedUser
      else StatusContinue
  | _ => StatusContinue
  end.

(** [.map(trim).filter(non-empty).slice(0, n)] on converted entries. *)
Definition trimmedNonEmpty (n : nat) (items : list string) : list string :=
  firstn n (List.filter JS.nonEmpty (map JS.trim items)).

(** [typeof v === "string" && v.trim().length > 0] *)
Definition nonBlankString (v : option value) : option string :=
  match v with
  | Some (JString s) => if JS.nonEmpty (JS.trim s) then Some s else None
  | _ => None
  end.

Definition normalizeVerifyItem (item : value) : option VerifyCommand :=
  match nonBlankString (Some item) with
  | Some s => Some {| command := JS.trim s |}
  | None =>
      match item with
      | JObject props =>
          match assoc "command" props with
          | Some commandValue =>
              match nonBlankString (Some commandValue) with
              | Some s => Some {| command := JS.trim s |}
              | None => None
              end
          | None => None
          end
      | _ => None
      end
  end.

Definition normalizeVerify (v : option value) : list VerifyCommand :=
  match v with
  | Some (JArray items) => firstn 8 (omap normalizeVerifyItem items)
  | _ => []
  end.

Section Parser.

Variable numberToString : number → string.

(** [JSON.parse]; [None] when it throws. *)
Variable JSON_parse : string → option value.

Definition normalizePlan (v : option value) : TypeError + list string :=
  match v with
  | Some (JArray items) =>
      match mapToStr numberToString items with
      | inl e => inl e
      | inr strs => inr (trimmedNonEmpty 12 strs)
      end
  | _ => inr []
  end.

(** The body of the loop of [normalizeActions] for one item: the action
    pushed, if any. *)
Definition normalizeAction (item : value) : TypeError + option AgentAction :=
  if negb (truthy item) || negb (typeofObject item) then inr None
  else
    match toStr numberToString (orElse (get item "tool") (JString "")) with
    | inl e => inl e
    | inr tool =>
        let toolName := JS.trim tool in
        let str k := asString (get item k) in
        let boolean k := asBoolean (get item k) in
        let num k := asFiniteNumber (get item k) in
        let required k := nonBlankString (get item k) in
        inr
          (if String.eqb toolName "list_files" then
             Some (ListFiles (str "path") (boolean "recursive") (num "depth")
                     (num "maxEntries"))
           else if String.eqb toolName "read_file" then
             match required "path" with
             | Some path => Some (ReadFile path (num "startLine") (num "endLine"))
             | None => None
             end
           else if String.eqb toolName "grep" then
             match required "pattern" with
             | Some pattern => Some (Grep pattern (str "glob") (num "maxMatches"))
             | None => None
             end
           else if String.eqb toolName "run_command" then
             match required "command" with
             | Some command => Some (RunCommand command)
             | None => None
             end
           else if String.eqb toolName "write_file" then
             match required "path", str "content" with
             | Some filePath, Some content => Some (WriteFile filePath content)
             | _, _ => None
             end
           else if String.eqb toolName "scan_project" then
             Some (ScanProject (boolean "refresh") (num "maxFiles"))
           else if String.eqb toolName "symbol_lookup" then
             match required "query" with
             | Some query => Some (SymbolLookup query (str "language") (num "limit"))
             | None => None
             end
           else if String.eqb toolName "find_references" then
             match required "symbol" with
             | Some symbol =>
                 Some (FindReferences symbol (str "language") (num "limit"))
             | None => None
             end
           else if String.eqb toolName "dependency_map" then Some DependencyMap
           else if String.eqb toolName "memory_set" then
             match required "key", str "value" with
             | Some key, Some value => Some (MemorySet key value)
             | _, _ => None
             end
           else if String.eqb toolName "memory_get" then
             match required "key" with
             | Some key => Some (MemoryGet key)
             | None => None
             end
           else None)
    end.

Fixpoint collectActions (items : list value) (actions : list AgentAction)
  : TypeError + list AgentAction :=
  match items with
  | [] => inr actions
  | item :: rest =>
      match normalizeAction item with
      | inl e => inl e
      | inr (Some action) => collectActions rest (actions ++ [action])
      | inr None => collectActions rest actions
      end
  end.

Definition normalizeActions (v : option value) : TypeError + list AgentAction :=
  match v with
  | Some (JArray items) =>
      match collectActions items [] with
      | inl e => inl e
      | inr actions => inr (firstn 6 actions)
      end
  | _ => inr []
  end.

Definition normalizeMemoryList (v : option value)
  : TypeError + option (list string) :=
  match v with
  | Some (JArray items) =>
      match mapToStr numberToString items with
      | inl e => inl e
      | inr strs => inr (Some (trimmedNonEmpty 30 strs))
      end
  | _ => inr None
  end.

Definition normalizeKv (v : option value) : option (list (string * string)) :=
  match v with
  | Some kvValue =>
      if truthy kvValue && typeofObject kvValue then
        Some (firstn 50
                (omap (λ '(key, val),
                         match val with
                         | JString s =>
                             if JS.nonEmpty (JS.trim key) then Some (key, s) else None
                         | _ => None
                         end) (entries kvValue)))
      else None
  | None => None
  end.

Definition nonEmptyList {A} (l : option (list A)) : bool :=
  match l with
  | Some (_ :: _) => true
  | _ => false
  end.

Definition normalizeMemoryUpdates (v : option value)
  : TypeError + option MemoryUpdates :=
  match v with
  | Some obj =>
      if negb (truthy obj) || negb (typeofObject obj) then inr None
      else
        match normalizeMemoryList (get obj "projectRules") with
        | inl e => inl e
        | inr rules =>
            match normalizeMemoryList (get obj "architectureNotes") with
            | inl e => inl e
            | inr notes =>
                match normalizeMemoryList (get obj "commonCommands") with
                | inl e => inl e
                | inr commands =>
                    let updates :=
                      {| projectRules := rules; architectureNotes := notes;
                         commonCommands := commands;
                         kv := normalizeKv (get obj "kv") |} in
                    let hasAny :=
                      nonEmptyList rules || nonEmptyList notes
                      || nonEmptyList commands || nonEmptyList (kv updates) in
                    inr (if hasAny then Some updates else None)
                end
            end
        end
  | None => inr None
  end.

Definition invalidJsonResponse : AgentModelResponse :=
  {| status := StatusNeedUser;
     assistant_message := "I returned an invalid JSON response and need a retry.";
     plan := []; actions := []; verify := [];
     question := Some "Please ask me to retry. I will respond with strict JSON.";
     memory_updates := None |}.

Definition invalidShapeResponse : AgentModelResponse :=
  {| status := StatusNeedUser;
     assistant_message := "I returned an invalid response shape and need a retry.";
     plan := []; actions := []; verify := [];
     question := Some "Please ask me to retry with strict JSON only.";
     memory_updates := None |}.

(** [inl] is an exception that leaves the function. *)
Definition parseAgentModelResponse (rawText : string)
  : TypeError + AgentModelResponse :=
  let jsonCandidate := extractJson rawText in
  match JSON_parse jsonCandidate with
  | None => inr invalidJsonResponse
  | Some parsed =>
      if negb (truthy parsed) || negb (typeofObject parsed)
      then inr invalidShapeResponse
      else
        match normalizePlan (get parsed "plan") with
        | inl e => inl e
        | inr plan0 =>
            match normalizeActions (get parsed "actions") with
            | inl e => inl e
            | inr actions0 =>
                match normalizeMemoryUpdates (get parsed "memory_updates") with
                | inl e => inl e
                | inr updates =>
                    inr {| status := normalizeStatus (get parsed "status");
                           assistant_message :=
                             default "" (asString (get parsed "assistant_message"));
                           plan := plan0;
                           actions := actions0;
                           verify := normalizeVerify (get parsed "verify");
                           question := asString (get parsed "question");
                           memory_updates := updates |}
                end
            end
        end
  end.

End Parser.

End ResponseParser.

(** ** Project memory (memory/memoryStore.ts): the stored record *)

Module Memory.

Record ProjectMemory := {
  projectRules : list string;
  architectureNotes : list string;
  commonCommands : list string;
  kv : list (string * string);
  updatedAt : string;
}.

End Memory.

(** ** Auto-verify discovery (reliability/autoVerify.ts) *)

Module AutoVerify.
Import Json FileTools.

(** Any failure, of the sandbox or of the read, gives the empty string. *)
Definition readFileOrEmpty (cwd : Process) (fs : FS) (workspaceRoot relativePath : string)
  : string :=
  match PathSandbox.resolveWorkspacePath cwd workspaceRoot relativePath with
  | inl _ => ""
  | inr absolutePath =>
      match ioError cwd IoRead absolutePath fs, fs !! absolutePath with
      | None, Some bytes => utf8Decode cwd bytes
      | _, _ => ""
      end
  end.

Definition addUnique (target : list string) (value : string) : list string :=
  if bool_decide (value ∈ target) then target else target ++ [value].

Definition addIf (cond : bool) (target : list string) (value : string) : list string :=
  if cond then addUnique target value else target.

Section Discovery.

(** [JSON.parse]; [None] when it throws. *)
Variable JSON_parse : string → option value.

Definition detectNodeVerifyCommands (packageJsonRaw : string) : list string :=
  if negb (JS.nonEmpty (JS.trim packageJsonRaw)) then []
  else
    match JSON_parse packageJsonRaw with
    | None => []
    | Some JNull => []      (* reading a property of null throws; caught *)
    | Some parsed =>
        let scripts := orElse (get parsed "scripts") (JObject []) in
        let has name := match get scripts name with
                        | Some v => truthy v
                        | None => false
                        end in
        let commands := [] in
        let commands := addIf (has "test") commands "npm run -s test --if-present" in
        let commands := addIf (has "lint") commands "npm run -s lint --if-present" in
        let commands :=
          if has "format:check"
          then addUnique commands "npm run -s format:check --if-present"
          else addIf (has "format") commands "npm run -s format --if-present" in
        let commands :=
          addIf (has "typecheck") commands "npm run -s typecheck --if-present" in
        let commands := addIf (has "check") commands "npm run -s check --if-present" in
        commands
    end.

Definition detectPythonVerifyCommands
    (pyproject requirements requirementsDev setupCfg : string) : list string :=
  let newline := String (ascii_of_nat 10) "" in
  let combined :=
    JS.toLowerCase
      (JS.join newline [pyproject; requirements; requirementsDev; setupCfg]) in
  let commands := [] in
  let commands := addIf (JS.includes combined "pytest") commands "pytest -q" in
  let commands := addIf (JS.includes combined "ruff") commands "ruff check ." in
  let commands := addIf (JS.includes combined "black") commands "black --check ." in
  let commands := addIf (JS.includes combined "mypy") commands "mypy ." in
  commands.

Definition verifyPrefix : string := "verify:".

(** The body of the loop of [extractMemoryVerifyCommands] for one entry. *)
Definition memoryStep (commands : list string) (raw : string) : list string :=
  let trimmed := JS.trim raw in
  if negb (JS.nonEmpty trimmed) then commands
  else if JS.startsWith (JS.toLowerCase trimmed) verifyPrefix
  then addUnique commands (JS.trim (JS.drop (String.length verifyPrefix) trimmed))
  else commands.

Definition extractMemoryVerifyCommands (memory : Memory.ProjectMemory) : list string :=
  fold_left memoryStep (Memory.commonCommands memory) [].

Definition discoverAutoVerifyCommands (cwd : Process) (fs : FS)
    (workspaceRoot : string) (memory : Memory.ProjectMemory) (maxCommands : Z)
  : list string :=
  let packageJsonRaw := readFileOrEmpty cwd fs workspaceRoot "package.json" in
  let pyproject := readFileOrEmpty cwd fs workspaceRoot "pyproject.toml" in
  let requirements := readFileOrEmpty cwd fs workspaceRoot "requirements.txt" in
  let requirementsDev := readFileOrEmpty cwd fs workspaceRoot "requirements-dev.txt" in
  let setupCfg := readFileOrEmpty cwd fs workspaceRoot "setup.cfg" in
  let commands := [] in
  let commands := fold_left addUnique (extractMemoryVerifyCommands memory) commands in
  let commands := fold_left addUnique (detectNodeVerifyCommands packageJsonRaw) commands in
  let commands :=
    fold_left addUnique
      (detectPythonVerifyCommands pyproject requirements requirementsDev setupCfg)
      commands in
  firstn (Z.to_nat (Z.max 1 maxCommands)) commands.

End Discovery.

End AutoVerify.

(** ** Grep engine (tools/searchTools.ts) *)

Module Grep.

Record GrepMatch := {
  path : string;
  line : nat;
  text : string;
}.

Inductive Backend := BackendRg | BackendJs.

Record GrepResult := {
  backend : Backend;
  matches : list GrepMatch;
  totalScannedFiles : nat;
}.

(** The argument record of [listFiles]. *)
Record ListFilesInput := {
  workspaceRoot : string;
  lf_path : option string;
  recursive : option bool;
  depth : option Z;
  maxEntries : option Z;
}.

Inductive Error :=
| SandboxError (e : PathSandbox.Error)
| ToolError (message : string).

(** The base name of a POSIX path: the text after the last separator. *)
Definition basename (p : string) : string :=
  match JS.lastIndexOfChar "/" p with
  | Some i => JS.drop (S i) p
  | None => p
  end.

(** [path.extname] for a path that does not end in a separator: the text from
    the last dot of the base name; empty when there is no dot, when the only
    dot starts the base name, and for the base name "..". *)
Definition extname (p : string) : string :=
  let base := basename p in
  match JS.lastIndexOfChar "." base with
  | None | Some O => ""
  | Some i => if String.eqb base ".." then "" else JS.drop i base
  end.

Definition binaryLikeExt : list string :=
  [".png"; ".jpg"; ".jpeg"; ".gif"; ".webp"; ".bmp"; ".ico"; ".pdf"; ".zip";
   ".gz"; ".tar"; ".7z"; ".exe"; ".dll"; ".so"; ".dylib"; ".class"; ".jar";
   ".mp3"; ".mp4"; ".mov"; ".avi"].

Definition canReadAsText (filePath : string) : bool :=
  negb (bool_decide (JS.toLowerCase (extname filePath) ∈ binaryLikeExt)).

(** Removes one trailing carriage return. *)
Definition stripCR (s : string) : string :=
  if JS.endsWith s (String (ascii_of_nat 13) "")
  then JS.take (String.length s - 1) s else s.

(** [raw.split(/\r?\n/u)] *)
Definition splitLines (raw : string) : list string :=
  let pieces := JS.split (ascii_of_nat 10) raw in
  map stripCR (removelast pieces) ++ [List.last pieces ""].

Section Engine.

Variable cwd : Host.Process.

(** [listFiles] of the file toolkit on the workspace as it is at the call. *)
Variable listFiles : ListFilesInput → Error + list string.

(** [fs.readFile(absolute, "utf8")]; [None] when it rejects. *)
Variable readFile : string → option string.

(** [new RegExp(pattern)] with its [test]; [None] when the constructor throws. *)
Variable compileRegExp : string → option (string → bool).

(** The cached probe [rg --version]. *)
Variable hasRipgrep : bool.

(** The ripgrep backend: spawns [rg], with [-g glob] when the glob is not
    blank, and converts its output; [inl] when it throws. *)
Variable grepWithRipgrep :
  string → string → option string → Z → Z → Error + GrepResult.

Definition compileLineMatcher (pattern : string) : string → bool :=
  match compileRegExp pattern with
  | Some test => test
  | None =>
      let lowered := JS.toLowerCase pattern in
      λ line, JS.includes (JS.toLowerCase line) lowered
  end.

Definition reached (found : list GrepMatch) (maxMatches : Z) : bool :=
  (maxMatches <=? Z.of_nat (length found))%Z.

(** The loop over the lines of one file; [index] counts from zero. *)
Fixpoint scanLines (matcher : string → bool) (file : string) (maxMatches : Z)
    (lines : list string) (index : nat) (found : list GrepMatch) : list GrepMatch :=
  match lines with
  | [] => found
  | line :: rest =>
      if reached found maxMatches then found
      else
        scanLines matcher file maxMatches rest (S index)
          (if matcher line
           then found ++ [{| path := file; line := S index; text := line |}]
           else found)
  end.

Fixpoint scanFiles (matcher : string → bool) (root : string) (maxMatches : Z)
    (filePaths : list string) (found : list GrepMatch) (scannedFiles : nat)
  : Error + (list GrepMatch * nat) :=
  match filePaths with
  | [] => inr (found, scannedFiles)
  | file :: rest =>
      if reached found maxMatches then inr (found, scannedFiles)
      else
        match PathSandbox.resolveWorkspacePath cwd root file with
        | inl e => inl (SandboxError e)
        | inr absolute =>
            match readFile absolute with
            | None => scanFiles matcher root maxMatches rest found scannedFiles
            | Some raw =>
                scanFiles matcher root maxMatches rest
                  (scanLines matcher file maxMatches (splitLines raw) 0 found)
                  (S scannedFiles)
            end
        end
  end.

Definition grepWithJs (root pattern : string) (maxMatches : Z) : Error + GrepResult :=
  let matcher := compileLineMatcher pattern in
  match listFiles {| workspaceRoot := root; lf_path := None;
                     recursive := Some true; depth := Some 8%Z;
                     maxEntries := Some 2500%Z |} with
  | inl e => inl e
  | inr files =>
      let filePaths :=
        List.filter (λ file, negb (JS.endsWith file "/") && canReadAsText file) files in
      match scanFiles matcher root maxMatches filePaths [] 0 with
      | inl e => inl e
      | inr (found, scannedFiles) =>
          inr {| backend := BackendJs; matches := found;
                 totalScannedFiles := scannedFiles |}
      end
  end.

Definition grepWorkspace (root pattern : string) (glob : option string)
    (maxMatches timeoutMs : Z) : Error + GrepResult :=
  if hasRipgrep then
    match grepWithRipgrep root pattern glob maxMatches timeoutMs with
    | inr result => inr result
    | inl _ => grepWithJs root pattern maxMatches
    end
  else grepWithJs root pattern maxMatches.

End Engine.

End Grep.

(** ** Project scanner (codeintel/types.ts, language.ts, projectScanner.ts) *)

Module Scanner.

Inductive SupportedLanguage := Typescript | Javascript | Python | Unknown.

(** The string each language is, as used for the keys of [languages]. *)
Definition languageName (l : SupportedLanguage) : string :=
  match l with
  | Typescript => "typescript"
  | Javascript => "javascript"
  | Python => "python"
  | Unknown => "unknown"
  end.

Inductive SymbolKind := KFunction | KClass | KInterface | KType | KEnum | KVariable.

Record SourceFileSummary := {
  file_path : string;
  file_language : SupportedLanguage;
  sizeBytes : Z;
  lineCount : nat;
}.

Record SymbolEntry := {
  sym_name : string;
  sym_kind : SymbolKind;
  sym_path : string;
  sym_line : nat;
  sym_language : SupportedLanguage;
  exported : bool;
}.

Record ImportEntry := {
  imp_path : string;
  imp_line : nat;
  imp_language : SupportedLanguage;
  source : string;
  imported : list string;
}.

Record UseEntry := {
  use_name : string;
  use_path : string;
  use_line : nat;
  use_language : SupportedLanguage;
}.

Record ParsedSourceFile := {
  p_symbols : list SymbolEntry;
  p_imports : list ImportEntry;
  p_uses : list UseEntry;
}.

Record DependencyMap := {
  node : list (string * string);
  nodeDev : list (string * string);
  python : list (string * string);
  pythonDev : list (string * string);
}.

Record ProjectIndex := {
  generatedAt : string;
  workspaceRoot : string;
  totalFilesScanned : nat;
  languages : gmap string nat;
  files : list SourceFileSummary;
  symbols : list SymbolEntry;
  imports : list ImportEntry;
  uses : list UseEntry;
  dependencies : DependencyMap;
}.

Definition detectLanguage (filePath : string) : SupportedLanguage :=
  let ext := JS.toLowerCase (Grep.extname filePath) in
  if bool_decide (ext ∈ [".ts"; ".tsx"; ".mts"; ".cts"]) then Typescript
  else if bool_decide (ext ∈ [".js"; ".jsx"; ".mjs"; ".cjs"]) then Javascript
  else if bool_decide (ext ∈ [".py"]) then Python
  else Unknown.

Definition isLanguageIndexed (l : SupportedLanguage) : bool :=
  match l with
  | Typescript | Javascript | Python => true
  | Unknown => false
  end.

Definition limitValue (value : option Json.number) (fallback : Z) : Z :=
  match value with
  | Some (Json.Finite q) =>
      if Qle_bool q 0 then fallback else Z.min (Qfloor q) 2000
  | _ => fallback
  end.

(** [list.slice(0, n)] for an integer [n]; a negative [n] counts from the end. *)
Definition sliceTo {A} (n : Z) (l : list A) : list A :=
  if (0 <=? n)%Z then firstn (Z.to_nat n) l
  else firstn (length l - Z.to_nat (- n)) l.

(** What the language adapters recognise in a source text, before the
    scanner's records are built from it. *)
Record RawSymbol := {
  raw_kind : SymbolKind;
  raw_name : string;
  raw_line : nat;
  raw_exported : bool;
}.

Record RawImport := {
  raw_imp_line : nat;
  raw_source : string;
  raw_imported : list string;
}.

Record RawUse := {
  raw_use_name : string;
  raw_use_line : nat;
}.

(** [fs.stat] on a path. *)
Record Stat := {
  isFile : bool;
  size : Z;
}.

Section Build.

Variable cwd : Host.Process.

(** [listFiles] of the file toolkit on the workspace as it is at the call. *)
Variable listFiles : Grep.ListFilesInput → Grep.Error + list string.

(** [fs.stat] and [fs.readFile]; [None] when they reject. *)
Variable stat : string → option Stat.
Variable readFile : string → option string.

(** [entries.sort((a, b) => a.localeCompare(b))] *)
Variable sortByLocale : list string → list string.

(** The traversal of the TypeScript syntax tree of a file (path, content,
    language): declarations, import declarations and identifier uses. *)
Variable visitTsTree :
  string → string → SupportedLanguage → list RawSymbol * list RawImport * list RawUse.

(** The line patterns of the Python adapter applied to a content. *)
Variable scanPythonLines : string → list RawSymbol * list RawImport * list RawUse.

Variable buildDependencyMap : string → DependencyMap.

(** [new Date().toISOString()] *)
Variable now : string.

(** [addSymbol] of the TypeScript adapter: a blank name is not recorded. *)
Definition addSymbol (language : SupportedLanguage) (path : string) (r : RawSymbol)
  : option SymbolEntry :=
  if negb (JS.nonEmpty (JS.trim (raw_name r))) then None
  else Some {| sym_name := raw_name r; sym_kind := raw_kind r; sym_path := path;
               sym_line := raw_line r; sym_language := language;
               exported := raw_exported r |}.

Definition mkImport (language : SupportedLanguage) (path : string) (r : RawImport)
  : ImportEntry :=
  {| imp_path := path; imp_line := raw_imp_line r; imp_language := language;
     source := raw_source r; imported := raw_imported r |}.

Definition mkUse (language : SupportedLanguage) (path : string) (r : RawUse)
  : UseEntry :=
  {| use_name := raw_use_name r; use_path := path; use_line := raw_use_line r;
     use_language := language |}.

Definition parseTsOrJsFile (filePath content : string) (language : SupportedLanguage)
  : ParsedSourceFile :=
  let '(syms, imps, us) := visitTsTree filePath content language in
  {| p_symbols := omap (addSymbol language filePath) syms;
     p_imports := map (mkImport language filePath) imps;
     p_uses := map (mkUse language filePath) us |}.

Definition parsePythonFile (filePath content : string) : ParsedSourceFile :=
  let '(syms, imps, us) := scanPythonLines content in
  {| p_symbols :=
       map (λ r, {| sym_name := raw_name r; sym_kind := raw_kind r;
                    sym_path := filePath; sym_line := raw_line r;
                    sym_language := Python; exported := raw_exported r |}) syms;
     p_imports := map (mkImport Python filePath) imps;
     p_uses := map (mkUse Python filePath) us |}.

(** The arrays and the counter record that the loop of [buildIndex] fills. *)
Record Acc := {
  a_files : list SourceFileSummary;
  a_symbols : list SymbolEntry;
  a_imports : list ImportEntry;
  a_uses : list UseEntry;
  a_languages : gmap string nat;
}.

Definition accInit : Acc :=
  {| a_files := []; a_symbols := []; a_imports := []; a_uses := [];
     a_languages := ∅ |}.

(** One round of the loop for a path that resolved to [absolutePath]. *)
Definition visitFile (filePath absolutePath : string) (acc : Acc) : Acc :=
  match stat absolutePath with
  | None => acc
  | Some st =>
      if negb (isFile st) then acc
      else
        let language := detectLanguage filePath in
        let languages' :=
          <[languageName language :=
              S (default 0 (a_languages acc !! languageName language))]>
            (a_languages acc) in
        let content := default "" (readFile absolutePath) in
        let lineCount0 :=
          if JS.nonEmpty content then length (Grep.splitLines content) else 0 in
        let files' :=
          a_files acc ++ [{| file_path := filePath; file_language := language;
                             sizeBytes := size st; lineCount := lineCount0 |}] in
        let skipped :=
          {| a_files := files'; a_symbols := a_symbols acc;
             a_imports := a_imports acc; a_uses := a_uses acc;
             a_languages := languages' |} in
        if negb (isLanguageIndexed language) then skipped
        else if (1000000 <? size st)%Z then skipped
        else
          let add parsed :=
            {| a_files := files';
               a_symbols := a_symbols acc ++ p_symbols parsed;
               a_imports := a_imports acc ++ p_imports parsed;
               a_uses := a_uses acc ++ p_uses parsed;
               a_languages := languages' |} in
          match language with
          | Typescript | Javascript => add (parseTsOrJsFile filePath content language)
          | Python => add (parsePythonFile filePath content)
          | Unknown => skipped
          end
  end.

Fixpoint visitFiles (root : string) (filePaths : list string) (acc : Acc)
  : Grep.Error + Acc :=
  match filePaths with
  | [] => inr acc
  | filePath :: rest =>
      match PathSandbox.resolveWorkspacePath cwd root filePath with
      | inl e => inl (Grep.SandboxError e)
      | inr absolutePath => visitFiles root rest (visitFile filePath absolutePath acc)
      end
  end.

Definition buildIndex (root : string) (maxFilesDefault : Z)
    (maxFilesOverride : option Json.number) : Grep.Error + ProjectIndex :=
  let maxFiles := limitValue maxFilesOverride maxFilesDefault in
  match listFiles {| Grep.workspaceRoot := root; Grep.lf_path := Some ".";
                     Grep.recursive := Some true; Grep.depth := Some 16%Z;
                     Grep.maxEntries := Some (maxFiles * 2)%Z |} with
  | inl e => inl e
  | inr entries =>
      let filePaths :=
        sliceTo maxFiles
          (sortByLocale (List.filter (λ entry, negb (JS.endsWith entry "/")) entries)) in
      match visitFiles root filePaths accInit with
      | inl e => inl e
      | inr acc =>
          inr {| generatedAt := now;
                 workspaceRoot := root;
                 totalFilesScanned := length (a_files acc);
                 languages := a_languages acc;
                 files := a_files acc;
                 symbols := a_symbols acc;
                 imports := a_imports acc;
                 uses := a_uses acc;
                 dependencies := buildDependencyMap root |}
      end
  end.

End Build.

End Scanner.

(** ** Policy gates (security/policy.ts) *)

Module Policy.

Record AgentPolicy := {
  allowRunCommand : bool;
  allowWrite : bool;
  allowedCommandPrefixes : list string;
  blockedCommandPatterns : list string;
  blockedWriteGlobs : list string;
  allowPotentialSecrets : bool;
}.

Record PolicyCheckResult := {
  allowed : bool;
  reason : option string;
}.

(** The patterns are the values of the string literals of the source. *)
Definition DEFAULT_POLICY : AgentPolicy :=
  {| allowRunCommand := true;
     allowWrite := true;
     allowedCommandPrefixes := [];
     blockedCommandPatterns :=
       ["rm\s+-rf\s+/"; "del\s+/s\s+/q\s+c:\\"; "shutdown\b"; "reboot\b"; "mkfs\b";
        "format\s+[a-z]:"; "curl\s+.+\|\s*sh\b"; "wget\s+.+\|\s*sh\b";
        "powershell\s+-enc\b"];
     blockedWriteGlobs :=
       [".env"; ".env.*"; "**/.env"; "**/.env.*"; "**/*.pem"; "**/*.key";
        "**/id_rsa"; ".git/**"];
     allowPotentialSecrets := false |}.

Inductive SyntaxError := InvalidRegularExpression (pattern : string).

(** [inputPath.replace(/\\/gu, "/")] *)
Fixpoint normalizePathForPolicy (inputPath : string) : string :=
  match inputPath with
  | EmptyString => EmptyString
  | String c s =>
      String (if Ascii.eqb c (ascii_of_nat 92) then "/"%char else c)
        (normalizePathForPolicy s)
  end.

Section Gates.

(** [new RegExp(pattern, "iu").test(text)]; [None] when the constructor
    throws. *)
Variable patternTest : string → string → option bool.

(** [globToRegExp(glob).test(path)]; [None] when the constructor throws. *)
Variable globTest : string → string → option bool.

Fixpoint checkPatterns (patterns : list string) (normalized : string)
  : option PolicyCheckResult :=
  match patterns with
  | [] => None
  | pattern :: rest =>
      match patternTest pattern normalized with
      | Some true =>
          Some {| allowed := false;
                  reason := Some ("Command blocked by policy pattern: " +:+ pattern) |}
      | Some false => checkPatterns rest normalized
      | None =>
          if JS.includes (JS.toLowerCase normalized) (JS.toLowerCase pattern)
          then Some {| allowed := false;
                       reason :=
                         Some ("Command blocked by policy text match: " +:+ pattern) |}
          else checkPatterns rest normalized
      end
  end.

Definition isCommandAllowed (policy : AgentPolicy) (command : string)
  : PolicyCheckResult :=
  if negb (allowRunCommand policy)
  then {| allowed := false; reason := Some "Policy blocks run_command actions." |}
  else
    let normalized := JS.trim command in
    if negb (JS.nonEmpty normalized)
    then {| allowed := false; reason := Some "Empty command is not allowed." |}
    else
      match checkPatterns (blockedCommandPatterns policy) normalized with
      | Some blocked => blocked
      | None =>
          match allowedCommandPrefixes policy with
          | [] => {| allowed := true; reason := None |}
          | prefixes =>
              if existsb (λ p, JS.startsWith normalized p) prefixes
              then {| allowed := true; reason := None |}
              else {| allowed := false;
                      reason := Some ("Command must start with one of: "
                                      +:+ JS.join ", " prefixes) |}
          end
      end.

Fixpoint checkGlobs (globs : list string) (normalizedPath : string)
  : SyntaxError + PolicyCheckResult :=
  match globs with
  | [] => inr {| allowed := true; reason := None |}
  | glob :: rest =>
      match globTest glob normalizedPath with
      | None => inl (InvalidRegularExpression glob)
      | Some true =>
          inr {| allowed := false;
                 reason := Some ("Write path blocked by policy glob: " +:+ glob) |}
      | Some false => checkGlobs rest normalizedPath
      end
  end.

Definition isWritePathAllowed (policy : AgentPolicy) (relativePath : string)
  : SyntaxError + PolicyCheckResult :=
  if negb (allowWrite policy)
  then inr {| allowed := false; reason := Some "Policy blocks write_file actions." |}
  else checkGlobs (blockedWriteGlobs policy) (normalizePathForPolicy relativePath).

End Gates.

End Policy.

(** ** Agent orchestrator (agent/codingAgent.ts) *)

Module Orchestrator.
Import ResponseParser FileTools.

Record RuntimeConfig := {
  workspaceRoot : string;
  apiKey : string;
  maxIterations : nat;
  toolTimeoutMs : Z;
  maxToolOutputChars : Z;
  autoRepairMaxRounds : nat;
  autoVerify : bool;
}.

Record DiffStats := { added : nat; removed : nat }.

Inductive ToolData :=
| NoData
| WriteData (path : string) (changed : bool)
    (findings : list Secrets.SecretFinding) (stats : option DiffStats)
| RunData (run : Shell.CommandResult)
| OtherData.

Record ToolResult := {
  tool : string;
  ok : bool;
  summary : string;
  data : ToolData;
}.

(** The questions put to the user through [ui.confirm] and [ui.ask]. *)
Inductive Question :=
| AskApplyChange (path : string)
| AskContinueRepair
| AskRollback
| AskClarification (question : string).

(** The flags of [runTask]. *)
Record Flags := {
  hadVerifyFailures : bool;
  completed : bool;
  maxIterationReached : bool;
  consecutiveVerifyFailures : nat;
  abortedByError : bool;
  stoppedEarly : bool;
}.

(** The calls of [audit.log], by event type. *)
Inductive AuditEvent :=
| EvTaskStart (goal : string)
| EvLoopStart (loop : nat)
| EvModelResponse (loop : nat) (st : AgentStatus) (planSteps : list string)
    (actionCount verifyCount : nat)
| EvMemoryUpdates (changedTags : list string)
| EvActionResult (loop : nat) (toolName : string) (isOk : bool) (text : string)
| EvVerifyResult (loop : nat) (cmd : string) (isOk : bool) (text : string)
| EvAutoRepairLimitReached (failures : nat) (keepTrying : bool)
| EvWriteProposed (path : string) (stats : DiffStats)
| EvWriteRejected (path : string)
| EvWriteApplied (path : string) (stats : DiffStats)
| EvMemorySet (key : string)
| EvChangeSummary (changedFiles : list string)
| EvRollback (restoredFiles : list string)
| EvTaskEnd (flags : Flags) (hasChanges : bool).

(** What a task acts on: the files, its change tracker, the calls of
    [audit.log] so far, the questions asked so far, and whether the audit
    logger has made its directory ([initialized]). *)
Record World := {
  fs : FS;
  tracker : ChangeTracker.t;
  audit : list AuditEvent;
  asked : list Question;
  auditReady : bool;
}.

Definition withFs (w : World) (fs' : FS) : World :=
  {| fs := fs'; tracker := tracker w; audit := audit w; asked := asked w;
     auditReady := auditReady w |}.

Definition withTracker (w : World) (t' : ChangeTracker.t) : World :=
  {| fs := fs w; tracker := t'; audit := audit w; asked := asked w;
     auditReady := auditReady w |}.

(** A call of [audit.log], without its effect on the log file. *)
Definition log (ev : AuditEvent) (w : World) : World :=
  {| fs := fs w; tracker := tracker w; audit := audit w ++ [ev]; asked := asked w;
     auditReady := auditReady w |}.

Definition addQuestion (q : Question) (w : World) : World :=
  {| fs := fs w; tracker := tracker w; audit := audit w; asked := asked w ++ [q];
     auditReady := auditReady w |}.

Definition withAuditReady (w : World) : World :=
  {| fs := fs w; tracker := tracker w; audit := audit w; asked := asked w;
     auditReady := true |}.

Definition zToString (z : Z) : string := NilEmpty.string_of_int (Z.to_int z).

Definition pathErrorMessage (e : PathSandbox.Error) : string :=
  match e with
  | PathSandbox.PathEscape userPath =>
      "Path " +:+ JS.quoted userPath +:+ " is outside workspace root."
  end.

(** [error.message] of what a file tool throws. *)
Definition errorMessage (e : FileTools.Error) : string :=
  match e with
  | Sandbox e => pathErrorMessage e
  | IoFailure message => message
  end.

(** The collaborators of a task.  [complete] is the chat client: its reply
    in loop [i], [None] when the call throws.  [confirm] and [answer] are the
    user: the reply to the [n]-th question, [None] when [ui.ask] throws because
    no input is available.  [shell] is [runShellCommand] on a command once
    its promise is settled, with the effect of the child on the files.
    [otherTool] stands for the tools without a part in this development
    (list, read, grep, scan, lookups, memory), with the conversion of their
    exceptions done.  [diffStats] is [computeDiffStats] of the unified diff.
    [memoryChanges] and [memoryAt] are the memory store: the change tags of
    [applyUpdates] in loop [i] and the snapshot read in loop [i];
    [memoryWrite] is the effect on the files of its [writeToDisk] in loop
    [i], [None] when it throws.
    [JSON_parse], [patternTest] and [globTest] are [None] when the built-in
    throws.
    [cwd] is the process.  [auditPath] is the path of the log file of the
    session, under the state directory, and [auditLine] the text that
    [JSON.stringify] gives for the event of a call, with its time stamp.
    [loadState] is the effect on the files of loading the memory and the
    policy before the task starts (the policy file is written when it cannot
    be read), and [summarize] that of the workspace summary and the first
    project scan (the index file is written); each is [None] when it
    throws. *)
Record Env := {
  cwd : Process;
  auditPath : string;
  auditLine : nat → AuditEvent → string;
  loadState : FS → option FS;
  summarize : FS → option FS;
  memoryWrite : nat → FS → option FS;
  config : RuntimeConfig;
  policy : Policy.AgentPolicy;
  numberToString : Json.number → string;
  JSON_parse : string → option Json.value;
  patternTest : string → string → option bool;
  globTest : string → string → option bool;
  complete : nat → option string;
  confirm : nat → bool;
  answer : nat → option string;
  shell : string → FS → (string + Shell.CommandResult) * FS;
  otherTool : AgentAction → FS → ToolResult * FS;
  diffStats : string → string → string → DiffStats;
  memoryChanges : nat → option MemoryUpdates → list string;
  memoryAt : nat → Memory.ProjectMemory;
}.

Section Agent.

Variable E : Env.

Definition ask (q : Question) (w : World) : bool * World :=
  ((confirm E) (length (asked w)), addQuestion q w).

(** [AuditLogger.log]: the first call that can make the directory of the
    log file sets [initialized]; the line of the event is then appended to
    the file.  [None] when it throws. *)
Definition appendEvent (ev : AuditEvent) (w : World) : option World :=
  let ready :=
    if auditReady w then Some w
    else match ioError (cwd E) IoMkdir (auditPath E) (fs w) with
         | Some _ => None
         | None => Some (withAuditReady w)
         end in
  match ready with
  | None => None
  | Some w =>
      match ioError (cwd E) IoAppend (auditPath E) (fs w) with
      | Some _ => Some w
      | None =>
          let line :=
            (auditLine E) (length (audit w)) ev +:+ String (ascii_of_nat 10) "" in
          Some (withFs w
                  (<[auditPath E :=
                       default "" (fs w !! auditPath E) +:+ utf8Encode (cwd E) line]>
                     (fs w)))
      end
  end.

(** [safeAuditLog]: a call of [audit.log] whose exceptions are caught. *)
Definition safeAuditLog (ev : AuditEvent) (w : World) : World :=
  log ev (default w (appendEvent ev w)).

Definition toolFailed (name : string) (message : string) : ToolResult :=
  {| tool := name; ok := false; summary := "Tool failed: " +:+ message; data := NoData |}.

Definition statsText (s : DiffStats) : string :=
  "(+" +:+ Json.natToString (added s) +:+ "/-" +:+ Json.natToString (removed s) +:+ ")".

Definition exitText (code : option Z) : string :=
  match code with
  | Some z => zToString z
  | None => "null"
  end.

Definition boolText (b : bool) : string := if b then "true" else "false".

(** [run.exitCode === 0 && !run.timedOut] *)
Definition succeeded (run : Shell.CommandResult) : bool :=
  match Shell.exitCode run with
  | Some code => (code =? 0)%Z && negb (Shell.timedOut run)
  | None => false
  end.

Definition executeRunCommand (command : string) (w : World) : ToolResult * World :=
  let commandCheck := Policy.isCommandAllowed (patternTest E) (policy E) command in
  if negb (Policy.allowed commandCheck) then
    ({| tool := "run_command"; ok := false;
        summary := "Blocked by policy: " +:+ default "undefined" (Policy.reason commandCheck);
        data := NoData |}, w)
  else
    match (shell E) command (fs w) with
    | (inl message, fs') => (toolFailed "run_command" message, withFs w fs')
    | (inr run, fs') =>
        let success := succeeded run in
        ({| tool := "run_command"; ok := success;
            summary :=
              if success then "Command passed: " +:+ command
              else "Command failed (exit=" +:+ exitText (Shell.exitCode run)
                   +:+ ", timeout=" +:+ boolText (Shell.timedOut run) +:+ "): "
                   +:+ command;
            data := RunData run |}, withFs w fs')
    end.

Definition writeResult (path : string) (isOk changed : bool) (text : string)
    (findings : list Secrets.SecretFinding) (stats : option DiffStats) : ToolResult :=
  {| tool := "write_file"; ok := isOk; summary := text;
     data := WriteData path changed findings stats |}.

Definition executeWriteFile (path content : string) (w : World) : ToolResult * World :=
  match Policy.isWritePathAllowed (globTest E) (policy E) path with
  | inl (Policy.InvalidRegularExpression glob) =>
      (toolFailed "write_file" ("Invalid regular expression: " +:+ glob), w)
  | inr writePathCheck =>
      if negb (Policy.allowed writePathCheck) then
        (writeResult path false false
           ("Blocked by policy: " +:+ default "undefined" (Policy.reason writePathCheck))
           [] None, w)
      else
        let secretFindings := Secrets.detectSecrets content in
        if (0 <? length secretFindings)%nat && negb (Policy.allowPotentialSecrets (policy E))
        then
          (writeResult path false false
             "Potential secrets detected. Write blocked by policy."
             secretFindings None, w)
        else
          match fileExists (cwd E) (workspaceRoot (config E)) path (fs w),
                readFileIfExists (cwd E) (workspaceRoot (config E)) path (fs w) with
          | inl e, _ | _, inl e => (toolFailed "write_file" (errorMessage e), w)
          | inr existed, inr before =>
              let after := content in
              if String.eqb before after then
                (writeResult path true false
                   ("Skipped " +:+ path +:+ "; no content changes.") [] None, w)
              else
                let stats := (diffStats E) path before after in
                let w := safeAuditLog (EvWriteProposed path stats) w in
                let '(approved, w) := ask (AskApplyChange path) w in
                if negb approved then
                  (writeResult path false false
                     ("User rejected write to " +:+ path +:+ ".") [] None,
                   safeAuditLog (EvWriteRejected path) w)
                else
                  let w :=
                    withTracker w
                      (ChangeTracker.recordBefore path existed before (tracker w)) in
                  match writeFile (cwd E) (workspaceRoot (config E)) path after (fs w) with
                  | inl e => (toolFailed "write_file" (errorMessage e), w)
                  | inr fs' =>
                      let w := withFs w fs' in
                      let w :=
                        withTracker w (ChangeTracker.recordAfter path after (tracker w)) in
                      let w := safeAuditLog (EvWriteApplied path stats) w in
                      (writeResult path true true
                         ("Wrote " +:+ path +:+ " " +:+ statsText stats +:+ ".")
                         [] (Some stats), w)
                  end
          end
  end.

Definition executeAction (action : AgentAction) (w : World) : ToolResult * World :=
  match action with
  | RunCommand command => executeRunCommand command w
  | WriteFile path content => executeWriteFile path content w
  | MemorySet key _ =>
      let '(result, fs') := (otherTool E) action (fs w) in
      (result, if ok result then safeAuditLog (EvMemorySet key) (withFs w fs') else withFs w fs')
  | _ =>
      let '(result, fs') := (otherTool E) action (fs w) in
      (result, withFs w fs')
  end.

Definition runVerifyCommand (command : string) (w : World) : ToolResult * World :=
  let commandCheck := Policy.isCommandAllowed (patternTest E) (policy E) command in
  if negb (Policy.allowed commandCheck) then
    ({| tool := "verify"; ok := false;
        summary := "Blocked by policy: " +:+ default "undefined" (Policy.reason commandCheck);
        data := NoData |}, w)
  else
    match (shell E) command (fs w) with
    | (inl message, fs') =>
        ({| tool := "verify"; ok := false;
            summary := "Verify command error for " +:+ JS.quoted command
                       +:+ ": " +:+ message;
            data := NoData |}, withFs w fs')
    | (inr run, fs') =>
        let isOk := succeeded run in
        ({| tool := "verify"; ok := isOk;
            summary :=
              if isOk then "Verify passed: " +:+ command
              else "Verify failed (exit=" +:+ exitText (Shell.exitCode run)
                   +:+ ", timeout=" +:+ boolText (Shell.timedOut run) +:+ "): "
                   +:+ command;
            data := RunData run |}, withFs w fs')
    end.

(** The loop over the actions of a response: the tool results, whether a
    [write_file] succeeded, and the world after it. *)
Fixpoint runActions (loop : nat) (actions : list AgentAction)
    (toolResults : list ToolResult) (loopHadWrites : bool) (w : World)
  : list ToolResult * bool * World :=
  match actions with
  | [] => (toolResults, loopHadWrites, w)
  | action :: rest =>
      let '(result, w) := executeAction action w in
      let w := safeAuditLog (EvActionResult loop (toolOf action) (ok result) (summary result)) w in
      runActions loop rest (toolResults ++ [result])
        (if String.eqb (toolOf action) "write_file" && ok result
         then true else loopHadWrites) w
  end.

(** The commands verified in a loop: those of the response, then, after a
    successful write with [autoVerify] on, the discovered ones not yet
    present. *)
Definition verifyCommandsOf (loop : nat) (response : AgentModelResponse)
    (loopHadWrites : bool) (w : World) : list string :=
  let verifyCommands := map command (verify response) in
  if autoVerify (config E) && loopHadWrites then
    fold_left AutoVerify.addUnique
      (AutoVerify.discoverAutoVerifyCommands (JSON_parse E) (cwd E) (fs w)
         (workspaceRoot (config E)) ((memoryAt E) loop) 8)
      verifyCommands
  else verifyCommands.

(** The verify loop: [hadVerifyFailures], [loopVerifyFailed] and the world. *)
Fixpoint runVerify (loop : nat) (commands : list string)
    (hadFailures loopVerifyFailed : bool) (w : World) : bool * bool * World :=
  match commands with
  | [] => (hadFailures, loopVerifyFailed, w)
  | cmd :: rest =>
      let '(result, w) := runVerifyCommand cmd w in
      let w := safeAuditLog (EvVerifyResult loop cmd (ok result) (summary result)) w in
      if negb (ok result) then runVerify loop rest true true w
      else runVerify loop rest hadFailures loopVerifyFailed w
  end.

(** The update of the counter after the verify loop. *)
Definition updateFailureCount (verifyCommands : list string)
    (loopVerifyFailed : bool) (count : nat) : nat :=
  match verifyCommands with
  | [] => count
  | _ => if loopVerifyFailed then S count else 0
  end.

Inductive Flow := Next | Break.

Definition setCount (fl : Flags) (had : bool) (n : nat) : Flags :=
  {| hadVerifyFailures := had; completed := completed fl;
     maxIterationReached := maxIterationReached fl;
     consecutiveVerifyFailures := n; abortedByError := abortedByError fl;
     stoppedEarly := stoppedEarly fl |}.

Definition setAborted (fl : Flags) : Flags :=
  {| hadVerifyFailures := hadVerifyFailures fl; completed := completed fl;
     maxIterationReached := maxIterationReached fl;
     consecutiveVerifyFailures := consecutiveVerifyFailures fl;
     abortedByError := true; stoppedEarly := stoppedEarly fl |}.

Definition setStoppedEarly (fl : Flags) : Flags :=
  {| hadVerifyFailures := hadVerifyFailures fl; completed := completed fl;
     maxIterationReached := maxIterationReached fl;
     consecutiveVerifyFailures := consecutiveVerifyFailures fl;
     abortedByError := abortedByError fl; stoppedEarly := true |}.

Definition setCompleted (fl : Flags) : Flags :=
  {| hadVerifyFailures := hadVerifyFailures fl; completed := true;
     maxIterationReached := maxIterationReached fl;
     consecutiveVerifyFailures := consecutiveVerifyFailures fl;
     abortedByError := abortedByError fl; stoppedEarly := stoppedEarly fl |}.

Definition setMaxIterationReached (fl : Flags) : Flags :=
  {| hadVerifyFailures := hadVerifyFailures fl; completed := completed fl;
     maxIterationReached := true;
     consecutiveVerifyFailures := consecutiveVerifyFailures fl;
     abortedByError := abortedByError fl; stoppedEarly := stoppedEarly fl |}.

(** The end of a loop body, from the status of the response. *)
Definition resolveStatus (response : AgentModelResponse) (loopVerifyFailed : bool)
    (fl : Flags) (w : World) : Flow * Flags * World :=
  match status response with
  | StatusNeedUser =>
      let q := default "Please clarify what I should do next." (question response) in
      let n := length (asked w) in
      let w := addQuestion (AskClarification q) w in
      match (answer E) n with
      | None => (Break, setAborted fl, w)
      | Some _ => (Next, fl, w)
      end
  | StatusDone =>
      if loopVerifyFailed then (Next, fl, w) else (Break, setCompleted fl, w)
  | StatusContinue => (Next, fl, w)
  end.

(** The part of a loop body after the actions: verification, the counter,
    the repair limit, the status. *)
Definition verifyAndResolve (loop : nat) (response : AgentModelResponse)
    (loopHadWrites : bool) (fl : Flags) (w : World) : Flow * Flags * World :=
  let verifyCommands := verifyCommandsOf loop response loopHadWrites w in
  let '(had, loopVerifyFailed, w) :=
    runVerify loop verifyCommands (hadVerifyFailures fl) false w in
  let count :=
    updateFailureCount verifyCommands loopVerifyFailed (consecutiveVerifyFailures fl) in
  let fl := setCount fl had count in
  if (autoRepairMaxRounds (config E) <=? count)%nat && ChangeTracker.hasChanges (tracker w)
  then
    let '(keepTrying, w) := ask AskContinueRepair w in
    let w := safeAuditLog (EvAutoRepairLimitReached count keepTrying) w in
    if negb keepTrying then (Break, setStoppedEarly fl, w)
    else resolveStatus response loopVerifyFailed (setCount fl had 0) w
  else resolveStatus response loopVerifyFailed fl w.

(** The exceptions that leave [runTask]. *)
Inductive TaskError :=
| StartupThrew
| ParserThrew (e : Json.TypeError)
| MemoryThrew
| RollbackThrew (e : FileTools.Error).

(** [applyMemoryUpdates]: when the store reports changes it has written its
    file, and the changes are logged. *)
Definition applyMemoryUpdates (loop : nat) (updates : option MemoryUpdates) (w : World)
  : option World :=
  match (memoryChanges E) loop updates with
  | [] => Some w
  | changedTags =>
      match (memoryWrite E) loop (fs w) with
      | None => None
      | Some fs' => Some (safeAuditLog (EvMemoryUpdates changedTags) (withFs w fs'))
      end
  end.

(** One body of the loop of [runTask]; [inl] is an exception that leaves
    [runTask]. *)
Definition iteration (loop : nat) (fl : Flags) (w : World)
  : TaskError + (Flow * Flags * World) :=
  let w := safeAuditLog (EvLoopStart loop) w in
  match (complete E) loop with
  | None => inr (Break, setAborted fl, w)
  | Some rawResponse =>
      match parseAgentModelResponse (numberToString E) (JSON_parse E) rawResponse with
      | inl e => inl (ParserThrew e)
      | inr response =>
          let w :=
            safeAuditLog (EvModelResponse loop (status response) (plan response)
                   (length (actions response)) (length (verify response))) w in
          match applyMemoryUpdates loop (memory_updates response) w with
          | None => inl MemoryThrew
          | Some w =>
              let '(_, loopHadWrites, w) :=
                runActions loop (actions response) [] false w in
              inr (verifyAndResolve loop response loopHadWrites fl w)
          end
      end
  end.

Fixpoint runLoop (remaining loop : nat) (fl : Flags) (w : World)
  : TaskError + (Flags * World) :=
  match remaining with
  | O => inr (fl, w)
  | S remaining' =>
      match iteration loop fl w with
      | inl e => inl e
      | inr (Break, fl', w') => inr (fl', w')
      | inr (Next, fl', w') => runLoop remaining' (S loop) fl' w'
      end
  end.

(** The part of [runTask] after the loop. *)
Definition finishTask (fl : Flags) (w : World) : TaskError + (Flags * World) :=
  let fl :=
    if negb (completed fl) && negb (abortedByError fl) && negb (stoppedEarly fl)
    then setMaxIterationReached fl else fl in
  let w :=
    if ChangeTracker.hasChanges (tracker w)
    then safeAuditLog (EvChangeSummary
                (map ChangeTracker.path (ChangeTracker.getChangedFiles (tracker w)))) w
    else w in
  let finish w :=
    inr (fl, safeAuditLog (EvTaskEnd fl (ChangeTracker.hasChanges (tracker w))) w) in
  if negb (completed fl) && hadVerifyFailures fl
     && ChangeTracker.hasChanges (tracker w)
  then
    let '(shouldRollback, w) := ask AskRollback w in
    if shouldRollback then
      match ChangeTracker.rollback (cwd E) (workspaceRoot (config E)) (tracker w) (fs w) with
      | (inl e, _) => inl (RollbackThrew e)
      | (inr restoredFiles, fs') =>
          finish (safeAuditLog (EvRollback restoredFiles) (withFs w fs'))
      end
    else finish w
  else finish w.

Definition initialFlags : Flags :=
  {| hadVerifyFailures := false; completed := false; maxIterationReached := false;
     consecutiveVerifyFailures := 0; abortedByError := false; stoppedEarly := false |}.

Definition initialWorld (files : FS) : World :=
  {| fs := files; tracker := ChangeTracker.empty; audit := []; asked := [];
     auditReady := false |}.

(** [runTask]: [None] when no API key is configured and nothing is started. *)
Definition runTask (goal : string) (files : FS)
  : option (TaskError + (Flags * World)) :=
  if negb (JS.nonEmpty (apiKey (config E))) then None
  else
    match (loadState E) files with
    | None => Some (inl StartupThrew)
    | Some files =>
        let w := safeAuditLog (EvTaskStart goal) (initialWorld files) in
        match (summarize E) (fs w) with
        | None => Some (inl StartupThrew)
        | Some files =>
            match runLoop (maxIterations (config E)) 1 initialFlags (withFs w files) with
            | inl e => Some (inl e)
            | inr (fl, w) => Some (finishTask fl w)
            end
        end
    end.

End Agent.

End Orchestrator.

(** ** Memory store (memory/memoryStore.ts): merging updates *)

Module MemoryStore.
Import Memory.

(** The body of the loop of [uniqNonEmpty], on the set [seen] and the array
    [output]. *)
Definition uniqStep (acc : gset string * list string) (raw : string)
  : gset string * list string :=
  let value := JS.trim raw in
  if negb (JS.nonEmpty value) || bool_decide (value ∈ acc.1) then acc
  else ({[value]} ∪ acc.1, acc.2 ++ [value]).

Definition uniqNonEmpty (values : list string) : list string :=
  (fold_left uniqStep values (∅, [])).2.

Definition newline : string := String (ascii_of_nat 10) "".

(** One list field in [applyUpdates]: the value of the field afterwards and
    the tag pushed to [changed], if any. *)
Definition mergeList (name : string) (current : list string)
    (update : option (list string)) : list string * option string :=
  match update with
  | Some (first :: more) =>
      let next := uniqNonEmpty (current ++ first :: more) in
      if negb (String.eqb (JS.join newline next) (JS.join newline current))
      then (firstn 200 next,
            Some (name +:+ "(+" +:+ Json.natToString (length (first :: more)) +:+ ")"))
      else (current, None)
  | _ => (current, None)
  end.

(** The string-valued own properties of a [kv] object, in the order of
    their creation (JavaScript lists the keys that are array indices first;
    nothing here depends on the order). *)
Fixpoint kvLookup (key : string) (kv : list (string * string)) : option string :=
  match kv with
  | [] => None
  | (k, v) :: rest => if String.eqb k key then Some v else kvLookup key rest
  end.

Fixpoint kvReplace (key value : string) (kv : list (string * string))
  : list (string * string) :=
  match kv with
  | [] => []
  | (k, v) :: rest =>
      if String.eqb k key then (k, value) :: rest else (k, v) :: kvReplace key value rest
  end.

(** [CreateDataProperty], as done by [Object.fromEntries]. *)
Definition kvDefine (key value : string) (kv : list (string * string))
  : list (string * string) :=
  match kvLookup key kv with
  | Some _ => kvReplace key value kv
  | None => kv ++ [(key, value)]
  end.

Definition fromEntries (entries : list (string * string)) : list (string * string) :=
  fold_left (λ kv entry, kvDefine entry.1 entry.2 kv) entries [].

(** [kv[key] = value]: an own property is updated and a new one is created,
    except for the key "__proto__", where the assignment of a string goes to
    the setter of [Object.prototype] and does nothing. *)
Definition kvAssign (key value : string) (kv : list (string * string))
  : list (string * string) :=
  match kvLookup key kv with
  | Some _ => kvReplace key value kv
  | None => if String.eqb key "__proto__" then kv else kv ++ [(key, value)]
  end.

(** The body of the loop over the entries of [updates.kv].  A key that is
    not an own property reads as [undefined] or as an inherited object, which
    is never equal to the string. *)
Definition kvStep (acc : list (string * string) * list string)
    (entry : string * string) : list (string * string) * list string :=
  if bool_decide (kvLookup entry.1 acc.1 = Some entry.2) then acc
  else (kvAssign entry.1 entry.2 acc.1, acc.2 ++ ["kv." +:+ entry.1]).

Definition tagList (tag : option string) : list string :=
  match tag with
  | Some text => [text]
  | None => []
  end.

(** [applyUpdates] on a loaded store: the tags of the changes and the memory
    afterwards; the memory is written to disk when there is a tag.  [now] is
    [new Date().toISOString()]. *)
Definition applyUpdates (now : string) (updates : option ResponseParser.MemoryUpdates)
    (m : ProjectMemory) : list string * ProjectMemory :=
  match updates with
  | None => ([], m)
  | Some u =>
      let rules :=
        mergeList "projectRules" (projectRules m) (ResponseParser.projectRules u) in
      let notes :=
        mergeList "architectureNotes" (architectureNotes m)
          (ResponseParser.architectureNotes u) in
      let commands :=
        mergeList "commonCommands" (commonCommands m)
          (ResponseParser.commonCommands u) in
      let changed := tagList rules.2 ++ tagList notes.2 ++ tagList commands.2 in
      let keyed :=
        match ResponseParser.kv u with
        | Some entries => fold_left kvStep (fromEntries entries) (kv m, changed)
        | None => (kv m, changed)
        end in
      (keyed.2,
       {| projectRules := rules.1;
          architectureNotes := notes.1;
          commonCommands := commands.1;
          kv := keyed.1;
          updatedAt := match keyed.2 with
                       | [] => updatedAt m
                       | _ => now
                       end |})
  end.

End MemoryStore.

(** ** Queries on the project index (codeintel/projectScanner.ts) *)

Module ScannerQueries.
Import Scanner.

Definition languageEqb (a b : SupportedLanguage) : bool :=
  match a, b with
  | Typescript, Typescript | Javascript, Javascript | Python, Python
  | Unknown, Unknown => true
  | _, _ => false
  end.

Definition normalizeLanguage (value : option string) : option SupportedLanguage :=
  match value with
  | None => None
  | Some text =>
      if negb (JS.nonEmpty text) then None
      else
        let normalized := JS.toLowerCase text in
        if String.eqb normalized "ts" || String.eqb normalized "typescript"
        then Some Typescript
        else if String.eqb normalized "js" || String.eqb normalized "javascript"
        then Some Javascript
        else if String.eqb normalized "py" || String.eqb normalized "python"
        then Some Python
        else None
  end.

(** [lookupSymbols] on the index that [scan] returned. *)
Definition lookupSymbols (index : ProjectIndex) (query : string)
    (language : option string) (limit : option Json.number) : list SymbolEntry :=
  let languageFilter := normalizeLanguage language in
  let limit := limitValue limit 80 in
  let needle := JS.toLowerCase (JS.trim query) in
  let symbols :=
    match languageFilter with
    | Some wanted =>
        List.filter (λ symbol, languageEqb (sym_language symbol) wanted) (symbols index)
    | None => symbols index
    end in
  let exactMatches :=
    List.filter (λ symbol, String.eqb (JS.toLowerCase (sym_name symbol)) needle) symbols in
  let containsMatches :=
    List.filter
      (λ symbol,
         let name := JS.toLowerCase (sym_name symbol) in
         JS.includes name needle && negb (String.eqb name needle)) symbols in
  sliceTo limit (exactMatches ++ containsMatches).

(** [findReferences] on the index that [scan] returned. *)
Definition findReferences (index : ProjectIndex) (symbol : string)
    (language : option string) (limit : option Json.number) : list UseEntry :=
  let languageFilter := normalizeLanguage language in
  let limit := limitValue limit 120 in
  let needle := JS.trim symbol in
  let uses := List.filter (λ entry, String.eqb (use_name entry) needle) (uses index) in
  let uses :=
    match languageFilter with
    | Some wanted =>
        List.filter (λ entry, languageEqb (use_language entry) wanted) uses
    | None => uses
    end in
  sliceTo limit uses.

End ScannerQueries.

(** ** Text helpers (utils/strings.ts) *)

Module Strings.

Definition newline : string := String (ascii_of_nat 10) "".

(** [String(n)] for an integer. *)
Definition numberText (n : Z) : string := Orchestrator.zToString n.

(** [s.slice(0, n)] for an integer [n]; a negative [n] counts from the end. *)
Definition sliceTo (n : Z) (s : string) : string :=
  if (0 <=? n)%Z then JS.take (Z.to_nat n) s
  else JS.take (String.length s - Z.to_nat (- n)) s.

Definition clipText (input : string) (maxChars : Z) : string :=
  if (Z.of_nat (String.length input) <=? maxChars)%Z then input
  else
    sliceTo maxChars input +:+ newline +:+ "...[truncated "
    +:+ numberText (Z.of_nat (String.length input) - maxChars) +:+ " chars]".

Fixpoint spaces (n : nat) : string :=
  match n with
  | O => ""
  | S n' => String " " (spaces n')
  end.

(** [s.padStart(width, " ")] *)
Definition padStart (width : nat) (s : string) : string :=
  spaces (width - String.length s) +:+ s.

Section LineNumbers.

(** The arithmetic of doubles on line numbers: [plus x n] is the sum
    [x + n] of a number and an index or a length, and [numberToString] is
    [String(x)]. *)
Variable plus : Json.number → nat → Json.number.
Variable numberToString : Json.number → string.

Definition withLineNumbers (text : string) (startLine : Json.number) : string :=
  let lines := JS.split (ascii_of_nat 10) text in
  let width := String.length (numberToString (plus startLine (length lines))) in
  JS.join newline
    (imap (λ index line,
             padStart width (numberToString (plus startLine index)) +:+ "| " +:+ line)
       lines).

End LineNumbers.

End Strings.

(** ** Diff statistics (utils/diff.ts) *)

Module Diff.

(** The body of the loop of [computeDiffStats] on the counters
    [(added, removed)]. *)
Definition countLine (counts : nat * nat) (line : string) : nat * nat :=
  if negb (JS.nonEmpty line) then counts
  else if JS.startsWith line "+++ " || JS.startsWith line "--- "
          || JS.startsWith line "@@"
  then counts
  else if JS.startsWith line "+" then (S counts.1, counts.2)
  else if JS.startsWith line "-" then (counts.1, S counts.2)
  else counts.

Definition computeDiffStats (unifiedDiff : string) : Orchestrator.DiffStats :=
  let counts := fold_left countLine (JS.split (ascii_of_nat 10) unifiedDiff) (0, 0) in
  {| Orchestrator.added := counts.1; Orchestrator.removed := counts.2 |}.

End Diff.

(** ** Workspace-relative paths (utils/path.ts) and file segments
    (tools/fileTools.ts) *)

Module FileSegments.
Import FileTools.

(** [path.relative] of node:path (posix) on the components of the two
    resolved paths: one ".." for each component of [from] below the common
    ancestor, then the components of [to] below it. *)
Fixpoint relativeSegments (from to : list string) : list string :=
  match from, to with
  | f :: from', t :: to' =>
      if String.eqb f t then relativeSegments from' to'
      else repeat ".." (length from) ++ to
  | _, _ => repeat ".." (length from) ++ to
  end.

Definition posix_relative (cwd from to : string) : string :=
  JS.join "/"
    (relativeSegments
       (PathSandbox.segments (PathSandbox.posix_resolve cwd [from]))
       (PathSandbox.segments (PathSandbox.posix_resolve cwd [to]))).

(** [path.relative(from, to)] in a process. *)
Definition path_relative (cwd : Process) (from to : string) : string :=
  match platform cwd with
  | Posix => posix_relative (workingDirectory cwd) from to
  | Win32 win32 => win32Relative win32 from to
  end.

(** The character of [path.sep]. *)
Definition sepChar (cwd : Process) : ascii :=
  match platform cwd with
  | Posix => "/"%char
  | Win32 _ => ascii_of_nat 92
  end.

Definition toWorkspaceRelativePath (cwd : Process) (workspaceRoot absolutePath : string)
  : string :=
  JS.join "/"
    (JS.split (sepChar cwd)
       (path_relative cwd (PathSandbox.path_resolve cwd [workspaceRoot])
          (PathSandbox.path_resolve cwd [absolutePath]))).

Record ReadFileResult := {
  path : string;
  startLine : Json.number;
  endLine : Json.number;
  content : string;
}.

(** A whole number, as a number. *)
Definition whole (z : Z) : Json.number := Json.Finite (inject_Z z).

(** [Math.max(1, x)] and [Math.min(n, x)] for a length [n]: one of the two
    arguments, without rounding. *)
Definition atLeastOne (x : Json.number) : Json.number :=
  match x with
  | Json.Finite q => if Qle_bool q 1 then whole 1 else x
  | Json.Infinite true => whole 1
  | Json.Infinite false => x
  end.

Definition atMost (n : nat) (x : Json.number) : Json.number :=
  match x with
  | Json.Finite q => if Qle_bool (inject_Z (Z.of_nat n)) q then whole (Z.of_nat n) else x
  | Json.Infinite true => x
  | Json.Infinite false => whole (Z.of_nat n)
  end.

(** ToIntegerOrInfinity on a finite number: the fraction is dropped. *)
Definition truncate (q : Q) : Z :=
  if Qle_bool 0 q then Qfloor q else Qceiling q.

(** The index that [slice] makes of an argument, for a list of [len]
    elements: a negative one counts from the end, and all are clamped. *)
Definition sliceIndex (len : nat) (x : Json.number) : nat :=
  match x with
  | Json.Finite q =>
      let relative := truncate q in
      if (relative <? 0)%Z then Z.to_nat (Z.max (Z.of_nat len + relative) 0)
      else Z.to_nat (Z.min relative (Z.of_nat len))
  | Json.Infinite true => 0
  | Json.Infinite false => len
  end.

(** [x - 1] for a number that is at least 1.  The difference of doubles is
    exact below 2^53; from there on it is at least 2^53 - 1 like the exact
    one, and [slice] clamps both to the length of the array. *)
Definition minusOne (x : Json.number) : Json.number :=
  match x with
  | Json.Finite q => Json.Finite (q - 1)
  | Json.Infinite _ => x
  end.

(** [list.slice(i, j)] *)
Definition sliceList {A} (i j : Json.number) (l : list A) : list A :=
  let first := sliceIndex (length l) i in
  let last := sliceIndex (length l) j in
  firstn (last - first) (skipn first l).

(** [readFileSegment]; [maxChars] is the integer that the caller passes.
    A missing file makes [fs.readFile] reject. *)
Definition readFileSegment (cwd : Process) (fs : FS) (workspaceRoot filePath : string)
    (startLine0 endLine0 : option Json.number) (maxChars0 : option Z)
  : Error + ReadFileResult :=
  match PathSandbox.resolveWorkspacePath cwd workspaceRoot filePath with
  | inl e => inl (Sandbox e)
  | inr absolutePath =>
      let maxChars := default 14000%Z maxChars0 in
      match ioError cwd IoRead absolutePath fs, fs !! absolutePath with
      | Some message, _ => inl (IoFailure message)
      | None, None =>
          inl (IoFailure ("ENOENT: no such file or directory, open '"
                          +:+ absolutePath +:+ "'"))
      | None, Some bytes =>
          let raw := utf8Decode cwd bytes in
          let lines := Grep.splitLines raw in
          let startLine1 := atLeastOne (default (whole 1) startLine0) in
          let endLine1 :=
            atMost (length lines) (default (whole (Z.of_nat (length lines))) endLine0) in
          let sliced :=
            JS.join Strings.newline (sliceList (minusOne startLine1) endLine1 lines) in
          inr {| path := toWorkspaceRelativePath cwd workspaceRoot absolutePath;
                 startLine := startLine1;
                 endLine := endLine1;
                 content := Strings.clipText sliced maxChars |}
      end
  end.

Section ReadFileTool.

Variable plus : Json.number → nat → Json.number.
Variable numberToString : Json.number → string.

(** The [read_file] case of [executeAction]: the summary, the path and the
    numbered content of the tool result. *)
Definition readFileTool (cwd : Process) (fs : FS) (config : Orchestrator.RuntimeConfig)
    (filePath : string) (startLine0 endLine0 : option Json.number)
  : Error + (string * string * string) :=
  match readFileSegment cwd fs (Orchestrator.workspaceRoot config) filePath
          startLine0 endLine0 (Some (Orchestrator.maxToolOutputChars config)) with
  | inl e => inl e
  | inr file =>
      let withNumbers :=
        Strings.withLineNumbers plus numberToString (content file) (startLine file) in
      inr ("Read " +:+ path file +:+ ":" +:+ numberToString (startLine file)
           +:+ "-" +:+ numberToString (endLine file),
           path file, withNumbers)
  end.

End ReadFileTool.

End FileSegments.

(** ** Directory listing (tools/fileTools.ts) *)

Module ListFiles.
Import FileTools FileSegments.

Definition DEFAULT_IGNORED_DIRS : list string :=
  [".git"; ".idea"; ".vscode"; "node_modules"; "dist"; "build"; "coverage";
   ".next"; ".turbo"].

(** The argument record of [listFiles]. *)
Record Input := {
  workspaceRoot : string;
  lf_path : option string;
  recursive : option bool;
  depth : option Json.number;
  maxEntries : option Json.number;
}.

(** [path.normalize] of node:path (posix). *)
Definition path_normalize (p : string) : string :=
  if negb (JS.nonEmpty p) then "."
  else
    let isAbsolute := JS.startsWith p "/" in
    let trailingSeparator := JS.endsWith p "/" in
    let normalized :=
      JS.join "/" (PathSandbox.normalizeSegments (negb isAbsolute) p) in
    if negb (JS.nonEmpty normalized) then
      if isAbsolute then "/" else if trailingSeparator then "./" else "."
    else
      let normalized :=
        if trailingSeparator then normalized +:+ "/" else normalized in
      if isAbsolute then "/" +:+ normalized else normalized.

(** [path.join(a, b)] of node:path (posix). *)
Definition posix_join (a b : string) : string :=
  match JS.nonEmpty a, JS.nonEmpty b with
  | true, true => path_normalize (a +:+ "/" +:+ b)
  | true, false => path_normalize a
  | false, true => path_normalize b
  | false, false => "."
  end.

(** [path.join(a, b)] in a process. *)
Definition path_join (cwd : Process) (a b : string) : string :=
  match platform cwd with
  | Posix => posix_join a b
  | Win32 win32 => win32Join win32 a b
  end.

(** What [fs.stat] and [fs.readdir] show of an entry of the file system: a
    file (among the entries of a directory: anything that is no directory),
    a directory with its entries, in the order in which [walk] visits them
    (sorted by name with [localeCompare]), or a directory that [readdir]
    refuses to read, with the message of the error. *)
#[warnings="-register-all"]
Inductive Node :=
| FileNode (name : string)
| DirNode (name : string) (entries : list Node)
| LockedDir (name : string) (message : string).

Definition nodeName (node : Node) : string :=
  match node with
  | FileNode name | DirNode name _ | LockedDir name _ => name
  end.

(** [n >= x] and [n < x] for a length or a depth [n] and a number [x]. *)
Definition reaches (n : nat) (x : Json.number) : bool :=
  match x with
  | Json.Finite q => Qle_bool q (inject_Z (Z.of_nat n))
  | Json.Infinite negative => negative
  end.

Definition isBelow (n : nat) (x : Json.number) : bool := negb (reaches n x).

Section Walk.

Variable cwd : Process.
Variable workspaceRoot : string.
Variable recursive : bool.
Variable maxDepth maxEntries : Json.number.

(** [results.length >= maxEntries] *)
Definition full (results : list string) : bool :=
  reaches (length results) maxEntries.

(** One turn of the loop of [walk], after its test of the number of
    results; the inner loop is the call [walk(absolute, depth + 1)].  The
    error of a [readdir] ends the whole walk. *)
Fixpoint visit (entry : Node) (currentPath : string) (depth : nat)
    (results : list string) : string + list string :=
  let absolute := path_join cwd currentPath (nodeName entry) in
  let relative := toWorkspaceRelativePath cwd workspaceRoot absolute in
  match entry with
  | DirNode name entries =>
      if bool_decide (name ∈ DEFAULT_IGNORED_DIRS) then inr results
      else
        let results := results ++ [relative +:+ "/"] in
        if recursive && isBelow depth maxDepth then
          if full results then inr results
          else
            (fix loop (entries : list Node) (results : list string)
               : string + list string :=
               match entries with
               | [] => inr results
               | entry :: rest =>
                   if full results then inr results
                   else
                     match visit entry absolute (S depth) results with
                     | inl message => inl message
                     | inr results => loop rest results
                     end
               end) entries results
        else inr results
  | LockedDir name message =>
      if bool_decide (name ∈ DEFAULT_IGNORED_DIRS) then inr results
      else
        let results := results ++ [relative +:+ "/"] in
        if recursive && isBelow depth maxDepth then
          if full results then inr results else inl message
        else inr results
  | FileNode _ => inr (results ++ [relative])
  end.

Fixpoint loop (entries : list Node) (currentPath : string) (depth : nat)
    (results : list string) : string + list string :=
  match entries with
  | [] => inr results
  | entry :: rest =>
      if full results then inr results
      else
        match visit entry currentPath depth results with
        | inl message => inl message
        | inr results => loop rest currentPath depth results
        end
  end.

(** [walk(currentPath, depth)] on the entries that [readdir] returns. *)
Definition walk (entries : list Node) (currentPath : string) (depth : nat)
    (results : list string) : string + list string :=
  if full results then inr results else loop entries currentPath depth results.

End Walk.

(** [listFiles].  [statAt] is the file system at the base path: the entry
    there, or the message of the error with which [fs.stat] rejects, or
    [fs.readdir] when the path names something that is neither a regular
    file nor a directory. *)
Definition listFiles (cwd : Process) (statAt : string → string + Node) (input : Input)
  : Error + list string :=
  match PathSandbox.resolveWorkspacePath cwd (workspaceRoot input)
          (default "." (lf_path input)) with
  | inl e => inl (Sandbox e)
  | inr basePath =>
      let recursive := default true (recursive input) in
      let maxDepth := default (whole 4) (depth input) in
      let maxEntries := default (whole 200) (maxEntries input) in
      match statAt basePath with
      | inl message => inl (IoFailure message)
      | inr (FileNode _) =>
          inr [toWorkspaceRelativePath cwd (workspaceRoot input) basePath]
      | inr (DirNode _ entries) =>
          match walk cwd (workspaceRoot input) recursive maxDepth maxEntries
                  entries basePath 0 [] with
          | inl message => inl (IoFailure message)
          | inr results => inr results
          end
      | inr (LockedDir _ message) =>
          if reaches 0 maxEntries then inr [] else inl (IoFailure message)
      end
  end.

End ListFiles.

(** * Properties *)

(** ** Facts about the string primitives *)

Module JSFacts.

Lemma sapp_cons c s t : String c s +:+ t = String c (s +:+ t).
Proof. reflexivity. Qed.

Lemma sapp_nil_l s : "" +:+ s = s.
Proof. reflexivity. Qed.

Lemma sapp_nil_r s : s +:+ "" = s.
Proof. induction s as [|c s IH]; [done|]. by rewrite sapp_cons, IH. Qed.

Lemma sapp_assoc s t u : (s +:+ t) +:+ u = s +:+ (t +:+ u).
Proof. induction s as [|c s IH]; [done|]. by rewrite !sapp_cons, IH. Qed.

Lemma slength_app s t : String.length (s +:+ t) = String.length s + String.length t.
Proof. induction s as [|c s IH]; [done|]. rewrite sapp_cons. simpl. by rewrite IH. Qed.

Lemma sprefix_refl s : String.prefix s s = true.
Proof. induction s as [|c s IH]; [done|]. simpl. by destruct (ascii_dec c c). Qed.

Lemma sprefix_app_r s t : String.prefix s (s +:+ t) = true.
Proof.
  induction s as [|c s IH]; [by destruct t|].
  rewrite sapp_cons. simpl. by destruct (ascii_dec c c).
Qed.

Lemma sprefix_split p s : String.prefix p s = true → ∃ t, s = p +:+ t.
Proof.
  revert s. induction p as [|c p IH]; intros s H; [by exists s|].
  destruct s as [|d s]; [done|]. simpl in H.
  destruct (ascii_dec c d) as [->|]; [|done].
  destruct (IH _ H) as [t ->]. by exists t.
Qed.

Lemma stake_drop n s : JS.take n s +:+ JS.drop n s = s.
Proof.
  revert s. induction n as [|n IH]; intros [|c s]; try done.
  simpl. by rewrite sapp_cons, IH.
Qed.

Lemma slength_take n s : String.length (JS.take n s) = n `min` String.length s.
Proof.
  revert s. induction n as [|n IH]; intros [|c s]; try done.
  simpl. by rewrite IH.
Qed.

Lemma stake_all n s : String.length s ≤ n → JS.take n s = s.
Proof.
  revert s. induction n as [|n IH]; intros [|c s] H; try done; simpl in *; [lia|].
  rewrite IH; [done|lia].
Qed.

Lemma stake_app n s t :
  JS.take n (s +:+ t) = JS.take n s +:+ JS.take (n - String.length s) t.
Proof.
  revert s. induction n as [|n IH]; intros s.
  - by destruct s.
  - destruct s as [|c s].
    + change ("" +:+ t) with t. by destruct t.
    + rewrite sapp_cons. simpl. by rewrite IH, sapp_cons.
Qed.

Lemma stake_app_l n s t : n ≤ String.length s → JS.take n (s +:+ t) = JS.take n s.
Proof.
  intros H. rewrite stake_app. replace (n - String.length s) with 0 by lia.
  simpl. by rewrite sapp_nil_r.
Qed.

Lemma endsWith_split s p : JS.endsWith s p = true → ∃ t, s = t +:+ p.
Proof.
  unfold JS.endsWith, JS.takeRight. intros [_ H]%andb_true_iff.
  apply String.eqb_eq in H.
  exists (JS.take (String.length s - String.length p) s).
  rewrite <-H at 2. by rewrite stake_drop.
Qed.

Lemma split_nonnil sep s : JS.split sep s ≠ [].
Proof.
  destruct s as [|c s]; [done|]. simpl.
  destruct (Ascii.eqb c sep); [done|]. by destruct (JS.split sep s).
Qed.

Lemma split_app sep a b :
  JS.split sep (a +:+ String sep b) = JS.split sep a ++ JS.split sep b.
Proof.
  induction a as [|c a IH].
  - rewrite sapp_nil_l. simpl. by rewrite Ascii.eqb_refl.
  - rewrite sapp_cons. simpl. rewrite IH.
    destruct (Ascii.eqb c sep); [done|].
    pose proof (split_nonnil sep a). by destruct (JS.split sep a).
Qed.

(** A string without the character [c]. *)
Fixpoint noChar (c : ascii) (s : string) : Prop :=
  match s with
  | EmptyString => True
  | String a s' => a ≠ c ∧ noChar c s'
  end.

Lemma split_noChar sep s : noChar sep s → JS.split sep s = [s].
Proof.
  induction s as [|c s IH]; [done|]. intros [Hc Hs]. simpl.
  destruct (Ascii.eqb_spec c sep); [done|]. by rewrite IH.
Qed.

Lemma split_Forall_noChar sep s : Forall (noChar sep) (JS.split sep s).
Proof.
  induction s as [|c s IH]; simpl; [by repeat constructor|].
  destruct (Ascii.eqb_spec c sep) as [->|Hne]; [by constructor|].
  destruct (JS.split sep s) as [|h t]; [by repeat constructor|].
  inversion_clear IH. by repeat constructor.
Qed.

End JSFacts.

(** ** Path sandbox *)

Module PathSandboxFacts.
Import JSFacts PathSandbox.

(** A component of a canonical path: a real name, neither empty nor a dot
    entry, and free of separators. *)
Definition properSeg (s : string) : Prop :=
  s ≠ "" ∧ s ≠ "." ∧ s ≠ ".." ∧ noChar "/" s.

(** The canonical absolute path with the given components. *)
Definition absPath (segs : list string) : string := "/" +:+ JS.join "/" segs.

Lemma segments_app a b : segments (a +:+ String "/" b) = segments a ++ segments b.
Proof. unfold segments. by rewrite split_app, List.filter_app. Qed.

Lemma segments_empty : segments "" = [].
Proof. reflexivity. Qed.

Lemma segments_proper s : properSeg s → segments s = [s].
Proof.
  intros (Hne & _ & _ & Hno). unfold segments. rewrite split_noChar by done.
  simpl. by destruct s.
Qed.

Lemma segments_join segs :
  Forall properSeg segs → segments (JS.join "/" segs) = segs.
Proof.
  induction 1 as [|x l Hx Hl IH]; [done|].
  destruct l as [|y l].
  - simpl. by apply segments_proper.
  - change (JS.join "/" (x :: y :: l)) with (x +:+ String "/" (JS.join "/" (y :: l))).
    rewrite segments_app, IH. by rewrite segments_proper.
Qed.

Lemma segments_absPath segs : Forall properSeg segs → segments (absPath segs) = segs.
Proof.
  intros H. unfold absPath.
  change ("/" +:+ JS.join "/" segs) with ("" +:+ String "/" (JS.join "/" segs)).
  by rewrite segments_app, segments_join.
Qed.

Lemma absPath_app R rest :
  R ≠ [] → rest ≠ [] →
  absPath (R ++ rest) = absPath R +:+ String "/" (JS.join "/" rest).
Proof.
  intros HR Hrest. unfold absPath. rewrite sapp_assoc. f_equal.
  induction R as [|x R IH]; [done|].
  destruct R as [|y R].
  - destruct rest; [done|]. reflexivity.
  - change (JS.join "/" ((x :: y :: R) ++ rest))
      with (x +:+ String "/" (JS.join "/" ((y :: R) ++ rest))).
    rewrite IH by done.
    change (JS.join "/" (x :: y :: R)) with (x +:+ String "/" (JS.join "/" (y :: R))).
    by rewrite !sapp_assoc.
Qed.

Lemma normalizeStep_proper acc seg :
  Forall properSeg acc → noChar "/" seg →
  Forall properSeg (normalizeStep false acc seg).
Proof.
  intros Hacc Hseg. unfold normalizeStep.
  destruct (String.eqb_spec seg ""); [done|].
  destruct (String.eqb_spec seg "."); [done|]. simpl.
  destruct (String.eqb_spec seg "..").
  - destruct acc as [|top rest]; [done|].
    destruct (String.eqb top ".."); [done|]. by inversion Hacc.
  - constructor; [|done]. by repeat split.
Qed.

Lemma normalizeSegments_proper p : Forall properSeg (normalizeSegments false p).
Proof.
  unfold normalizeSegments. apply Forall_rev.
  assert (H : ∀ l acc, Forall (noChar "/") l → Forall properSeg acc →
              Forall properSeg (fold_left (normalizeStep false) l acc)).
  { induction l as [|x l IH]; intros acc Hl Hacc; [done|].
    inversion_clear Hl. simpl. apply IH; [done|]. by apply normalizeStep_proper. }
  apply H; [apply split_Forall_noChar | constructor].
Qed.

Lemma normalizeStep_keep acc seg :
  properSeg seg → normalizeStep false acc seg = seg :: acc.
Proof.
  intros (H1 & H2 & H3 & _). unfold normalizeStep.
  destruct (String.eqb_spec seg ""); [done|].
  destruct (String.eqb_spec seg "."); [done|]. simpl.
  by destruct (String.eqb_spec seg "..").
Qed.

Lemma normalizeSegments_canonical p :
  Forall properSeg (segments p) → normalizeSegments false p = segments p.
Proof.
  unfold normalizeSegments, segments.
  assert (H : ∀ l acc, Forall properSeg (List.filter JS.nonEmpty l) →
              fold_left (normalizeStep false) l acc
              = rev (List.filter JS.nonEmpty l) ++ acc).
  { induction l as [|x l IH]; intros acc Hl; [done|]. simpl in *.
    destruct x as [|c x]; simpl in *; [by apply IH|].
    inversion_clear Hl. rewrite IH by done.
    rewrite normalizeStep_keep by done. by rewrite <-List.app_assoc. }
  intros Hp. rewrite H by done. by rewrite app_nil_r, rev_involutive.
Qed.

Lemma resolveLoop_absolute cwd args resolved :
  JS.startsWith cwd "/" = true → (resolveLoop cwd args resolved).2 = true.
Proof.
  intros Hcwd. revert resolved.
  induction args as [|p args IH]; intros resolved; simpl.
  - destruct cwd; [done|]. done.
  - destruct (JS.nonEmpty p); [|by apply IH].
    destruct (JS.startsWith p "/"); [done|]. by apply IH.
Qed.

(** On POSIX [process.cwd()] is absolute, and then so is every resolved
    path, in canonical form. *)
Lemma path_resolve_canonical (cwd : string) args :
  JS.startsWith cwd "/" = true →
  ∃ segs, Forall properSeg segs ∧ path_resolve cwd args = absPath segs.
Proof.
  intros Hcwd. change (path_resolve cwd args) with (posix_resolve cwd args).
  unfold posix_resolve.
  pose proof (resolveLoop_absolute cwd (rev args) "" Hcwd) as Habs.
  destruct (resolveLoop cwd (rev args) "") as [resolved absolute].
  simpl in Habs. subst absolute. simpl.
  eexists. split; [apply normalizeSegments_proper | done].
Qed.

Lemma resolveLoop_absolute_head cwd a rest resolved :
  resolveLoop cwd (String "/" a :: rest) resolved
  = (String "/" a +:+ "/" +:+ resolved, true).
Proof. by destruct a. Qed.

Lemma path_resolve_absolute_last (cwd : string) args a :
  path_resolve cwd (args ++ [String "/" a])
  = "/" +:+ JS.join "/" (normalizeSegments false (String "/" a +:+ "/" +:+ "")).
Proof.
  change (path_resolve cwd (args ++ [String "/" a]))
    with (posix_resolve cwd (args ++ [String "/" a])).
  unfold posix_resolve. rewrite rev_unit, resolveLoop_absolute_head. reflexivity.
Qed.

(** Resolving a canonical absolute path returns it unchanged. *)
Lemma path_resolve_idem (cwd : string) segs :
  Forall properSeg segs → path_resolve cwd [absPath segs] = absPath segs.
Proof.
  intros Hsegs.
  change (path_resolve cwd [absPath segs])
    with (path_resolve cwd ([] ++ [String "/" (JS.join "/" segs)])).
  rewrite path_resolve_absolute_last.
  change (String "/" (JS.join "/" segs)) with (absPath segs).
  assert (Hseg : segments (absPath segs +:+ "/" +:+ "") = segs).
  { change (absPath segs +:+ "/" +:+ "") with (absPath segs +:+ String "/" "").
    rewrite segments_app, segments_absPath by done. by rewrite app_nil_r. }
  rewrite normalizeSegments_canonical; by rewrite Hseg.
Qed.

Lemma inside_decompose R C rootPrefix t :
  Forall properSeg R → Forall properSeg C →
  absPath C ≠ absPath R →
  (rootPrefix = absPath R +:+ "/" ∨ ∃ r, rootPrefix = absPath R ∧ absPath R = r +:+ "/") →
  absPath C = rootPrefix +:+ t →
  ∃ rest, rest ≠ [] ∧ C = R ++ rest.
Proof.
  intros HR HC Hne Hpre Hcand.
  assert (Hseg : C = R ++ segments t).
  { rewrite <-(segments_absPath C), <-(segments_absPath R) at 1 by done.
    rewrite Hcand. destruct Hpre as [->|(r & -> & Hr)].
    - rewrite sapp_assoc. change ("/" +:+ t) with (String "/" t).
      by rewrite segments_app.
    - rewrite Hr, sapp_assoc. change ("/" +:+ t) with (String "/" t).
      rewrite segments_app.
      change (r +:+ "/") with (r +:+ String "/" "").
      by rewrite segments_app, app_nil_r. }
  exists (segments t). split; [|done].
  intros Ht. rewrite Ht, app_nil_r in Hseg. by subst.
Qed.

Lemma inside_startsWith R rest rootPrefix :
  rest ≠ [] →
  (rootPrefix = absPath R +:+ "/" ∧ R ≠ [] ∨ rootPrefix = absPath R) →
  JS.startsWith (absPath (R ++ rest)) rootPrefix = true.
Proof.
  intros Hrest Hpre. unfold JS.startsWith.
  destruct (decide (R = [])) as [->|HR].
  - destruct Hpre as [[_ ?]| ->]; [done|]. apply (sprefix_app_r "/").
  - rewrite absPath_app by done. destruct Hpre as [[-> _]| ->].
    + change (String "/" (JS.join "/" rest)) with ("/" +:+ JS.join "/" rest).
      rewrite <-sapp_assoc. apply sprefix_app_r.
    + apply sprefix_app_r.
Qed.

(** *** Windows paths *)

Definition bs : ascii := ascii_of_nat 92.

(** The name of a server or of a share. *)
Definition deviceName (s : string) : Prop := s ≠ "" ∧ noChar bs s.

(** A component of a canonical Windows path. *)
Definition properName (s : string) : Prop :=
  s ≠ "" ∧ s ≠ "." ∧ s ≠ ".." ∧ noChar bs s ∧ noChar "/" s.

(** The device of an absolute path: a drive, or a server and a share. *)
Inductive deviceForm : string → Prop :=
| DriveForm c :
    Win32Path.isWindowsDeviceRoot c = true → deviceForm (String c ":")
| UncForm server share :
    deviceName server → deviceName share →
    deviceForm (backslash +:+ backslash +:+ server +:+ backslash +:+ share).

(** The canonical absolute path on a device with the given components. *)
Definition winPath (device : string) (names : list string) : string :=
  device +:+ backslash +:+ JS.join backslash names.

Definition canonicalWin (p : string) : Prop :=
  ∃ device names,
    deviceForm device ∧ Forall properName names ∧ p = winPath device names.

(** The parts of a path between backslashes, without the empty part that a
    final backslash leaves: for a canonical path, the parts of the device
    followed by the components. *)
Definition winComponents (p : string) : list string :=
  let parts := JS.split bs p in
  match rev parts with
  | EmptyString :: before => rev before
  | _ => parts
  end.

(** *** What a resolved path denotes *)

(** The text compared: letter case counts on POSIX and not on Windows. *)
Definition caseFold (cwd : Process) (p : string) : string :=
  match platform cwd with
  | Posix => p
  | Win32 _ => JS.toLowerCase p
  end.

Definition components (cwd : Process) (p : string) : list string :=
  match platform cwd with
  | Posix => segments p
  | Win32 _ => winComponents (JS.toLowerCase p)
  end.

Definition canonical (cwd : Process) (p : string) : Prop :=
  match platform cwd with
  | Posix => p = absPath (segments p) ∧ Forall properSeg (segments p)
  | Win32 _ => canonicalWin p
  end.

(** What is taken from the process.  On POSIX, [process.cwd()] is absolute.
    On Windows, [path.resolve] gives the root and the candidate as canonical
    absolute paths, and gives such a path back when it is resolved again. *)
Definition resolvesCanonically (cwd : Process) (workspaceRoot userPath : string)
  : Prop :=
  match platform cwd with
  | Posix => JS.startsWith (workingDirectory cwd) "/" = true
  | Win32 _ =>
      let rootResolved := path_resolve cwd [workspaceRoot] in
      let candidate := path_resolve cwd [rootResolved; userPath] in
      canonicalWin rootResolved
      ∧ path_resolve cwd [rootResolved] = rootResolved
      ∧ canonicalWin candidate
      ∧ path_resolve cwd [candidate] = candidate
  end.

Definition lowerFixed (x : ascii) : Prop := ∀ c, JS.lowerChar c = x → c = x.

Lemma lowerFixed_bs : lowerFixed bs.
Proof. intros c. destruct c as [[] [] [] [] [] [] [] []]; vm_compute; congruence. Qed.

Lemma lowerFixed_slash : lowerFixed "/".
Proof. intros c. destruct c as [[] [] [] [] [] [] [] []]; vm_compute; congruence. Qed.

Lemma lowerFixed_dot : lowerFixed ".".
Proof. intros c. destruct c as [[] [] [] [] [] [] [] []]; vm_compute; congruence. Qed.

Lemma deviceRoot_lower c :
  Win32Path.isWindowsDeviceRoot c = true →
  Win32Path.isWindowsDeviceRoot (JS.lowerChar c) = true.
Proof. destruct c as [[] [] [] [] [] [] [] []]; vm_compute; congruence. Qed.

Lemma deviceRoot_not_bs c : Win32Path.isWindowsDeviceRoot c = true → c ≠ bs.
Proof. destruct c as [[] [] [] [] [] [] [] []]; vm_compute; congruence. Qed.

Lemma toLowerCase_app s t :
  JS.toLowerCase (s +:+ t) = JS.toLowerCase s +:+ JS.toLowerCase t.
Proof. induction s as [|c s IH]; [done|]. rewrite sapp_cons. simpl. by rewrite IH. Qed.

Lemma toLowerCase_join sep l :
  JS.toLowerCase (JS.join sep l)
  = JS.join (JS.toLowerCase sep) (map JS.toLowerCase l).
Proof.
  induction l as [|x l IH]; [done|]. destruct l as [|y l]; [done|].
  change (JS.join sep (x :: y :: l)) with (x +:+ sep +:+ JS.join sep (y :: l)).
  rewrite !toLowerCase_app, IH. reflexivity.
Qed.

Lemma noChar_lower x s : lowerFixed x → noChar x s → noChar x (JS.toLowerCase s).
Proof.
  intros Hx. induction s as [|c s IH]; [done|]. intros [Hc Hs]. simpl.
  split; [|by apply IH]. intros H. by apply Hc, Hx.
Qed.

Lemma lower_empty s : JS.toLowerCase s = "" → s = "".
Proof. by destruct s. Qed.

Lemma lower_dot s : JS.toLowerCase s = "." → s = ".".
Proof.
  destruct s as [|c [|d s]]; try done. simpl. intros [= H].
  by rewrite (lowerFixed_dot c H).
Qed.

Lemma lower_dotdot s : JS.toLowerCase s = ".." → s = "..".
Proof.
  destruct s as [|c [|d [|e s]]]; try done. simpl. intros [= H1 H2].
  by rewrite (lowerFixed_dot c H1), (lowerFixed_dot d H2).
Qed.

Lemma properName_lower s : properName s → properName (JS.toLowerCase s).
Proof.
  intros (H1 & H2 & H3 & H4 & H5). repeat split.
  - intros H. by apply H1, lower_empty.
  - intros H. by apply H2, lower_dot.
  - intros H. by apply H3, lower_dotdot.
  - by apply noChar_lower; [apply lowerFixed_bs|].
  - by apply noChar_lower; [apply lowerFixed_slash|].
Qed.

Lemma deviceName_lower s : deviceName s → deviceName (JS.toLowerCase s).
Proof.
  intros [H1 H2]. split.
  - intros H. by apply H1, lower_empty.
  - by apply noChar_lower; [apply lowerFixed_bs|].
Qed.

Lemma deviceForm_lower d : deviceForm d → deviceForm (JS.toLowerCase d).
Proof.
  destruct 1 as [c Hc|server share Hserver Hshare].
  - apply (DriveForm (JS.lowerChar c)). by apply deviceRoot_lower.
  - rewrite !toLowerCase_app.
    apply (UncForm (JS.toLowerCase server) (JS.toLowerCase share));
      by apply deviceName_lower.
Qed.

Lemma winPath_lower d names :
  JS.toLowerCase (winPath d names)
  = winPath (JS.toLowerCase d) (map JS.toLowerCase names).
Proof. unfold winPath. by rewrite !toLowerCase_app, toLowerCase_join. Qed.

Lemma canonicalWin_lower p : canonicalWin p → canonicalWin (JS.toLowerCase p).
Proof.
  intros (d & names & Hd & Hnames & ->).
  exists (JS.toLowerCase d), (map JS.toLowerCase names). split; [|split].
  - by apply deviceForm_lower.
  - apply Forall_map. eapply Forall_impl; [done|]. apply properName_lower.
  - apply winPath_lower.
Qed.

Lemma join_cons sep x y l :
  JS.join sep (x :: y :: l) = x +:+ sep +:+ JS.join sep (y :: l).
Proof. reflexivity. Qed.

Lemma join_app sep R rest :
  R ≠ [] → rest ≠ [] →
  JS.join sep (R ++ rest) = JS.join sep R +:+ sep +:+ JS.join sep rest.
Proof.
  intros HR Hrest. induction R as [|x R IH]; [done|].
  destruct R as [|y R].
  - destruct rest; [done|]. reflexivity.
  - change ((x :: y :: R) ++ rest) with (x :: y :: (R ++ rest)).
    rewrite !join_cons. change (y :: R ++ rest) with ((y :: R) ++ rest).
    rewrite IH by done. by rewrite !sapp_assoc.
Qed.

Lemma split_join_names names :
  Forall properName names → names ≠ [] →
  JS.split bs (JS.join backslash names) = names.
Proof.
  induction 1 as [|x l Hx Hl IH]; [done|]. intros _.
  destruct Hx as (_ & _ & _ & Hx & _).
  destruct l as [|y l].
  - simpl. by apply split_noChar.
  - rewrite join_cons.
    change (x +:+ backslash +:+ JS.join backslash (y :: l))
      with (x +:+ String bs (JS.join backslash (y :: l))).
    rewrite split_app, IH by done. by rewrite split_noChar.
Qed.

(** The parts of a device: one for a drive, four for a server and share. *)
Lemma split_device d :
  deviceForm d →
  (∃ c, d = String c ":" ∧ JS.split bs d = [d])
  ∨ (∃ server share,
       d = backslash +:+ backslash +:+ server +:+ backslash +:+ share
       ∧ JS.split bs d = [""; ""; server; share]).
Proof.
  destruct 1 as [c Hc|server share [_ Hserver] [_ Hshare]].
  - left. exists c. split; [done|]. apply split_noChar.
    split; [by apply deviceRoot_not_bs|]. by split.
  - right. exists server, share. split; [done|].
    change (backslash +:+ backslash +:+ server +:+ backslash +:+ share)
      with ("" +:+ String bs ("" +:+ String bs (server +:+ String bs share))).
    rewrite !split_app. by rewrite !split_noChar.
Qed.

Lemma split_winPath d names :
  Forall properName names →
  JS.split bs (winPath d names)
  = JS.split bs d ++ match names with [] => [""] | _ => names end.
Proof.
  intros Hnames. unfold winPath.
  change (d +:+ backslash +:+ JS.join backslash names)
    with (d +:+ String bs (JS.join backslash names)).
  rewrite split_app. f_equal. destruct names as [|x l]; [done|].
  by apply split_join_names.
Qed.

Lemma winComponents_winPath d names :
  Forall properName names →
  winComponents (winPath d names) = JS.split bs d ++ names.
Proof.
  intros Hnames. unfold winComponents. rewrite split_winPath by done.
  destruct (decide (names = [])) as [->|Hne].
  - rewrite rev_unit, rev_involutive. by rewrite app_nil_r.
  - destruct names as [|x l]; [done|].
    destruct (exists_last Hne) as (init & lastName & Hlast).
    rewrite Hlast, app_assoc, rev_unit.
    assert (HlastName : lastName ≠ "").
    { rewrite Hlast in Hnames. apply Forall_app in Hnames as [_ Hnames].
      inversion_clear Hnames as [|? ? H]. apply H. }
    by destruct lastName.
Qed.

(** The parts determine the device and the components. *)
Lemma winPath_parts_inj d d' R C rest :
  deviceForm d → deviceForm d' →
  JS.split bs d' ++ C = JS.split bs d ++ R ++ rest →
  d' = d ∧ C = R ++ rest.
Proof.
  intros Hd Hd'.
  destruct (split_device d Hd) as [(c & Hc & ->)|(a & b & Hab & ->)],
    (split_device d' Hd') as [(c' & Hc' & ->)|(a' & b' & Hab' & ->)];
    simpl; intros [= ]; by subst.
Qed.

Lemma endsWith_app s p : JS.endsWith (s +:+ p) p = true.
Proof.
  unfold JS.endsWith, JS.takeRight. rewrite slength_app.
  apply andb_true_iff. split; [apply Nat.leb_le; lia|].
  replace (String.length s + String.length p - String.length p)
    with (String.length s) by lia.
  apply String.eqb_eq. induction s as [|c s IH]; [by destruct p|].
  by rewrite sapp_cons.
Qed.

Lemma winPath_endsWith d names :
  Forall properName names →
  JS.endsWith (winPath d names) backslash = true → names = [].
Proof.
  intros Hnames [t Ht]%endsWith_split.
  destruct (decide (names = [])) as [|Hne]; [done|]. exfalso.
  apply (f_equal (JS.split bs)) in Ht.
  change (t +:+ backslash) with (t +:+ String bs "") in Ht.
  rewrite split_app, split_winPath in Ht by done.
  destruct names as [|x l]; [done|].
  destruct (exists_last Hne) as (init & lastName & Hlast).
  rewrite Hlast in Ht, Hnames. simpl in Ht.
  rewrite app_assoc in Ht. apply app_inj_tail in Ht as [_ ->].
  apply Forall_app in Hnames as [_ Hnames].
  inversion_clear Hnames as [|? ? H]. by destruct H as [H _].
Qed.

(** The prefix that is compared, for a canonical root. *)
Definition winPrefix (rootCmp : string) : string :=
  if JS.endsWith rootCmp backslash then rootCmp else rootCmp +:+ backslash.

Lemma win_inside d R d' C :
  deviceForm d → deviceForm d' →
  Forall properName R → Forall properName C →
  winPath d' C ≠ winPath d R →
  JS.startsWith (winPath d' C) (winPrefix (winPath d R)) = true →
  ∃ rest, rest ≠ [] ∧ JS.split bs d' ++ C = (JS.split bs d ++ R) ++ rest.
Proof.
  intros Hd Hd' HR HC Hne [t Ht]%sprefix_split.
  assert (Hparts : JS.split bs (winPath d' C)
                   = (JS.split bs d ++ R) ++ JS.split bs t).
  { rewrite Ht. unfold winPrefix.
    destruct (JS.endsWith (winPath d R) backslash) eqn:Hends.
    - apply winPath_endsWith in Hends as ->; [|done].
      unfold winPath. simpl JS.join. rewrite sapp_nil_r, sapp_assoc.
      change (backslash +:+ t) with (String bs t).
      by rewrite split_app, app_nil_r.
    - rewrite sapp_assoc. change (backslash +:+ t) with (String bs t).
      rewrite split_app, split_winPath by done.
      destruct R as [|x R]; [|done].
      unfold winPath in Hends. simpl JS.join in Hends.
      rewrite sapp_nil_r in Hends. by rewrite endsWith_app in Hends. }
  rewrite split_winPath in Hparts by done.
  destruct C as [|x C].
  - pose proof (split_nonnil bs t) as Hnil.
    destruct (exists_last Hnil) as (init & lastPart & Hlast).
    rewrite Hlast, app_assoc in Hparts.
    apply app_inj_tail in Hparts as [Hparts _].
    exists init. split; [|by rewrite app_nil_r].
    intros ->. rewrite app_nil_r in Hparts.
    destruct (winPath_parts_inj d d' R [] [] Hd Hd') as [-> HRnil].
    { by rewrite !app_nil_r. }
    rewrite app_nil_r in HRnil. by subst R.
  - exists (JS.split bs t). split; [apply split_nonnil | done].
Qed.

Lemma win_outside d R d' C rest :
  deviceForm d → deviceForm d' →
  Forall properName R →
  JS.split bs d' ++ C = (JS.split bs d ++ R) ++ rest →
  winPath d' C = winPath d R
  ∨ JS.startsWith (winPath d' C) (winPrefix (winPath d R)) = true.
Proof.
  intros Hd Hd' HR Hparts. rewrite <-app_assoc in Hparts.
  destruct (winPath_parts_inj d d' R C rest Hd Hd' Hparts) as [-> ->].
  destruct (decide (rest = [])) as [->|Hrest]; [left; by rewrite app_nil_r|].
  right. unfold JS.startsWith, winPrefix.
  destruct (decide (R = [])) as [->|HRne].
  - assert (Hroot : winPath d [] = d +:+ backslash).
    { unfold winPath. simpl JS.join. by rewrite sapp_nil_r. }
    rewrite Hroot, endsWith_app. simpl app. unfold winPath.
    rewrite <-sapp_assoc. apply sprefix_app_r.
  - assert (Hcand : winPath d (R ++ rest)
                    = winPath d R +:+ backslash +:+ JS.join backslash rest).
    { unfold winPath. rewrite join_app by done. by rewrite !sapp_assoc. }
    rewrite Hcand. destruct (JS.endsWith (winPath d R) backslash).
    + apply sprefix_app_r.
    + rewrite <-sapp_assoc. apply sprefix_app_r.
Qed.

(** The sandbox on POSIX. *)
Lemma resolveWorkspacePath_posix (cwd : string) workspaceRoot userPath :
  JS.startsWith cwd "/" = true →
  let rootResolved := path_resolve cwd [workspaceRoot] in
  let candidate := path_resolve cwd [rootResolved; userPath] in
  match resolveWorkspacePath cwd workspaceRoot userPath with
  | inr resolved =>
      resolved = candidate
      ∧ (resolved = absPath (segments resolved)
         ∧ Forall properSeg (segments resolved))
      ∧ (resolved = rootResolved
         ∨ ∃ rest, rest ≠ [] ∧ segments resolved = segments rootResolved ++ rest)
  | inl err =>
      err = PathEscape userPath
      ∧ ¬ ∃ rest, segments candidate = segments rootResolved ++ rest
  end.
Proof.
  intros Hcwd rootResolved candidate.
  destruct (path_resolve_canonical cwd [workspaceRoot] Hcwd) as (R & HR & HrootE).
  destruct (path_resolve_canonical cwd [rootResolved; userPath] Hcwd)
    as (C & HC & HcandE).
  unfold resolveWorkspacePath, normalizeForComparison.
  cbn [platform posix path_sep].
  fold rootResolved. fold candidate.
  assert (Hroot : rootResolved = absPath R) by done.
  assert (Hcand : candidate = absPath C) by done.
  clearbody rootResolved candidate. subst rootResolved candidate.
  rewrite !path_resolve_idem by done.
  rewrite !segments_absPath by done.
  set (rootPrefix := if JS.endsWith (absPath R) "/" then absPath R
                     else absPath R +:+ "/").
  destruct (String.eqb_spec (absPath C) (absPath R)) as [Heq|Hne];
    cbn [negb andb].
  { rewrite segments_absPath by done. auto. }
  destruct (JS.startsWith (absPath C) rootPrefix) eqn:Hstarts; cbn [negb].
  - rewrite segments_absPath by done. repeat split; [done|]. right.
    apply sprefix_split in Hstarts as [t Ht].
    apply (inside_decompose R C rootPrefix t); try done.
    subst rootPrefix. destruct (JS.endsWith (absPath R) "/") eqn:Hends; [|by left].
    right. apply endsWith_split in Hends as [r Hr]. eauto.
  - split; [done|]. intros [rest Hrest]. subst C.
    destruct (decide (rest = [])) as [->|Hnil].
    { by rewrite app_nil_r in Hne. }
    rewrite inside_startsWith in Hstarts; [done|done|].
    subst rootPrefix. destruct (JS.endsWith (absPath R) "/") eqn:Hends; [by right|].
    left. split; [done|]. by intros ->.
Qed.

(** The sandbox on Windows, for the functions of node:path there. *)
Lemma resolveWorkspacePath_win32 (cwd : Process) win32 workspaceRoot userPath :
  platform cwd = Win32 win32 →
  let rootResolved := win32Resolve win32 [workspaceRoot] in
  let candidate := win32Resolve win32 [rootResolved; userPath] in
  canonicalWin rootResolved → win32Resolve win32 [rootResolved] = rootResolved →
  canonicalWin candidate → win32Resolve win32 [candidate] = candidate →
  match resolveWorkspacePath cwd workspaceRoot userPath with
  | inr resolved =>
      resolved = candidate
      ∧ canonicalWin resolved
      ∧ (JS.toLowerCase resolved = JS.toLowerCase rootResolved
         ∨ ∃ rest, rest ≠ []
             ∧ winComponents (JS.toLowerCase resolved)
               = winComponents (JS.toLowerCase rootResolved) ++ rest)
  | inl err =>
      err = PathEscape userPath
      ∧ ¬ ∃ rest, winComponents (JS.toLowerCase candidate)
                  = winComponents (JS.toLowerCase rootResolved) ++ rest
  end.
Proof.
  intros Hplatform rootResolved candidate HrootC HrootI HcandC HcandI.
  unfold resolveWorkspacePath, normalizeForComparison, path_resolve, path_sep.
  rewrite Hplatform. fold rootResolved. fold candidate.
  rewrite HrootI, HcandI.
  destruct (canonicalWin_lower _ HrootC) as (d & R & Hd & HR & HrootE).
  destruct (canonicalWin_lower _ HcandC) as (d' & C & Hd' & HC & HcandE).
  rewrite HrootE, HcandE. rewrite !winComponents_winPath by done.
  fold (winPrefix (winPath d R)).
  destruct (String.eqb_spec (winPath d' C) (winPath d R)) as [Heq|Hne];
    cbn [negb andb].
  { rewrite HcandE. auto. }
  destruct (JS.startsWith (winPath d' C) (winPrefix (winPath d R))) eqn:Hstarts;
    cbn [negb].
  - rewrite HcandE, winComponents_winPath by done.
    repeat split; [done|]. right. by apply win_inside.
  - split; [done|]. intros [rest Hrest].
    destruct (win_outside d R d' C rest Hd Hd' HR Hrest) as [H|H]; [done|].
    by rewrite H in Hstarts.
Qed.


(** A process on Windows, in a directory of drive C. *)
Definition windowsProcess : Process :=
  Win32Path.windows "C:\Users\u" (λ _, None)
    (λ _ to, to) (λ a b, a +:+ backslash +:+ b).



End PathSandboxFacts.


(** ** Shell runner *)

Module ShellFacts.
Import JSFacts Shell.

Definition isSettle (ev : ProcEvent) : bool :=
  match ev with
  | ProcError _ | ProcClose _ _ => true
  | _ => false
  end.

Definition isTimer (ev : ProcEvent) : bool :=
  match ev with
  | TimerFired => true
  | _ => false
  end.

(** The events delivered before the promise is settled. *)
Fixpoint settledPrefix (events : list ProcEvent) : list ProcEvent :=
  match events with
  | [] => []
  | ev :: rest => if isSettle ev then [] else ev :: settledPrefix rest
  end.

(** Everything the child wrote on a stream, in order. *)
Fixpoint stdoutText (events : list ProcEvent) : string :=
  match events with
  | [] => ""
  | StdoutData chunk :: rest => chunk +:+ stdoutText rest
  | _ :: rest => stdoutText rest
  end.

Fixpoint stderrText (events : list ProcEvent) : string :=
  match events with
  | [] => ""
  | StderrData chunk :: rest => chunk +:+ stderrText rest
  | _ :: rest => stderrText rest
  end.

Lemma appendCapped_take maxChars s chunk :
  appendCapped (JS.take (Z.to_nat maxChars) s) chunk maxChars
  = JS.take (Z.to_nat maxChars) (s +:+ chunk).
Proof.
  unfold appendCapped. rewrite slength_take.
  destruct (Z.leb_spec maxChars
              (Z.of_nat (Z.to_nat maxChars `min` String.length s))) as [Hle|Hlt].
  - symmetry. destruct (decide (maxChars ≤ 0)%Z) as [Hneg|Hpos].
    + replace (Z.to_nat maxChars) with 0 by lia. done.
    + rewrite stake_app_l by lia. done.
  - rewrite stake_app. rewrite (stake_all _ s) by lia. do 2 f_equal. lia.
Qed.

Lemma appendCapped_length maxChars current chunk :
  (Z.of_nat (String.length current) ≤ maxChars)%Z →
  (Z.of_nat (String.length (appendCapped current chunk maxChars)) ≤ maxChars)%Z.
Proof.
  intros H. unfold appendCapped.
  destruct (Z.leb_spec maxChars (Z.of_nat (String.length current))); [done|].
  rewrite slength_app, slength_take. lia.
Qed.

Lemma handle_settled cmd maxChars r ev :
  r_settled r = true →
  let r' := handle cmd maxChars r ev in
  r_outcome r' = r_outcome r ∧ r_kills r' = r_kills r
  ∧ r_timedOut r' = r_timedOut r ∧ r_settled r' = true.
Proof. intros Hs. destruct ev; simpl; rewrite ?Hs; done. Qed.

(** Once the promise is settled no handler changes its outcome, the flag or
    the number of kills. *)
Lemma settled_frozen cmd maxChars events r :
  r_settled r = true →
  let r' := fold_left (handle cmd maxChars) events r in
  r_outcome r' = r_outcome r ∧ r_kills r' = r_kills r
  ∧ r_timedOut r' = r_timedOut r ∧ r_settled r' = true.
Proof.
  revert r. induction events as [|ev events IH]; intros r Hs; [done|].
  destruct (handle_settled cmd maxChars r ev Hs) as (Ho & Hk & Ht & Hs').
  destruct (IH _ Hs') as (Ho' & Hk' & Ht' & Hs'').
  simpl. rewrite Ho', Hk', Ht'. done.
Qed.

Definition countTimers (events : list ProcEvent) : nat :=
  length (List.filter isTimer events).

(** The state of the handlers before the promise is settled, from the events
    delivered so far. *)
Lemma unsettled_state cmd maxChars events r so se :
  r_settled r = false → r_outcome r = None →
  r_stdout r = JS.take (Z.to_nat maxChars) so →
  r_stderr r = JS.take (Z.to_nat maxChars) se →
  Forall (λ ev, isSettle ev = false) events →
  let r' := fold_left (handle cmd maxChars) events r in
  r_settled r' = false ∧ r_outcome r' = None
  ∧ r_stdout r' = JS.take (Z.to_nat maxChars) (so +:+ stdoutText events)
  ∧ r_stderr r' = JS.take (Z.to_nat maxChars) (se +:+ stderrText events)
  ∧ r_timedOut r' = r_timedOut r || existsb isTimer events
  ∧ r_kills r' = r_kills r + countTimers events.
Proof.
  revert r so se. induction events as [|ev events IH]; intros r so se Hs Ho Hso Hse Hall.
  { simpl. rewrite !sapp_nil_r, orb_false_r. unfold countTimers. simpl.
    repeat split; first [done | lia]. }
  inversion_clear Hall as [|?? Hev Hrest]. simpl.
  destruct ev as [chunk|chunk| | |]; try done; simpl.
  - edestruct (IH (handle cmd maxChars r (StdoutData chunk)) (so +:+ chunk) se)
      as (?&?&?&?&?&?); try done.
    { simpl. by rewrite Hso, appendCapped_take. }
    simpl in *. rewrite <-sapp_assoc. done.
  - edestruct (IH (handle cmd maxChars r (StderrData chunk)) so (se +:+ chunk))
      as (?&?&?&?&?&?); try done.
    { simpl. by rewrite Hse, appendCapped_take. }
    simpl in *. rewrite <-sapp_assoc. done.
  - rewrite Hs.
    set (r1 := {| r_stdout := r_stdout r; r_stderr := r_stderr r;
                  r_timedOut := true; r_settled := false;
                  r_kills := S (r_kills r); r_outcome := r_outcome r |}).
    destruct (IH r1 so se) as (?&?&?&?&Ht&Hk); try done.
    rewrite Ht, Hk. subst r1. simpl. rewrite orb_true_r. unfold countTimers. simpl.
    repeat split; first [done | lia].
Qed.

Lemma settledPrefix_unsettled events :
  Forall (λ ev, isSettle ev = false) (settledPrefix events).
Proof.
  induction events as [|ev events IH]; simpl; [done|].
  destruct (isSettle ev) eqn:He; [done|]. by constructor.
Qed.

Lemma settledPrefix_split events :
  events = settledPrefix events
  ∨ ∃ ev post, isSettle ev = true ∧ events = settledPrefix events ++ ev :: post.
Proof.
  induction events as [|ev events IH]; simpl; [by left|].
  destruct (isSettle ev) eqn:He; [right; by exists ev, events|].
  destruct IH as [IH|(ev' & post & Hs & IH)].
  - left. by f_equal.
  - right. exists ev', post. split; [done|]. simpl. by rewrite <-IH.
Qed.

(** The result of a settled run, from the events delivered before it was
    settled. *)
Lemma runShellCommand_resolved cmd maxChars events run :
  runShellCommand cmd maxChars events = Some (inr run) →
  let delivered := settledPrefix events in
  stdout run = JS.take (Z.to_nat maxChars) (stdoutText delivered)
  ∧ stderr run = JS.take (Z.to_nat maxChars) (stderrText delivered)
  ∧ timedOut run = existsb isTimer delivered
  ∧ r_kills (runEvents cmd maxChars events) = countTimers delivered.
Proof.
  intros Hrun delivered. unfold runShellCommand, runEvents in *.
  pose proof (settledPrefix_unsettled events) as Hpre. fold delivered in Hpre.
  assert (Hinit : JS.take (Z.to_nat maxChars) "" = "").
  { by destruct (Z.to_nat maxChars). }
  destruct (unsettled_state cmd maxChars delivered runnerInit "" ""
              eq_refl eq_refl (eq_sym Hinit) (eq_sym Hinit) Hpre)
    as (Hs & Ho & Hout & Herr & Ht & Hk).
  destruct (settledPrefix_split events) as [Hev|(ev & post & Hsettle & Hev)];
    fold delivered in Hev; rewrite Hev in Hrun |- *.
  { by rewrite Ho in Hrun. }
  rewrite fold_left_app in Hrun |- *. simpl in Hrun |- *.
  set (r1 := fold_left (handle cmd maxChars) delivered runnerInit) in *.
  assert (Hs1 : r_settled (handle cmd maxChars r1 ev) = true).
  { destruct ev; try done; simpl; by rewrite Hs. }
  destruct (settled_frozen cmd maxChars post _ Hs1) as (Ho' & Hk' & _ & _).
  rewrite Ho' in Hrun. rewrite Hk'.
  destruct ev; try done; simpl in Hrun |- *; rewrite Hs in Hrun |- *; [done|].
  simpl in Hrun. injection Hrun as <-. simpl. by rewrite Hout, Herr, Ht, Hk.
Qed.

Lemma succeeded_iff run :
  Orchestrator.succeeded run = true
  ↔ exitCode run = Some 0%Z ∧ timedOut run = false.
Proof.
  unfold Orchestrator.succeeded. destruct (exitCode run) as [code|].
  - rewrite andb_true_iff, Z.eqb_eq, negb_true_iff.
    split; [intros [-> ?]; done | intros [[= ->] ?]; done].
  - split; [done | intros [? _]; done].
Qed.

(** C8. Shell-runner output and success semantics: a resolved run holds on
    each stream the first [maxOutputChars] characters of what the child wrote
    on that stream before the promise was settled, whatever the other stream
    received; the child is killed only by the timer (once per timer event,
    never for its output); and a command action and a verify command that
    reach the shell are successful exactly when the exit code is 0 and the run
    did not time out. *)
Theorem shell_caps_and_success cmd maxOutputChars events run :
  runShellCommand cmd maxOutputChars events = Some (inr run) →
  let delivered := settledPrefix events in
  stdout run = JS.take (Z.to_nat maxOutputChars) (stdoutText delivered)
  ∧ stderr run = JS.take (Z.to_nat maxOutputChars) (stderrText delivered)
  ∧ ((0 ≤ maxOutputChars)%Z →
       (Z.of_nat (String.length (stdout run)) ≤ maxOutputChars)%Z
       ∧ (Z.of_nat (String.length (stderr run)) ≤ maxOutputChars)%Z)
  ∧ r_kills (runEvents cmd maxOutputChars events) = countTimers delivered
  ∧ timedOut run = existsb isTimer delivered
  ∧ (∀ E command w files,
       Policy.allowed
         (Policy.isCommandAllowed (Orchestrator.patternTest E)
            (Orchestrator.policy E) command) = true →
       Orchestrator.shell E command (Orchestrator.fs w) = (inr run, files) →
       (Orchestrator.ok (Orchestrator.executeRunCommand E command w).1 = true
          ↔ exitCode run = Some 0%Z ∧ timedOut run = false)
       ∧ (Orchestrator.ok (Orchestrator.runVerifyCommand E command w).1 = true
          ↔ exitCode run = Some 0%Z ∧ timedOut run = false)).
Proof.
  intros Hrun delivered.
  destruct (runShellCommand_resolved _ _ _ _ Hrun) as (Hout & Herr & Ht & Hk).
  fold delivered in Hout, Herr, Ht, Hk.
  split; [done|]. split; [done|]. split.
  { intros Hmax. rewrite Hout, Herr, !slength_take. lia. }
  split; [done|]. split; [done|].
  intros E command w files Hallowed Hshell.
  unfold Orchestrator.executeRunCommand, Orchestrator.runVerifyCommand.
  rewrite Hallowed, Hshell. simpl. split; apply succeeded_iff.
Qed.

End ShellFacts.

(** C8, on a run whose standard output exceeds the cap while the child still
    exits with code 0. *)
Lemma shell_caps_and_success_witness :
  let events := [Shell.StdoutData "hello world"; Shell.StderrData "warn";
                 Shell.StdoutData "more"; Shell.ProcClose (Some 0%Z) 12%Z] in
  let run := {| Shell.command := "ls"; Shell.exitCode := Some 0%Z;
                Shell.timedOut := false; Shell.durationMs := 12%Z;
                Shell.stdout := "hello"; Shell.stderr := "warn" |} in
  Shell.runShellCommand "ls" 5%Z events = Some (inr run)
  ∧ Shell.stdout run = "hello"
  ∧ Shell.stderr run = "warn"
  ∧ Shell.r_kills (Shell.runEvents "ls" 5%Z events) = 0.
Proof.
  intros events run. split; [reflexivity|].
  destruct (ShellFacts.shell_caps_and_success "ls" 5%Z events run eq_refl)
    as (Hout & Herr & _ & Hkills & _).
  split; [exact Hout|]. split; [exact Herr|exact Hkills].
Defined.

(** ** Change tracker *)

Module ChangeTrackerFacts.
Import ChangeTracker FileTools.

(** The file operation that restores one snapshot: the content recorded
    before is written back when the file existed, and the file is deleted
    otherwise. *)
Definition restoreSnapshot (cwd : Process) (workspaceRoot : string)
    (s : FileSnapshot) (fs : FS) : Error + FS :=
  if existed s then writeFile cwd workspaceRoot (path s) (before s) fs
  else deleteFileIfExists cwd workspaceRoot (path s) fs.

(** Restoring snapshots one after the other, up to the first operation that
    fails: the snapshots restored, the error if any, and the files left. *)
Fixpoint restoreAll (cwd : Process) (workspaceRoot : string)
    (todo : list FileSnapshot) (fs : FS)
  : list FileSnapshot * option Error * FS :=
  match todo with
  | [] => ([], None, fs)
  | s :: rest =>
      match restoreSnapshot cwd workspaceRoot s fs with
      | inl e => ([], Some e, fs)
      | inr fs' =>
          let '(restored, err, fs'') := restoreAll cwd workspaceRoot rest fs' in
          (s :: restored, err, fs'')
      end
  end.

(** The snapshots of the tracked paths, in the order given. *)
Definition snapshotsOf (ct : t) (paths : list string) : list FileSnapshot :=
  omap (λ p, snapshots ct !! p) paths.

(** A snapshot that needs no restoring: the file existed and its content is
    what it was. *)
Definition unchangedFile (s : FileSnapshot) : bool :=
  existed s && negb (changed s).

(** The snapshots to restore, in the order of first recording. *)
Definition restorable (ct : t) : list FileSnapshot :=
  List.filter (λ s, negb (unchangedFile s)) (snapshotsOf ct (order ct)).

(** No tracked file was created with the content recorded for its
    absence. *)
Definition createdFilesChanged (ct : t) : Prop :=
  Forall (λ s, existed s = false → changed s = true) (snapshotsOf ct (order ct)).

(** The paths resolve and the host refuses none of the operations. *)
Definition restoresAll (cwd : Process) (workspaceRoot : string)
    (todo : list FileSnapshot) (fs : FS) : Prop :=
  (restoreAll cwd workspaceRoot todo fs).1.2 = None.

Lemma recordBefore_tracked p e b ct :
  is_Some (snapshots ct !! p) → recordBefore p e b ct = ct.
Proof. intros [s Hs]. unfold recordBefore. by rewrite Hs. Qed.

Lemma recordBefore_fresh p e b ct :
  snapshots ct !! p = None →
  snapshots (recordBefore p e b ct) !! p
  = Some {| path := p; existed := e; before := b; after := b |}
  ∧ order (recordBefore p e b ct) = order ct ++ [p].
Proof.
  intros Hs. unfold recordBefore. rewrite Hs. simpl.
  by rewrite lookup_insert_eq.
Qed.

Lemma rollbackLoop_spec cwd root snaps targets restored fs :
  rollbackLoop cwd root snaps targets restored fs
  = let '(done, err, fs') :=
      restoreAll cwd root
        (List.filter changed (omap (λ p, snaps !! p) targets)) fs in
    (match err with
     | None => inr (restored ++ map path done)
     | Some e => inl e
     end, fs').
Proof.
  revert restored fs.
  induction targets as [|p targets IH]; intros restored fs; simpl.
  { by rewrite app_nil_r. }
  destruct (snaps !! p) as [s|] eqn:Hs; simpl; [|by apply IH].
  destruct (changed s) eqn:Hc; simpl; [|by apply IH].
  unfold restoreSnapshot at 1.
  destruct (if existed s then _ else _) as [e|fs']; [done|].
  rewrite IH.
  destruct (restoreAll cwd root _ fs') as [[done err] fs''].
  destruct err; [done|]. by rewrite <-List.app_assoc.
Qed.

Lemma restoreAll_complete cwd root todo fs :
  restoresAll cwd root todo fs → (restoreAll cwd root todo fs).1.1 = todo.
Proof.
  unfold restoresAll. revert fs.
  induction todo as [|s todo IH]; intros fs; simpl; [done|].
  destruct (restoreSnapshot cwd root s fs) as [e|fs']; [done|].
  specialize (IH fs').
  destruct (restoreAll cwd root todo fs') as [[done err] fs'']. simpl in *.
  intros H. by rewrite IH.
Qed.

Lemma omap_rev {A B} (f : A → option B) l : omap f (rev l) = rev (omap f l).
Proof.
  induction l as [|x l IH]; [done|]. simpl. rewrite omap_app, IH. simpl.
  destruct (f x); simpl; [done|]. by rewrite app_nil_r.
Qed.

Lemma filter_rev {A} (f : A → bool) l : List.filter f (rev l) = rev (List.filter f l).
Proof.
  induction l as [|x l IH]; [done|]. simpl. rewrite List.filter_app, IH. simpl.
  destruct (f x); simpl; [done|]. by rewrite app_nil_r.
Qed.

Lemma restorable_changed ct :
  createdFilesChanged ct → restorable ct = getChangedFiles ct.
Proof.
  unfold createdFilesChanged, restorable, getChangedFiles, snapshotsOf.
  induction 1 as [|s l Hs Hl IH]; [done|]. simpl. rewrite IH.
  unfold unchangedFile. destruct (existed s); simpl.
  - by rewrite negb_involutive.
  - by rewrite Hs.
Qed.

(** C4. Change-tracker semantics: [recordBefore] leaves a tracker unchanged
    when the path is already tracked, so the first recorded state stays.  In
    a session where every created file has a content other than the one
    recorded for its absence, [rollback] goes through the snapshots in
    reverse order of first recording, skips those of files that existed and
    whose content is the same before and after, writes the content recorded
    before (as UTF-8) when the file existed and deletes the file otherwise,
    and stops with the error of the first of these operations that fails;
    when none fails it returns the paths of all the snapshots restored, in
    the order of first recording. *)
Theorem changeTracker_semantics (cwd : Process) workspaceRoot ct fs :
  (∀ p e b, is_Some (snapshots ct !! p) → recordBefore p e b ct = ct)
  ∧ (createdFilesChanged ct →
     let '(restored, err, fs') :=
       restoreAll cwd workspaceRoot (rev (restorable ct)) fs in
     rollback cwd workspaceRoot ct fs
     = (match err with
        | None => inr (rev (map path restored))
        | Some e => inl e
        end, fs')
     ∧ (err = None → rev (map path restored) = map path (restorable ct))).
Proof.
  split; [intros p e b; apply recordBefore_tracked|].
  intros Hcreated. rewrite restorable_changed by done.
  pose proof (restoreAll_complete cwd workspaceRoot (rev (getChangedFiles ct)) fs)
    as Hcomplete.
  unfold rollback, restoresAll in *. rewrite rollbackLoop_spec.
  rewrite omap_rev, filter_rev. fold (getChangedFiles ct).
  destruct (restoreAll cwd workspaceRoot (rev (getChangedFiles ct)) fs)
    as [[restored err] fs'].
  simpl in Hcomplete. split.
  - by destruct err.
  - intros ->. rewrite Hcomplete by done. by rewrite map_rev, rev_involutive.
Qed.

End ChangeTrackerFacts.

(** C4 as stated fails: a tracked file that existed before, whose recorded
    content is the same before and after (written and then written back), is
    neither rewritten nor reported by [rollback], even when it is missing
    from the disk. *)
Lemma rollback_skips_unchanged :
  let ct :=
    ChangeTracker.recordAfter "a.txt" "v1"
      (ChangeTracker.recordAfter "a.txt" "v2"
         (ChangeTracker.recordBefore "a.txt" true "v1" ChangeTracker.empty)) in
  ChangeTracker.order ct = ["a.txt"]
  ∧ ChangeTracker.existed <$> ChangeTracker.snapshots ct !! "a.txt" = Some true
  ∧ ChangeTracker.rollback "/" "/ws" ct ∅ = (inr [], ∅).
Proof. vm_compute. done. Qed.

(** A host like the POSIX one of the examples that refuses to write one
    path. *)
Definition refusing (cwd : string) (refused : string) : Host.Process :=
  {| Host.platform := Host.Posix;
     Host.workingDirectory := cwd;
     Host.ioError := λ call path _,
       match call with
       | Host.IoWrite => if String.eqb path refused then Some "EACCES" else None
       | _ => None
       end;
     Host.otherEntry := λ _ _, false;
     Host.utf8Decode := λ bytes, bytes;
     Host.utf8Encode := λ text, text |}.

(** C4, on a session that changed one existing file, created another and
    wrote a third back: on a host that refuses nothing, and on one that
    refuses to write the first file. *)
Lemma changeTracker_semantics_witness :
  let ct :=
    ChangeTracker.recordAfter "c.txt" "same"
      (ChangeTracker.recordBefore "c.txt" true "same"
         (ChangeTracker.recordAfter "b.txt" "new"
            (ChangeTracker.recordBefore "b.txt" false ""
               (ChangeTracker.recordAfter "a.txt" "v2"
                  (ChangeTracker.recordBefore "a.txt" true "v1"
                     ChangeTracker.empty))))) in
  let fs : FileTools.FS :=
    <["/ws/a.txt" := "v2"]> (<["/ws/b.txt" := "new"]> (<["/ws/c.txt" := "same"]> ∅)) in
  ChangeTrackerFacts.createdFilesChanged ct
  ∧ ChangeTracker.recordBefore "a.txt" true "v2" ct = ct
  ∧ (ChangeTracker.rollback "/" "/ws" ct fs).1 = inr ["a.txt"; "b.txt"]
  ∧ (ChangeTracker.rollback "/" "/ws" ct fs).2
    = <["/ws/a.txt" := "v1"]> (<["/ws/c.txt" := "same"]> ∅)
  ∧ ChangeTracker.rollback (refusing "/" "/ws/a.txt") "/ws" ct fs
    = (inl (FileTools.IoFailure "EACCES"),
       <["/ws/a.txt" := "v2"]> (<["/ws/c.txt" := "same"]> ∅)).
Proof.
  intros ct fs.
  assert (Hcreated : ChangeTrackerFacts.createdFilesChanged ct).
  { vm_compute. repeat constructor; done. }
  destruct (ChangeTrackerFacts.changeTracker_semantics "/" "/ws" ct fs)
    as [Hbefore Hrollback].
  destruct (ChangeTrackerFacts.changeTracker_semantics
              (refusing "/" "/ws/a.txt") "/ws" ct fs) as [_ Hrefused].
  specialize (Hrollback Hcreated). specialize (Hrefused Hcreated).
  split; [exact Hcreated|]. split.
  { apply Hbefore. vm_compute. by eexists. }
  vm_compute in Hrollback. vm_compute in Hrefused.
  destruct Hrollback as [Hrollback _]. destruct Hrefused as [Hrefused _].
  split; [exact (f_equal fst Hrollback)|].
  split; [exact (f_equal snd Hrollback)|].
  exact Hrefused.
Defined.

(** ** Auto-verify discovery *)

Module AutoVerifyFacts.
Import Json AutoVerify.

Lemma addUnique_prefix target value : target `prefix_of` addUnique target value.
Proof.
  unfold addUnique. case_bool_decide; [done|]. by apply prefix_app_r.
Qed.

Lemma addIf_prefix cond target value : target `prefix_of` addIf cond target value.
Proof. destruct cond; [apply addUnique_prefix|done]. Qed.

Lemma addUnique_NoDup target value : NoDup target → NoDup (addUnique target value).
Proof.
  intros H. unfold addUnique. case_bool_decide; [done|].
  apply NoDup_app. split; [done|]. split; [|apply NoDup_singleton].
  intros x Hx ->%list_elem_of_singleton. done.
Qed.

Lemma fold_addUnique_prefix values target :
  target `prefix_of` fold_left addUnique values target.
Proof.
  revert target. induction values as [|v values IH]; intros target; [done|].
  simpl. etrans; [apply addUnique_prefix|apply IH].
Qed.

Lemma fold_addUnique_NoDup values target :
  NoDup target → NoDup (fold_left addUnique values target).
Proof.
  revert target. induction values as [|v values IH]; intros target H; [done|].
  simpl. by apply IH, addUnique_NoDup.
Qed.

Lemma NoDup_firstn {A} n (l : list A) : NoDup l → NoDup (firstn n l).
Proof.
  intros H. rewrite <-(firstn_skipn n l) in H. by apply NoDup_app in H as [? _].
Qed.

Lemma prefix_firstn {A} n (p l : list A) :
  p `prefix_of` l → length p ≤ n → p `prefix_of` firstn n l.
Proof.
  intros [k ->] Hn. rewrite firstn_app.
  rewrite firstn_all2 by done. by apply prefix_app_r.
Qed.

(** The command that a memory entry contributes, if any: the entry is
    trimmed, the prefix is compared without regard to case, and the rest is
    trimmed again. *)
Definition memoryCommand (raw : string) : option string :=
  let trimmed := JS.trim raw in
  if JS.startsWith (JS.toLowerCase trimmed) "verify:"
  then Some (JS.trim (JS.drop 7 trimmed)) else None.

Lemma memoryStep_command commands raw :
  memoryStep commands raw
  = match memoryCommand raw with
    | Some c => addUnique commands c
    | None => commands
    end.
Proof.
  unfold memoryStep, memoryCommand, verifyPrefix.
  destruct (JS.trim raw) as [|c s] eqn:Ht; [reflexivity|].
  simpl negb. cbv iota. by destruct (JS.startsWith _ _).
Qed.

Lemma extractMemoryVerifyCommands_commands memory :
  extractMemoryVerifyCommands memory
  = fold_left addUnique (omap memoryCommand (Memory.commonCommands memory)) [].
Proof.
  unfold extractMemoryVerifyCommands. generalize (@nil string).
  induction (Memory.commonCommands memory) as [|raw l IH]; intros acc; [done|].
  simpl. rewrite memoryStep_command, IH. by destruct (memoryCommand raw).
Qed.

(** Whether the parsed package description has a truthy script. *)
Definition hasScript (parsed : value) (name : string) : bool :=
  match get (orElse (get parsed "scripts") (JObject [])) name with
  | Some v => truthy v
  | None => false
  end.

Definition npmRun (name : string) : string :=
  "npm run -s " +:+ name +:+ " --if-present".

(** The script names looked for, in the order of the source. *)
Definition scriptNames (parsed : value) : list string :=
  List.filter (hasScript parsed)
    ["test"; "lint";
     if hasScript parsed "format:check" then "format:check" else "format";
     "typecheck"; "check"].

Lemma detectNodeVerifyCommands_scripts JSON_parse raw parsed :
  JS.nonEmpty (JS.trim raw) = true →
  JSON_parse raw = Some parsed → parsed ≠ JNull →
  detectNodeVerifyCommands JSON_parse raw = map npmRun (scriptNames parsed).
Proof.
  intros Hraw Hparse Hnull. unfold detectNodeVerifyCommands, scriptNames.
  rewrite Hraw, Hparse. cbn [negb].
  destruct parsed; try done; cbv zeta;
    repeat match goal with
      | |- context [match get (orElse (get ?p "scripts") (JObject [])) ?n with
                    | Some v => truthy v
                    | None => false
                    end] => fold (hasScript p n)
      end;
    match goal with
    | |- context [hasScript ?p "format:check"] =>
        destruct (hasScript p "format:check") eqn:Hfc
    end;
    cbn [List.filter]; rewrite ?Hfc;
    repeat match goal with
      | |- context [hasScript ?p ?n] => generalize (hasScript p n); intros ?
      end;
    repeat match goal with b : bool |- _ => destruct b end;
    vm_compute; reflexivity.
Qed.

Lemma fold_addUnique_fresh values target :
  NoDup (target ++ values) → fold_left addUnique values target = target ++ values.
Proof.
  revert target. induction values as [|v values IH]; intros target H.
  { by rewrite app_nil_r. }
  simpl. unfold addUnique at 2. rewrite bool_decide_eq_false_2.
  - rewrite IH; rewrite <-List.app_assoc; done.
  - apply NoDup_app in H as (_ & H & _). intros Hin. apply (H v Hin). by left.
Qed.

Definition pythonTools : list (string * string) :=
  [("pytest", "pytest -q"); ("ruff", "ruff check ."); ("black", "black --check .");
   ("mypy", "mypy .")].

(** The lower-cased text of the four Python configuration files. *)
Definition pythonConfig (cwd : Host.Process) (fs : FileTools.FS) (root : string)
  : string :=
  JS.toLowerCase
    (JS.join (String (ascii_of_nat 10) "")
       [readFileOrEmpty cwd fs root "pyproject.toml";
        readFileOrEmpty cwd fs root "requirements.txt";
        readFileOrEmpty cwd fs root "requirements-dev.txt";
        readFileOrEmpty cwd fs root "setup.cfg"]).

Lemma detectPythonVerifyCommands_tools cwd fs root :
  detectPythonVerifyCommands
    (readFileOrEmpty cwd fs root "pyproject.toml")
    (readFileOrEmpty cwd fs root "requirements.txt")
    (readFileOrEmpty cwd fs root "requirements-dev.txt")
    (readFileOrEmpty cwd fs root "setup.cfg")
  = map snd (List.filter (λ tool, JS.includes (pythonConfig cwd fs root) tool.1)
               pythonTools).
Proof.
  unfold detectPythonVerifyCommands. cbv zeta. fold (pythonConfig cwd fs root).
  cbn [List.filter pythonTools fst].
  repeat match goal with
    | |- context [JS.includes ?c ?n] => generalize (JS.includes c n); intros ?
    end.
  repeat match goal with b : bool |- _ => destruct b end; vm_compute; reflexivity.
Qed.

(** C6. Auto-verify discovery order: the result is the first
    [max 1 maxCommands] entries of the deduplicated concatenation (first
    occurrence kept) of, in this order, the memory commands, the package
    script commands and the Python commands.  A memory entry contributes when
    its trimmed text starts with "verify:" in any letter case, and what it
    contributes is the trimmed text after the colon.  The script commands
    are [npm run -s <name> --if-present] for the truthy scripts among test,
    lint, format:check (else format), typecheck, check, in that order.  For
    a repository with scripts test and lint, the single memory entry
    "verify:npm run build" and a budget of at least 3, the result begins
    with npm run build, the test command and the lint command. *)
Theorem discoverAutoVerifyCommands_order JSON_parse cwd fs root memory maxCommands :
  let packageJsonRaw := readFileOrEmpty cwd fs root "package.json" in
  let memoryCommands := omap memoryCommand (Memory.commonCommands memory) in
  let nodeCommands := detectNodeVerifyCommands JSON_parse packageJsonRaw in
  let pythonCommands :=
    map snd (List.filter (λ tool, JS.includes (pythonConfig cwd fs root) tool.1)
               pythonTools) in
  let result := discoverAutoVerifyCommands JSON_parse cwd fs root memory maxCommands in
  result = firstn (Z.to_nat (Z.max 1 maxCommands))
             (fold_left addUnique (memoryCommands ++ nodeCommands ++ pythonCommands) [])
  ∧ NoDup result
  ∧ (∀ parsed,
       JS.nonEmpty (JS.trim packageJsonRaw) = true →
       JSON_parse packageJsonRaw = Some parsed → parsed ≠ JNull →
       nodeCommands = map npmRun (scriptNames parsed)
       ∧ (hasScript parsed "test" = true → hasScript parsed "lint" = true →
          Memory.commonCommands memory = ["verify:npm run build"] →
          (3 ≤ maxCommands)%Z →
          ["npm run build"; "npm run -s test --if-present";
           "npm run -s lint --if-present"] `prefix_of` result)).
Proof.
  intros packageJsonRaw memoryCommands nodeCommands pythonCommands result.
  assert (Hresult :
    result = firstn (Z.to_nat (Z.max 1 maxCommands))
               (fold_left addUnique
                  (memoryCommands ++ nodeCommands ++ pythonCommands) [])).
  { subst result. unfold discoverAutoVerifyCommands. cbv zeta.
    rewrite detectPythonVerifyCommands_tools.
    rewrite (fold_addUnique_fresh (extractMemoryVerifyCommands memory) []).
    - rewrite extractMemoryVerifyCommands_commands.
      by rewrite !fold_left_app.
    - rewrite extractMemoryVerifyCommands_commands.
      apply fold_addUnique_NoDup, NoDup_nil_2. }
  split; [done|]. split.
  { rewrite Hresult. apply NoDup_firstn, fold_addUnique_NoDup, NoDup_nil_2. }
  intros parsed Hraw Hparse Hnull.
  pose proof (detectNodeVerifyCommands_scripts JSON_parse _ _ Hraw Hparse Hnull)
    as Hnode. fold nodeCommands in Hnode.
  split; [done|]. intros Htest Hlint Hmem Hbudget.
  rewrite Hresult. apply prefix_firstn; [|simpl; lia].
  subst memoryCommands. rewrite Hnode, Hmem. unfold scriptNames.
  cbn [List.filter]. rewrite Htest, Hlint. cbn [map].
  change (omap memoryCommand ["verify:npm run build"]) with ["npm run build"].
  cbn [app fold_left].
  change (addUnique (addUnique (addUnique [] "npm run build") (npmRun "test"))
            (npmRun "lint"))
    with ["npm run build"; "npm run -s test --if-present";
          "npm run -s lint --if-present"].
  apply fold_addUnique_prefix.
Qed.

End AutoVerifyFacts.

(** C6 as stated fails: an entry that does not start with the literal prefix
    contributes a command, what it contributes is trimmed, and a budget of 0
    still returns one command. *)
Lemma discover_prefix_not_literal :
  let memory :=
    {| Memory.projectRules := []; Memory.architectureNotes := [];
       Memory.commonCommands := ["Verify: make"]; Memory.kv := [];
       Memory.updatedAt := "" |} in
  JS.startsWith "Verify: make" "verify:" = false
  ∧ AutoVerify.discoverAutoVerifyCommands (λ _, None) "/" ∅ "/ws" memory 8 = ["make"]
  ∧ AutoVerify.discoverAutoVerifyCommands (λ _, None) "/" ∅ "/ws" memory 0 = ["make"].
Proof. vm_compute. done. Qed.

(** A package description with the scripts test and lint, and what
    [JSON.parse] returns for it. *)
Definition packageJsonText : string :=
  "{" +:+ JS.quoted "scripts" +:+ ":{" +:+ JS.quoted "test" +:+ ":"
  +:+ JS.quoted "vitest" +:+ "," +:+ JS.quoted "lint" +:+ ":"
  +:+ JS.quoted "eslint ." +:+ "}}".

Definition packageJsonValue : Json.value :=
  Json.JObject
    [("scripts",
      Json.JObject [("test", Json.JString "vitest"); ("lint", Json.JString "eslint .")])].

Definition parsePackageJson (s : string) : option Json.value :=
  if String.eqb s packageJsonText then Some packageJsonValue else None.

(** C6, on the repository of the scenario. *)
Lemma discoverAutoVerifyCommands_order_witness :
  let fs : FileTools.FS := <["/ws/package.json" := packageJsonText]> ∅ in
  let memory :=
    {| Memory.projectRules := []; Memory.architectureNotes := [];
       Memory.commonCommands := ["verify:npm run build"]; Memory.kv := [];
       Memory.updatedAt := "" |} in
  AutoVerifyFacts.hasScript packageJsonValue "test" = true
  ∧ AutoVerifyFacts.hasScript packageJsonValue "lint" = true
  ∧ ["npm run build"; "npm run -s test --if-present"; "npm run -s lint --if-present"]
      `prefix_of`
      AutoVerify.discoverAutoVerifyCommands parsePackageJson "/" fs "/ws" memory 8.
Proof.
  intros fs memory. split; [reflexivity|]. split; [reflexivity|].
  destruct (AutoVerifyFacts.discoverAutoVerifyCommands_order
              parsePackageJson "/" fs "/ws" memory 8) as (_ & _ & H).
  destruct (H packageJsonValue) as [_ Hscenario];
    [vm_compute; reflexivity | vm_compute; reflexivity | done |].
  apply Hscenario; [reflexivity | reflexivity | reflexivity | lia].
Defined.

(** ** Grep engine *)

Module GrepFacts.
Import Grep.

Section Fallback.

Variable cwd : string.
Variable listFiles : ListFilesInput → Error + list string.
Variable readFile : string → option string.
Variable compileRegExp : string → option (string → bool).
Variable hasRipgrep : bool.
Variable grepWithRipgrep : string → string → option string → Z → Z → Error + GrepResult.

(** The matching lines of a text, numbered from [index + 1]. *)
Fixpoint lineMatches (matcher : string → bool) (file : string)
    (lines : list string) (index : nat) : list GrepMatch :=
  match lines with
  | [] => []
  | line :: rest =>
      (if matcher line then [{| path := file; line := S index; text := line |}] else [])
      ++ lineMatches matcher file rest (S index)
  end.

(** The matching lines of a listed file that can be read. *)
Definition fileMatches (matcher : string → bool) (root file : string) : list GrepMatch :=
  match PathSandbox.resolveWorkspacePath cwd root file with
  | inr absolute =>
      match readFile absolute with
      | Some raw => lineMatches matcher file (splitLines raw) 0
      | None => []
      end
  | inl _ => []
  end.

Definition isTextFile (file : string) : bool :=
  negb (JS.endsWith file "/") && canReadAsText file.

(** The listing the fallback walks. *)
Definition walkInput (root : string) : ListFilesInput :=
  {| workspaceRoot := root; lf_path := None; recursive := Some true;
     depth := Some 8%Z; maxEntries := Some 2500%Z |}.

Lemma reached_length found maxMatches :
  length found ≤ Z.to_nat maxMatches →
  reached found maxMatches = bool_decide (length found = Z.to_nat maxMatches).
Proof.
  intros H. unfold reached. case_bool_decide as Hd.
  - apply Z.leb_le. lia.
  - apply Z.leb_gt. lia.
Qed.

Lemma scanLines_firstn matcher file maxMatches lines index found :
  length found ≤ Z.to_nat maxMatches →
  scanLines matcher file maxMatches lines index found
  = firstn (Z.to_nat maxMatches) (found ++ lineMatches matcher file lines index).
Proof.
  revert index found. induction lines as [|l lines IH]; intros index found Hlen.
  { simpl. rewrite app_nil_r. by rewrite firstn_all2. }
  simpl. rewrite reached_length by done. case_bool_decide as Hd.
  - rewrite firstn_app, Hd, Nat.sub_diag. simpl.
    rewrite app_nil_r. rewrite <-Hd. by rewrite firstn_all.
  - destruct (matcher l).
    + rewrite IH; [by rewrite <-List.app_assoc|]. rewrite length_app. simpl. lia.
    + by rewrite IH.
Qed.

Lemma scanFiles_firstn matcher root maxMatches files found scanned :
  length found ≤ Z.to_nat maxMatches →
  Forall (λ file, ∃ a, PathSandbox.resolveWorkspacePath cwd root file = inr a) files →
  ∃ n, scanFiles cwd readFile matcher root maxMatches files found scanned
       = inr (firstn (Z.to_nat maxMatches)
                (found ++ concat (map (fileMatches matcher root) files)), n).
Proof.
  revert found scanned.
  induction files as [|file files IH]; intros found scanned Hlen Hres.
  { exists scanned. simpl. rewrite app_nil_r. by rewrite firstn_all2. }
  inversion_clear Hres as [|?? [a Ha] Hrest]. simpl.
  rewrite reached_length by done. case_bool_decide as Hd.
  - exists scanned. rewrite firstn_app, Hd, Nat.sub_diag. simpl.
    rewrite app_nil_r. rewrite <-Hd. by rewrite firstn_all.
  - unfold fileMatches at 1. rewrite Ha. destruct (readFile a) as [raw|].
    + rewrite scanLines_firstn by done.
      destruct (IH (firstn (Z.to_nat maxMatches)
                      (found ++ lineMatches matcher file (splitLines raw) 0))
                   (S scanned)) as [n Hn]; [|done|].
      { rewrite length_take. lia. }
      exists n. rewrite Hn. f_equal. f_equal.
      rewrite List.app_assoc.
      set (xs := found ++ lineMatches matcher file (splitLines raw) 0).
      set (ys := concat (map (fileMatches matcher root) files)).
      rewrite !firstn_app, firstn_firstn, Nat.min_id, length_take.
      destruct (decide (length xs ≤ Z.to_nat maxMatches)).
      * by rewrite Nat.min_r.
      * rewrite Nat.min_l by lia.
        replace (Z.to_nat maxMatches - length xs) with 0 by lia.
        by rewrite Nat.sub_diag.
    + simpl. by apply IH.
Qed.

(** C9. When ripgrep is unavailable, or its invocation fails, [grepWorkspace]
    is the JS walker, in which the glob has no part: the result is the same
    for every glob.  The walker lists the workspace at depth 8 with at most
    2,500 entries and returns the first [maxMatches] matching lines of the
    listed files that are not directories and have no binary-like
    extension. *)
Theorem grepWorkspace_fallback_ignores_glob root pattern glob maxMatches timeoutMs :
  hasRipgrep = false
  ∨ (∃ e, grepWithRipgrep root pattern glob maxMatches timeoutMs = inl e) →
  grepWorkspace cwd listFiles readFile compileRegExp hasRipgrep grepWithRipgrep
    root pattern glob maxMatches timeoutMs
  = grepWithJs cwd listFiles readFile compileRegExp root pattern maxMatches
  ∧ (∀ files,
       listFiles (walkInput root) = inr files →
       Forall (λ file, ∃ a, PathSandbox.resolveWorkspacePath cwd root file = inr a)
         (List.filter isTextFile files) →
       ∃ n,
         grepWithJs cwd listFiles readFile compileRegExp root pattern maxMatches
         = inr {| backend := BackendJs;
                  matches :=
                    firstn (Z.to_nat maxMatches)
                      (concat (map (fileMatches (compileLineMatcher compileRegExp pattern) root)
                                 (List.filter isTextFile files)));
                  totalScannedFiles := n |}).
Proof.
  intros Hfallback. split.
  - unfold grepWorkspace. destruct Hfallback as [->|[e He]]; [done|].
    rewrite He. by destruct hasRipgrep.
  - intros files Hlist Hres. unfold grepWithJs. fold (walkInput root).
    rewrite Hlist. fold isTextFile.
    destruct (scanFiles_firstn (compileLineMatcher compileRegExp pattern) root
                maxMatches (List.filter isTextFile files) [] 0) as [n Hn];
      [simpl; lia | done |].
    exists n. by rewrite Hn.
Qed.

End Fallback.

End GrepFacts.

(** C9, on a workspace without ripgrep: a search restricted to "*.ts" returns
    a line of a text file. *)
Lemma grepWorkspace_fallback_ignores_glob_witness :
  let listFiles := λ _ : Grep.ListFilesInput,
    inr ["src/"; "src/a.ts"; "notes.txt"; "logo.png"] : Grep.Error + list string in
  let readFile := λ p : string,
    if String.eqb p "/ws/notes.txt"
    then Some ("todo: fix" +:+ String (ascii_of_nat 10) "done")
    else Some "nothing" in
  let noRegExp := λ _ : string, @None (string → bool) in
  let noRipgrep := λ (_ _ : string) (_ : option string) (_ _ : Z),
    inl (Grep.ToolError "spawn rg ENOENT") : Grep.Error + Grep.GrepResult in
  (false = false
   ∨ ∃ e, noRipgrep "/ws" "todo" (Some "*.ts") 10%Z 1000%Z = inl e)
  ∧ JS.endsWith "notes.txt" ".ts" = false
  ∧ Grep.grepWorkspace "/" listFiles readFile noRegExp false noRipgrep
      "/ws" "todo" (Some "*.ts") 10%Z 1000%Z
    = inr {| Grep.backend := Grep.BackendJs;
             Grep.matches :=
               [{| Grep.path := "notes.txt"; Grep.line := 1; Grep.text := "todo: fix" |}];
             Grep.totalScannedFiles := 2 |}.
Proof.
  intros listFiles readFile noRegExp noRipgrep.
  split; [by left|]. split; [reflexivity|].
  destruct (GrepFacts.grepWorkspace_fallback_ignores_glob "/" listFiles readFile
              noRegExp false noRipgrep "/ws" "todo" (Some "*.ts") 10%Z 1000%Z)
    as [Hjs _]; [by left|].
  rewrite Hjs. vm_compute. reflexivity.
Defined.

(** ** Project scanner *)

Module ScannerFacts.
Import Scanner.

(** The sum of the per-language counts. *)
Definition languagesTotal (m : gmap string nat) : nat :=
  map_fold (λ _ n total, n + total) 0 m.

Lemma languagesTotal_empty : languagesTotal ∅ = 0.
Proof. apply map_fold_empty. Qed.

Lemma languagesTotal_increment (m : gmap string nat) (k : string) :
  languagesTotal (<[k := S (default 0 (m !! k))]> m) = S (languagesTotal m).
Proof.
  unfold languagesTotal. destruct (m !! k) as [n|] eqn:Hk; simpl.
  - rewrite <-insert_delete_eq.
    rewrite map_fold_insert_L; [|intros; lia|apply lookup_delete_eq].
    rewrite (map_fold_delete_L _ _ k n m); [lia|intros; lia|done].
  - rewrite map_fold_insert_L; [done|intros; lia|done].
Qed.

Section Invariant.

Variable cwd : string.
Variable listFiles : Grep.ListFilesInput → Grep.Error + list string.
Variable stat : string → option Stat.
Variable readFile : string → option string.
Variable sortByLocale : list string → list string.
Variable visitTsTree :
  string → string → SupportedLanguage → list RawSymbol * list RawImport * list RawUse.
Variable scanPythonLines : string → list RawSymbol * list RawImport * list RawUse.
Variable buildDependencyMap : string → DependencyMap.
Variable now : string.

(** Every entry of a parsed file carries the path of the file. *)
Definition entriesAt (filePath : string) (parsed : ParsedSourceFile) : Prop :=
  Forall (λ s, sym_path s = filePath) (p_symbols parsed)
  ∧ Forall (λ i, imp_path i = filePath) (p_imports parsed)
  ∧ Forall (λ u, use_path u = filePath) (p_uses parsed).

Lemma parseTsOrJsFile_paths filePath content language :
  entriesAt filePath (parseTsOrJsFile visitTsTree filePath content language).
Proof.
  unfold parseTsOrJsFile, entriesAt.
  destruct (visitTsTree filePath content language) as [[syms imps] us]. simpl.
  repeat split.
  - apply Forall_forall. intros s Hs.
    apply list_elem_of_omap in Hs as (r & _ & Hr). unfold addSymbol in Hr.
    destruct (negb _); [done|]. by simplify_eq.
  - apply Forall_forall. intros i Hi. apply list_elem_of_In in Hi.
    apply in_map_iff in Hi as (r & <- & _). done.
  - apply Forall_forall. intros u Hu. apply list_elem_of_In in Hu.
    apply in_map_iff in Hu as (r & <- & _). done.
Qed.

Lemma parsePythonFile_paths filePath content :
  entriesAt filePath (parsePythonFile scanPythonLines filePath content).
Proof.
  unfold parsePythonFile, entriesAt.
  destruct (scanPythonLines content) as [[syms imps] us]. simpl.
  repeat split; apply Forall_forall; intros e He; apply list_elem_of_In in He;
    apply in_map_iff in He as (r & <- & _); done.
Qed.

Lemma Forall_push {A} (f : A → string) (old new : list A) (paths : list string) p :
  Forall (λ e, f e ∈ paths) old → Forall (λ e, f e = p) new →
  Forall (λ e, f e ∈ paths ++ [p]) (old ++ new).
Proof.
  intros Hold Hnew. apply Forall_app. split.
  - eapply Forall_impl; [exact Hold|]. intros e He. apply elem_of_app. by left.
  - eapply Forall_impl; [exact Hnew|]. intros e He. rewrite He.
    apply elem_of_app. right. by apply list_elem_of_singleton.
Qed.

(** What the loop of [buildIndex] maintains. *)
Definition consistent (acc : Acc) : Prop :=
  Forall (λ s, sym_path s ∈ map file_path (a_files acc)) (a_symbols acc)
  ∧ Forall (λ i, imp_path i ∈ map file_path (a_files acc)) (a_imports acc)
  ∧ Forall (λ u, use_path u ∈ map file_path (a_files acc)) (a_uses acc)
  ∧ languagesTotal (a_languages acc) = length (a_files acc).

Lemma consistent_init : consistent accInit.
Proof. repeat split; try constructor. Qed.

Lemma consistent_push acc file language parsed :
  consistent acc →
  entriesAt (file_path file) parsed →
  consistent
    {| a_files := a_files acc ++ [file];
       a_symbols := a_symbols acc ++ p_symbols parsed;
       a_imports := a_imports acc ++ p_imports parsed;
       a_uses := a_uses acc ++ p_uses parsed;
       a_languages :=
         <[languageName language :=
             S (default 0 (a_languages acc !! languageName language))]>
           (a_languages acc) |}.
Proof.
  intros (Hs & Hi & Hu & Hl) (Ps & Pi & Pu). unfold consistent. simpl.
  rewrite map_app, languagesTotal_increment, length_app, Hl. simpl.
  repeat split; [by apply Forall_push..|lia].
Qed.

Lemma visitFile_consistent filePath absolutePath acc :
  consistent acc →
  consistent (visitFile stat readFile visitTsTree scanPythonLines
                filePath absolutePath acc).
Proof.
  intros Hacc. unfold visitFile. destruct (stat absolutePath) as [st|]; [|done].
  destruct (isFile st); [|done]. cbn [negb].
  set (language := detectLanguage filePath).
  set (content := default "" (readFile absolutePath)).
  set (file := {| file_path := filePath; file_language := language;
                  sizeBytes := size st;
                  lineCount := if JS.nonEmpty content
                               then length (Grep.splitLines content) else 0 |}).
  assert (Hskip : ∀ parsed, entriesAt filePath parsed →
            consistent
              {| a_files := a_files acc ++ [file];
                 a_symbols := a_symbols acc ++ p_symbols parsed;
                 a_imports := a_imports acc ++ p_imports parsed;
                 a_uses := a_uses acc ++ p_uses parsed;
                 a_languages :=
                   <[languageName language :=
                       S (default 0 (a_languages acc !! languageName language))]>
                     (a_languages acc) |}).
  { intros parsed Hp. by apply consistent_push. }
  assert (Hnone : consistent
            {| a_files := a_files acc ++ [file];
               a_symbols := a_symbols acc; a_imports := a_imports acc;
               a_uses := a_uses acc;
               a_languages :=
                 <[languageName language :=
                     S (default 0 (a_languages acc !! languageName language))]>
                   (a_languages acc) |}).
  { specialize (Hskip {| p_symbols := []; p_imports := []; p_uses := [] |}).
    simpl in Hskip. rewrite !app_nil_r in Hskip. apply Hskip.
    repeat split; constructor. }
  destruct (isLanguageIndexed language); [|done]. cbn [negb].
  destruct (1000000 <? size st)%Z; [done|].
  destruct language; [| | |done].
  - apply Hskip, parseTsOrJsFile_paths.
  - apply Hskip, parseTsOrJsFile_paths.
  - apply Hskip, parsePythonFile_paths.
Qed.

Lemma visitFiles_consistent root filePaths acc acc' :
  consistent acc →
  visitFiles cwd stat readFile visitTsTree scanPythonLines root filePaths acc
  = inr acc' →
  consistent acc'.
Proof.
  revert acc. induction filePaths as [|filePath rest IH]; intros acc Hacc Hrun.
  { simpl in Hrun. by simplify_eq. }
  simpl in Hrun.
  destruct (PathSandbox.resolveWorkspacePath cwd root filePath) as [e|a]; [done|].
  eapply IH; [|done]. by apply visitFile_consistent.
Qed.

(** C7. Project-index invariant: in every index that [buildIndex] produces,
    the path of every symbol, import and use entry is the path of an entry
    of [files], and the per-language counts add up to [totalFilesScanned]. *)
Theorem buildIndex_invariant root maxFilesDefault maxFilesOverride index :
  buildIndex cwd listFiles stat readFile sortByLocale visitTsTree scanPythonLines
    buildDependencyMap now root maxFilesDefault maxFilesOverride = inr index →
  Forall (λ s, sym_path s ∈ map file_path (files index)) (symbols index)
  ∧ Forall (λ i, imp_path i ∈ map file_path (files index)) (imports index)
  ∧ Forall (λ u, use_path u ∈ map file_path (files index)) (uses index)
  ∧ languagesTotal (languages index) = totalFilesScanned index.
Proof.
  unfold buildIndex. intros Hbuild.
  destruct (listFiles _) as [e|entries]; [done|].
  destruct (visitFiles _ _ _ _ _ _ _ _) as [e|acc] eqn:Hvisit; [done|].
  simplify_eq. simpl.
  by apply (visitFiles_consistent _ _ _ _ consistent_init Hvisit).
Qed.

End Invariant.

End ScannerFacts.

(** C7, on a workspace with a TypeScript file, a Python file and a text
    file. *)
Lemma buildIndex_invariant_witness :
  let listFiles := λ _ : Grep.ListFilesInput,
    inr ["a.ts"; "b.py"; "README.md"; "docs/"] : Grep.Error + list string in
  let stat := λ _ : string, Some {| Scanner.isFile := true; Scanner.size := 10 |} in
  let readFile := λ _ : string, Some "x" in
  let visitTsTree := λ (_ _ : string) (_ : Scanner.SupportedLanguage),
    ([{| Scanner.raw_kind := Scanner.KFunction; Scanner.raw_name := "f";
         Scanner.raw_line := 1; Scanner.raw_exported := true |}],
     @nil Scanner.RawImport,
     [{| Scanner.raw_use_name := "g"; Scanner.raw_use_line := 2 |}]) in
  let scanPythonLines := λ _ : string,
    (@nil Scanner.RawSymbol,
     [{| Scanner.raw_imp_line := 1; Scanner.raw_source := "os";
         Scanner.raw_imported := ["os"] |}],
     @nil Scanner.RawUse) in
  let noDependencies := λ _ : string,
    {| Scanner.node := []; Scanner.nodeDev := []; Scanner.python := [];
       Scanner.pythonDev := [] |} in
  ∃ index,
    Scanner.buildIndex "/" listFiles stat readFile id visitTsTree scanPythonLines
      noDependencies "2026-01-01T00:00:00.000Z" "/ws" 6000 None = inr index
    ∧ Scanner.totalFilesScanned index = 3
    ∧ ScannerFacts.languagesTotal (Scanner.languages index) = 3.
Proof.
  intros listFiles stat readFile visitTsTree scanPythonLines noDependencies.
  destruct (Scanner.buildIndex "/" listFiles stat readFile id visitTsTree
              scanPythonLines noDependencies "2026-01-01T00:00:00.000Z" "/ws"
              6000 None) as [e|index] eqn:Hindex.
  { vm_compute in Hindex. discriminate Hindex. }
  exists index. split; [reflexivity|].
  destruct (ScannerFacts.buildIndex_invariant _ _ _ _ _ _ _ _ _ _ _ _ _ Hindex)
    as (_ & _ & _ & Htotal).
  assert (Hn : Scanner.totalFilesScanned index = 3).
  { vm_compute in Hindex. injection Hindex as <-. reflexivity. }
  by rewrite Htotal, Hn.
Defined.

(** ** Secret detection and the secret gate of [write_file] *)

Module SecretsFacts.
Import JSFacts Secrets.

(** A finding made from a non-empty match of one of the rules. *)
Definition fromMatch (content : string) (f : SecretFinding) : Prop :=
  ∃ rule raw,
    rule ∈ SECRET_RULES
    ∧ raw ∈ Regex.matchAll false (regex rule) content
    ∧ raw ≠ ""
    ∧ type f = rule_type rule
    ∧ snippet f = mask raw.

Lemma scanMatches_bound ruleType matches findings :
  length findings < 20 →
  length (scanMatches ruleType matches findings).2 ≤ 20
  ∧ ((scanMatches ruleType matches findings).1 = false →
     length (scanMatches ruleType matches findings).2 < 20).
Proof.
  revert findings. induction matches as [|raw rest IH]; intros findings H.
  { split; [simpl; lia|done]. }
  cbn [scanMatches]. destruct (JS.nonEmpty raw); cbn [negb]; [|by apply IH].
  set (findings' := findings ++ [_]).
  assert (Hlen : length findings' = S (length findings)).
  { subst findings'. rewrite length_app. simpl. lia. }
  destruct (Nat.leb_spec 20 (length findings')); cbn [fst snd].
  - split; [lia|done].
  - apply IH. lia.
Qed.

Lemma scanRules_bound rules content findings :
  length findings < 20 → length (scanRules rules content findings) ≤ 20.
Proof.
  revert findings. induction rules as [|rule rest IH]; intros findings H;
    cbn [scanRules].
  { lia. }
  pose proof (scanMatches_bound (rule_type rule)
                (Regex.matchAll false (regex rule) content) findings H) as [Hle Hlt].
  destruct (scanMatches _ _ _) as [[] findings']; cbn [fst snd] in *; [done|].
  by apply IH, Hlt.
Qed.

Lemma scanMatches_fromMatch content rule matches findings :
  rule ∈ SECRET_RULES →
  (∀ raw, raw ∈ matches → raw ∈ Regex.matchAll false (regex rule) content) →
  Forall (fromMatch content) findings →
  Forall (fromMatch content) (scanMatches (rule_type rule) matches findings).2.
Proof.
  intros Hrule. revert findings.
  induction matches as [|raw rest IH]; intros findings Hsub Hall;
    cbn [scanMatches]; [done|].
  assert (Hrest : ∀ r, r ∈ rest → r ∈ Regex.matchAll false (regex rule) content).
  { intros r Hr. apply Hsub. by right. }
  destruct (JS.nonEmpty raw) eqn:Hne; cbn [negb]; [|by apply IH].
  assert (Hnew : Forall (fromMatch content)
                   (findings ++ [{| type := rule_type rule; snippet := mask raw |}])).
  { apply Forall_app. split; [done|]. constructor; [|done].
    exists rule, raw. repeat split; try done.
    - apply Hsub. by left.
    - by intros ->. }
  destruct (20 <=? _); cbn [fst snd]; [done|]. by apply IH.
Qed.

Lemma scanRules_fromMatch content rules findings :
  (∀ rule, rule ∈ rules → rule ∈ SECRET_RULES) →
  Forall (fromMatch content) findings →
  Forall (fromMatch content) (scanRules rules content findings).
Proof.
  revert findings. induction rules as [|rule rest IH]; intros findings Hsub Hall;
    cbn [scanRules]; [done|].
  pose proof (scanMatches_fromMatch content rule
                (Regex.matchAll false (regex rule) content) findings) as Hm.
  destruct (scanMatches _ _ _) as [[] findings']; cbn [fst snd] in *.
  - apply Hm; [apply Hsub; by left|done|done].
  - apply IH; [intros r Hr; apply Hsub; by right|].
    apply Hm; [apply Hsub; by left|done|done].
Qed.

Lemma drop_length n s : String.length (JS.drop n s) = String.length s - n.
Proof.
  revert s. induction n as [|n IH]; intros [|c s]; simpl; first [lia | apply IH].
Qed.

(** The masked form of a long match: thirteen characters, the first six and
    the last four of the match around three dots. *)
Lemma mask_long raw :
  12 < String.length raw →
  mask raw = JS.take 6 raw +:+ "..." +:+ JS.takeRight 4 raw
  ∧ String.length (mask raw) = 13.
Proof.
  intros H. unfold mask. destruct (Nat.ltb_spec 12 (String.length raw)); [|lia].
  split; [done|]. rewrite !slength_app, slength_take. unfold JS.takeRight.
  rewrite drop_length. change (String.length "...") with 3. lia.
Qed.

(** C2. Secret-blocked write atomicity: with [allowPotentialSecrets] off, a
    [write_file] action whose content has findings returns [ok = false] and
    leaves the files, the change tracker, the audit log and the questions
    asked as they were.  [detectSecrets] returns at most 20 findings, each
    made from a non-empty match of a rule, and a match longer than 12
    characters is stored as its first 6 characters, three dots and its last 4
    characters. *)
Theorem secret_blocked_write E path content w :
  Policy.allowPotentialSecrets (Orchestrator.policy E) = false →
  detectSecrets content ≠ [] →
  Orchestrator.ok
    (Orchestrator.executeAction E (ResponseParser.WriteFile path content) w).1 = false
  ∧ (Orchestrator.executeAction E (ResponseParser.WriteFile path content) w).2 = w
  ∧ length (detectSecrets content) ≤ 20
  ∧ Forall (fromMatch content) (detectSecrets content)
  ∧ (∀ raw, 12 < String.length raw →
       mask raw = JS.take 6 raw +:+ "..." +:+ JS.takeRight 4 raw).
Proof.
  intros Hpolicy Hfound.
  assert (Hgate :
    Orchestrator.ok (Orchestrator.executeWriteFile E path content w).1 = false
    ∧ (Orchestrator.executeWriteFile E path content w).2 = w).
  { unfold Orchestrator.executeWriteFile.
    destruct (Policy.isWritePathAllowed _ _ _) as [[glob]|check]; [done|].
    destruct (Policy.allowed check); [|done]. cbn [negb].
    rewrite Hpolicy. destruct (detectSecrets content); [done|]. done. }
  split; [apply Hgate|]. split; [apply Hgate|]. split.
  { apply scanRules_bound. cbn [length]. lia. }
  split.
  { by apply scanRules_fromMatch. }
  intros raw Hlen. by apply mask_long.
Qed.

End SecretsFacts.

(** A task environment for the examples: default policy, no pattern or glob
    ever matches, the user agrees to everything, commands succeed, and the
    chat client is unreachable. *)
Definition demoConfig : Orchestrator.RuntimeConfig :=
  {| Orchestrator.workspaceRoot := "/ws"; Orchestrator.apiKey := "key";
     Orchestrator.maxIterations := 6; Orchestrator.toolTimeoutMs := 120000;
     Orchestrator.maxToolOutputChars := 18000;
     Orchestrator.autoRepairMaxRounds := 3; Orchestrator.autoVerify := true |}.

Definition passingRun (command : string) : Shell.CommandResult :=
  {| Shell.command := command; Shell.exitCode := Some 0%Z; Shell.timedOut := false;
     Shell.durationMs := 1; Shell.stdout := ""; Shell.stderr := "" |}.

Definition failingRun (command : string) : Shell.CommandResult :=
  {| Shell.command := command; Shell.exitCode := Some 1%Z; Shell.timedOut := false;
     Shell.durationMs := 1; Shell.stdout := ""; Shell.stderr := "" |}.

Definition emptyMemory : Memory.ProjectMemory :=
  {| Memory.projectRules := []; Memory.architectureNotes := [];
     Memory.commonCommands := []; Memory.kv := []; Memory.updatedAt := "" |}.

Definition demoEnv : Orchestrator.Env :=
  {| Orchestrator.cwd := "/";
     Orchestrator.auditPath := "/ws/.vibe-agent/audit/session.jsonl";
     Orchestrator.auditLine := λ n _, "event " +:+ Json.natToString n;
     Orchestrator.loadState := Some;
     Orchestrator.summarize := Some;
     Orchestrator.memoryWrite := λ _, Some;
     Orchestrator.config := demoConfig;
     Orchestrator.policy := Policy.DEFAULT_POLICY;
     Orchestrator.numberToString := λ _, "0";
     Orchestrator.JSON_parse := λ _, None;
     Orchestrator.patternTest := λ _ _, Some false;
     Orchestrator.globTest := λ _ _, Some false;
     Orchestrator.complete := λ _, None;
     Orchestrator.confirm := λ _, true;
     Orchestrator.answer := λ _, None;
     Orchestrator.shell := λ command files, (inr (passingRun command), files);
     Orchestrator.otherTool := λ action files,
       ({| Orchestrator.tool := ResponseParser.toolOf action; Orchestrator.ok := true;
           Orchestrator.summary := ""; Orchestrator.data := Orchestrator.OtherData |},
        files);
     Orchestrator.diffStats := λ _ _ _,
       {| Orchestrator.added := 1; Orchestrator.removed := 0 |};
     Orchestrator.memoryChanges := λ _ _, [];
     Orchestrator.memoryAt := λ _, emptyMemory |}.

(** C2, on the write of a provider key to src/x.ts. *)
Lemma secret_blocked_write_witness :
  let content := "const k = 'gsk_ABCDEFGHIJKLMNOPQRSTU';" in
  let w := Orchestrator.initialWorld (<["/ws/src/x.ts" := "old"]> ∅) in
  Policy.allowPotentialSecrets (Orchestrator.policy demoEnv) = false
  ∧ Secrets.detectSecrets content
    = [{| Secrets.type := "Groq API key"; Secrets.snippet := "gsk_AB...RSTU" |}]
  ∧ Orchestrator.ok
      (Orchestrator.executeAction demoEnv
         (ResponseParser.WriteFile "src/x.ts" content) w).1 = false
  ∧ (Orchestrator.executeAction demoEnv
       (ResponseParser.WriteFile "src/x.ts" content) w).2 = w.
Proof.
  intros content w. split; [reflexivity|]. split; [vm_compute; reflexivity|].
  destruct (SecretsFacts.secret_blocked_write demoEnv "src/x.ts" content w)
    as (Hok & Hw & _); [reflexivity | by vm_compute |].
  by split.
Defined.

(** ** Response parser *)

Module ResponseParserFacts.
Import Json ResponseParser.

Section Parser.

Variable numberToString : number → string.
Variable JSON_parse : string → option value.

Lemma In_firstn {A} n (x : A) l : In x (firstn n l) → In x l.
Proof.
  intros H. rewrite <-(firstn_skipn n l). apply in_or_app. by left.
Qed.

Lemma trimmedNonEmpty_length n items : length (trimmedNonEmpty n items) ≤ n.
Proof. unfold trimmedNonEmpty. rewrite length_take. lia. Qed.

Lemma trimmedNonEmpty_entries n items :
  Forall (λ entry, JS.nonEmpty entry = true ∧ ∃ raw, entry = JS.trim raw)
    (trimmedNonEmpty n items).
Proof.
  unfold trimmedNonEmpty. apply Forall_forall. intros entry Hin.
  apply list_elem_of_In in Hin. apply In_firstn in Hin.
  apply filter_In in Hin as [Hin Hne]. apply in_map_iff in Hin as (raw & <- & _).
  eauto.
Qed.

Lemma normalizePlan_bound v plan0 :
  normalizePlan numberToString v = inr plan0 →
  length plan0 ≤ 12
  ∧ Forall (λ entry, JS.nonEmpty entry = true ∧ ∃ raw, entry = JS.trim raw) plan0.
Proof.
  unfold normalizePlan. intros H.
  destruct v as [[]|]; simplify_eq; try (split; [simpl; lia|constructor]).
  destruct (mapToStr numberToString items); simplify_eq.
  split; [apply trimmedNonEmpty_length|apply trimmedNonEmpty_entries].
Qed.

Lemma normalizeActions_bound v actions0 :
  normalizeActions numberToString v = inr actions0 → length actions0 ≤ 6.
Proof.
  unfold normalizeActions. intros H.
  destruct v as [[]|]; simplify_eq; try (simpl; lia).
  destruct (collectActions numberToString items []); simplify_eq.
  rewrite length_take. lia.
Qed.

Lemma normalizeVerify_bound v : length (normalizeVerify v) ≤ 8.
Proof.
  unfold normalizeVerify. destruct v as [[]|]; try (simpl; lia).
  rewrite length_take. lia.
Qed.

(** What a returned response satisfies, and the response to a text that
    [JSON.parse] rejects. *)
Lemma parseAgentModelResponse_returned rawText :
  (∀ response,
     parseAgentModelResponse numberToString JSON_parse rawText = inr response →
     length (actions response) ≤ 6
     ∧ length (verify response) ≤ 8
     ∧ length (plan response) ≤ 12
     ∧ Forall (λ entry, JS.nonEmpty entry = true ∧ ∃ raw, entry = JS.trim raw)
         (plan response))
  ∧ (JSON_parse (extractJson rawText) = None →
     parseAgentModelResponse numberToString JSON_parse rawText
     = inr invalidJsonResponse
     ∧ status invalidJsonResponse = StatusNeedUser
     ∧ actions invalidJsonResponse = []).
Proof.
  split.
  - unfold parseAgentModelResponse. intros response H.
    destruct (JSON_parse (extractJson rawText)) as [parsed|].
    2: { simplify_eq. simpl. repeat split; try lia. constructor. }
    destruct (negb (truthy parsed) || negb (typeofObject parsed)).
    { simplify_eq. simpl. repeat split; try lia. constructor. }
    destruct (normalizePlan _ _) as [|plan0] eqn:Hplan; [done|].
    destruct (normalizeActions _ _) as [|actions0] eqn:Hactions; [done|].
    destruct (normalizeMemoryUpdates _ _) as [|updates]; [done|].
    simplify_eq. simpl.
    apply normalizePlan_bound in Hplan as [Hlen Hentries].
    apply normalizeActions_bound in Hactions.
    pose proof (normalizeVerify_bound (get parsed "verify")). done.
  - intros Hparse. unfold parseAgentModelResponse. by rewrite Hparse.
Qed.

(** An action is kept only with the required fields of its tool present and
    of the right type. *)
Lemma normalizeAction_required item action :
  normalizeAction numberToString item = inr (Some action) →
  match action with
  | ReadFile path _ _ => nonBlankString (get item "path") = Some path
  | Grep pattern _ _ => nonBlankString (get item "pattern") = Some pattern
  | RunCommand command => nonBlankString (get item "command") = Some command
  | WriteFile path content =>
      nonBlankString (get item "path") = Some path
      ∧ asString (get item "content") = Some content
  | SymbolLookup query _ _ => nonBlankString (get item "query") = Some query
  | FindReferences symbol _ _ => nonBlankString (get item "symbol") = Some symbol
  | MemorySet key val =>
      nonBlankString (get item "key") = Some key
      ∧ asString (get item "value") = Some val
  | MemoryGet key => nonBlankString (get item "key") = Some key
  | ListFiles _ _ _ _ | ScanProject _ _ | DependencyMap => True
  end.
Proof.
  unfold normalizeAction. intros H.
  destruct (negb (truthy item) || negb (typeofObject item)); [done|].
  destruct (toStr numberToString _) as [|tool]; [done|].
  repeat match type of H with
    | inr (if ?c then _ else _) = _ => destruct c
    end;
    repeat match type of H with
      | context [match ?x with _ => _ end] => destruct x eqn:?
      end;
    by simplify_eq.
Qed.

(** The text {"plan":[{"toString":1}]} and what [JSON.parse] returns for it. *)
Definition throwingText : string :=
  "{" +:+ JS.quoted "plan" +:+ ":[{" +:+ JS.quoted "toString" +:+ ":1}]}".

Definition throwingValue : value :=
  JObject [("plan", JArray [JObject [("toString", JNumber (Finite 1))]])].

(** C3 is violated by the code: for the response text
    {"plan":[{"toString":1}]} the parser does not return a response, it
    throws the type error of [String(item)] in [normalizePlan]. *)
Theorem parseAgentModelResponse_throws :
  JSON_parse throwingText = Some throwingValue →
  parseAgentModelResponse numberToString JSON_parse throwingText
  = inl CannotConvertObjectToPrimitive.
Proof.
  intros Hparse. unfold parseAgentModelResponse.
  change (extractJson throwingText) with throwingText. by rewrite Hparse.
Qed.

End Parser.

End ResponseParserFacts.

(** The failing input of C3 with a parser that knows this one text. *)
Lemma parseAgentModelResponse_throws_witness :
  let parse := λ s : string,
    if String.eqb s ResponseParserFacts.throwingText
    then Some ResponseParserFacts.throwingValue else None in
  parse ResponseParserFacts.throwingText = Some ResponseParserFacts.throwingValue
  ∧ ResponseParser.parseAgentModelResponse (λ _, "1") parse
      ResponseParserFacts.throwingText
    = inl Json.CannotConvertObjectToPrimitive.
Proof.
  intros parse. split; [reflexivity|].
  by apply ResponseParserFacts.parseAgentModelResponse_throws.
Defined.

(** ** Agent orchestrator *)

Module OrchestratorFacts.
Import ResponseParser Orchestrator.

Definition isVerifyResult (ev : AuditEvent) : bool :=
  match ev with
  | EvVerifyResult _ _ _ _ => true
  | _ => false
  end.

(** A [verify_result] event with [ok = false]. *)
Definition isFailedVerify (ev : AuditEvent) : bool :=
  match ev with
  | EvVerifyResult _ _ isOk _ => negb isOk
  | _ => false
  end.

(** [w'] comes from [w] by steps that do not ask for a rollback and do not
    log a verify result. *)
Definition extends (w w' : World) : Prop :=
  ∃ qs evs,
    asked w' = asked w ++ qs ∧ Forall (λ q, q ≠ AskRollback) qs
    ∧ audit w' = audit w ++ evs ∧ Forall (λ ev, isVerifyResult ev = false) evs.

Lemma extends_refl w : extends w w.
Proof. exists [], []. by rewrite !app_nil_r. Qed.

Lemma extends_trans w1 w2 w3 : extends w1 w2 → extends w2 w3 → extends w1 w3.
Proof.
  intros (qs & evs & Ha & Hq & He & Hv) (qs' & evs' & Ha' & Hq' & He' & Hv').
  exists (qs ++ qs'), (evs ++ evs').
  rewrite Ha', Ha, He', He, <-!List.app_assoc.
  repeat split; try done; by apply Forall_app.
Qed.

Lemma extends_log ev w : isVerifyResult ev = false → extends w (log ev w).
Proof.
  intros H. exists [], [ev]. simpl. rewrite app_nil_r.
  repeat split; try done. by constructor.
Qed.

Lemma extends_same w w' : asked w' = asked w → audit w' = audit w → extends w w'.
Proof. intros Ha He. exists [], []. by rewrite Ha, He, !app_nil_r. Qed.

Lemma extends_log_r ev w w' :
  extends w w' → isVerifyResult ev = false → extends w (log ev w').
Proof. intros H Hev. eapply extends_trans; [exact H|by apply extends_log]. Qed.

Lemma extends_withFs_r files w w' : extends w w' → extends w (withFs w' files).
Proof. intros H. eapply extends_trans; [exact H|by apply extends_same]. Qed.

Lemma extends_withTracker_r ct w w' : extends w w' → extends w (withTracker w' ct).
Proof. intros H. eapply extends_trans; [exact H|by apply extends_same]. Qed.

Lemma extends_addQuestion_r q w w' :
  extends w w' → q ≠ AskRollback → extends w (addQuestion q w').
Proof.
  intros H Hq. eapply extends_trans; [exact H|].
  exists [q], []. simpl. rewrite app_nil_r. repeat split; try done. by constructor.
Qed.

(** Writing the log file changes the files and nothing else. *)
Lemma appendEvent_same E ev w w' :
  appendEvent E ev w = Some w' →
  asked w' = asked w ∧ audit w' = audit w ∧ tracker w' = tracker w.
Proof.
  unfold appendEvent. intros H. repeat case_match; by simplify_eq.
Qed.

Lemma safeAuditLog_same E ev w :
  asked (safeAuditLog E ev w) = asked w
  ∧ audit (safeAuditLog E ev w) = audit w ++ [ev]
  ∧ tracker (safeAuditLog E ev w) = tracker w.
Proof.
  unfold safeAuditLog. destruct (appendEvent E ev w) as [w'|] eqn:Hw; [|done].
  destruct (appendEvent_same E ev w w' Hw) as (Ha & He & Ht). simpl.
  by rewrite Ha, He, Ht.
Qed.

Lemma safeAuditLog_asked E ev w : asked (safeAuditLog E ev w) = asked w.
Proof. apply safeAuditLog_same. Qed.

Lemma safeAuditLog_audit E ev w : audit (safeAuditLog E ev w) = audit w ++ [ev].
Proof. apply safeAuditLog_same. Qed.

Lemma safeAuditLog_tracker E ev w : tracker (safeAuditLog E ev w) = tracker w.
Proof. apply safeAuditLog_same. Qed.

(** The log file is the only file that a call of the logger changes. *)
Lemma safeAuditLog_files E ev w a :
  a ≠ auditPath E → fs (safeAuditLog E ev w) !! a = fs w !! a.
Proof.
  intros Ha. unfold safeAuditLog, appendEvent.
  repeat case_match; simplify_eq; simpl; try done; by rewrite lookup_insert_ne.
Qed.

#[global] Opaque safeAuditLog.

Lemma extends_safeAuditLog_r E ev w w' :
  extends w w' → isVerifyResult ev = false → extends w (safeAuditLog E ev w').
Proof.
  intros H Hev. eapply extends_trans; [exact H|].
  exists [], [ev]. rewrite safeAuditLog_asked, safeAuditLog_audit, app_nil_r.
  repeat split; try done. by constructor.
Qed.

(** Follows the construction of the final world. *)
Ltac frame :=
  repeat first
    [ apply extends_refl
    | apply extends_safeAuditLog_r; [|done]
    | apply extends_log_r; [|done]
    | apply extends_withFs_r
    | apply extends_withTracker_r
    | apply extends_addQuestion_r; [|done] ].

Section Task.

Variable E : Env.

Lemma executeRunCommand_extends command w :
  extends w (executeRunCommand E command w).2.
Proof.
  unfold executeRunCommand. repeat case_match; simpl; frame.
Qed.

Lemma executeWriteFile_extends path content w :
  extends w (executeWriteFile E path content w).2.
Proof.
  unfold executeWriteFile, ask. repeat case_match; simplify_eq; simpl; frame.
Qed.

Lemma executeAction_extends action w : extends w (executeAction E action w).2.
Proof.
  destruct action; simpl;
    try apply executeRunCommand_extends; try apply executeWriteFile_extends;
    repeat case_match; simpl; frame.
Qed.

Lemma runActions_extends loop actions results hadWrites w :
  extends w (runActions E loop actions results hadWrites w).2.
Proof.
  revert results hadWrites w.
  induction actions as [|action rest IH]; intros results hadWrites w; simpl.
  { apply extends_refl. }
  pose proof (executeAction_extends action w) as Hact.
  destruct (executeAction E action w) as [result w1]. simpl in Hact.
  eapply extends_trans; [|apply IH]. by frame.
Qed.

Lemma runVerifyCommand_same command w :
  asked (runVerifyCommand E command w).2 = asked w
  ∧ audit (runVerifyCommand E command w).2 = audit w
  ∧ tracker (runVerifyCommand E command w).2 = tracker w.
Proof. unfold runVerifyCommand. by repeat case_match. Qed.

(** The verify loop logs one [verify_result] per command and nothing else,
    asks nothing, leaves the tracker alone, and raises both flags exactly
    when one of its results is a failure. *)
Lemma runVerify_events loop commands had failed w :
  ∃ evs,
    audit (runVerify E loop commands had failed w).2 = audit w ++ evs
    ∧ asked (runVerify E loop commands had failed w).2 = asked w
    ∧ tracker (runVerify E loop commands had failed w).2 = tracker w
    ∧ length evs = length commands
    ∧ (runVerify E loop commands had failed w).1.1
      = had || existsb isFailedVerify evs
    ∧ (runVerify E loop commands had failed w).1.2
      = failed || existsb isFailedVerify evs.
Proof.
  revert had failed w.
  induction commands as [|cmd rest IH]; intros had failed w.
  { exists []. simpl. by rewrite app_nil_r, !orb_false_r. }
  simpl. destruct (runVerifyCommand_same cmd w) as (Ha & Hl & Ht).
  destruct (runVerifyCommand E cmd w) as [result w1]. simpl in Ha, Hl, Ht.
  set (ev := EvVerifyResult loop cmd (ok result) (summary result)).
  destruct (ok result) eqn:Hok; cbn [negb].
  - destruct (IH had failed (safeAuditLog E ev w1))
      as (evs & He & Ha' & Ht' & Hn & Hh & Hf).
    exists (ev :: evs). rewrite He, Ha', Ht', Hh, Hf.
    rewrite safeAuditLog_audit, safeAuditLog_asked, safeAuditLog_tracker. simpl.
    rewrite Hl, <-List.app_assoc. subst ev. simpl.
    repeat split; auto.
  - destruct (IH true true (safeAuditLog E ev w1))
      as (evs & He & Ha' & Ht' & Hn & Hh & Hf).
    exists (ev :: evs). rewrite He, Ha', Ht', Hh, Hf.
    rewrite safeAuditLog_audit, safeAuditLog_asked, safeAuditLog_tracker. simpl.
    rewrite Hl, <-List.app_assoc. subst ev. simpl.
    rewrite !orb_true_r. repeat split; auto.
Qed.

Lemma applyMemoryUpdates_extends loop updates w w' :
  applyMemoryUpdates E loop updates w = Some w' → extends w w'.
Proof.
  unfold applyMemoryUpdates. intros H.
  repeat case_match; simplify_eq; by frame.
Qed.

(** What holds of the flags and the world throughout the loop of [runTask]:
    no rollback question has been asked, and [hadVerifyFailures] tells
    whether a failed verify result has been logged. *)
Definition loopInvariant (fl : Flags) (w : World) : Prop :=
  (AskRollback ∉ asked w)
  ∧ hadVerifyFailures fl = existsb isFailedVerify (audit w).

Lemma isFailedVerify_isVerifyResult evs :
  Forall (λ ev, isVerifyResult ev = false) evs → existsb isFailedVerify evs = false.
Proof.
  induction 1 as [|ev evs Hev _ IH]; [done|]. simpl. rewrite IH.
  by destruct ev.
Qed.

Lemma loopInvariant_extends fl w w' :
  loopInvariant fl w → extends w w' → loopInvariant fl w'.
Proof.
  intros [Hask Hhad] (qs & evs & Ha & Hq & He & Hv). split.
  - rewrite Ha. intros [?|Hin]%elem_of_app; [done|].
    by eapply Forall_forall in Hq.
  - by rewrite He, existsb_app, (isFailedVerify_isVerifyResult evs Hv), orb_false_r.
Qed.

Lemma resolveStatus_invariant response failed fl w :
  loopInvariant fl w →
  loopInvariant (resolveStatus E response failed fl w).1.2
    (resolveStatus E response failed fl w).2.
Proof.
  intros Hinv. unfold resolveStatus.
  repeat case_match; simpl; try done;
    (eapply (loopInvariant_extends _ w); [exact Hinv|by frame]).
Qed.

Lemma verifyAndResolve_invariant loop response hadWrites fl w :
  loopInvariant fl w →
  loopInvariant (verifyAndResolve E loop response hadWrites fl w).1.2
    (verifyAndResolve E loop response hadWrites fl w).2.
Proof.
  intros [Hask Hhad]. unfold verifyAndResolve.
  set (commands := verifyCommandsOf E loop response hadWrites w).
  destruct (runVerify_events loop commands (hadVerifyFailures fl) false w)
    as (evs & He & Ha & Ht & Hn & Hh & Hf).
  destruct (runVerify E loop commands (hadVerifyFailures fl) false w)
    as [[had failed] w1].
  simpl in He, Ha, Ht, Hh, Hf.
  set (count := updateFailureCount commands failed (consecutiveVerifyFailures fl)).
  assert (Hinv1 : ∀ n, loopInvariant (setCount fl had n) w1).
  { intros n. split; [by rewrite Ha|].
    simpl. by rewrite Hh, He, existsb_app, Hhad. }
  destruct (_ && _); [|by apply resolveStatus_invariant].
  unfold ask. destruct (confirm E _); cbn [negb].
  - apply resolveStatus_invariant.
    eapply loopInvariant_extends; [apply (Hinv1 0)|by frame].
  - simpl. eapply (loopInvariant_extends _ w1); [apply (Hinv1 count)|by frame].
Qed.

Lemma iteration_invariant loop fl w flow fl' w' :
  loopInvariant fl w →
  iteration E loop fl w = inr (flow, fl', w') →
  loopInvariant fl' w'.
Proof.
  intros Hinv. unfold iteration.
  destruct (complete E loop) as [rawResponse|].
  2: { intros [= <- <- <-]. eapply (loopInvariant_extends _ w); [done|by frame]. }
  destruct (parseAgentModelResponse _ _ _) as [|response]; [done|].
  set (w0 := safeAuditLog E (EvModelResponse _ _ _ _ _) _).
  destruct (applyMemoryUpdates E loop (memory_updates response) w0)
    as [w1|] eqn:Hmemory; [|done].
  assert (Hw1 : extends w w1).
  { eapply extends_trans; [|by eapply applyMemoryUpdates_extends].
    subst w0. by frame. }
  pose proof (runActions_extends loop (actions response) [] false w1) as Hact.
  destruct (runActions E loop (actions response) [] false w1) as [[results hadWrites] w2].
  simpl in Hact. intros H. injection H as H.
  pose proof (verifyAndResolve_invariant loop response hadWrites fl w2) as Hv.
  rewrite H in Hv. apply Hv.
  eapply loopInvariant_extends; [exact Hinv|]. by eapply extends_trans.
Qed.

Lemma runLoop_invariant remaining loop fl w fl' w' :
  loopInvariant fl w →
  runLoop E remaining loop fl w = inr (fl', w') →
  loopInvariant fl' w'.
Proof.
  revert loop fl w. induction remaining as [|n IH]; intros loop fl w Hinv; simpl.
  { by intros [= <- <-]. }
  destruct (iteration E loop fl w) as [|[[flow fl1] w1]] eqn:Hit; [done|].
  pose proof (iteration_invariant _ _ _ _ _ _ Hinv Hit) as Hinv1.
  destruct flow; [by apply IH|]. by intros [= <- <-].
Qed.

(** What the part of [runTask] after the loop does to the flags, the
    tracker, the questions and the audit log. *)
Lemma finishTask_returned fl0 w0 fl w :
  finishTask E fl0 w0 = inr (fl, w) →
  completed fl = completed fl0
  ∧ hadVerifyFailures fl = hadVerifyFailures fl0
  ∧ abortedByError fl = abortedByError fl0
  ∧ tracker w = tracker w0
  ∧ asked w
    = asked w0
      ++ (if negb (completed fl0) && hadVerifyFailures fl0
             && ChangeTracker.hasChanges (tracker w0)
          then [AskRollback] else [])
  ∧ ∃ evs, audit w = audit w0 ++ evs ∧ Forall (λ ev, isVerifyResult ev = false) evs.
Proof.
  unfold finishTask, ask.
  set (fl1 := if negb (completed fl0) && negb (abortedByError fl0)
                 && negb (stoppedEarly fl0)
              then setMaxIterationReached fl0 else fl0).
  assert (Hfl : completed fl1 = completed fl0
                ∧ hadVerifyFailures fl1 = hadVerifyFailures fl0
                ∧ abortedByError fl1 = abortedByError fl0).
  { subst fl1. by destruct (_ && _). }
  destruct Hfl as (Hc & Hh & Ha). rewrite Hc, Hh. clearbody fl1.
  set (w1 := if ChangeTracker.hasChanges (tracker w0)
             then safeAuditLog E (EvChangeSummary _) w0 else w0).
  assert (Hw1 : tracker w1 = tracker w0 ∧ asked w1 = asked w0
                ∧ ∃ evs, audit w1 = audit w0 ++ evs
                         ∧ Forall (λ ev, isVerifyResult ev = false) evs).
  { subst w1. destruct (ChangeTracker.hasChanges (tracker w0)); simpl.
    - rewrite safeAuditLog_tracker, safeAuditLog_asked, safeAuditLog_audit.
      repeat split. exists [EvChangeSummary
        (map ChangeTracker.path (ChangeTracker.getChangedFiles (tracker w0)))].
      split; [done|]. by repeat constructor.
    - repeat split. exists []. by rewrite app_nil_r. }
  destruct Hw1 as (Ht & Hq & evs & He & Hv). rewrite Ht. clearbody w1.
  destruct (negb (completed fl0) && hadVerifyFailures fl0
            && ChangeTracker.hasChanges (tracker w0)).
  - destruct (confirm E _).
    + destruct (ChangeTracker.rollback _ _ _ _) as [[e|restored] files]; [done|].
      intros [= <- <-].
      rewrite !safeAuditLog_tracker, !safeAuditLog_asked, !safeAuditLog_audit.
      simpl. rewrite Hq, He, <-!List.app_assoc.
      repeat split; try done. eexists. split; [done|].
      apply Forall_app. split; [done|]. by repeat constructor.
    + intros [= <- <-].
      rewrite !safeAuditLog_tracker, !safeAuditLog_asked, !safeAuditLog_audit.
      simpl. rewrite Hq, He, <-!List.app_assoc.
      repeat split; try done. eexists. split; [done|].
      apply Forall_app. split; [done|]. by repeat constructor.
  - intros [= <- <-].
    rewrite !safeAuditLog_tracker, !safeAuditLog_asked, !safeAuditLog_audit.
    rewrite Hq, He, app_nil_r, <-!List.app_assoc.
    repeat split; try done. eexists. split; [done|].
    apply Forall_app. split; [done|]. by repeat constructor.
Qed.

Lemma failedVerify_logged evs :
  existsb isFailedVerify evs = true
  ↔ ∃ loop cmd text, EvVerifyResult loop cmd false text ∈ evs.
Proof.
  rewrite existsb_exists. split.
  - intros (ev & Hin & Hev). destruct ev; try done. simpl in Hev.
    apply negb_true_iff in Hev. subst. apply list_elem_of_In in Hin. eauto.
  - intros (loop & cmd & text & Hin). apply list_elem_of_In in Hin. eauto.
Qed.

(** C5. Rollback-prompt condition: at the end of a task that returns, the
    user has been asked to roll back exactly when the task was not completed,
    the change tracker has changes, and a verify command failed during the
    task ([hadVerifyFailures], which holds exactly when a failed verify
    result was logged).  Whether the session was aborted plays no part: a
    session aborted by a failed model call is prompted too when earlier loops
    left changes and a failed verification; when the first model call fails,
    nothing has changed and no question is asked. *)
Theorem rollback_prompt_condition goal files fl w :
  runTask E goal files = Some (inr (fl, w)) →
  (AskRollback ∈ asked w
   ↔ completed fl = false ∧ hadVerifyFailures fl = true
     ∧ ChangeTracker.hasChanges (tracker w) = true)
  ∧ (hadVerifyFailures fl = true
     ↔ ∃ loop cmd text, EvVerifyResult loop cmd false text ∈ audit w)
  ∧ (0 < maxIterations (config E) → complete E 1 = None →
     abortedByError fl = true ∧ asked w = []).
Proof.
  unfold runTask. destruct (negb _); [done|].
  destruct (loadState E files) as [loaded|]; [|done].
  destruct (summarize E _) as [summarized|]; [|done].
  set (w0 := withFs (safeAuditLog E (EvTaskStart goal) (initialWorld loaded))
               summarized).
  assert (Hinit : loopInvariant initialFlags w0).
  { split.
    - subst w0. simpl. rewrite safeAuditLog_asked. simpl. by intros ?%elem_of_nil.
    - subst w0. simpl. by rewrite safeAuditLog_audit. }
  assert (Hasked0 : asked w0 = []).
  { subst w0. simpl. by rewrite safeAuditLog_asked. }
  clearbody w0.
  destruct (runLoop E (maxIterations (config E)) 1 initialFlags w0)
    as [|[fl1 w1]] eqn:Hloop; [done|].
  intros [= Hfinish].
  destruct (runLoop_invariant _ _ _ _ _ _ Hinit Hloop) as [Hask Hhad].
  destruct (finishTask_returned _ _ _ _ Hfinish)
    as (Hc & Hh & Ha & Ht & Hq & evs & He & Hv).
  rewrite Hc, Hh, Ht, Hq. split; [|split].
  - destruct (negb (completed fl1)) eqn:Hcompleted; simpl.
    + apply negb_true_iff in Hcompleted.
      destruct (hadVerifyFailures fl1 && _) eqn:Hrest.
      * apply andb_true_iff in Hrest as [? ?]. split; [done|].
        intros _. apply elem_of_app. right. by left.
      * rewrite app_nil_r. split; [done|]. intros (_ & H1 & H2).
        by rewrite H1, H2 in Hrest.
    + rewrite app_nil_r. apply negb_false_iff in Hcompleted.
      split; [done|]. intros [? _]. congruence.
  - rewrite Hhad, He, <-failedVerify_logged, existsb_app.
    by rewrite (isFailedVerify_isVerifyResult evs Hv), orb_false_r.
  - intros Hmax Hcomplete. rewrite Ha.
    destruct (maxIterations (config E)) as [|n]; [lia|].
    simpl in Hloop. unfold iteration in Hloop. rewrite Hcomplete in Hloop.
    injection Hloop as <- <-. rewrite safeAuditLog_asked, Hasked0. by simpl.
Qed.

Lemma resolveStatus_flags response failed fl w :
  hadVerifyFailures (resolveStatus E response failed fl w).1.2 = hadVerifyFailures fl
  ∧ consecutiveVerifyFailures (resolveStatus E response failed fl w).1.2
    = consecutiveVerifyFailures fl.
Proof. unfold resolveStatus. by repeat case_match. Qed.

(** The counter after a sequence of loops, from the verify commands of each
    and whether one of them failed. *)
Definition countAfter (rounds : list (list string * bool)) (count : nat) : nat :=
  fold_left (λ n round, updateFailureCount round.1 round.2 n) rounds count.

Definition ranVerify (round : list string * bool) : bool :=
  match round.1 with
  | [] => false
  | _ => true
  end.

Lemma countAfter_failing rounds count :
  Forall (λ round, round.1 = [] ∨ round.2 = true) rounds →
  countAfter rounds count = count + length (List.filter ranVerify rounds).
Proof.
  revert count. induction rounds as [|[commands failed] rounds IH];
    intros count Hall; simpl.
  { lia. }
  inversion_clear Hall as [|?? Hround Hrest]. unfold countAfter in *. simpl.
  rewrite IH by done. unfold ranVerify. simpl in *.
  destruct commands as [|c commands]; simpl; [lia|].
  destruct Hround as [? | ->]; [done|]. lia.
Qed.

(** C10. In a loop whose list of verify commands is empty, the update after
    the verify loop leaves [consecutiveVerifyFailures] and
    [hadVerifyFailures] as they were; the loop ends with the counter
    unchanged, unless the counter already is at the repair limit, the
    tracker has changes and the user agrees to continue, in which case the
    repair-limit prompt of that loop sets it to 0.  Over loops that either
    verify nothing or fail, the update adds one per failing loop, so
    verify-free loops in between do not keep it from the limit. *)
Theorem verify_free_iteration_counter loop response loopHadWrites fl w :
  verifyCommandsOf E loop response loopHadWrites w = [] →
  let after := (verifyAndResolve E loop response loopHadWrites fl w).1.2 in
  let atLimit :=
    (autoRepairMaxRounds (config E) <=? consecutiveVerifyFailures fl)%nat
    && ChangeTracker.hasChanges (tracker w) in
  updateFailureCount (verifyCommandsOf E loop response loopHadWrites w) false
    (consecutiveVerifyFailures fl) = consecutiveVerifyFailures fl
  ∧ hadVerifyFailures after = hadVerifyFailures fl
  ∧ consecutiveVerifyFailures after
    = (if atLimit && confirm E (length (asked w)) then 0
       else consecutiveVerifyFailures fl)
  ∧ (∀ rounds count,
       Forall (λ round, round.1 = [] ∨ round.2 = true) rounds →
       countAfter rounds count = count + length (List.filter ranVerify rounds)).
Proof.
  intros Hnone after atLimit. subst after. unfold verifyAndResolve.
  rewrite Hnone. cbn [runVerify updateFailureCount].
  split; [done|]. fold atLimit.
  assert (Hgoal :
    hadVerifyFailures
      (if atLimit
       then
         let '(keepTrying, w0) := ask E AskContinueRepair w in
         let w1 := safeAuditLog E (EvAutoRepairLimitReached
                                     (consecutiveVerifyFailures fl) keepTrying) w0 in
         if negb keepTrying
         then (Break,
               setStoppedEarly
                 (setCount fl (hadVerifyFailures fl) (consecutiveVerifyFailures fl)),
               w1)
         else resolveStatus E response false
                (setCount fl (hadVerifyFailures fl) 0) w1
       else resolveStatus E response false
              (setCount fl (hadVerifyFailures fl) (consecutiveVerifyFailures fl)) w).1.2
    = hadVerifyFailures fl
    ∧ consecutiveVerifyFailures
        (if atLimit
         then
           let '(keepTrying, w0) := ask E AskContinueRepair w in
           let w1 := safeAuditLog E (EvAutoRepairLimitReached
                                       (consecutiveVerifyFailures fl) keepTrying) w0 in
           if negb keepTrying
           then (Break,
                 setStoppedEarly
                   (setCount fl (hadVerifyFailures fl) (consecutiveVerifyFailures fl)),
                 w1)
           else resolveStatus E response false
                  (setCount fl (hadVerifyFailures fl) 0) w1
         else resolveStatus E response false
                (setCount fl (hadVerifyFailures fl) (consecutiveVerifyFailures fl)) w).1.2
      = (if atLimit && confirm E (length (asked w)) then 0
         else consecutiveVerifyFailures fl)).
  { destruct atLimit; cbn [andb].
    - unfold ask. destruct (confirm E (length (asked w))); cbn [negb].
      + by destruct (resolveStatus_flags response false
                       (setCount fl (hadVerifyFailures fl) 0)
                       (safeAuditLog E
                          (EvAutoRepairLimitReached (consecutiveVerifyFailures fl) true)
                          (addQuestion AskContinueRepair w))) as [-> ->].
      + done.
    - by destruct (resolveStatus_flags response false
                     (setCount fl (hadVerifyFailures fl) (consecutiveVerifyFailures fl))
                     w) as [-> ->]. }
  destruct Hgoal as [Hhad Hcount]. split; [exact Hhad|]. split; [exact Hcount|].
  intros rounds count. apply countAfter_failing.
Qed.

End Task.

End OrchestratorFacts.

(** ** Scripted sessions *)

(** Three replies of the model and what [JSON.parse] returns for them:
    {"verify":["npm test"]},
    {"actions":[{"tool":"write_file","path":"foo.txt","content":"hi"}]}, and
    the second with the verify list of the first. *)
Definition writeActionText : string :=
  "{" +:+ JS.quoted "tool" +:+ ":" +:+ JS.quoted "write_file" +:+ ","
  +:+ JS.quoted "path" +:+ ":" +:+ JS.quoted "foo.txt" +:+ ","
  +:+ JS.quoted "content" +:+ ":" +:+ JS.quoted "hi" +:+ "}".

Definition writeActionValue : Json.value :=
  Json.JObject [("tool", Json.JString "write_file"); ("path", Json.JString "foo.txt");
                ("content", Json.JString "hi")].

Definition verifyOnlyText : string :=
  "{" +:+ JS.quoted "verify" +:+ ":[" +:+ JS.quoted "npm test" +:+ "]}".

Definition verifyOnlyValue : Json.value :=
  Json.JObject [("verify", Json.JArray [Json.JString "npm test"])].

Definition writeOnlyText : string :=
  "{" +:+ JS.quoted "actions" +:+ ":[" +:+ writeActionText +:+ "]}".

Definition writeOnlyValue : Json.value :=
  Json.JObject [("actions", Json.JArray [writeActionValue])].

Definition writeAndVerifyText : string :=
  "{" +:+ JS.quoted "actions" +:+ ":[" +:+ writeActionText +:+ "],"
  +:+ JS.quoted "verify" +:+ ":[" +:+ JS.quoted "npm test" +:+ "]}".

Definition writeAndVerifyValue : Json.value :=
  Json.JObject [("actions", Json.JArray [writeActionValue]);
                ("verify", Json.JArray [Json.JString "npm test"])].

Definition scriptedParse (s : string) : option Json.value :=
  if String.eqb s verifyOnlyText then Some verifyOnlyValue
  else if String.eqb s writeOnlyText then Some writeOnlyValue
  else if String.eqb s writeAndVerifyText then Some writeAndVerifyValue
  else None.

(** The environment of the examples with a scripted chat client and
    verification that always fails. *)
Definition scriptedEnv (replies : nat → option string) : Orchestrator.Env :=
  {| Orchestrator.cwd := "/";
     Orchestrator.auditPath := "/ws/.vibe-agent/audit/session.jsonl";
     Orchestrator.auditLine := λ n _, "event " +:+ Json.natToString n;
     Orchestrator.loadState := Some;
     Orchestrator.summarize := Some;
     Orchestrator.memoryWrite := λ _, Some;
     Orchestrator.config := demoConfig;
     Orchestrator.policy := Policy.DEFAULT_POLICY;
     Orchestrator.numberToString := λ _, "0";
     Orchestrator.JSON_parse := scriptedParse;
     Orchestrator.patternTest := λ _ _, Some false;
     Orchestrator.globTest := λ _ _, Some false;
     Orchestrator.complete := replies;
     Orchestrator.confirm := λ _, true;
     Orchestrator.answer := λ _, None;
     Orchestrator.shell := λ command files, (inr (failingRun command), files);
     Orchestrator.otherTool := Orchestrator.otherTool demoEnv;
     Orchestrator.diffStats := Orchestrator.diffStats demoEnv;
     Orchestrator.memoryChanges := λ _ _, [];
     Orchestrator.memoryAt := λ _, emptyMemory |}.

(** A session whose first loop writes foo.txt and fails verification, and
    whose second model call fails. *)
Definition abortedSession : Orchestrator.Env :=
  scriptedEnv (λ loop, if (loop =? 1)%nat then Some writeAndVerifyText else None).

(** A session whose first three loops fail verification without writing,
    and whose fourth loop writes foo.txt and verifies nothing. *)
Definition repairSession : Orchestrator.Env :=
  scriptedEnv (λ loop, if (loop <=? 3)%nat then Some verifyOnlyText
                       else Some writeOnlyText).

(** C5 as stated fails: the session is aborted by the failed model call of
    the second loop, and the user is still asked to roll back (and, agreeing,
    gets foo.txt removed). *)
Lemma rollback_prompt_after_abort :
  match Orchestrator.runTask abortedSession "add foo" ∅ with
  | Some (inr (fl, w)) =>
      Orchestrator.abortedByError fl = true
      ∧ Orchestrator.completed fl = false
      ∧ Orchestrator.asked w
        = [Orchestrator.AskApplyChange "foo.txt"; Orchestrator.AskRollback]
      ∧ Orchestrator.fs w !! "/ws/foo.txt" = None
  | _ => False
  end.
Proof. vm_compute. done. Qed.

(** C10 as stated fails: after three failing loops the counter is 3; the
    fourth loop runs no verify command (the log still holds three verify
    results) and ends with the counter at 0. *)
Lemma counter_reset_in_verify_free_loop :
  let w0 := Orchestrator.log (Orchestrator.EvTaskStart "repair")
              (Orchestrator.initialWorld ∅) in
  match Orchestrator.runLoop repairSession 3 1 Orchestrator.initialFlags w0,
        Orchestrator.runLoop repairSession 4 1 Orchestrator.initialFlags w0 with
  | inr (fl3, w3), inr (fl4, w4) =>
      Orchestrator.consecutiveVerifyFailures fl3 = 3
      ∧ length (List.filter OrchestratorFacts.isVerifyResult (Orchestrator.audit w3)) = 3
      ∧ length (List.filter OrchestratorFacts.isVerifyResult (Orchestrator.audit w4)) = 3
      ∧ Orchestrator.consecutiveVerifyFailures fl4 = 0
  | _, _ => False
  end.
Proof. vm_compute. done. Qed.

(** The outcome of the aborted session. *)
Definition abortedOutcome : Orchestrator.Flags * Orchestrator.World :=
  match Orchestrator.runTask abortedSession "add foo" ∅ with
  | Some (inr outcome) => outcome
  | _ => (Orchestrator.initialFlags, Orchestrator.initialWorld ∅)
  end.

(** C5, on the aborted session. *)
Lemma rollback_prompt_condition_witness :
  Orchestrator.runTask abortedSession "add foo" ∅
  = Some (inr (abortedOutcome.1, abortedOutcome.2))
  ∧ (Orchestrator.AskRollback ∈ Orchestrator.asked abortedOutcome.2
     ↔ Orchestrator.completed abortedOutcome.1 = false
       ∧ Orchestrator.hadVerifyFailures abortedOutcome.1 = true
       ∧ ChangeTracker.hasChanges (Orchestrator.tracker abortedOutcome.2) = true).
Proof.
  assert (Hrun : Orchestrator.runTask abortedSession "add foo" ∅
                 = Some (inr (abortedOutcome.1, abortedOutcome.2))).
  { vm_compute. reflexivity. }
  split; [exact Hrun|].
  exact (proj1 (OrchestratorFacts.rollback_prompt_condition abortedSession
                  "add foo" ∅ abortedOutcome.1 abortedOutcome.2 Hrun)).
Defined.

(** C10, on a loop of the example environment without verify commands. *)
Lemma verify_free_iteration_counter_witness :
  let fl := Orchestrator.setCount Orchestrator.initialFlags true 2 in
  let w := Orchestrator.initialWorld ∅ in
  Orchestrator.verifyCommandsOf demoEnv 2 ResponseParser.invalidJsonResponse false w = []
  ∧ Orchestrator.consecutiveVerifyFailures
      (Orchestrator.verifyAndResolve demoEnv 2 ResponseParser.invalidJsonResponse
         false fl w).1.2 = 2.
Proof.
  intros fl w. split; [reflexivity|].
  destruct (OrchestratorFacts.verify_free_iteration_counter demoEnv 2
              ResponseParser.invalidJsonResponse false fl w eq_refl)
    as (_ & _ & Hcount & _).
  exact Hcount.
Defined.

(** * Further properties of the runtime *)

(** ** Effects of the actions on the files *)

Module OrchestratorEffects.
Import ResponseParser Orchestrator FileTools.

Section Effects.

Variable E : Env.

Definition resolve (p : string) : PathSandbox.Error + string :=
  PathSandbox.resolveWorkspacePath (cwd E) (workspaceRoot (config E)) p.

(** Two states of the files that agree away from the log file of the
    session. *)
Definition sameFiles (files files' : FS) : Prop :=
  ∀ a, a ≠ auditPath E → files' !! a = files !! a.

Lemma sameFiles_refl files : sameFiles files files.
Proof. by intros a _. Qed.

Lemma sameFiles_trans f1 f2 f3 : sameFiles f1 f2 → sameFiles f2 f3 → sameFiles f1 f3.
Proof. intros H1 H2 a Ha. by rewrite H2, H1. Qed.

Lemma sameFiles_log ev w : sameFiles (fs w) (fs (safeAuditLog E ev w)).
Proof. intros a Ha. by apply OrchestratorFacts.safeAuditLog_files. Qed.


(** The atomic changes of the world made while a task runs: a call of the
    logger, a question, a command that the policy allows, a tool other than
    [run_command] and [write_file], a write of the memory store, and a
    write that passed the write gate, differs from the content read and
    was approved by the user, whether the host carried it out or refused
    it. *)
Inductive atomic : World → World → Prop :=
| atomic_log ev w : atomic w (safeAuditLog E ev w)
| atomic_ask q w : atomic w (addQuestion q w)
| atomic_shell command w :
    Policy.allowed (Policy.isCommandAllowed (patternTest E) (policy E) command) = true →
    atomic w (withFs w (shell E command (fs w)).2)
| atomic_tool action w :
    atomic w (withFs w (otherTool E action (fs w)).2)
| atomic_memory loop files w :
    memoryWrite E loop (fs w) = Some files → atomic w (withFs w files)
| atomic_write path content check questions files0 existed before files w :
    Policy.isWritePathAllowed (globTest E) (policy E) path = inr check →
    Policy.allowed check = true →
    sameFiles files0 (fs w) →
    fileExists (cwd E) (workspaceRoot (config E)) path files0 = inr existed →
    readFileIfExists (cwd E) (workspaceRoot (config E)) path files0 = inr before →
    before ≠ content →
    asked w = questions ++ [AskApplyChange path] →
    confirm E (length questions) = true →
    writeFile (cwd E) (workspaceRoot (config E)) path content (fs w) = inr files →
    atomic w
      (withTracker (withFs w files)
         (ChangeTracker.recordAfter path content
            (ChangeTracker.recordBefore path existed before (tracker w))))
| atomic_write_refused path content check questions files0 existed before e w :
    Policy.isWritePathAllowed (globTest E) (policy E) path = inr check →
    Policy.allowed check = true →
    sameFiles files0 (fs w) →
    fileExists (cwd E) (workspaceRoot (config E)) path files0 = inr existed →
    readFileIfExists (cwd E) (workspaceRoot (config E)) path files0 = inr before →
    before ≠ content →
    asked w = questions ++ [AskApplyChange path] →
    confirm E (length questions) = true →
    writeFile (cwd E) (workspaceRoot (config E)) path content (fs w) = inl e →
    atomic w
      (withTracker w (ChangeTracker.recordBefore path existed before (tracker w))).

Definition steps : World → World → Prop := rtc atomic.

Lemma steps_trans w1 w2 w3 : steps w1 w2 → steps w2 w3 → steps w1 w3.
Proof. unfold steps. intros H1 H2. by etrans. Qed.

Lemma steps_log ev w w' : steps w w' → steps w (safeAuditLog E ev w').
Proof. intros H. eapply rtc_r; [exact H|constructor]. Qed.

Lemma steps_ask q w w' : steps w w' → steps w (addQuestion q w').
Proof. intros H. eapply rtc_r; [exact H|constructor]. Qed.

Lemma executeRunCommand_steps command w :
  steps w (executeRunCommand E command w).2.
Proof.
  unfold executeRunCommand.
  destruct (Policy.allowed _) eqn:Hallowed; simpl; [|apply rtc_refl].
  destruct (shell E command (fs w)) as [[message|run] files] eqn:Hshell; simpl;
    apply rtc_once;
    replace files with (shell E command (fs w)).2 by (by rewrite Hshell);
    by constructor.
Qed.

Lemma runVerifyCommand_steps command w :
  steps w (runVerifyCommand E command w).2.
Proof.
  unfold runVerifyCommand.
  destruct (Policy.allowed _) eqn:Hallowed; simpl; [|apply rtc_refl].
  destruct (shell E command (fs w)) as [[message|run] files] eqn:Hshell; simpl;
    apply rtc_once;
    replace files with (shell E command (fs w)).2 by (by rewrite Hshell);
    by constructor.
Qed.

Lemma executeWriteFile_steps path content w :
  steps w (executeWriteFile E path content w).2.
Proof.
  unfold executeWriteFile, ask.
  destruct (Policy.isWritePathAllowed _ _ _) as [[glob]|check] eqn:Hgate; simpl.
  { apply rtc_refl. }
  destruct (Policy.allowed check) eqn:Hallowed; simpl; [|apply rtc_refl].
  destruct (_ && _); simpl; [apply rtc_refl|].
  destruct (fileExists _ _ _ _) as [e|existed] eqn:Hexists.
  { simpl. apply rtc_refl. }
  destruct (readFileIfExists _ _ _ _) as [e|before] eqn:Hread.
  { simpl. apply rtc_refl. }
  destruct (String.eqb_spec before content) as [Heq|Hne]; simpl.
  { apply rtc_refl. }
  set (stats := diffStats E path before content).
  set (w1 := safeAuditLog E (EvWriteProposed path stats) w).
  assert (Hasked1 : asked w1 = asked w)
    by apply OrchestratorFacts.safeAuditLog_asked.
  destruct (confirm E (length (asked w1))) eqn:Hyes; simpl.
  2: { apply steps_log, steps_ask, steps_log, rtc_refl. }
  set (w2 := addQuestion (AskApplyChange path) w1).
  assert (Hw2 : steps w w2) by apply steps_ask, steps_log, rtc_refl.
  assert (Hfiles : sameFiles (fs w) (fs w2)) by apply sameFiles_log.
  destruct (writeFile _ _ _ _ _) as [e|files] eqn:Hwrite; simpl.
  - eapply rtc_r; [exact Hw2|].
    exact (atomic_write_refused path content check (asked w1) (fs w) existed before
             e w2 Hgate Hallowed Hfiles Hexists Hread Hne eq_refl Hyes Hwrite).
  - apply steps_log. eapply rtc_r; [exact Hw2|].
    exact (atomic_write path content check (asked w1) (fs w) existed before
             files w2 Hgate Hallowed Hfiles Hexists Hread Hne eq_refl Hyes Hwrite).
Qed.

Lemma executeAction_steps action w : steps w (executeAction E action w).2.
Proof.
  destruct action; cbn [executeAction];
    try apply executeRunCommand_steps; try apply executeWriteFile_steps.
  all: match goal with
       | |- context [otherTool E ?a (fs ?w0)] =>
           destruct (otherTool E a (fs w0)) as [result files] eqn:Htool; simpl;
           assert (Hstep : steps w0 (withFs w0 files))
             by (apply rtc_once;
                 replace files with (otherTool E a (fs w0)).2 by (by rewrite Htool);
                 by constructor)
       end.
  all: try exact Hstep.
  destruct (ok result); [by apply steps_log|done].
Qed.

Lemma runActions_steps loop actions results hadWrites w :
  steps w (runActions E loop actions results hadWrites w).2.
Proof.
  revert results hadWrites w.
  induction actions as [|action rest IH]; intros results hadWrites w; simpl.
  { apply rtc_refl. }
  pose proof (executeAction_steps action w) as Hact.
  destruct (executeAction E action w) as [result w1]. simpl in Hact.
  eapply steps_trans; [|apply IH]. by apply steps_log.
Qed.

Lemma runVerify_steps loop commands had failed w :
  steps w (runVerify E loop commands had failed w).2.
Proof.
  revert had failed w.
  induction commands as [|cmd rest IH]; intros had failed w; simpl.
  { apply rtc_refl. }
  pose proof (runVerifyCommand_steps cmd w) as Hcmd.
  destruct (runVerifyCommand E cmd w) as [result w1]. simpl in Hcmd.
  destruct (negb (ok result));
    (eapply steps_trans; [|apply IH]); by apply steps_log.
Qed.

Lemma resolveStatus_steps response failed fl w :
  steps w (resolveStatus E response failed fl w).2.
Proof.
  unfold resolveStatus. repeat case_match; simpl;
    try apply rtc_refl; apply steps_ask, rtc_refl.
Qed.

Lemma verifyAndResolve_steps loop response hadWrites fl w :
  steps w (verifyAndResolve E loop response hadWrites fl w).2.
Proof.
  unfold verifyAndResolve, ask.
  set (commands := verifyCommandsOf E loop response hadWrites w).
  pose proof (runVerify_steps loop commands (hadVerifyFailures fl) false w) as Hv.
  destruct (runVerify E loop commands (hadVerifyFailures fl) false w)
    as [[had failed] w1].
  simpl in Hv.
  destruct (_ && _).
  - destruct (confirm E _); cbn [negb].
    + eapply steps_trans; [|apply resolveStatus_steps].
      by apply steps_log, steps_ask.
    + simpl. by apply steps_log, steps_ask.
  - eapply steps_trans; [exact Hv|apply resolveStatus_steps].
Qed.

Lemma applyMemoryUpdates_steps loop updates w w' :
  applyMemoryUpdates E loop updates w = Some w' → steps w w'.
Proof.
  unfold applyMemoryUpdates.
  destruct (memoryChanges E loop updates) as [|tag tags].
  { intros [= <-]. apply rtc_refl. }
  destruct (memoryWrite E loop (fs w)) as [files|] eqn:Hwrite; [|done].
  intros [= <-]. apply steps_log, rtc_once. by econstructor.
Qed.

Lemma iteration_steps loop fl w flow fl' w' :
  iteration E loop fl w = inr (flow, fl', w') → steps w w'.
Proof.
  unfold iteration.
  destruct (complete E loop) as [rawResponse|].
  2: { intros [= <- <- <-]. apply steps_log, rtc_refl. }
  destruct (parseAgentModelResponse _ _ _) as [|response]; [done|].
  set (w0 := safeAuditLog E (EvModelResponse _ _ _ _ _) _).
  destruct (applyMemoryUpdates E loop (memory_updates response) w0)
    as [w1|] eqn:Hmemory; [|done].
  assert (Hw1 : steps w w1).
  { eapply steps_trans; [|by eapply applyMemoryUpdates_steps].
    subst w0. repeat apply steps_log. apply rtc_refl. }
  pose proof (runActions_steps loop (actions response) [] false w1) as Hact.
  destruct (runActions E loop (actions response) [] false w1)
    as [[results hadWrites] w2].
  simpl in Hact. intros H. injection H as H.
  pose proof (verifyAndResolve_steps loop response hadWrites fl w2) as Hv.
  rewrite H in Hv. simpl in Hv.
  eapply steps_trans; [exact Hw1|]. by eapply steps_trans.
Qed.

Lemma runLoop_steps remaining loop fl w fl' w' :
  runLoop E remaining loop fl w = inr (fl', w') → steps w w'.
Proof.
  revert loop fl w. induction remaining as [|n IH]; intros loop fl w; simpl.
  { intros [= <- <-]. apply rtc_refl. }
  destruct (iteration E loop fl w) as [|[[flow fl1] w1]] eqn:Hit; [done|].
  pose proof (iteration_steps _ _ _ _ _ _ Hit) as Hstep.
  destruct flow.
  - intros Hrest. eapply steps_trans; [exact Hstep|by eapply IH].
  - by intros [= <- <-].
Qed.

(** The start of a task: the world in which the loop starts. *)
Lemma runTask_start goal fs0 fl w :
  runTask E goal fs0 = Some (inr (fl, w)) →
  ∃ loaded summarized fl1 w1,
    loadState E fs0 = Some loaded
    ∧ summarize E (fs (safeAuditLog E (EvTaskStart goal) (initialWorld loaded)))
      = Some summarized
    ∧ runLoop E (maxIterations (config E)) 1 initialFlags
        (withFs (safeAuditLog E (EvTaskStart goal) (initialWorld loaded)) summarized)
      = inr (fl1, w1)
    ∧ finishTask E fl1 w1 = inr (fl, w).
Proof.
  unfold runTask. destruct (negb _); [done|].
  destruct (loadState E fs0) as [loaded|]; [|done].
  destruct (summarize E _) as [summarized|] eqn:Hsum; [|done].
  destruct (runLoop E _ _ _ _) as [|[fl1 w1]] eqn:Hloop; [done|].
  intros [= Hfinish]. by exists loaded, summarized, fl1, w1.
Qed.

(** *** Rollback after a task *)

(** No two tracked paths name the same file. *)
Definition noAlias (ct : ChangeTracker.t) : Prop :=
  ∀ p q a,
    p ∈ ChangeTracker.order ct → q ∈ ChangeTracker.order ct →
    resolve p = inr a → resolve q = inr a → p = q.

Definition wellFormed (ct : ChangeTracker.t) : Prop :=
  (∀ p, p ∈ ChangeTracker.order ct ↔ is_Some (ChangeTracker.snapshots ct !! p))
  ∧ (∀ p s, ChangeTracker.snapshots ct !! p = Some s →
       ChangeTracker.path s = p ∧ ∃ a, resolve p = inr a).

(** What the tracker holds about the file [a], given the files [fs0] at the
    start of the task: either no tracked path names it and it is as it was,
    or a snapshot records its state at the start, and the file holds the
    bytes of the content recorded last or was never written. *)
Definition trackedAt (fs0 : FS) (w : World) (a : string) : Prop :=
  ((∀ p, p ∈ ChangeTracker.order (tracker w) → resolve p ≠ inr a)
   ∧ fs w !! a = fs0 !! a)
  ∨ ∃ p s,
      ChangeTracker.snapshots (tracker w) !! p = Some s
      ∧ resolve p = inr a
      ∧ ChangeTracker.existed s = bool_decide (is_Some (fs0 !! a))
      ∧ ChangeTracker.before s = default "" (utf8Decode (cwd E) <$> fs0 !! a)
      ∧ (fs w !! a = Some (utf8Encode (cwd E) (ChangeTracker.after s))
         ∨ fs w !! a = fs0 !! a
           ∧ ChangeTracker.after s = ChangeTracker.before s).

Definition tracked (touched : string → Prop) (fs0 : FS) (w : World) : Prop :=
  wellFormed (tracker w) ∧ ∀ a, ¬ touched a → trackedAt fs0 w a.

Lemma recordBefore_order path existed before ct p :
  p ∈ ChangeTracker.order ct →
  p ∈ ChangeTracker.order (ChangeTracker.recordBefore path existed before ct).
Proof.
  unfold ChangeTracker.recordBefore.
  destruct (ChangeTracker.snapshots ct !! path); simpl; [done|].
  intros Hin. apply elem_of_app. by left.
Qed.

Lemma recordAfter_order path content ct :
  ChangeTracker.order (ChangeTracker.recordAfter path content ct)
  = ChangeTracker.order ct.
Proof.
  unfold ChangeTracker.recordAfter. by destruct (ChangeTracker.snapshots ct !! path).
Qed.

Lemma atomic_order w w' p :
  atomic w w' →
  p ∈ ChangeTracker.order (tracker w) → p ∈ ChangeTracker.order (tracker w').
Proof.
  destruct 1; simpl; try done.
  - by rewrite OrchestratorFacts.safeAuditLog_tracker.
  - rewrite recordAfter_order. apply recordBefore_order.
  - apply recordBefore_order.
Qed.

Lemma noAlias_atomic w w' : atomic w w' → noAlias (tracker w') → noAlias (tracker w).
Proof.
  intros Hstep Hno p q a Hp Hq. apply Hno; by eapply atomic_order.
Qed.

(** The host reports a path that it can read, or that is missing, as one
    that it can look up and that is no directory. *)
Definition coherent (cwd : Process) : Prop :=
  ∀ a files,
    ioError cwd IoRead a files = None →
    ioError cwd IoAccess a files = None ∧ otherEntry cwd a files = false.

Section Untouched.

(** The files that something other than a [write_file] action may change:
    the log file of the session, and what the commands, the other tools,
    the memory store and the start of the task write. *)
Variable touched : string → Prop.

Hypothesis audit_touched : touched (auditPath E).

Hypothesis shell_untouched :
  ∀ command files a, ¬ touched a → (shell E command files).2 !! a = files !! a.

Hypothesis tool_untouched :
  ∀ action files a, ¬ touched a → (otherTool E action files).2 !! a = files !! a.

Hypothesis memory_untouched :
  ∀ loop files files' a,
    memoryWrite E loop files = Some files' → ¬ touched a → files' !! a = files !! a.

Hypothesis load_untouched :
  ∀ files files' a,
    loadState E files = Some files' → ¬ touched a → files' !! a = files !! a.

Hypothesis summarize_untouched :
  ∀ files files' a,
    summarize E files = Some files' → ¬ touched a → files' !! a = files !! a.

Lemma untouched_audit a : ¬ touched a → a ≠ auditPath E.
Proof. intros Ha ->. by apply Ha. Qed.

(** The files at the start of the loop, away from what is touched. *)
Lemma start_untouched goal fs0 loaded summarized a :
  loadState E fs0 = Some loaded →
  summarize E (fs (safeAuditLog E (EvTaskStart goal) (initialWorld loaded)))
  = Some summarized →
  ¬ touched a → summarized !! a = fs0 !! a.
Proof.
  intros Hload Hsum Ha.
  rewrite (summarize_untouched _ _ a Hsum Ha).
  rewrite OrchestratorFacts.safeAuditLog_files by (by apply untouched_audit).
  simpl. by apply (load_untouched fs0).
Qed.

Lemma trackedAt_same fs0 w w' a :
  tracker w' = tracker w → fs w' !! a = fs w !! a →
  trackedAt fs0 w a → trackedAt fs0 w' a.
Proof. unfold trackedAt. intros -> ->. done. Qed.

(** What was read before an approved write, for a file that nothing else
    touches. *)
Lemma read_before path files0 existed before a :
  coherent (cwd E) →
  resolve path = inr a →
  fileExists (cwd E) (workspaceRoot (config E)) path files0 = inr existed →
  readFileIfExists (cwd E) (workspaceRoot (config E)) path files0 = inr before →
  existed = bool_decide (is_Some (files0 !! a))
  ∧ before = default "" (utf8Decode (cwd E) <$> files0 !! a).
Proof.
  intros Hcoherent Hres. unfold fileExists, readFileIfExists.
  unfold resolve in Hres. rewrite Hres.
  destruct (ioError (cwd E) IoRead a files0) eqn:Hread; [done|].
  destruct (Hcoherent a files0 Hread) as [-> ->].
  intros [= <-] Hbefore. rewrite orb_false_r. split; [done|].
  destruct (files0 !! a); by simplify_eq.
Qed.

Lemma write_files path content files files' a :
  resolve path = inr a →
  writeFile (cwd E) (workspaceRoot (config E)) path content files = inr files' →
  files' = <[a := utf8Encode (cwd E) content]> files.
Proof.
  unfold writeFile, resolve. intros -> H. by repeat case_match; simplify_eq.
Qed.

Section Coherent.

Hypothesis host_coherent : coherent (cwd E).

(** Recording the state before a write keeps the tracker consistent with
    the files. *)
Lemma tracked_recordBefore fs0 w files0 path existed before a0 :
  noAlias (ChangeTracker.recordBefore path existed before (tracker w)) →
  tracked touched fs0 w →
  resolve path = inr a0 →
  sameFiles files0 (fs w) →
  fileExists (cwd E) (workspaceRoot (config E)) path files0 = inr existed →
  readFileIfExists (cwd E) (workspaceRoot (config E)) path files0 = inr before →
  tracked touched fs0
    (withTracker w (ChangeTracker.recordBefore path existed before (tracker w)))
  ∧ is_Some (ChangeTracker.snapshots
               (ChangeTracker.recordBefore path existed before (tracker w)) !! path).
Proof.
  intros Hno [[Hkeys Hsnap] Hat] Hres Hsame Hexists Hread.
  unfold ChangeTracker.recordBefore in *.
  destruct (ChangeTracker.snapshots (tracker w) !! path) as [s|] eqn:Hs.
  { split; [|by eexists]. split; [done|]. intros a Ha.
    by apply (trackedAt_same fs0 w); [| |apply Hat]. }
  simpl in Hno.
  assert (Hfresh : path ∉ ChangeTracker.order (tracker w)).
  { rewrite Hkeys, Hs. by intros [? ?]. }
  split; [|simpl; rewrite lookup_insert_eq; by eexists].
  unfold tracked, wellFormed, trackedAt. simpl.
  split; [split|].
  - intros p. rewrite elem_of_app, list_elem_of_singleton, Hkeys.
    destruct (decide (p = path)) as [->|Hp].
    + rewrite lookup_insert_eq. split; [by eexists|by right].
    + rewrite lookup_insert_ne by done. split; [by intros [?|?]|by left].
  - intros p s'. destruct (decide (p = path)) as [->|Hp].
    + rewrite lookup_insert_eq. intros [= <-]. simpl. split; [done|by eexists].
    + rewrite lookup_insert_ne by done. apply Hsnap.
  - intros a Ha. destruct (decide (a = a0)) as [->|Hne0].
    + right. eexists path, _. rewrite lookup_insert_eq. split; [done|].
      split; [done|]. simpl.
      destruct (read_before path files0 existed before a0 host_coherent
                  Hres Hexists Hread) as [-> ->].
      rewrite <-(Hsame a0) by (by apply untouched_audit).
      destruct (Hat a0 Ha) as [[_ Hfs]|(q & sq & Hsq & Hrq & _)].
      { rewrite Hfs. split; [done|]. split; [done|]. by right. }
      exfalso. apply Hfresh.
      assert (q = path) as ->; [|apply Hkeys; by eexists].
      apply (Hno q path a0); try done.
      * apply elem_of_app. left. apply Hkeys. by eexists.
      * apply elem_of_app. right. by apply list_elem_of_singleton.
    + destruct (Hat a Ha) as [[Hnone Hfs]|(q & sq & Hsq & Hrq & He & Hb & Hf)].
      { left. split; [|done].
        intros p [Hp|Hp%list_elem_of_singleton]%elem_of_app; [by apply Hnone|].
        subst p. rewrite Hres. by intros [= ->]. }
      right. exists q, sq.
      assert (q ≠ path) by (intros ->; rewrite Hres in Hrq; by simplify_eq).
      by rewrite lookup_insert_ne.
Qed.

(** Writing a tracked path and recording the content keeps the tracker
    consistent with the files. *)
Lemma tracked_recordAfter fs0 w path content a0 :
  noAlias (tracker w) →
  tracked touched fs0 w →
  resolve path = inr a0 →
  is_Some (ChangeTracker.snapshots (tracker w) !! path) →
  tracked touched fs0
    (withTracker (withFs w (<[a0 := utf8Encode (cwd E) content]> (fs w)))
       (ChangeTracker.recordAfter path content (tracker w))).
Proof.
  intros Hno [[Hkeys Hsnap] Hat] Hres [s Hs].
  unfold ChangeTracker.recordAfter. rewrite Hs.
  unfold tracked, wellFormed, trackedAt. simpl.
  destruct (Hsnap _ _ Hs) as [Hpath _].
  split; [split|].
  - intros p. rewrite Hkeys. destruct (decide (p = path)) as [->|Hp].
    + rewrite lookup_insert_eq, Hs. split; by eexists.
    + by rewrite lookup_insert_ne.
  - intros p s'. destruct (decide (p = path)) as [->|Hp].
    + rewrite lookup_insert_eq. intros [= <-]. simpl. split; [done|by eexists].
    + rewrite lookup_insert_ne by done. apply Hsnap.
  - intros a Ha. destruct (decide (a = a0)) as [->|Hne0].
    + right. eexists path, _. rewrite lookup_insert_eq. split; [done|].
      split; [done|]. simpl. rewrite lookup_insert_eq.
      destruct (Hat a0 Ha) as [[Hnone _]|(q & sq & Hsq & Hrq & He & Hb & _)].
      { exfalso. apply (Hnone path); [|done]. apply Hkeys. by eexists. }
      assert (q = path) as ->.
      { apply (Hno q path a0); try done; apply Hkeys; by eexists. }
      rewrite Hs in Hsq. simplify_eq. split; [done|]. split; [done|]. by left.
    + destruct (Hat a Ha) as [[Hnone Hfs]|(q & sq & Hsq & Hrq & He & Hb & Hf)].
      { left. split; [done|]. by rewrite lookup_insert_ne. }
      right. exists q, sq.
      assert (q ≠ path) by (intros ->; rewrite Hres in Hrq; by simplify_eq).
      by rewrite !lookup_insert_ne.
Qed.

Lemma tracked_atomic fs0 w w' :
  atomic w w' → noAlias (tracker w') → tracked touched fs0 w → tracked touched fs0 w'.
Proof.
  intros Hstep Hno Hw.
  pose proof (noAlias_atomic _ _ Hstep Hno) as Hno0.
  destruct Hstep as [ev w|q w|command w Hallowed|action w|loop files w Hmemory
                    |path content check questions files0 existed before files w
                       Hgate Hallowed Hsame Hexists Hread Hne Hq Hyes Hwrite
                    |path content check questions files0 existed before e w
                       Hgate Hallowed Hsame Hexists Hread Hne Hq Hyes Hwrite].
  - destruct Hw as [Hwf Hat]. split.
    + by rewrite OrchestratorFacts.safeAuditLog_tracker.
    + intros a Ha. apply (trackedAt_same fs0 w); [| |by apply Hat].
      * apply OrchestratorFacts.safeAuditLog_tracker.
      * apply OrchestratorFacts.safeAuditLog_files. by apply untouched_audit.
  - done.
  - destruct Hw as [Hwf Hat]. split; [done|]. intros a Ha.
    apply (trackedAt_same fs0 w); [done| |by apply Hat]. simpl.
    by apply shell_untouched.
  - destruct Hw as [Hwf Hat]. split; [done|]. intros a Ha.
    apply (trackedAt_same fs0 w); [done| |by apply Hat]. simpl.
    by apply tool_untouched.
  - destruct Hw as [Hwf Hat]. split; [done|]. intros a Ha.
    apply (trackedAt_same fs0 w); [done| |by apply Hat]. simpl.
    by eapply memory_untouched.
  - assert (Hres : ∃ a0, resolve path = inr a0).
    { unfold readFileIfExists in Hread. unfold resolve.
      destruct (PathSandbox.resolveWorkspacePath _ _ _) as [?|a0]; [done|by eexists]. }
    destruct Hres as [a0 Hres].
    rewrite (write_files _ _ _ _ _ Hres Hwrite) in *.
    simpl in Hno.
    assert (Hno1 : noAlias (ChangeTracker.recordBefore path existed before (tracker w))).
    { intros p q a Hp Hq'. apply Hno; by rewrite recordAfter_order. }
    destruct (tracked_recordBefore fs0 w files0 path existed before a0
                Hno1 Hw Hres Hsame Hexists Hread) as [Hw1 Hsome].
    exact (tracked_recordAfter fs0
             (withTracker w (ChangeTracker.recordBefore path existed before (tracker w)))
             path content a0 Hno1 Hw1 Hres Hsome).
  - assert (Hres : ∃ a0, resolve path = inr a0).
    { unfold readFileIfExists in Hread. unfold resolve.
      destruct (PathSandbox.resolveWorkspacePath _ _ _) as [?|a0]; [done|by eexists]. }
    destruct Hres as [a0 Hres].
    by destruct (tracked_recordBefore fs0 w files0 path existed before a0
                   Hno Hw Hres Hsame Hexists Hread).
Qed.

Lemma tracked_steps fs0 w w' :
  steps w w' → noAlias (tracker w') → tracked touched fs0 w → tracked touched fs0 w'.
Proof.
  intros Hsteps. revert w' Hsteps.
  apply (rtc_ind_r (λ w', noAlias (tracker w') → tracked touched fs0 w →
                          tracked touched fs0 w')).
  { done. }
  intros y z _ Hstep IH Hno Hw.
  apply (tracked_atomic fs0 y z); [done|done|].
  apply IH; [|done]. by eapply noAlias_atomic.
Qed.

(** The files after a snapshot is restored. *)
Definition restoredFiles (files : FS) (s : ChangeTracker.FileSnapshot) : FS :=
  match resolve (ChangeTracker.path s) with
  | inr a =>
      if ChangeTracker.existed s
      then <[a := utf8Encode (cwd E) (ChangeTracker.before s)]> files
      else delete a files
  | inl _ => files
  end.

Lemma restoreSnapshot_files s files files' :
  ChangeTrackerFacts.restoreSnapshot (cwd E) (workspaceRoot (config E)) s files
  = inr files' →
  files' = restoredFiles files s.
Proof.
  unfold ChangeTrackerFacts.restoreSnapshot, restoredFiles.
  unfold writeFile, deleteFileIfExists, resolve. intros H.
  destruct (ChangeTracker.existed s);
    destruct (PathSandbox.resolveWorkspacePath _ _ _) as [e|a]; try done;
    repeat case_match; by simplify_eq.
Qed.

Lemma restoreAll_files todo files restored files' :
  ChangeTrackerFacts.restoreAll (cwd E) (workspaceRoot (config E)) todo files
  = (restored, None, files') →
  files' = fold_left restoredFiles todo files.
Proof.
  revert files restored. induction todo as [|s todo IH]; intros files restored; simpl.
  { by intros [= _ <-]. }
  destruct (ChangeTrackerFacts.restoreSnapshot _ _ s files) as [e|files1] eqn:Hstep;
    [done|].
  destruct (ChangeTrackerFacts.restoreAll _ _ todo files1)
    as [[restored1 err] files2] eqn:Hrest.
  intros [= _ -> ->]. rewrite <-(restoreSnapshot_files _ _ _ Hstep).
  by eapply IH.
Qed.

Lemma restore_other snaps files a :
  Forall (λ s, resolve (ChangeTracker.path s) ≠ inr a) snaps →
  fold_left restoredFiles snaps files !! a = files !! a.
Proof.
  revert files. induction snaps as [|s snaps IH]; intros files Hall; simpl; [done|].
  inversion_clear Hall as [|?? Hs Hrest]. rewrite IH by done.
  unfold restoredFiles.
  destruct (resolve (ChangeTracker.path s)) as [e|a']; [done|].
  assert (a' ≠ a) by (by intros ->).
  destruct (ChangeTracker.existed s);
    [by rewrite lookup_insert_ne|by rewrite lookup_delete_ne].
Qed.

Lemma restore_one snaps files a s :
  s ∈ snaps → resolve (ChangeTracker.path s) = inr a →
  (∀ s', s' ∈ snaps → resolve (ChangeTracker.path s') = inr a → s' = s) →
  fold_left restoredFiles snaps files !! a
  = if ChangeTracker.existed s
    then Some (utf8Encode (cwd E) (ChangeTracker.before s)) else None.
Proof.
  induction snaps as [|x snaps IH] using rev_ind; [by intros ?%elem_of_nil|].
  intros Hin Hres Huniq. rewrite fold_left_app. simpl.
  set (files' := fold_left _ snaps files) in *.
  unfold restoredFiles at 1.
  destruct (resolve (ChangeTracker.path x)) as [e|a'] eqn:Hx.
  - apply IH; [|done|].
    + apply elem_of_app in Hin as [?|Hin%list_elem_of_singleton]; [done|].
      subst x. by rewrite Hres in Hx.
    + intros s' Hs'. apply Huniq. apply elem_of_app. by left.
  - destruct (decide (a' = a)) as [->|Hne].
    + assert (x = s) as ->.
      { apply Huniq; [|done]. apply elem_of_app. right.
        by apply list_elem_of_singleton. }
      destruct (ChangeTracker.existed s);
        [by rewrite lookup_insert_eq|by rewrite lookup_delete_eq].
    + assert (fold_left restoredFiles snaps files !! a
              = if ChangeTracker.existed s
                then Some (utf8Encode (cwd E) (ChangeTracker.before s)) else None)
        as Hrec.
      { apply IH; [|done|].
        - apply elem_of_app in Hin as [?|Hin%list_elem_of_singleton]; [done|].
          subst x. rewrite Hres in Hx. by simplify_eq.
        - intros s' Hs'. apply Huniq. apply elem_of_app. by left. }
      destruct (ChangeTracker.existed x);
        [by rewrite lookup_insert_ne|by rewrite lookup_delete_ne].
Qed.

(** The bytes that a file held at the start are those of the text read
    from them. *)
Definition textFile (fs0 : FS) (a : string) : Prop :=
  ∀ bytes, fs0 !! a = Some bytes →
    utf8Encode (cwd E) (utf8Decode (cwd E) bytes) = bytes.

(** A rollback that succeeds, of a tracker that is consistent with the
    files. *)
Lemma rollback_tracked fs0 w a restored files :
  noAlias (tracker w) → tracked touched fs0 w → ¬ touched a →
  textFile fs0 a →
  ChangeTrackerFacts.createdFilesChanged (tracker w) →
  ChangeTracker.rollback (cwd E) (workspaceRoot (config E)) (tracker w) (fs w)
  = (inr restored, files) →
  files !! a = fs0 !! a.
Proof.
  intros Hno [[Hkeys Hsnap] Hat] Ha Htext Hcreated.
  set (changedFiles :=
         List.filter ChangeTracker.changed
           (omap (λ p, ChangeTracker.snapshots (tracker w) !! p)
              (rev (ChangeTracker.order (tracker w))))).
  assert (Hmem : ∀ s, s ∈ changedFiles →
            ChangeTracker.snapshots (tracker w) !! ChangeTracker.path s = Some s
            ∧ ChangeTracker.changed s = true).
  { intros s Hs. apply list_elem_of_In, filter_In in Hs as [Hs Hc].
    apply list_elem_of_In, list_elem_of_omap in Hs as (p & _ & Hp).
    destruct (Hsnap _ _ Hp) as [<- _]. done. }
  unfold ChangeTracker.rollback.
  rewrite ChangeTrackerFacts.rollbackLoop_spec. fold changedFiles.
  destruct (ChangeTrackerFacts.restoreAll _ _ changedFiles (fs w))
    as [[done err] files1] eqn:Hall.
  destruct err as [e|]; [done|]. intros [= _ <-].
  rewrite (restoreAll_files _ _ _ _ Hall).
  destruct (Hat a Ha) as [[Hnone Hfs]|(p & s & Hs & Hres & He & Hb & Hf)].
  - rewrite restore_other; [done|].
    apply Forall_forall. intros s Hs. destruct (Hmem s Hs) as [Hlookup _].
    apply Hnone, Hkeys. by eexists.
  - assert (Hpath : ChangeTracker.path s = p) by (by destruct (Hsnap _ _ Hs)).
    assert (Hin : p ∈ ChangeTracker.order (tracker w)) by (apply Hkeys; by eexists).
    assert (Huniq : ∀ s', s' ∈ changedFiles →
              resolve (ChangeTracker.path s') = inr a → s' = s).
    { intros s' Hs' Hres'. destruct (Hmem s' Hs') as [Hlookup _].
      assert (ChangeTracker.path s' = p) as Heq.
      { apply (Hno _ _ a); try done; apply Hkeys; by eexists. }
      rewrite Heq, Hs in Hlookup. by simplify_eq. }
    destruct (ChangeTracker.changed s) eqn:Hchanged.
    + rewrite (restore_one _ _ a s); [| |by rewrite Hpath|done].
      * rewrite He, Hb. destruct (fs0 !! a) as [bytes|] eqn:H0; simpl; [|done].
        by rewrite (Htext bytes).
      * apply list_elem_of_In, filter_In. split; [|done].
        apply list_elem_of_In, list_elem_of_omap. exists p. split; [|done].
        apply list_elem_of_In. rewrite <-in_rev. by apply list_elem_of_In.
    + rewrite restore_other.
      2: { apply Forall_forall. intros s' Hs' Hres'.
           rewrite (Huniq s' Hs' Hres') in Hs'.
           destruct (Hmem s Hs') as [_ Hc]. congruence. }
      destruct Hf as [Hf|[Hf _]]; [|done].
      rewrite Hf. unfold ChangeTracker.changed in Hchanged.
      apply negb_false_iff, String.eqb_eq in Hchanged. rewrite <-Hchanged, Hb.
      destruct (fs0 !! a) as [bytes|] eqn:H0; simpl.
      { by rewrite (Htext bytes). }
      exfalso.
      assert (Hs' : s ∈ ChangeTrackerFacts.snapshotsOf (tracker w)
                         (ChangeTracker.order (tracker w))).
      { apply list_elem_of_omap. by exists p. }
      unfold ChangeTrackerFacts.createdFilesChanged in Hcreated.
      rewrite Forall_forall in Hcreated. specialize (Hcreated s Hs').
      rewrite He in Hcreated. simpl in Hcreated.
      unfold ChangeTracker.changed in Hcreated.
      rewrite <-Hchanged, String.eqb_refl in Hcreated. simpl in Hcreated.
      by specialize (Hcreated eq_refl).
Qed.

Lemma finishTask_rolled_back fl1 w1 fl w questions :
  AskRollback ∉ asked w1 →
  finishTask E fl1 w1 = inr (fl, w) →
  asked w = questions ++ [AskRollback] →
  confirm E (length questions) = true →
  ∃ w2 restored files,
    tracker w2 = tracker w1 ∧ sameFiles (fs w1) (fs w2)
    ∧ ChangeTracker.rollback (cwd E) (workspaceRoot (config E)) (tracker w2) (fs w2)
      = (inr restored, files)
    ∧ sameFiles files (fs w).
Proof.
  intros Hnot. unfold finishTask, ask.
  set (fl2 := if negb (completed fl1) && _ && _ then _ else fl1).
  set (w2 := if ChangeTracker.hasChanges (tracker w1) then _ else w1).
  assert (Hw2 : tracker w2 = tracker w1 ∧ asked w2 = asked w1
                ∧ sameFiles (fs w1) (fs w2)).
  { subst w2. destruct (ChangeTracker.hasChanges (tracker w1)).
    - rewrite OrchestratorFacts.safeAuditLog_tracker,
        OrchestratorFacts.safeAuditLog_asked.
      split; [done|]. split; [done|]. apply sameFiles_log.
    - split; [done|]. split; [done|]. apply sameFiles_refl. }
  destruct Hw2 as (Ht & Hq & Hf). clearbody w2 fl2.
  destruct (_ && _).
  - destruct (confirm E (length (asked w2))) eqn:Hyes.
    + simpl.
      destruct (ChangeTracker.rollback _ _ _ _) as [[e|restored] files] eqn:Hroll;
        [done|].
      intros [= <- <-] _ _. exists w2, restored, files.
      split; [done|]. split; [done|]. split; [done|].
      eapply sameFiles_trans; [|apply sameFiles_log].
      exact (sameFiles_log _ (withFs (addQuestion AskRollback w2) files)).
    + intros [= <- <-].
      rewrite OrchestratorFacts.safeAuditLog_asked. simpl. rewrite Hq.
      intros [<- _]%app_inj_tail. rewrite Hq in Hyes. congruence.
  - intros [= <- <-]. rewrite OrchestratorFacts.safeAuditLog_asked, Hq. intros Heq _.
    exfalso. apply Hnot. rewrite Heq. apply elem_of_app. right.
    by apply list_elem_of_singleton.
Qed.


End Coherent.

Lemma gates_closed_atomic w w' :
  Policy.allowRunCommand (policy E) = false →
  Policy.allowWrite (policy E) = false →
  atomic w w' →
  tracker w' = tracker w ∧ ∀ a, ¬ touched a → fs w' !! a = fs w !! a.
Proof.
  intros Hrun Hwrite Hstep.
  destruct Hstep as [ev w|q w|command w Hallowed|action w|loop files w Hmemory
                    |path content check questions files0 existed before files w
                       Hgate Hallowed Hsame Hexists Hread Hne Hq Hyes Hwritten
                    |path content check questions files0 existed before e w
                       Hgate Hallowed Hsame Hexists Hread Hne Hq Hyes Hwritten];
    try done.
  - split; [apply OrchestratorFacts.safeAuditLog_tracker|]. intros a Ha.
    apply OrchestratorFacts.safeAuditLog_files. by apply untouched_audit.
  - unfold Policy.isCommandAllowed in Hallowed. by rewrite Hrun in Hallowed.
  - split; [done|]. intros a Ha. by apply tool_untouched.
  - split; [done|]. intros a Ha. simpl. by eapply memory_untouched.
  - unfold Policy.isWritePathAllowed in Hgate. rewrite Hwrite in Hgate.
    simpl in Hgate. by simplify_eq.
  - unfold Policy.isWritePathAllowed in Hgate. rewrite Hwrite in Hgate.
    simpl in Hgate. by simplify_eq.
Qed.

(** With a policy that allows neither commands nor writes, a task leaves
    every file as it was, apart from the log file of the session and the
    files that the other tools, the memory store and the start of the task
    write; it records no change and does not ask for a rollback. *)
Theorem closed_policy_changes_nothing goal fs0 fl w :
  Policy.allowRunCommand (policy E) = false →
  Policy.allowWrite (policy E) = false →
  runTask E goal fs0 = Some (inr (fl, w)) →
  (∀ a, ¬ touched a → fs w !! a = fs0 !! a)
  ∧ tracker w = ChangeTracker.empty
  ∧ AskRollback ∉ asked w.
Proof.
  intros Hrun Hwrite Htask.
  destruct (runTask_start _ _ _ _ Htask)
    as (loaded & summarized & fl1 & w1 & Hload & Hsum & Hloop & Hfinish).
  set (w0 := withFs (safeAuditLog E (EvTaskStart goal) (initialWorld loaded))
               summarized) in *.
  assert (Hsame : tracker w1 = tracker w0 ∧ ∀ a, ¬ touched a → fs w1 !! a = fs w0 !! a).
  { pose proof (runLoop_steps _ _ _ _ _ _ Hloop) as Hsteps. revert Hsteps.
    apply (rtc_ind_r (λ w', tracker w' = tracker w0
                            ∧ ∀ a, ¬ touched a → fs w' !! a = fs w0 !! a)).
    { done. }
    intros y z _ Hstep [Ht Hf].
    destruct (gates_closed_atomic y z Hrun Hwrite Hstep) as [Ht' Hf'].
    split; [congruence|]. intros a Ha. rewrite Hf' by done. by apply Hf. }
  destruct Hsame as [Ht Hf].
  assert (Ht0 : tracker w0 = ChangeTracker.empty).
  { subst w0. simpl. by rewrite OrchestratorFacts.safeAuditLog_tracker. }
  assert (Hf0 : ∀ a, ¬ touched a → fs w0 !! a = fs0 !! a).
  { intros a Ha. subst w0. simpl. by eapply start_untouched. }
  assert (Hinv : OrchestratorFacts.loopInvariant initialFlags w0).
  { split.
    - subst w0. simpl. rewrite OrchestratorFacts.safeAuditLog_asked. simpl.
      by intros ?%elem_of_nil.
    - subst w0. simpl. by rewrite OrchestratorFacts.safeAuditLog_audit. }
  destruct (OrchestratorFacts.runLoop_invariant E _ _ _ _ _ _ Hinv Hloop) as [Hnot _].
  rewrite Ht0 in Ht. clearbody w0.
  revert Hfinish. unfold finishTask. rewrite Ht. simpl. rewrite Ht. simpl.
  rewrite !andb_false_r. intros [= <- <-].
  rewrite OrchestratorFacts.safeAuditLog_tracker, OrchestratorFacts.safeAuditLog_asked.
  split; [|done]. intros a Ha.
  rewrite OrchestratorFacts.safeAuditLog_files by (by apply untouched_audit).
  rewrite Hf by done. by apply Hf0.
Qed.

End Untouched.

End Effects.

End OrchestratorEffects.

(** The session in which foo.txt, holding "old" at the start, is written,
    verification fails, the next model call fails and the user agrees to
    roll back. *)
Definition restoredOutcome : Orchestrator.Flags * Orchestrator.World :=
  match Orchestrator.runTask abortedSession "add foo" (<["/ws/foo.txt" := "old"]> ∅) with
  | Some (inr outcome) => outcome
  | _ => (Orchestrator.initialFlags, Orchestrator.initialWorld ∅)
  end.

(** The files that the example sessions touch otherwise: the log file. *)
Definition logFile (a : string) : Prop := a = "/ws/.vibe-agent/audit/session.jsonl".


(** The aborted session under a policy that allows neither commands nor
    writes. *)
Definition closedPolicy : Policy.AgentPolicy :=
  {| Policy.allowRunCommand := false;
     Policy.allowWrite := false;
     Policy.allowedCommandPrefixes := [];
     Policy.blockedCommandPatterns := [];
     Policy.blockedWriteGlobs := [];
     Policy.allowPotentialSecrets := false |}.

Definition closedSession : Orchestrator.Env :=
  {| Orchestrator.cwd := "/";
     Orchestrator.auditPath := "/ws/.vibe-agent/audit/session.jsonl";
     Orchestrator.auditLine := λ n _, "event " +:+ Json.natToString n;
     Orchestrator.loadState := Some;
     Orchestrator.summarize := Some;
     Orchestrator.memoryWrite := λ _, Some;
     Orchestrator.config := demoConfig;
     Orchestrator.policy := closedPolicy;
     Orchestrator.numberToString := λ _, "0";
     Orchestrator.JSON_parse := scriptedParse;
     Orchestrator.patternTest := λ _ _, Some false;
     Orchestrator.globTest := λ _ _, Some false;
     Orchestrator.complete :=
       λ loop, if (loop =? 1)%nat then Some writeAndVerifyText else None;
     Orchestrator.confirm := λ _, true;
     Orchestrator.answer := λ _, None;
     Orchestrator.shell := λ command files, (inr (failingRun command), ∅);
     Orchestrator.otherTool := Orchestrator.otherTool demoEnv;
     Orchestrator.diffStats := Orchestrator.diffStats demoEnv;
     Orchestrator.memoryChanges := λ _ _, [];
     Orchestrator.memoryAt := λ _, emptyMemory |}.

Definition closedOutcome : Orchestrator.Flags * Orchestrator.World :=
  match Orchestrator.runTask closedSession "add foo" (<["/ws/foo.txt" := "old"]> ∅) with
  | Some (inr outcome) => outcome
  | _ => (Orchestrator.initialFlags, Orchestrator.initialWorld ∅)
  end.

Lemma closed_policy_changes_nothing_witness :
  Orchestrator.runTask closedSession "add foo" (<["/ws/foo.txt" := "old"]> ∅)
  = Some (inr (closedOutcome.1, closedOutcome.2))
  ∧ Orchestrator.hadVerifyFailures closedOutcome.1 = true
  ∧ Orchestrator.fs closedOutcome.2 !! "/ws/foo.txt" = Some "old"
  ∧ Orchestrator.tracker closedOutcome.2 = ChangeTracker.empty.
Proof.
  assert (Hrun : Orchestrator.runTask closedSession "add foo"
                   (<["/ws/foo.txt" := "old"]> ∅)
                 = Some (inr (closedOutcome.1, closedOutcome.2))).
  { vm_compute. reflexivity. }
  destruct (OrchestratorEffects.closed_policy_changes_nothing closedSession
              logFile eq_refl (λ _ _ _ _, eq_refl)
              (λ _ _ _ _ H _, f_equal (.!! _) (eq_sym (Some_inj _ _ H)))
              (λ _ _ _ H _, f_equal (.!! _) (eq_sym (Some_inj _ _ H)))
              (λ _ _ _ H _, f_equal (.!! _) (eq_sym (Some_inj _ _ H)))
              "add foo" (<["/ws/foo.txt" := "old"]> ∅)
              closedOutcome.1 closedOutcome.2 eq_refl eq_refl Hrun)
    as (Hfiles & Htracker & _).
  split; [exact Hrun|]. split; [vm_compute; reflexivity|].
  split; [|exact Htracker].
  rewrite Hfiles; [reflexivity|]. intros H. discriminate H.
Defined.

(** ** The audit trail and the exit flags of a task *)

Module OrchestratorTrace.
Import ResponseParser Orchestrator.

(** The loop number of a [loop_start] event. *)
Definition loopOf (ev : AuditEvent) : option nat :=
  match ev with
  | EvLoopStart loop => Some loop
  | _ => None
  end.

(** The events logged by the body of a loop after its [loop_start]. *)
Definition bodyEvent (ev : AuditEvent) : bool :=
  match ev with
  | EvTaskStart _ | EvLoopStart _ | EvChangeSummary _ | EvRollback _ | EvTaskEnd _ _ =>
      false
  | _ => true
  end.

Definition isModelResponse (ev : AuditEvent) : bool :=
  match ev with
  | EvModelResponse _ _ _ _ _ => true
  | _ => false
  end.

(** [w'] has the audit log of [w] followed by events of the kind [kind]. *)
Definition grows (kind : AuditEvent → bool) (w w' : World) : Prop :=
  ∃ evs, audit w' = audit w ++ evs ∧ forallb kind evs = true.

Lemma grows_refl kind w : grows kind w w.
Proof. exists []. by rewrite app_nil_r. Qed.

Lemma grows_trans kind w1 w2 w3 : grows kind w1 w2 → grows kind w2 w3 → grows kind w1 w3.
Proof.
  intros (evs & He & Hk) (evs' & He' & Hk'). exists (evs ++ evs').
  rewrite He', He, <-List.app_assoc, forallb_app, Hk, Hk'. done.
Qed.

Lemma grows_same kind w w' : audit w' = audit w → grows kind w w'.
Proof. intros He. exists []. by rewrite He, app_nil_r. Qed.

Lemma grows_log_r kind ev w w' :
  grows kind w w' → kind ev = true → grows kind w (log ev w').
Proof.
  intros (evs & He & Hk) Hev. exists (evs ++ [ev]). simpl.
  rewrite He, <-List.app_assoc, forallb_app, Hk. simpl. by rewrite Hev.
Qed.

Lemma grows_withFs_r kind files w w' : grows kind w w' → grows kind w (withFs w' files).
Proof. intros H. eapply grows_trans; [exact H|by apply grows_same]. Qed.

Lemma grows_withTracker_r kind ct w w' :
  grows kind w w' → grows kind w (withTracker w' ct).
Proof. intros H. eapply grows_trans; [exact H|by apply grows_same]. Qed.

Lemma grows_addQuestion_r kind q w w' :
  grows kind w w' → grows kind w (addQuestion q w').
Proof. intros H. eapply grows_trans; [exact H|by apply grows_same]. Qed.

Lemma grows_safeAuditLog_r E kind ev w w' :
  grows kind w w' → kind ev = true → grows kind w (safeAuditLog E ev w').
Proof.
  intros (evs & He & Hk) Hev. exists (evs ++ [ev]).
  rewrite OrchestratorFacts.safeAuditLog_audit.
  rewrite He, <-List.app_assoc, forallb_app, Hk. simpl. by rewrite Hev.
Qed.

(** Follows the construction of the final world. *)
Ltac trail :=
  repeat first
    [ apply grows_refl
    | apply grows_safeAuditLog_r; [|done]
    | apply grows_log_r; [|done]
    | apply grows_withFs_r
    | apply grows_withTracker_r
    | apply grows_addQuestion_r ].

(** The events of the actions: neither model responses nor verify results. *)
Definition actionEvent (ev : AuditEvent) : bool :=
  bodyEvent ev && negb (isModelResponse ev) && negb (OrchestratorFacts.isVerifyResult ev).

Section Trace.

Variable E : Env.

Lemma executeAction_trail action w : grows actionEvent w (executeAction E action w).2.
Proof.
  destruct action; simpl; unfold executeRunCommand, executeWriteFile, ask;
    repeat case_match; simplify_eq; simpl; trail.
Qed.

Lemma runActions_trail loop actions results hadWrites w :
  grows actionEvent w (runActions E loop actions results hadWrites w).2.
Proof.
  revert results hadWrites w.
  induction actions as [|action rest IH]; intros results hadWrites w; simpl.
  { apply grows_refl. }
  pose proof (executeAction_trail action w) as Hact.
  destruct (executeAction E action w) as [result w1]. simpl in Hact.
  eapply grows_trans; [|apply IH]. by trail.
Qed.

Lemma resolveStatus_trail response failed fl w :
  audit (resolveStatus E response failed fl w).2 = audit w.
Proof. unfold resolveStatus. by repeat case_match. Qed.

(** What the end of a loop body does to the exit flags: to go on leaves
    them alone, to leave the loop raises one of them. *)
Definition exitFlags (fl : Flags) : bool * bool * bool * bool :=
  (completed fl, abortedByError fl, stoppedEarly fl, maxIterationReached fl).

Lemma resolveStatus_flow response failed fl w :
  match (resolveStatus E response failed fl w).1 with
  | (Next, fl') => exitFlags fl' = exitFlags fl
  | (Break, fl') =>
      exitFlags fl' = (true, abortedByError fl, stoppedEarly fl, maxIterationReached fl)
      ∧ status response = StatusDone ∧ failed = false
      ∨ exitFlags fl' = (completed fl, true, stoppedEarly fl, maxIterationReached fl)
  end.
Proof.
  unfold resolveStatus. destruct (status response); simpl.
  - done.
  - destruct failed; simpl; [done|]. by left.
  - destruct (answer E _); simpl; [done|]. by right.
Qed.

Lemma runVerify_results loop commands had failed w :
  ∃ evs,
    audit (runVerify E loop commands had failed w).2 = audit w ++ evs
    ∧ forallb OrchestratorFacts.isVerifyResult evs = true
    ∧ (runVerify E loop commands had failed w).1.2
      = failed || existsb OrchestratorFacts.isFailedVerify evs.
Proof.
  revert had failed w.
  induction commands as [|cmd rest IH]; intros had failed w.
  { exists []. simpl. by rewrite app_nil_r, orb_false_r. }
  simpl. destruct (OrchestratorFacts.runVerifyCommand_same E cmd w) as (_ & Hl & _).
  destruct (runVerifyCommand E cmd w) as [result w1]. simpl in Hl.
  set (ev := EvVerifyResult loop cmd (ok result) (summary result)).
  destruct (ok result) eqn:Hok; cbn [negb].
  - destruct (IH had failed (safeAuditLog E ev w1)) as (evs & He & Hr & Hf).
    exists (ev :: evs). rewrite He, Hf, OrchestratorFacts.safeAuditLog_audit.
    simpl. rewrite Hl, <-List.app_assoc.
    subst ev. simpl. done.
  - destruct (IH true true (safeAuditLog E ev w1)) as (evs & He & Hr & Hf).
    exists (ev :: evs). rewrite He, Hf, OrchestratorFacts.safeAuditLog_audit.
    simpl. rewrite Hl, <-List.app_assoc.
    subst ev. simpl. by rewrite ?orb_true_r.
Qed.

(** The part of a loop body after the actions: the verify results, then
    possibly the repair limit event; and the flags at its end. *)
Lemma verifyAndResolve_trail loop response hadWrites fl w :
  ∃ results limit,
    audit (verifyAndResolve E loop response hadWrites fl w).2
    = audit w ++ results ++ limit
    ∧ forallb OrchestratorFacts.isVerifyResult results = true
    ∧ forallb (λ ev, bodyEvent ev && negb (isModelResponse ev)
                     && negb (OrchestratorFacts.isVerifyResult ev)) limit = true
    ∧ match (verifyAndResolve E loop response hadWrites fl w).1 with
      | (Next, fl') => exitFlags fl' = exitFlags fl
      | (Break, fl') =>
          exitFlags fl'
          = (true, abortedByError fl, stoppedEarly fl, maxIterationReached fl)
          ∧ status response = StatusDone
          ∧ existsb OrchestratorFacts.isFailedVerify results = false
          ∨ exitFlags fl'
            = (completed fl, true, stoppedEarly fl, maxIterationReached fl)
          ∨ exitFlags fl'
            = (completed fl, abortedByError fl, true, maxIterationReached fl)
      end.
Proof.
  unfold verifyAndResolve, ask.
  set (commands := verifyCommandsOf E loop response hadWrites w).
  destruct (runVerify_results loop commands (hadVerifyFailures fl) false w)
    as (evs & He & Hresults & Hf).
  destruct (runVerify E loop commands (hadVerifyFailures fl) false w)
    as [[had failed] w1].
  simpl in He, Hf.
  set (count := updateFailureCount commands failed (consecutiveVerifyFailures fl)).
  destruct (_ && _).
  - destruct (confirm E (length (asked w1))) eqn:Hyes; cbn [negb].
    + set (w2 := safeAuditLog E _ (addQuestion _ w1)).
      exists evs, [EvAutoRepairLimitReached count true].
      rewrite resolveStatus_trail. subst w2.
      rewrite OrchestratorFacts.safeAuditLog_audit. simpl.
      rewrite He, <-List.app_assoc.
      split; [done|]. split; [done|]. split; [done|].
      pose proof (resolveStatus_flow response failed (setCount fl had 0)
                    (safeAuditLog E (EvAutoRepairLimitReached count true)
                       (addQuestion AskContinueRepair w1))) as Hflow.
      destruct (resolveStatus E response failed _ _) as [[[|] fl'] w3]; simpl in *.
      * done.
      * destruct Hflow as [(Hfl & Hst & ->)|Hfl]; [left|right; by left].
        by rewrite Hfl, Hst, <-Hf.
    + exists evs, [EvAutoRepairLimitReached count false]. simpl.
      rewrite OrchestratorFacts.safeAuditLog_audit. simpl.
      rewrite He, <-List.app_assoc. split; [done|]. split; [done|]. split; [done|].
      right. by right.
  - exists evs, []. rewrite resolveStatus_trail, app_nil_r.
    split; [done|]. split; [done|]. split; [done|].
    pose proof (resolveStatus_flow response failed (setCount fl had count) w1) as Hflow.
    destruct (resolveStatus E response failed _ _) as [[[|] fl'] w3]; simpl in *.
    + done.
    + destruct Hflow as [(Hfl & Hst & ->)|Hfl]; [left|right; by left].
      by rewrite Hfl, Hst, <-Hf.
Qed.

Lemma forallb_impl {A} (f g : A → bool) l :
  (∀ x, f x = true → g x = true) → forallb f l = true → forallb g l = true.
Proof.
  intros Himpl. induction l as [|x l IH]; simpl; [done|].
  intros [Hx Hl]%andb_true_iff. by rewrite (Himpl x Hx), IH.
Qed.

Lemma existsb_false_forallb {A} (f : A → bool) l :
  existsb f l = false → forallb (λ x, negb (f x)) l = true.
Proof.
  induction l as [|x l IH]; simpl; [done|].
  intros [-> Hl]%orb_false_iff. by rewrite IH.
Qed.

(** An event after which the last model response is still the last one and
    still verified. *)
Definition quiet (ev : AuditEvent) : bool :=
  negb (isModelResponse ev) && negb (OrchestratorFacts.isFailedVerify ev).

(** The last model response in the log said [done], and no verify result
    after it is a failure. *)
Definition endsVerifiedDone (evs : list AuditEvent) : Prop :=
  ∃ pre loop planSteps actionCount verifyCount post,
    evs = pre ++ EvModelResponse loop StatusDone planSteps actionCount verifyCount :: post
    ∧ forallb quiet post = true.

Lemma iteration_trail loop fl w flow fl' w' :
  iteration E loop fl w = inr (flow, fl', w') →
  ∃ body,
    audit w' = audit w ++ EvLoopStart loop :: body
    ∧ forallb bodyEvent body = true
    ∧ match flow with
      | Next => exitFlags fl' = exitFlags fl
      | Break =>
          exitFlags fl'
          = (true, abortedByError fl, stoppedEarly fl, maxIterationReached fl)
          ∧ endsVerifiedDone (audit w')
          ∨ exitFlags fl'
            = (completed fl, true, stoppedEarly fl, maxIterationReached fl)
          ∨ exitFlags fl'
            = (completed fl, abortedByError fl, true, maxIterationReached fl)
      end.
Proof.
  unfold iteration.
  destruct (complete E loop) as [rawResponse|].
  2: { intros [= <- <- <-]. exists [].
       rewrite OrchestratorFacts.safeAuditLog_audit. simpl.
       split; [done|]. split; [done|]. right. by left. }
  destruct (parseAgentModelResponse _ _ _) as [|response]; [done|].
  set (response_ev := EvModelResponse loop (status response) (plan response)
                        (length (actions response)) (length (verify response))).
  set (w0 := safeAuditLog E response_ev (safeAuditLog E (EvLoopStart loop) w)).
  destruct (applyMemoryUpdates E loop (memory_updates response) w0)
    as [w1|] eqn:Hmemory; [|done].
  assert (Hw1 : grows actionEvent w0 w1).
  { revert Hmemory. unfold applyMemoryUpdates.
    destruct (memoryChanges E loop _); [intros [= <-]; by trail|].
    destruct (memoryWrite E loop (fs w0)); [|done]. intros [= <-]. by trail. }
  pose proof (runActions_trail loop (actions response) [] false w1) as Hact.
  destruct (runActions E loop (actions response) [] false w1)
    as [[results hadWrites] w2].
  simpl in Hact.
  destruct (grows_trans _ _ _ _ Hw1 Hact) as (acts & Hacts & Hkind).
  destruct (verifyAndResolve_trail loop response hadWrites fl w2)
    as (verifies & limit & Haudit & Hverifies & Hlimit & Hflow).
  intros H. injection H as H. rewrite H in Haudit, Hflow. simpl in Haudit, Hflow.
  exists (response_ev :: acts ++ verifies ++ limit).
  rewrite Haudit, Hacts. subst w0.
  rewrite !OrchestratorFacts.safeAuditLog_audit. rewrite <-!List.app_assoc. simpl.
  split; [done|]. split.
  { rewrite !forallb_app. apply andb_true_iff. split; [|apply andb_true_iff; split].
    - revert Hkind. apply forallb_impl. intros ev. unfold actionEvent.
      by intros [[? _]%andb_true_iff _]%andb_true_iff.
    - revert Hverifies. apply forallb_impl. by intros [].
    - revert Hlimit. apply forallb_impl. intros ev.
      by intros [[? _]%andb_true_iff _]%andb_true_iff. }
  destruct flow; [done|].
  destruct Hflow as [(Hfl & Hst & Hok)|Hfl]; [left|by right].
  split; [done|].
  exists (audit w ++ [EvLoopStart loop]), loop, (plan response),
    (length (actions response)), (length (verify response)),
    (acts ++ verifies ++ limit).
  subst response_ev. rewrite Hst, <-List.app_assoc. split; [done|].
  rewrite !forallb_app. apply andb_true_iff. split; [|apply andb_true_iff; split].
  - revert Hkind. apply forallb_impl. intros ev. unfold actionEvent, quiet.
    intros [[_ ->]%andb_true_iff Hv]%andb_true_iff. simpl.
    destruct ev; try done.
  - apply existsb_false_forallb in Hok. clear -Hok Hverifies.
    induction verifies as [|ev rest IH]; [done|]. simpl in *.
    apply andb_true_iff in Hok as [Hev Hrest].
    apply andb_true_iff in Hverifies as [Hv Hvs].
    rewrite IH by done. unfold quiet. rewrite Hev. by destruct ev.
  - revert Hlimit. apply forallb_impl. intros ev. unfold quiet.
    intros [[_ ->]%andb_true_iff Hv]%andb_true_iff. simpl.
    destruct ev; try done.
Qed.

(** One of the three flags that end the loop has been raised over [fl]. *)
Definition raisedOver (fl fl' : Flags) (log : list AuditEvent) : Prop :=
  exitFlags fl' = (true, abortedByError fl, stoppedEarly fl, maxIterationReached fl)
  ∧ endsVerifiedDone log
  ∨ exitFlags fl' = (completed fl, true, stoppedEarly fl, maxIterationReached fl)
  ∨ exitFlags fl' = (completed fl, abortedByError fl, true, maxIterationReached fl).

Lemma omap_loopOf_body body :
  forallb bodyEvent body = true → omap loopOf body = [].
Proof.
  induction body as [|ev body IH]; [done|]. cbn [forallb].
  intros [Hev Hbody]%andb_true_iff.
  change (omap loopOf (ev :: body))
    with (match loopOf ev with
          | Some y => y :: omap loopOf body
          | None => omap loopOf body
          end).
  rewrite IH by done. by destruct ev.
Qed.

Lemma runLoop_trail remaining loop fl w fl' w' :
  runLoop E remaining loop fl w = inr (fl', w') →
  ∃ k,
    k ≤ remaining
    ∧ omap loopOf (audit w') = omap loopOf (audit w) ++ seq loop k
    ∧ (exitFlags fl' = exitFlags fl ∧ k = remaining
       ∨ raisedOver fl fl' (audit w')).
Proof.
  revert loop fl w. induction remaining as [|n IH]; intros loop fl w; simpl.
  { intros [= <- <-]. exists 0. simpl. rewrite app_nil_r. split; [done|].
    split; [done|]. by left. }
  destruct (iteration E loop fl w) as [|[[flow fl1] w1]] eqn:Hit; [done|].
  destruct (iteration_trail _ _ _ _ _ _ Hit) as (body & Haudit & Hbody & Hflow).
  assert (Hloops : omap loopOf (audit w1) = omap loopOf (audit w) ++ [loop]).
  { rewrite Haudit, omap_app.
    change (omap loopOf (EvLoopStart loop :: body)) with (loop :: omap loopOf body).
    by rewrite (omap_loopOf_body body Hbody). }
  destruct flow.
  - intros Hrest. destruct (IH _ _ _ Hrest) as (k & Hk & Hseq & Hend).
    exists (S k). split; [lia|]. split.
    { rewrite Hseq, Hloops, <-List.app_assoc. done. }
    unfold exitFlags in *. unfold raisedOver, exitFlags in *.
    destruct Hend as [[Hfl ->]|Hraised]; [left; split; congruence|right].
    simplify_eq. destruct Hraised as [[Hfl Hdone]|[Hfl|Hfl]];
      [left; split; [|done]|right; left|right; right]; congruence.
  - intros [= <- <-]. exists 1. split; [lia|]. split; [done|]. by right.
Qed.

(** The events that [runTask] logs after the loop. *)
Definition finishEvent (ev : AuditEvent) : bool :=
  match ev with
  | EvChangeSummary _ | EvRollback _ | EvTaskEnd _ _ => true
  | _ => false
  end.

Lemma finishTask_trail fl1 w1 fl w :
  finishTask E fl1 w1 = inr (fl, w) →
  (∃ evs, audit w = audit w1 ++ evs ∧ forallb finishEvent evs = true)
  ∧ exitFlags fl
    = (completed fl1, abortedByError fl1, stoppedEarly fl1,
       if negb (completed fl1) && negb (abortedByError fl1) && negb (stoppedEarly fl1)
       then true else maxIterationReached fl1).
Proof.
  unfold finishTask, ask.
  set (fl2 := if negb (completed fl1) && _ && _ then _ else fl1).
  assert (Hfl : exitFlags fl2
                 = (completed fl1, abortedByError fl1, stoppedEarly fl1,
                    if negb (completed fl1) && negb (abortedByError fl1)
                       && negb (stoppedEarly fl1)
                    then true else maxIterationReached fl1)).
  { subst fl2. by destruct (_ && _). }
  set (w2 := if ChangeTracker.hasChanges (tracker w1) then _ else w1).
  assert (Hw2 : grows finishEvent w1 w2).
  { subst w2. destruct (ChangeTracker.hasChanges (tracker w1)); by trail. }
  clearbody fl2 w2.
  destruct (negb (completed fl2) && hadVerifyFailures fl2 && _).
  - destruct (confirm E _).
    + destruct (ChangeTracker.rollback _ _ _ _) as [[e|restored] files]; [done|].
      intros [= <- <-]. split; [|done]. by trail.
    + intros [= <- <-]. split; [|done]. by trail.
  - intros [= <- <-]. split; [|done]. by trail.
Qed.

Lemma omap_loopOf_finish evs :
  forallb finishEvent evs = true → omap loopOf evs = [].
Proof.
  induction evs as [|ev evs IH]; [done|]. cbn [forallb].
  intros [Hev Hevs]%andb_true_iff.
  change (omap loopOf (ev :: evs))
    with (match loopOf ev with
          | Some y => y :: omap loopOf evs
          | None => omap loopOf evs
          end).
  rewrite IH by done. by destruct ev.
Qed.

(** What a task that returns leaves in the flags and the audit log. *)
Lemma runTask_trail goal files fl w :
  runTask E goal files = Some (inr (fl, w)) →
  ∃ fl1 log1 evs k,
    audit w = log1 ++ evs ∧ forallb finishEvent evs = true
    ∧ k ≤ maxIterations (config E)
    ∧ omap loopOf log1 = seq 1 k
    ∧ exitFlags fl
      = (completed fl1, abortedByError fl1, stoppedEarly fl1,
         if negb (completed fl1) && negb (abortedByError fl1) && negb (stoppedEarly fl1)
         then true else maxIterationReached fl1)
    ∧ (exitFlags fl1 = exitFlags initialFlags ∧ k = maxIterations (config E)
       ∨ raisedOver initialFlags fl1 log1).
Proof.
  unfold runTask. destruct (negb _); [done|].
  destruct (loadState E files) as [loaded|]; [|done].
  destruct (summarize E _) as [summarized|]; [|done].
  set (w0 := withFs (safeAuditLog E (EvTaskStart goal) (initialWorld loaded))
               summarized).
  assert (Haudit0 : audit w0 = [EvTaskStart goal]).
  { subst w0. simpl. by rewrite OrchestratorFacts.safeAuditLog_audit. }
  clearbody w0.
  destruct (runLoop E (maxIterations (config E)) 1 initialFlags w0)
    as [|[fl1 w1]] eqn:Hloop; [done|].
  intros [= Hfinish].
  destruct (runLoop_trail _ _ _ _ _ _ Hloop) as (k & Hk & Hseq & Hend).
  destruct (finishTask_trail _ _ _ _ Hfinish) as [(evs & Haudit & Hevs) Hfl].
  rewrite Haudit0 in Hseq.
  exists fl1, (audit w1), evs, k. done.
Qed.

(** A task runs its loops in order, from 1, and not more of them than
    [maxIterations]; it reports that the limit was reached only after that
    many loops. *)
Theorem task_loops_bounded goal files fl w :
  runTask E goal files = Some (inr (fl, w)) →
  ∃ k,
    omap loopOf (audit w) = seq 1 k
    ∧ k ≤ maxIterations (config E)
    ∧ (maxIterationReached fl = true → k = maxIterations (config E)).
Proof.
  intros Hrun.
  destruct (runTask_trail _ _ _ _ Hrun)
    as (fl1 & log1 & evs & k & Haudit & Hevs & Hk & Hseq & Hfl & Hend).
  exists k. rewrite Haudit, omap_app, Hseq, (omap_loopOf_finish evs Hevs), app_nil_r.
  split; [done|]. split; [done|].
  unfold exitFlags in Hfl. injection Hfl as _ _ _ Hmax. rewrite Hmax.
  unfold raisedOver, exitFlags in Hend. simpl in Hend.
  destruct Hend as [[_ ->]|[[Hfl1 _]|[Hfl1|Hfl1]]]; [done|..];
    injection Hfl1 as -> -> -> ->; done.
Qed.

(** A task ends for exactly one reason: the agent completed it, an error
    aborted it, the user stopped the repair loops, or the iterations ran
    out. *)
Theorem task_exit_reason goal files fl w :
  runTask E goal files = Some (inr (fl, w)) →
  Nat.b2n (completed fl) + Nat.b2n (abortedByError fl) + Nat.b2n (stoppedEarly fl)
  + Nat.b2n (maxIterationReached fl) = 1.
Proof.
  intros Hrun.
  destruct (runTask_trail _ _ _ _ Hrun)
    as (fl1 & log1 & evs & k & _ & _ & _ & _ & Hfl & Hend).
  unfold exitFlags in Hfl. injection Hfl as -> -> -> ->.
  unfold raisedOver, exitFlags in Hend. simpl in Hend.
  destruct Hend as [[Hfl1 _]|[[Hfl1 _]|[Hfl1|Hfl1]]];
    injection Hfl1 as -> -> -> ->; done.
Qed.

(** A task counts as completed only when the last response of the model
    said [done] and no verify command failed after that response. *)
Theorem completed_means_verified goal files fl w :
  runTask E goal files = Some (inr (fl, w)) →
  completed fl = true →
  endsVerifiedDone (audit w).
Proof.
  intros Hrun.
  destruct (runTask_trail _ _ _ _ Hrun)
    as (fl1 & log1 & evs & k & Haudit & Hevs & _ & _ & Hfl & Hend).
  unfold exitFlags in Hfl. injection Hfl as -> _ _ _.
  unfold raisedOver, exitFlags in Hend. simpl in Hend.
  destruct Hend as [[Hfl1 _]|[[_ Hdone]|[Hfl1|Hfl1]]];
    try (injection Hfl1 as -> _ _ _; done).
  intros _. destruct Hdone as (pre & loop & ps & na & nv & post & -> & Hpost).
  exists pre, loop, ps, na, nv, (post ++ evs).
  rewrite Haudit, <-List.app_assoc. split; [done|].
  rewrite forallb_app, Hpost. simpl.
  revert Hevs. apply forallb_impl. by intros [].
Qed.

End Trace.

End OrchestratorTrace.

(** The reply {"status":"done"} and a session in which the model gives it
    at once. *)
Definition doneText : string :=
  "{" +:+ JS.quoted "status" +:+ ":" +:+ JS.quoted "done" +:+ "}".

Definition doneValue : Json.value :=
  Json.JObject [("status", Json.JString "done")].

Definition doneSession : Orchestrator.Env :=
  {| Orchestrator.cwd := "/";
     Orchestrator.auditPath := "/ws/.vibe-agent/audit/session.jsonl";
     Orchestrator.auditLine := λ n _, "event " +:+ Json.natToString n;
     Orchestrator.loadState := Some;
     Orchestrator.summarize := Some;
     Orchestrator.memoryWrite := λ _, Some;
     Orchestrator.config := demoConfig;
     Orchestrator.policy := Policy.DEFAULT_POLICY;
     Orchestrator.numberToString := λ _, "0";
     Orchestrator.JSON_parse :=
       λ text, if String.eqb text doneText then Some doneValue else None;
     Orchestrator.patternTest := λ _ _, Some false;
     Orchestrator.globTest := λ _ _, Some false;
     Orchestrator.complete := λ _, Some doneText;
     Orchestrator.confirm := λ _, true;
     Orchestrator.answer := λ _, None;
     Orchestrator.shell := λ command files, (inr (passingRun command), files);
     Orchestrator.otherTool := Orchestrator.otherTool demoEnv;
     Orchestrator.diffStats := Orchestrator.diffStats demoEnv;
     Orchestrator.memoryChanges := λ _ _, [];
     Orchestrator.memoryAt := λ _, emptyMemory |}.

Definition doneOutcome : Orchestrator.Flags * Orchestrator.World :=
  match Orchestrator.runTask doneSession "nothing to do" ∅ with
  | Some (inr outcome) => outcome
  | _ => (Orchestrator.initialFlags, Orchestrator.initialWorld ∅)
  end.

Lemma task_loops_bounded_witness :
  Orchestrator.runTask abortedSession "add foo" ∅
  = Some (inr (abortedOutcome.1, abortedOutcome.2))
  ∧ ∃ k, omap OrchestratorTrace.loopOf (Orchestrator.audit abortedOutcome.2) = seq 1 k
         ∧ k ≤ 6.
Proof.
  assert (Hrun : Orchestrator.runTask abortedSession "add foo" ∅
                 = Some (inr (abortedOutcome.1, abortedOutcome.2))).
  { vm_compute. reflexivity. }
  split; [exact Hrun|].
  destruct (OrchestratorTrace.task_loops_bounded abortedSession "add foo" ∅
              abortedOutcome.1 abortedOutcome.2 Hrun) as (k & Hseq & Hk & _).
  exists k. split; [exact Hseq|exact Hk].
Defined.

Lemma task_exit_reason_witness :
  Orchestrator.runTask abortedSession "add foo" ∅
  = Some (inr (abortedOutcome.1, abortedOutcome.2))
  ∧ Orchestrator.abortedByError abortedOutcome.1 = true
  ∧ Nat.b2n (Orchestrator.completed abortedOutcome.1)
    + Nat.b2n (Orchestrator.abortedByError abortedOutcome.1)
    + Nat.b2n (Orchestrator.stoppedEarly abortedOutcome.1)
    + Nat.b2n (Orchestrator.maxIterationReached abortedOutcome.1) = 1.
Proof.
  assert (Hrun : Orchestrator.runTask abortedSession "add foo" ∅
                 = Some (inr (abortedOutcome.1, abortedOutcome.2))).
  { vm_compute. reflexivity. }
  split; [exact Hrun|]. split; [vm_compute; reflexivity|].
  exact (OrchestratorTrace.task_exit_reason abortedSession "add foo" ∅
           abortedOutcome.1 abortedOutcome.2 Hrun).
Defined.

Lemma completed_means_verified_witness :
  Orchestrator.runTask doneSession "nothing to do" ∅
  = Some (inr (doneOutcome.1, doneOutcome.2))
  ∧ Orchestrator.completed doneOutcome.1 = true
  ∧ OrchestratorTrace.endsVerifiedDone (Orchestrator.audit doneOutcome.2).
Proof.
  assert (Hrun : Orchestrator.runTask doneSession "nothing to do" ∅
                 = Some (inr (doneOutcome.1, doneOutcome.2))).
  { vm_compute. reflexivity. }
  assert (Hdone : Orchestrator.completed doneOutcome.1 = true).
  { vm_compute. reflexivity. }
  split; [exact Hrun|]. split; [exact Hdone|].
  exact (OrchestratorTrace.completed_means_verified doneSession "nothing to do" ∅
           doneOutcome.1 doneOutcome.2 Hrun Hdone).
Defined.

(** ** The response parser when it returns *)

Module ResponseParserMore.
Import Json ResponseParser.

(** The required fields of an action are not blank. *)
Definition requiredPresent (action : AgentAction) : bool :=
  match action with
  | ReadFile path _ _ => JS.nonEmpty (JS.trim path)
  | Grep pattern _ _ => JS.nonEmpty (JS.trim pattern)
  | RunCommand command => JS.nonEmpty (JS.trim command)
  | WriteFile path _ => JS.nonEmpty (JS.trim path)
  | SymbolLookup query _ _ => JS.nonEmpty (JS.trim query)
  | FindReferences symbol _ _ => JS.nonEmpty (JS.trim symbol)
  | MemorySet key _ => JS.nonEmpty (JS.trim key)
  | MemoryGet key => JS.nonEmpty (JS.trim key)
  | ListFiles _ _ _ _ | ScanProject _ _ | DependencyMap => true
  end.

Definition listWithin {A} (n : nat) (l : option (list A)) : Prop :=
  match l with
  | Some entries => length entries ≤ n
  | None => True
  end.

Section Parser.

Variable numberToString : number → string.
Variable JSON_parse : string → option value.

Lemma nonBlankString_nonEmpty v s :
  nonBlankString v = Some s → JS.nonEmpty (JS.trim s) = true.
Proof.
  unfold nonBlankString. destruct v as [[]|]; try done.
  destruct (JS.nonEmpty (JS.trim s0)) eqn:Hne; [|done]. by intros [= <-].
Qed.

Lemma normalizeAction_requiredPresent item action :
  normalizeAction numberToString item = inr (Some action) →
  requiredPresent action = true.
Proof.
  intros H.
  pose proof (ResponseParserFacts.normalizeAction_required numberToString _ _ H) as Hreq.
  destruct action; simpl in *; try done;
    try (by eapply nonBlankString_nonEmpty);
    destruct Hreq as [Hreq _]; by eapply nonBlankString_nonEmpty.
Qed.

Lemma collectActions_requiredPresent items actions0 actions1 :
  forallb requiredPresent actions0 = true →
  collectActions numberToString items actions0 = inr actions1 →
  forallb requiredPresent actions1 = true.
Proof.
  revert actions0. induction items as [|item rest IH]; intros actions0 Hok; simpl.
  { by intros [= <-]. }
  destruct (normalizeAction numberToString item) as [e|[action|]] eqn:Hitem; [done|..].
  - apply IH. rewrite forallb_app, Hok. simpl.
    by rewrite (normalizeAction_requiredPresent _ _ Hitem).
  - by apply IH.
Qed.

Lemma forallb_firstn {A} (f : A → bool) n l :
  forallb f l = true → forallb f (firstn n l) = true.
Proof.
  revert n. induction l as [|x l IH]; intros [|n]; simpl; try done.
  intros [-> Hl]%andb_true_iff. by rewrite IH.
Qed.

Lemma normalizeVerifyItem_command item vc :
  normalizeVerifyItem item = Some vc →
  JS.nonEmpty (command vc) = true ∧ ∃ raw, command vc = JS.trim raw.
Proof.
  unfold normalizeVerifyItem.
  destruct (nonBlankString (Some item)) as [s|] eqn:Hs.
  { intros [= <-]. simpl. split; [by eapply nonBlankString_nonEmpty|by eexists]. }
  destruct item; try done.
  destruct (assoc "command" props) as [commandValue|]; [|done].
  destruct (nonBlankString (Some commandValue)) as [s|] eqn:Hc; [|done].
  intros [= <-]. simpl. split; [by eapply nonBlankString_nonEmpty|by eexists].
Qed.

Lemma normalizeMemoryList_within v entries :
  normalizeMemoryList numberToString v = inr entries → listWithin 30 entries.
Proof.
  unfold normalizeMemoryList. destruct v as [[]|]; try (by intros [= <-]).
  destruct (mapToStr numberToString items); [done|]. intros [= <-]. simpl.
  apply ResponseParserFacts.trimmedNonEmpty_length.
Qed.

(** A response that the parser returns has at most 6 actions, each with the
    required fields of its tool not blank; at most 8 verify commands, each
    trimmed and not empty; at most 12 plan steps, each trimmed and not empty;
    and memory updates, if any, of at most 30 entries a list and 50 keys. *)
Theorem parsed_response_well_formed rawText response :
  parseAgentModelResponse numberToString JSON_parse rawText = inr response →
  length (actions response) ≤ 6
  ∧ forallb requiredPresent (actions response) = true
  ∧ length (verify response) ≤ 8
  ∧ Forall (λ vc, JS.nonEmpty (command vc) = true ∧ ∃ raw, command vc = JS.trim raw)
      (verify response)
  ∧ length (plan response) ≤ 12
  ∧ Forall (λ entry, JS.nonEmpty entry = true ∧ ∃ raw, entry = JS.trim raw)
      (plan response)
  ∧ ∀ updates, memory_updates response = Some updates →
      listWithin 30 (projectRules updates)
      ∧ listWithin 30 (architectureNotes updates)
      ∧ listWithin 30 (commonCommands updates)
      ∧ listWithin 50 (kv updates).
Proof.
  intros H.
  destruct (ResponseParserFacts.parseAgentModelResponse_returned
              numberToString JSON_parse rawText) as [Hbounds _].
  destruct (Hbounds _ H) as (Hactions & Hverify & Hplan & Hentries).
  split; [done|]. revert H. unfold parseAgentModelResponse.
  destruct (JSON_parse (extractJson rawText)) as [parsed|].
  2: { intros [= <-]. simpl. repeat split; try done; try lia. }
  destruct (negb (truthy parsed) || negb (typeofObject parsed)).
  { intros [= <-]. simpl. repeat split; try done; try lia. }
  destruct (normalizePlan _ _) as [|plan0] eqn:Hp; [done|].
  destruct (normalizeActions _ _) as [|actions0] eqn:Ha; [done|].
  destruct (normalizeMemoryUpdates _ _) as [|updates0] eqn:Hm; [done|].
  intros [= <-]. simpl in *. split; [|split; [done|split; [|split; [done|split; [done|]]]]].
  - unfold normalizeActions in Ha.
    destruct (get parsed "actions") as [[]|]; simplify_eq; try done.
    destruct (collectActions numberToString items []) as [|collected] eqn:Hc; [done|].
    simplify_eq. apply forallb_firstn.
    by apply (collectActions_requiredPresent items [] collected).
  - unfold normalizeVerify. destruct (get parsed "verify") as [[]|]; try done.
    apply Forall_forall. intros vc Hin.
    apply list_elem_of_In, ResponseParserFacts.In_firstn, list_elem_of_In in Hin.
    apply list_elem_of_omap in Hin as (item & _ & Hitem).
    by apply (normalizeVerifyItem_command item).
  - intros updates Hupdates. subst updates0.
    unfold normalizeMemoryUpdates in Hm.
    destruct (get parsed "memory_updates") as [obj|]; [|done].
    destruct (negb (truthy obj) || negb (typeofObject obj)); [done|].
    destruct (normalizeMemoryList numberToString (get obj "projectRules"))
      as [|rules] eqn:Hrules; [done|].
    destruct (normalizeMemoryList numberToString (get obj "architectureNotes"))
      as [|notes] eqn:Hnotes; [done|].
    destruct (normalizeMemoryList numberToString (get obj "commonCommands"))
      as [|commands] eqn:Hcommands; [done|].
    apply normalizeMemoryList_within in Hrules, Hnotes, Hcommands.
    destruct (_ || _); [|done]. injection Hm as <-. simpl.
    repeat split; try done.
    unfold normalizeKv. destruct (get obj "kv") as [kvValue|]; [|done].
    destruct (truthy kvValue && typeofObject kvValue); [|done]. simpl.
    rewrite length_take. lia.
Qed.

End Parser.

End ResponseParserMore.

Lemma parsed_response_well_formed_witness :
  ∃ response,
    ResponseParser.parseAgentModelResponse (λ _, "0") scriptedParse writeAndVerifyText
    = inr response
    ∧ ResponseParser.actions response = [ResponseParser.WriteFile "foo.txt" "hi"]
    ∧ forallb ResponseParserMore.requiredPresent (ResponseParser.actions response) = true
    ∧ length (ResponseParser.verify response) ≤ 8.
Proof.
  eexists. split; [vm_compute; reflexivity|]. split; [reflexivity|].
  destruct (ResponseParserMore.parsed_response_well_formed (λ _, "0") scriptedParse
              writeAndVerifyText _ eq_refl) as (_ & Hrequired & Hverify & _).
  split; [exact Hrequired|exact Hverify].
Defined.

(** ** The policy gates *)

Module PolicyFacts.
Import Policy.

Section Gates.

Variable patternTest : string → string → option bool.
Variable globTest : string → string → option bool.

(** A blocked pattern lets a command pass: its regular expression does not
    match, or it is no regular expression and its text does not occur in the
    command, letter case apart. *)
Definition patternPasses (normalized pattern : string) : Prop :=
  match patternTest pattern normalized with
  | Some hit => hit = false
  | None => JS.includes (JS.toLowerCase normalized) (JS.toLowerCase pattern) = false
  end.

Lemma checkPatterns_None patterns normalized :
  checkPatterns patternTest patterns normalized = None
  ↔ Forall (patternPasses normalized) patterns.
Proof.
  induction patterns as [|pattern rest IH]; simpl.
  { split; [constructor|done]. }
  rewrite Forall_cons, <-IH. unfold patternPasses.
  destruct (patternTest pattern normalized) as [[]|].
  - split; [done|]. by intros [? _].
  - split; [done|]. by intros [_ ?].
  - destruct (JS.includes _ _).
    + split; [done|]. by intros [? _].
    + split; [done|]. by intros [_ ?].
Qed.

Lemma checkPatterns_blocked patterns normalized result :
  checkPatterns patternTest patterns normalized = Some result →
  allowed result = false ∧ is_Some (reason result).
Proof.
  induction patterns as [|pattern rest IH]; simpl; [done|].
  destruct (patternTest pattern normalized) as [[]|].
  - intros [= <-]. simpl. split; [done|by eexists].
  - done.
  - destruct (JS.includes _ _); [|done].
    intros [= <-]. simpl. split; [done|by eexists].
Qed.

(** The command gate allows a command exactly when commands are allowed at
    all, the trimmed command is not empty, every blocked pattern lets it
    pass, and, when prefixes are configured, the trimmed command starts with
    one of them.  A refusal always carries a reason. *)
Theorem command_gate_allows policy command :
  (allowed (isCommandAllowed patternTest policy command) = true
   ↔ allowRunCommand policy = true
     ∧ JS.trim command ≠ ""
     ∧ Forall (patternPasses (JS.trim command)) (blockedCommandPatterns policy)
     ∧ (allowedCommandPrefixes policy = []
        ∨ Exists (λ prefix, JS.startsWith (JS.trim command) prefix = true)
            (allowedCommandPrefixes policy)))
  ∧ (allowed (isCommandAllowed patternTest policy command) = false →
     is_Some (reason (isCommandAllowed patternTest policy command))).
Proof.
  unfold isCommandAllowed.
  destruct (allowRunCommand policy); simpl.
  2: { split; [|by eexists]. split; [done|]. by intros [? _]. }
  cbv zeta. destruct (JS.nonEmpty (JS.trim command)) eqn:Hne; simpl.
  2: { split; [|by eexists]. split; [done|]. intros (_ & Htrim & _).
       by destruct (JS.trim command). }
  assert (JS.trim command ≠ "") as Htrim by (by destruct (JS.trim command)).
  destruct (checkPatterns patternTest (blockedCommandPatterns policy) (JS.trim command))
    as [blocked|] eqn:Hpatterns.
  { destruct (checkPatterns_blocked _ _ _ Hpatterns) as [Hno Hreason].
    split; [|done]. rewrite Hno. split; [done|].
    intros (_ & _ & Hpass & _). apply checkPatterns_None in Hpass. congruence. }
  apply checkPatterns_None in Hpatterns.
  destruct (allowedCommandPrefixes policy) as [|prefix prefixes] eqn:Hprefixes.
  { simpl. split; [|done]. split; [|done]. intros _.
    repeat split; try done. by left. }
  change (JS.startsWith (JS.trim command) prefix
          || existsb (λ p, JS.startsWith (JS.trim command) p) prefixes)
    with (existsb (λ p, JS.startsWith (JS.trim command) p) (prefix :: prefixes)).
  destruct (existsb (λ p, JS.startsWith (JS.trim command) p) (prefix :: prefixes))
    eqn:Hany; cbn [allowed reason].
  - split; [|done]. split; [|done]. intros _. repeat split; try done.
    right. apply existsb_exists in Hany as (p & Hin & Hp).
    apply Exists_exists. exists p. split; [by apply list_elem_of_In|done].
  - split; [|by eexists]. split; [done|].
    intros (_ & _ & _ & [?|Hex]); [done|].
    apply Exists_exists in Hex as (p & Hin & Hp).
    assert (existsb (λ p, JS.startsWith (JS.trim command) p) (prefix :: prefixes) = true)
      as Hyes; [|congruence].
    apply existsb_exists. exists p. split; [by apply list_elem_of_In|done].
Qed.

Lemma normalizePathForPolicy_idem p :
  normalizePathForPolicy (normalizePathForPolicy p) = normalizePathForPolicy p.
Proof.
  induction p as [|c p IH]; [done|]. simpl. rewrite IH.
  destruct (Ascii.eqb_spec c (ascii_of_nat 92)) as [->|Hc]; [done|].
  by destruct (Ascii.eqb_spec c (ascii_of_nat 92)).
Qed.

Lemma checkGlobs_allowed globs normalizedPath result :
  checkGlobs globTest globs normalizedPath = inr result →
  allowed result = true
  ↔ Forall (λ glob, globTest glob normalizedPath = Some false) globs.
Proof.
  revert result. induction globs as [|glob rest IH]; intros result; simpl.
  { intros [= <-]. simpl. split; [constructor|done]. }
  destruct (globTest glob normalizedPath) as [[]|] eqn:Hglob.
  - intros [= <-]. simpl. split; [done|]. intros H. inversion H. congruence.
  - intros Hrest. rewrite (IH _ Hrest). split.
    + by constructor.
    + intros H. by inversion H.
  - done.
Qed.

(** The write gate judges a path with its backslashes read as slashes: it
    allows the path exactly when writes are allowed at all and none of the
    blocked globs matches that reading; two paths with the same reading are
    judged alike. *)
Theorem write_gate_allows policy relativePath result :
  isWritePathAllowed globTest policy relativePath = inr result →
  (allowed result = true
   ↔ allowWrite policy = true
     ∧ Forall (λ glob, globTest glob (normalizePathForPolicy relativePath) = Some false)
         (blockedWriteGlobs policy))
  ∧ isWritePathAllowed globTest policy (normalizePathForPolicy relativePath)
    = inr result.
Proof.
  unfold isWritePathAllowed. rewrite normalizePathForPolicy_idem.
  destruct (allowWrite policy); simpl.
  - intros Hglobs. split; [|done]. rewrite (checkGlobs_allowed _ _ _ Hglobs).
    split; [done|]. by intros [_ ?].
  - intros [= <-]. simpl. split; [|done]. split; [done|]. by intros [? _].
Qed.

End Gates.

End PolicyFacts.

Lemma write_gate_allows_witness :
  let globTest := λ glob path : string, Some (String.eqb glob path) in
  let backslash := String (ascii_of_nat 92) "" in
  let passed := {| Policy.allowed := true; Policy.reason := None |} in
  Policy.isWritePathAllowed globTest Policy.DEFAULT_POLICY
    ("src" +:+ backslash +:+ "a.ts") = inr passed
  ∧ Policy.isWritePathAllowed globTest Policy.DEFAULT_POLICY "src/a.ts" = inr passed.
Proof.
  intros globTest backslash passed.
  assert (Hgate : Policy.isWritePathAllowed globTest Policy.DEFAULT_POLICY
                    ("src" +:+ backslash +:+ "a.ts") = inr passed).
  { vm_compute. reflexivity. }
  split; [exact Hgate|].
  exact (proj2 (PolicyFacts.write_gate_allows globTest Policy.DEFAULT_POLICY
                  ("src" +:+ backslash +:+ "a.ts") passed Hgate)).
Defined.

(** ** Trimming *)

Module TrimFacts.

Lemma trimEnd_cons c s :
  JS.isSpace c = false → JS.trimEnd (String c s) = String c (JS.trimEnd s).
Proof. intros Hc. simpl. rewrite Hc. by destruct (JS.trimEnd s). Qed.

Lemma trimEnd_idem s : JS.trimEnd (JS.trimEnd s) = JS.trimEnd s.
Proof.
  induction s as [|c s IH]; [done|]. simpl.
  destruct (JS.trimEnd s) as [|d t] eqn:Ht.
  - destruct (JS.isSpace c) eqn:Hc; [done|]. simpl. by rewrite Hc.
  - simpl. simpl in IH. rewrite IH. done.
Qed.

Lemma trimStart_head s :
  match JS.trimStart s with
  | EmptyString => True
  | String c _ => JS.isSpace c = false
  end.
Proof.
  induction s as [|c s IH]; [done|]. simpl.
  destruct (JS.isSpace c) eqn:Hc; [done|]. simpl. done.
Qed.

Lemma trimStart_fixed c s : JS.isSpace c = false → JS.trimStart (String c s) = String c s.
Proof. intros Hc. simpl. by rewrite Hc. Qed.

Lemma trim_idem s : JS.trim (JS.trim s) = JS.trim s.
Proof.
  unfold JS.trim. pose proof (trimStart_head s) as Hhead.
  destruct (JS.trimStart s) as [|c t]; [done|].
  rewrite (trimEnd_cons c t Hhead), (trimStart_fixed c _ Hhead).
  rewrite <-(trimEnd_cons c t Hhead). apply trimEnd_idem.
Qed.

End TrimFacts.

(** ** Memory store *)

Module MemoryStoreFacts.
Import Memory MemoryStore.

(** An entry as the store keeps it: trimmed and not empty. *)
Definition normal (x : string) : Prop := JS.trim x = x ∧ x ≠ "".

Definition normalized (l : list string) : Prop := NoDup l ∧ Forall normal l.

Lemma nonEmpty_ne s : JS.nonEmpty s = true ↔ s ≠ "".
Proof. by destruct s. Qed.

Lemma uniq_fold values seen output :
  (∀ x, x ∈ seen ↔ x ∈ output) → normalized output →
  let r := fold_left uniqStep values (seen, output) in
  (∀ x, x ∈ r.1 ↔ x ∈ r.2)
  ∧ normalized r.2
  ∧ output `prefix_of` r.2
  ∧ (∀ x, x ∈ r.2 ↔ x ∈ output ∨ x ≠ "" ∧ ∃ raw, raw ∈ values ∧ JS.trim raw = x).
Proof.
  revert seen output. induction values as [|raw values IH]; intros seen output Hseen Hout.
  { simpl. split; [done|]. split; [done|]. split; [done|]. intros x. split; [by left|].
    intros [?|(_ & raw & Hin & _)]; [done|]. by apply elem_of_nil in Hin. }
  cbn [fold_left]. cbv zeta.
  assert (Hstep : uniqStep (seen, output) raw
                  = if negb (JS.nonEmpty (JS.trim raw))
                       || bool_decide (JS.trim raw ∈ seen)
                    then (seen, output)
                    else ({[JS.trim raw]} ∪ seen, output ++ [JS.trim raw])) by done.
  rewrite Hstep. clear Hstep.
  destruct (JS.nonEmpty (JS.trim raw)) eqn:Hne; cbn [negb orb].
  2: { destruct (IH seen output Hseen Hout) as (H1 & H2 & H3 & H4).
       split; [exact H1|]. split; [exact H2|]. split; [exact H3|]. intros x. split.
       - intros Hx. apply H4 in Hx as [?|(Hx & r & Hin & Hr)]; [by left|right].
         split; [done|]. exists r. split; [by right|done].
       - intros [?|(Hx & r & Hin & Hr)]; apply H4; [by left|].
         apply elem_of_cons in Hin as [->|Hin].
         + subst x. by destruct (JS.trim raw).
         + right. eauto. }
  case_bool_decide as Hin.
  { destruct (IH seen output Hseen Hout) as (H1 & H2 & H3 & H4).
    split; [exact H1|]. split; [exact H2|]. split; [exact H3|]. intros x. split.
    - intros Hx. apply H4 in Hx as [?|(Hx & r & Hr & Ht)]; [by left|right].
      split; [done|]. exists r. split; [by right|done].
    - intros [?|(Hx & r & Hr & Ht)]; apply H4; [by left|].
      apply elem_of_cons in Hr as [->|Hr].
      + left. subst x. by apply Hseen.
      + right. eauto. }
  assert (Hfresh : JS.trim raw ∉ output) by (by rewrite <-Hseen).
  destruct (IH ({[JS.trim raw]} ∪ seen) (output ++ [JS.trim raw]))
    as (H1 & H2 & H3 & H4).
  { intros x. rewrite elem_of_union, elem_of_singleton, elem_of_app,
      list_elem_of_singleton, Hseen. tauto. }
  { destruct Hout as [Hnd Hall]. split.
    - apply NoDup_app. split; [done|]. split; [|apply NoDup_singleton].
      intros x Hx ->%list_elem_of_singleton. done.
    - apply Forall_app. split; [done|]. constructor; [|constructor].
      split; [apply TrimFacts.trim_idem|by apply nonEmpty_ne]. }
  split; [exact H1|]. split; [exact H2|]. split.
  { etrans; [|exact H3]. by apply prefix_app_r. }
  intros x. split.
  - intros Hx. apply H4 in Hx as [Hx|(Hx & r & Hr & Ht)].
    + apply elem_of_app in Hx as [? | ->%list_elem_of_singleton]; [by left|right].
      split; [by apply nonEmpty_ne|]. exists raw. split; [by left|done].
    + right. split; [done|]. exists r. split; [by right|done].
  - intros [Hx|(Hx & r & Hr & Ht)]; apply H4.
    + left. apply elem_of_app. by left.
    + apply elem_of_cons in Hr as [->|Hr].
      * left. apply elem_of_app. right. by apply list_elem_of_singleton.
      * right. eauto.
Qed.

Lemma uniq_fold_normalized l seen output :
  (∀ x, x ∈ seen ↔ x ∈ output) → normalized l → (∀ x, x ∈ l → x ∉ output) →
  (fold_left uniqStep l (seen, output)).2 = output ++ l
  ∧ ∀ x, x ∈ (fold_left uniqStep l (seen, output)).1 ↔ x ∈ output ++ l.
Proof.
  revert seen output. induction l as [|y l IH]; intros seen output Hseen [Hnd Hall] Hnew.
  { simpl. rewrite app_nil_r. done. }
  apply NoDup_cons in Hnd as [Hy Hnd]. apply Forall_cons in Hall as [[Htrim Hne] Hall].
  cbn [fold_left].
  assert (Hstep : uniqStep (seen, output) y = ({[y]} ∪ seen, output ++ [y])).
  { unfold uniqStep. cbn [fst snd]. rewrite Htrim.
    rewrite (proj2 (nonEmpty_ne y) Hne). cbn [negb orb].
    rewrite bool_decide_false; [done|]. rewrite Hseen. apply Hnew. by left. }
  rewrite Hstep. clear Hstep.
  destruct (IH ({[y]} ∪ seen) (output ++ [y])) as [H1 H2].
  - intros x. rewrite elem_of_union, elem_of_singleton, elem_of_app,
      list_elem_of_singleton, Hseen. tauto.
  - done.
  - intros x Hx [Hout | ->%list_elem_of_singleton]%elem_of_app; [|done].
    apply (Hnew x); [by right|done].
  - rewrite H1, <-List.app_assoc. split; [done|].
    intros x. rewrite H2, <-List.app_assoc. done.
Qed.

(** [uniqNonEmpty] keeps, in the order of first occurrence and once each,
    the trimmed texts of the entries that are not blank; applying it again
    changes nothing. *)
Theorem uniqNonEmpty_spec values :
  NoDup (uniqNonEmpty values)
  ∧ (∀ x, x ∈ uniqNonEmpty values
          ↔ x ≠ "" ∧ ∃ raw, raw ∈ values ∧ JS.trim raw = x)
  ∧ uniqNonEmpty (uniqNonEmpty values) = uniqNonEmpty values.
Proof.
  unfold uniqNonEmpty.
  destruct (uniq_fold values ∅ []) as (H1 & H2 & H3 & H4).
  { intros x. rewrite elem_of_empty. split; [done|by intros ?%elem_of_nil]. }
  { split; constructor. }
  split; [apply H2|]. split.
  - intros x. rewrite H4. split; [|by right].
    intros [?%elem_of_nil|?]; done.
  - destruct (uniq_fold_normalized (fold_left uniqStep values (∅, [])).2 ∅ []) as [H5 _].
    + intros x. rewrite elem_of_empty. split; [done|by intros ?%elem_of_nil].
    + exact H2.
    + intros x _ ?%elem_of_nil. done.
    + exact H5.
Qed.

(** What an update may do to a list of the memory: the list stays in the
    form the store keeps, its first 200 entries stay in place, and it does
    not grow beyond 200 entries. *)
Definition keeps (old new : list string) : Prop :=
  normalized new
  ∧ firstn 200 old `prefix_of` new
  ∧ length new ≤ 200 `max` length old.

Lemma normalized_firstn n l : normalized l → normalized (firstn n l).
Proof.
  intros [Hnd Hall]. split.
  - rewrite <-(firstn_skipn n l) in Hnd. by apply NoDup_app in Hnd as [? _].
  - by apply Forall_take.
Qed.

Lemma prefix_firstn_mono {A} n (l1 l2 : list A) :
  l1 `prefix_of` l2 → firstn n l1 `prefix_of` firstn n l2.
Proof.
  intros [k ->]. revert n. induction l1 as [|x l1 IH]; intros [|n]; simpl.
  - apply prefix_nil.
  - apply prefix_nil.
  - apply prefix_nil.
  - by apply prefix_cons.
Qed.

Lemma mergeList_keeps name current update :
  normalized current →
  keeps current (mergeList name current update).1
  ∧ ((mergeList name current update).2 = None →
     (mergeList name current update).1 = current).
Proof.
  intros Hcur.
  assert (Hsame : keeps current current).
  { split; [done|]. split; [|lia].
    rewrite <-(firstn_skipn 200 current) at 2. by apply prefix_app_r. }
  unfold mergeList. destruct update as [[|first more]|]; simpl; try done.
  destruct (negb _); simpl; [|done]. split; [|done].
  unfold uniqNonEmpty. rewrite fold_left_app.
  destruct (uniq_fold_normalized current ∅ []) as [H1 H2].
  { intros x. rewrite elem_of_empty. split; [done|by intros ?%elem_of_nil]. }
  { done. }
  { intros x _ ?%elem_of_nil. done. }
  simpl in H1, H2.
  destruct (fold_left uniqStep current (∅, [])) as [seen output] eqn:Hfold.
  simpl in H1, H2. subst output.
  destruct (uniq_fold (first :: more) seen current H2 Hcur) as (_ & H4 & H5 & _).
  split; [by apply normalized_firstn|]. split.
  - by apply prefix_firstn_mono.
  - rewrite length_take. lia.
Qed.

(** [applyUpdates] only appends to the three lists of the memory.  When
    each list is free of duplicates and of blank or untrimmed entries, as
    [readFromDisk] leaves it, so is the list after the update; its first 200
    entries stay where they were, new entries come after them; and the list
    has at most 200 entries, or no more than before. *)
Theorem applyUpdates_keeps_lists now updates m :
  normalized (projectRules m) →
  normalized (architectureNotes m) →
  normalized (commonCommands m) →
  keeps (projectRules m) (projectRules (applyUpdates now updates m).2)
  ∧ keeps (architectureNotes m) (architectureNotes (applyUpdates now updates m).2)
  ∧ keeps (commonCommands m) (commonCommands (applyUpdates now updates m).2).
Proof.
  intros Hrules Hnotes Hcommands.
  assert (Hsame : ∀ l, normalized l → keeps l l).
  { intros l Hl. split; [done|]. split; [|lia].
    rewrite <-(firstn_skipn 200 l) at 2. by apply prefix_app_r. }
  unfold applyUpdates. destruct updates as [u|]; simpl; [|by auto].
  repeat split; by apply mergeList_keeps.
Qed.

Lemma kvLookup_replace key k v kv :
  kvLookup key (kvReplace k v kv)
  = if String.eqb k key
    then match kvLookup k kv with Some _ => Some v | None => None end
    else kvLookup key kv.
Proof.
  induction kv as [|[k0 v0] kv IH]; simpl.
  { by destruct (String.eqb k key). }
  destruct (String.eqb_spec k0 k) as [->|Hk0]; simpl.
  - destruct (String.eqb_spec k key) as [->|Hk]; done.
  - destruct (String.eqb_spec k0 key) as [->|Hkey]; simpl.
    + by destruct (String.eqb_spec k key).
    + exact IH.
Qed.

Lemma kvLookup_app key k v kv :
  kvLookup key (kv ++ [(k, v)])
  = match kvLookup key kv with
    | Some x => Some x
    | None => if String.eqb k key then Some v else None
    end.
Proof.
  induction kv as [|[k0 v0] kv IH]; simpl; [done|].
  by destruct (String.eqb k0 key).
Qed.

Lemma kvLookup_define key k v kv :
  kvLookup key (kvDefine k v kv) = if String.eqb k key then Some v else kvLookup key kv.
Proof.
  unfold kvDefine. destruct (kvLookup k kv) as [x|] eqn:Hk.
  - rewrite kvLookup_replace, Hk. done.
  - rewrite kvLookup_app. destruct (String.eqb_spec k key) as [->|Hne].
    + by rewrite Hk.
    + by destruct (kvLookup key kv).
Qed.

Lemma kvReplace_keys k v kv : (kvReplace k v kv).*1 = kv.*1.
Proof.
  induction kv as [|[k0 v0] kv IH]; [done|]. cbn [kvReplace].
  destruct (String.eqb k0 k); [done|]. by rewrite !fmap_cons, IH.
Qed.

Lemma kvLookup_None key kv : kvLookup key kv = None ↔ key ∉ kv.*1.
Proof.
  induction kv as [|[k0 v0] kv IH]; simpl.
  { split; [by intros _ ?%elem_of_nil|done]. }
  rewrite not_elem_of_cons, <-IH.
  destruct (String.eqb_spec k0 key) as [->|Hne]; [by split; [|intros [? _]]|].
  split; [by split|by intros [_ ?]].
Qed.

Lemma fromEntries_keys entries : NoDup (fromEntries entries).*1.
Proof.
  unfold fromEntries.
  assert (∀ kv : list (string * string),
            NoDup kv.*1 →
            NoDup (fold_left (λ kv entry, kvDefine entry.1 entry.2 kv) entries kv).*1)
    as Hgen; [|apply Hgen; constructor].
  induction entries as [|[k v] entries IH]; intros kv Hkv; simpl; [done|].
  apply IH. unfold kvDefine. destruct (kvLookup k kv) eqn:Hk.
  - by rewrite kvReplace_keys.
  - rewrite fmap_app. simpl. apply NoDup_app. split; [done|].
    split; [|apply NoDup_singleton].
    intros x Hx ->%list_elem_of_singleton. by apply kvLookup_None in Hk.
Qed.

Lemma kvLookup_assign key k v kv :
  kvLookup key (kvAssign k v kv)
  = if String.eqb k key
    then (if String.eqb k "__proto__" && negb (bool_decide (is_Some (kvLookup k kv)))
          then None else Some v)
    else kvLookup key kv.
Proof.
  unfold kvAssign. destruct (kvLookup k kv) as [x|] eqn:Hk.
  - rewrite kvLookup_replace, Hk. rewrite bool_decide_true by (by eexists).
    by rewrite andb_false_r.
  - rewrite bool_decide_false by (by intros [? ?]). rewrite andb_true_r.
    destruct (String.eqb k "__proto__").
    + destruct (String.eqb_spec k key) as [->|Hne]; [done|done].
    + rewrite kvLookup_app. destruct (String.eqb_spec k key) as [->|Hne].
      * by rewrite Hk.
      * by destruct (kvLookup key kv).
Qed.

Lemma kvStep_fold entries kv changed key :
  NoDup entries.*1 →
  kvLookup key (fold_left kvStep entries (kv, changed)).1
  = match kvLookup key entries with
    | Some v =>
        if String.eqb key "__proto__" && negb (bool_decide (is_Some (kvLookup key kv)))
        then None else Some v
    | None => kvLookup key kv
    end.
Proof.
  revert kv changed. induction entries as [|[k v] entries IH]; intros kv changed Hnd.
  { done. }
  simpl in Hnd. apply NoDup_cons in Hnd as [Hk Hnd].
  cbn [fold_left]. unfold kvStep at 2. cbn [fst snd].
  case_bool_decide as Hsame.
  - rewrite IH by done. simpl. destruct (String.eqb_spec k key) as [->|Hne]; [|done].
    apply kvLookup_None in Hk. rewrite Hk, Hsame.
    rewrite bool_decide_true by (by eexists). by rewrite andb_false_r.
  - rewrite IH by done. simpl. rewrite !kvLookup_assign.
    destruct (String.eqb_spec k key) as [->|Hne].
    + apply kvLookup_None in Hk. rewrite Hk. done.
    + destruct (kvLookup key entries); [|done].
      destruct (String.eqb key "__proto__"); [|done]. done.
Qed.

(** The keyed memory after an update: a key of the update reads back the
    value given for it (the last one, if the update names it twice), and the
    other keys read as before.  The one exception is the key "__proto__":
    unless the memory already has it as a property of its own, nothing is
    stored for it. *)
Theorem applyUpdates_kv now u entries m key :
  ResponseParser.kv u = Some entries →
  kvLookup key (kv (applyUpdates now (Some u) m).2)
  = match kvLookup key (fromEntries entries) with
    | Some v =>
        if String.eqb key "__proto__" && negb (bool_decide (is_Some (kvLookup key (kv m))))
        then None else Some v
    | None => kvLookup key (kv m)
    end.
Proof.
  intros Hkv. unfold applyUpdates. simpl. rewrite Hkv.
  apply kvStep_fold, fromEntries_keys.
Qed.

Lemma kvStep_changed entries kv changed :
  changed `prefix_of` (fold_left kvStep entries (kv, changed)).2
  ∧ ((fold_left kvStep entries (kv, changed)).2 = changed →
     (fold_left kvStep entries (kv, changed)).1 = kv).
Proof.
  revert kv changed. induction entries as [|entry entries IH]; intros kv changed.
  { done. }
  cbn [fold_left]. unfold kvStep at 2 4 6. cbn [fst snd].
  case_bool_decide as Hsame; [apply IH|].
  destruct (IH (kvAssign entry.1 entry.2 kv) (changed ++ ["kv." +:+ entry.1]))
    as [Hprefix _].
  split.
  - etrans; [|exact Hprefix]. by apply prefix_app_r.
  - intros Heq. rewrite Heq in Hprefix. apply prefix_length in Hprefix.
    rewrite length_app in Hprefix. simpl in Hprefix. lia.
Qed.

(** An update that pushes no tag leaves the memory as it is, time stamp
    included (and nothing is written to disk); one that pushes a tag sets the
    time stamp. *)
Theorem applyUpdates_silent now updates m :
  ((applyUpdates now updates m).1 = [] → (applyUpdates now updates m).2 = m)
  ∧ ((applyUpdates now updates m).1 ≠ [] →
     updatedAt (applyUpdates now updates m).2 = now).
Proof.
  unfold applyUpdates. destruct updates as [u|]; simpl; [|by split].
  set (rules := mergeList "projectRules" _ _).
  set (notes := mergeList "architectureNotes" _ _).
  set (commands := mergeList "commonCommands" _ _).
  set (changed := tagList rules.2 ++ tagList notes.2 ++ tagList commands.2).
  set (keyed := match ResponseParser.kv u with
                | Some entries => fold_left kvStep (fromEntries entries) (kv m, changed)
                | None => (kv m, changed)
                end).
  assert (Hkeyed : changed `prefix_of` keyed.2 ∧ (keyed.2 = changed → keyed.1 = kv m)).
  { subst keyed. destruct (ResponseParser.kv u); [apply kvStep_changed|done]. }
  destruct Hkeyed as [Hprefix Hkv]. split.
  - intros Hnone. rewrite Hnone in *.
    apply prefix_nil_inv in Hprefix.
    assert (rules.2 = None ∧ notes.2 = None ∧ commands.2 = None) as (Hr & Hn & Hc).
    { subst changed. destruct rules.2, notes.2, commands.2; done. }
    assert (∀ name current update,
              (mergeList name current update).2 = None →
              (mergeList name current update).1 = current) as Hlist.
    { intros name current update. unfold mergeList.
      destruct update as [[|first more]|]; try done. by destruct (negb _). }
    assert (rules.1 = projectRules m) as -> by (by apply Hlist).
    assert (notes.1 = architectureNotes m) as -> by (by apply Hlist).
    assert (commands.1 = commonCommands m) as -> by (by apply Hlist).
    rewrite Hkv by done. by destruct m.
  - intros Hsome. by destruct keyed.2.
Qed.

End MemoryStoreFacts.

(** A memory with one rule and one key, and an update that repeats the
    rule with blanks around it, adds a rule and sets two keys. *)
Definition memoryBefore : Memory.ProjectMemory :=
  {| Memory.projectRules := ["use tabs"];
     Memory.architectureNotes := [];
     Memory.commonCommands := [];
     Memory.kv := [("stack", "node")];
     Memory.updatedAt := "2024-01-01T00:00:00.000Z" |}.

Definition memoryUpdate : ResponseParser.MemoryUpdates :=
  {| ResponseParser.projectRules := Some [" use tabs "; "prefer const"];
     ResponseParser.architectureNotes := None;
     ResponseParser.commonCommands := None;
     ResponseParser.kv := Some [("stack", "deno"); ("__proto__", "x")] |}.

Lemma applyUpdates_keeps_lists_witness :
  Memory.projectRules
    (MemoryStore.applyUpdates "2024-02-02T00:00:00.000Z" (Some memoryUpdate) memoryBefore).2
  = ["use tabs"; "prefer const"]
  ∧ MemoryStoreFacts.keeps (Memory.projectRules memoryBefore)
      (Memory.projectRules
         (MemoryStore.applyUpdates "2024-02-02T00:00:00.000Z" (Some memoryUpdate)
            memoryBefore).2).
Proof.
  split; [vm_compute; reflexivity|].
  apply (MemoryStoreFacts.applyUpdates_keeps_lists "2024-02-02T00:00:00.000Z"
           (Some memoryUpdate) memoryBefore).
  - split; [apply NoDup_singleton|]. repeat constructor. discriminate.
  - split; constructor.
  - split; constructor.
Defined.

Lemma applyUpdates_kv_witness :
  let after :=
    (MemoryStore.applyUpdates "2024-02-02T00:00:00.000Z" (Some memoryUpdate)
       memoryBefore).2 in
  MemoryStore.kvLookup "stack" (Memory.kv after) = Some "deno"
  ∧ MemoryStore.kvLookup "__proto__" (Memory.kv after) = None.
Proof.
  intros after. subst after. split.
  - rewrite (MemoryStoreFacts.applyUpdates_kv "2024-02-02T00:00:00.000Z" memoryUpdate
               [("stack", "deno"); ("__proto__", "x")] memoryBefore "stack" eq_refl).
    reflexivity.
  - rewrite (MemoryStoreFacts.applyUpdates_kv "2024-02-02T00:00:00.000Z" memoryUpdate
               [("stack", "deno"); ("__proto__", "x")] memoryBefore "__proto__" eq_refl).
    reflexivity.
Defined.

(** ** Queries on the project index *)

Module ScannerQueriesFacts.
Import Scanner ScannerQueries.

Lemma languageEqb_eq a b : languageEqb a b = true ↔ a = b.
Proof. destruct a, b; simpl; split; congruence. Qed.

Lemma limitValue_range value fallback :
  (0 ≤ fallback ≤ 2000)%Z → (0 ≤ limitValue value fallback ≤ 2000)%Z.
Proof.
  intros Hf. unfold limitValue. destruct value as [[q|]|]; try done.
  destruct (Qle_bool q 0) eqn:Hq; [done|].
  assert (0 ≤ Qfloor q)%Z; [|lia].
  change 0%Z with (Qfloor 0). apply Qfloor_resp_le.
  destruct (Qlt_le_dec 0 q) as [Hlt|Hle]; [by apply Qlt_le_weak|].
  apply Qle_bool_iff in Hle. congruence.
Qed.

Lemma sliceTo_length {A} n (l : list A) :
  (0 ≤ n ≤ 2000)%Z → length (sliceTo n l) ≤ 2000.
Proof.
  intros Hn. unfold sliceTo. destruct (0 <=? n)%Z eqn:H0; [|lia].
  rewrite length_take. lia.
Qed.

Lemma sliceTo_prefix {A} n (l : list A) : (0 ≤ n)%Z → sliceTo n l `prefix_of` l.
Proof.
  intros Hn. unfold sliceTo. destruct (0 <=? n)%Z eqn:H0; [|lia].
  rewrite <-(firstn_skipn (Z.to_nat n) l) at 2. by apply prefix_app_r.
Qed.

Lemma sliceTo_all {A} n (l : list A) : (Z.of_nat (length l) ≤ n)%Z → sliceTo n l = l.
Proof.
  intros Hn. unfold sliceTo. destruct (0 <=? n)%Z eqn:H0; [|lia].
  apply firstn_all2. lia.
Qed.

Lemma includes_refl s : JS.includes s s = true.
Proof.
  destruct s as [|c s]; [done|]. cbn [JS.includes]. by rewrite JSFacts.sprefix_refl.
Qed.

Lemma filter_split {A} (f g : A → bool) l :
  List.filter (λ x, f x && g x) l ++ List.filter (λ x, f x && negb (g x)) l
  ≡ₚ List.filter f l.
Proof.
  induction l as [|x l IH]; [done|]. simpl.
  destruct (f x), (g x); simpl; try done.
  - by rewrite IH.
  - rewrite <-Permutation_middle. by rewrite IH.
Qed.

Lemma filter_filter {A} (f g : A → bool) l :
  List.filter f (List.filter g l) = List.filter (λ x, g x && f x) l.
Proof.
  induction l as [|x l IH]; [done|]. simpl.
  destruct (g x); simpl; [|done]. destruct (f x); by rewrite IH.
Qed.

(** Whether a symbol passes the language filter of a query. *)
Definition languagePasses (language : option string) (l : SupportedLanguage) : bool :=
  match normalizeLanguage language with
  | Some wanted => languageEqb l wanted
  | None => true
  end.

(** Whether the name of a symbol matches a query: the name contains the
    trimmed query, letter case apart. *)
Definition nameMatches (query : string) (symbol : SymbolEntry) : bool :=
  JS.includes (JS.toLowerCase (sym_name symbol)) (JS.toLowerCase (JS.trim query)).

Definition exactly (query : string) (symbol : SymbolEntry) : bool :=
  String.eqb (JS.toLowerCase (sym_name symbol)) (JS.toLowerCase (JS.trim query)).

Lemma lookupSymbols_unfold index query language limit :
  lookupSymbols index query language limit
  = sliceTo (limitValue limit 80)
      (List.filter (exactly query)
         (List.filter (λ s, languagePasses language (sym_language s)) (symbols index))
       ++ List.filter (λ s, nameMatches query s && negb (exactly query s))
            (List.filter (λ s, languagePasses language (sym_language s))
               (symbols index))).
Proof.
  unfold lookupSymbols, languagePasses.
  destruct (normalizeLanguage language); [done|].
  assert (List.filter (λ _ : SymbolEntry, true) (symbols index) = symbols index) as ->;
    [|done].
  induction (symbols index) as [|x l IH]; [done|]. simpl. by rewrite IH.
Qed.

(** [lookupSymbols] returns at most 2000 symbols of the index, each passing
    the language filter and with a name that contains the trimmed query,
    letter case apart; the symbols whose name is the query come before the
    others; and when the limit is not reached, the result holds every such
    symbol of the index once.  A language that is not recognised filters
    nothing. *)
Theorem lookupSymbols_spec index query language limit :
  let found := lookupSymbols index query language limit in
  let wanted symbol :=
    languagePasses language (sym_language symbol) && nameMatches query symbol in
  length found ≤ 2000
  ∧ Forall (λ symbol, symbol ∈ symbols index ∧ wanted symbol = true) found
  ∧ (∀ i j a b, i < j → found !! i = Some a → found !! j = Some b →
       exactly query b = true → exactly query a = true)
  ∧ ((Z.of_nat (length (List.filter wanted (symbols index))) ≤ limitValue limit 80)%Z →
     found ≡ₚ List.filter wanted (symbols index))
  ∧ (normalizeLanguage language = None →
     found = lookupSymbols index query None limit).
Proof.
  intros found wanted. subst found. rewrite lookupSymbols_unfold.
  set (inLanguage := List.filter (λ s, languagePasses language (sym_language s))
                       (symbols index)).
  set (merged := List.filter (exactly query) inLanguage ++ _).
  pose proof (limitValue_range limit 80 ltac:(lia)) as Hlimit.
  assert (Hexact : ∀ s, exactly query s = true → nameMatches query s = true).
  { intros s Hs. unfold exactly, nameMatches in *. apply String.eqb_eq in Hs.
    rewrite Hs. apply includes_refl. }
  assert (Hmerged : merged ≡ₚ List.filter wanted (symbols index)).
  { subst merged inLanguage wanted.
    rewrite <-(filter_split (λ s, languagePasses language (sym_language s)
                                  && nameMatches query s) (exactly query)).
    rewrite !filter_filter. apply Permutation_app; [|apply Permutation_refl'].
    - apply Permutation_refl'. apply filter_ext. intros s.
      destruct (languagePasses language (sym_language s)); simpl; [|done].
      destruct (exactly query s) eqn:Hs; [|by rewrite andb_false_r].
      by rewrite (Hexact s Hs).
    - apply filter_ext. intros s. by rewrite andb_assoc. }
  split; [apply sliceTo_length; lia|]. split; [|split; [|split]].
  - apply Forall_forall. intros s Hs.
    apply (λ H, elem_of_prefix _ merged _ H (sliceTo_prefix _ merged (proj1 Hlimit))) in Hs.
    rewrite Hmerged in Hs. apply list_elem_of_In, filter_In in Hs as [Hin Hw].
    split; [by apply list_elem_of_In|done].
  - intros i j a b Hij Ha Hb Hbexact.
    destruct (sliceTo_prefix (limitValue limit 80) merged (proj1 Hlimit)) as [rest Hrest].
    assert (merged !! i = Some a) as Hia.
    { eapply prefix_lookup_Some; [exact Ha|]. by exists rest. }
    assert (merged !! j = Some b) as Hjb.
    { eapply prefix_lookup_Some; [exact Hb|]. by exists rest. }
    subst merged.
    destruct (decide (i < length (List.filter (exactly query) inLanguage))) as [Hi|Hi].
    + rewrite lookup_app_l in Hia by done.
      apply list_elem_of_lookup_2, list_elem_of_In, filter_In in Hia. by destruct Hia.
    + rewrite lookup_app_r in Hjb by lia.
      apply list_elem_of_lookup_2, list_elem_of_In, filter_In in Hjb as [_ Hjb].
      rewrite Hbexact in Hjb. by rewrite andb_false_r in Hjb.
  - intros Hall. rewrite sliceTo_all; [done|]. by rewrite Hmerged.
  - intros Hnone. rewrite lookupSymbols_unfold. subst merged inLanguage.
    unfold languagePasses. rewrite Hnone. done.
Qed.

(** [findReferences] returns at most 2000 uses of the index, in the order
    of the index, each of the name that is the trimmed symbol, letter for
    letter, and passing the language filter. *)
Theorem findReferences_spec index symbol language limit :
  let found := findReferences index symbol language limit in
  length found ≤ 2000
  ∧ found `sublist_of` uses index
  ∧ Forall (λ entry, use_name entry = JS.trim symbol
                     ∧ languagePasses language (use_language entry) = true) found.
Proof.
  intros found. subst found. unfold findReferences.
  pose proof (limitValue_range limit 120 ltac:(lia)) as Hlimit.
  set (named := List.filter (λ entry, String.eqb (use_name entry) (JS.trim symbol))
                  (uses index)).
  set (filtered := match normalizeLanguage language with
                   | Some wanted => List.filter _ named
                   | None => named
                   end).
  assert (Hfiltered : filtered
                      = List.filter (λ entry, languagePasses language (use_language entry))
                          named).
  { subst filtered. unfold languagePasses. destruct (normalizeLanguage language); [done|].
    clear. induction named as [|x l IH]; [done|]. simpl. by rewrite <-IH. }
  assert (Hsub : ∀ {A} (f : A → bool) l, List.filter f l `sublist_of` l).
  { intros A f l. induction l as [|x l IH]; [done|]. simpl.
    destruct (f x); [by apply sublist_skip|by apply sublist_cons]. }
  split; [apply sliceTo_length; lia|]. split.
  - etrans.
    { unfold sliceTo. destruct (0 <=? limitValue limit 120)%Z; apply sublist_take. }
    rewrite Hfiltered. etrans; [apply Hsub|]. apply Hsub.
  - apply Forall_forall. intros entry Hin.
    apply (λ H, elem_of_prefix _ filtered _ H (sliceTo_prefix _ filtered (proj1 Hlimit))) in Hin.
    rewrite Hfiltered in Hin.
    apply list_elem_of_In, filter_In in Hin as [Hin Hlang].
    apply filter_In in Hin as [_ Hname]. by apply String.eqb_eq in Hname.
Qed.

End ScannerQueriesFacts.

(** ** Text helpers: clipping and line numbers *)

From Stdlib Require DecimalFacts DecimalPos.

Module TextFacts.
Import JSFacts Strings.

Lemma uint_length d :
  String.length (NilEmpty.string_of_uint d) = Decimal.nb_digits d.
Proof. induction d; simpl; congruence. Qed.

Lemma uint_noNewline d : noChar (ascii_of_nat 10) (NilEmpty.string_of_uint d).
Proof. induction d; simpl; try done; by split. Qed.

Lemma numberText_noNewline z : noChar (ascii_of_nat 10) (numberText z).
Proof.
  unfold numberText, Orchestrator.zToString.
  destruct z as [|p|p]; cbn [Z.to_int NilEmpty.string_of_int].
  - apply uint_noNewline.
  - apply uint_noNewline.
  - split; [done|apply uint_noNewline].
Qed.

Lemma numberText_nonneg z :
  (0 ≤ z)%Z →
  numberText z
  = NilEmpty.string_of_uint (Decimal.rev (DecimalPos.Unsigned.to_lu (Z.to_N z))).
Proof. by destruct z. Qed.

Lemma succ_digits d : Decimal.nb_digits d ≤ Decimal.nb_digits (Decimal.Little.succ d).
Proof. induction d; simpl; lia. Qed.

Lemma digits_mono (n m : N) :
  (n ≤ m)%N →
  Decimal.nb_digits (DecimalPos.Unsigned.to_lu n)
  ≤ Decimal.nb_digits (DecimalPos.Unsigned.to_lu m).
Proof.
  induction m as [|m IH] using N.peano_ind; intros Hle.
  - by replace n with 0%N by lia.
  - destruct (decide (n = N.succ m)) as [->|Hne]; [done|].
    rewrite DecimalPos.Unsigned.to_lu_succ.
    etrans; [apply IH; lia | apply succ_digits].
Qed.

(** Printing a larger non-negative integer never takes fewer characters. *)
Lemma numberText_length_mono a b :
  (0 ≤ a ≤ b)%Z →
  String.length (numberText a) ≤ String.length (numberText b).
Proof.
  intros Hab. rewrite !numberText_nonneg by lia.
  rewrite !uint_length, !DecimalFacts.nb_digits_rev. apply digits_mono. lia.
Qed.

Lemma noChar_app c s t : noChar c (s +:+ t) ↔ noChar c s ∧ noChar c t.
Proof. induction s as [|a s IH]; simpl; [tauto|]. rewrite IH. tauto. Qed.

Lemma noChar_take c n s : noChar c s → noChar c (JS.take n s).
Proof.
  revert n. induction s as [|a s IH]; intros [|n]; simpl; try done.
  intros [? ?]. split; [done|by apply IH].
Qed.

Lemma spaces_length n : String.length (spaces n) = n.
Proof. induction n; simpl; congruence. Qed.

Lemma spaces_noNewline n : noChar (ascii_of_nat 10) (spaces n).
Proof. induction n; simpl; [done|]. by split. Qed.

Lemma padStart_length width s :
  String.length s ≤ width → String.length (padStart width s) = width.
Proof. intros Hle. unfold padStart. rewrite slength_app, spaces_length. lia. Qed.

(** Joining parts that hold no separator and splitting again gives the
    parts back, and joining the parts of a split gives the text back. *)
Lemma split_join_char c parts :
  parts ≠ [] → Forall (noChar c) parts →
  JS.split c (JS.join (String c "") parts) = parts.
Proof.
  induction parts as [|part parts IH]; [done|]. intros _ Hall.
  inversion_clear Hall as [|? ? Hpart Hparts].
  destruct parts as [|next parts].
  - simpl. by apply split_noChar.
  - change (JS.join (String c "") (part :: next :: parts))
      with (part +:+ String c (JS.join (String c "") (next :: parts))).
    rewrite split_app, IH by done. by rewrite split_noChar.
Qed.

Lemma split_join lines :
  lines ≠ [] → Forall (noChar (ascii_of_nat 10)) lines →
  JS.split (ascii_of_nat 10) (JS.join newline lines) = lines.
Proof. apply split_join_char. Qed.

Lemma join_split c s : JS.join (String c "") (JS.split c s) = s.
Proof.
  induction s as [|a s IH]; [done|]. simpl.
  pose proof (split_nonnil c s) as Hne.
  destruct (Ascii.eqb_spec a c) as [->|Hac].
  - destruct (JS.split c s) as [|h t]; [done|].
    change (JS.join (String c "") ("" :: h :: t))
      with ("" +:+ String c (JS.join (String c "") (h :: t))).
    by rewrite IH.
  - destruct (JS.split c s) as [|h t]; [done|].
    destruct t as [|h' t]; simpl in *; by rewrite <-IH.
Qed.

(** The length of the marker line of [clipText] without its number:
    the newline, "...[truncated " and " chars]". *)
Definition markerChars : nat := 22.

(** [clipText] returns a text within the limit unchanged.  A longer text
    keeps its first [maxChars] characters and gets a marker line, so the
    result is longer than the limit: by 22 characters and the digits of the
    number of characters cut. *)
Theorem clipText_spec input maxChars :
  (0 ≤ maxChars)%Z →
  let result := clipText input maxChars in
  let cut := (Z.of_nat (String.length input) - maxChars)%Z in
  ((cut ≤ 0)%Z → result = input)
  ∧ ((0 < cut)%Z →
     JS.take (Z.to_nat maxChars) result = JS.take (Z.to_nat maxChars) input
     ∧ String.length result
       = Z.to_nat maxChars + markerChars + String.length (numberText cut)).
Proof.
  intros Hmax result cut. subst result cut. unfold clipText. split; intros Hcut.
  - by rewrite (proj2 (Z.leb_le _ _)) by lia.
  - rewrite (proj2 (Z.leb_gt _ _)) by lia.
    unfold sliceTo. rewrite (proj2 (Z.leb_le _ _)) by lia. split.
    + rewrite stake_app_l by (rewrite slength_take; lia).
      apply stake_all. rewrite slength_take. lia.
    + rewrite !slength_app, slength_take. unfold markerChars. simpl. lia.
Qed.

(** The numbered text for a whole start line, with exact sums and decimal
    numerals. *)
Definition numbered (text : string) (startLine : Z) : string :=
  let lines := JS.split (ascii_of_nat 10) text in
  let width := String.length (numberText (startLine + Z.of_nat (length lines))) in
  JS.join newline
    (imap (λ index line,
             padStart width (numberText (startLine + Z.of_nat index)) +:+ "| " +:+ line)
       lines).

(** The sums of a whole number and an index up to [count] are exact, and
    their texts are the decimal numerals: so it is for the doubles up to
    2^53. *)
Definition wholeLines (plus : Json.number → nat → Json.number)
    (numberToString : Json.number → string) (startLine : Z) (count : nat) : Prop :=
  ∀ n, n ≤ count →
    plus (FileSegments.whole startLine) n = FileSegments.whole (startLine + Z.of_nat n)
    ∧ numberToString (FileSegments.whole (startLine + Z.of_nat n))
      = numberText (startLine + Z.of_nat n).

Lemma withLineNumbers_whole plus numberToString text startLine :
  wholeLines plus numberToString startLine (length (JS.split (ascii_of_nat 10) text)) →
  withLineNumbers plus numberToString text (FileSegments.whole startLine)
  = numbered text startLine.
Proof.
  intros Hwhole. unfold withLineNumbers, numbered.
  destruct (Hwhole _ (Nat.le_refl _)) as [-> ->]. f_equal.
  apply imap_ext. intros index line Hline.
  destruct (Hwhole index) as [-> ->]; [|done].
  apply lookup_lt_Some in Hline. lia.
Qed.

Lemma numbered_split text startLine :
  let lines := JS.split (ascii_of_nat 10) text in
  let width := String.length (numberText (startLine + Z.of_nat (length lines))) in
  JS.split (ascii_of_nat 10) (numbered text startLine)
  = imap (λ index line,
            padStart width (numberText (startLine + Z.of_nat index)) +:+ "| " +:+ line)
      lines.
Proof.
  intros lines width.
  unfold numbered. fold lines. fold width. apply split_join.
  - intros Hnil. apply (f_equal length) in Hnil. rewrite length_imap in Hnil.
    pose proof (split_nonnil (ascii_of_nat 10) text) as Hsplit. fold lines in Hsplit.
    by destruct lines.
  - apply Forall_forall. intros shown Hshown.
    apply elem_of_lookup_imap_1 in Hshown as (index & line & -> & Hline).
    unfold padStart. rewrite !noChar_app. repeat split; try done.
    + apply spaces_noNewline.
    + apply numberText_noNewline.
    + pose proof (split_Forall_noChar (ascii_of_nat 10) text) as Hall.
      rewrite Forall_forall in Hall. apply Hall.
      by apply (list_elem_of_lookup_2 _ index).
Qed.

(** The lines of [withLineNumbers], for a start line that is a whole
    number, not negative, such that the sums with the indices up to the
    number of lines are exact and print as decimal numerals: one per line
    of the text, made of a gutter, "| " and the line; the gutter of the line
    at index [i] is the number [startLine + i] padded on the left, and all
    gutters have the same length. *)
Theorem withLineNumbers_lines plus numberToString text startLine :
  (0 ≤ startLine)%Z →
  let lines := JS.split (ascii_of_nat 10) text in
  wholeLines plus numberToString startLine (length lines) →
  let width := String.length (numberText (startLine + Z.of_nat (length lines))) in
  let gutter index := padStart width (numberText (startLine + Z.of_nat index)) in
  JS.split (ascii_of_nat 10)
    (withLineNumbers plus numberToString text (FileSegments.whole startLine))
  = imap (λ index line, gutter index +:+ "| " +:+ line) lines
  ∧ ∀ index, index < length lines → String.length (gutter index) = width.
Proof.
  intros Hstart lines Hwhole width gutter. split.
  - rewrite withLineNumbers_whole by done. apply numbered_split.
  - intros index Hindex. apply padStart_length, numberText_length_mono. lia.
Qed.

End TextFacts.

(** [clipText] on a text of ten characters and a limit of four. *)
Lemma clipText_spec_witness :
  Strings.clipText "0123456789" 4 = "0123" +:+ Strings.newline +:+ "...[truncated 6 chars]"
  ∧ String.length (Strings.clipText "0123456789" 4) = 27.
Proof.
  split; [reflexivity|].
  destruct (TextFacts.clipText_spec "0123456789" 4 ltac:(lia)) as [_ H].
  destruct (H ltac:(simpl; lia)) as [_ ->]. reflexivity.
Defined.

(** Sums and numerals on the whole numbers, for the examples. *)
Definition wholePlus (x : Json.number) (n : nat) : Json.number :=
  match x with
  | Json.Finite q => FileSegments.whole (Qfloor q + Z.of_nat n)
  | Json.Infinite _ => x
  end.

Definition wholeText (x : Json.number) : string :=
  match x with
  | Json.Finite q => Strings.numberText (Qfloor q)
  | Json.Infinite negative => if negative then "-Infinity" else "Infinity"
  end.

Lemma wholeLines_whole startLine count :
  TextFacts.wholeLines wholePlus wholeText startLine count.
Proof.
  intros n _. unfold wholePlus, wholeText, FileSegments.whole.
  by rewrite !Qfloor_Z.
Qed.

(** [withLineNumbers] on three lines starting at line 9. *)
Lemma withLineNumbers_lines_witness :
  JS.split (ascii_of_nat 10)
    (Strings.withLineNumbers wholePlus wholeText
       ("a" +:+ Strings.newline +:+ "b" +:+ Strings.newline +:+ "c")
       (FileSegments.whole 9))
  = [" 9| a"; "10| b"; "11| c"].
Proof.
  destruct (TextFacts.withLineNumbers_lines wholePlus wholeText
              ("a" +:+ Strings.newline +:+ "b" +:+ Strings.newline +:+ "c") 9
              ltac:(lia) (wholeLines_whole 9 _)) as [-> _].
  reflexivity.
Defined.

(** ** Reading a file segment *)

Module FileSegmentsFacts.
Import JSFacts Strings FileTools FileSegments Orchestrator.

Lemma stripCR_noNewline s :
  noChar (ascii_of_nat 10) s → noChar (ascii_of_nat 10) (Grep.stripCR s).
Proof.
  intros Hs. unfold Grep.stripCR.
  destruct (JS.endsWith _ _); [by apply TextFacts.noChar_take | done].
Qed.

Lemma splitLines_noNewline raw :
  Forall (noChar (ascii_of_nat 10)) (Grep.splitLines raw).
Proof.
  unfold Grep.splitLines.
  pose proof (split_Forall_noChar (ascii_of_nat 10) raw) as Hall.
  pose proof (split_nonnil (ascii_of_nat 10) raw) as Hne.
  destruct (exists_last Hne) as (front & final & Hsplit).
  rewrite Hsplit in *. rewrite removelast_last, last_last.
  apply Forall_app in Hall as [Hfront Hfinal].
  apply Forall_app. split; [|done].
  apply Forall_fmap. eapply Forall_impl; [exact Hfront|].
  intros s Hs. by apply stripCR_noNewline.
Qed.

Lemma Qle_bool_whole a b : Qle_bool (inject_Z a) (inject_Z b) = (a <=? b)%Z.
Proof. unfold Qle_bool. simpl. by rewrite !Z.mul_1_r. Qed.

Lemma atLeastOne_whole z : atLeastOne (whole z) = whole (Z.max 1 z).
Proof.
  unfold atLeastOne, whole. change 1%Q with (inject_Z 1). rewrite Qle_bool_whole.
  destruct (Z.leb_spec z 1); f_equal; f_equal; lia.
Qed.

Lemma atMost_whole n z : atMost n (whole z) = whole (Z.min (Z.of_nat n) z).
Proof.
  unfold atMost, whole. rewrite Qle_bool_whole.
  destruct (Z.leb_spec (Z.of_nat n) z); f_equal; f_equal; lia.
Qed.

Lemma truncate_whole z : truncate (inject_Z z) = z.
Proof.
  unfold truncate. destruct (Qle_bool 0 (inject_Z z)).
  - apply Qfloor_Z.
  - apply Qceiling_Z.
Qed.

Lemma sliceIndex_whole len z :
  (0 ≤ z ≤ Z.of_nat len)%Z → sliceIndex len (whole z) = Z.to_nat z.
Proof.
  intros Hz. unfold sliceIndex, whole. rewrite truncate_whole.
  rewrite (proj2 (Z.ltb_ge _ _)) by lia. f_equal. lia.
Qed.

Lemma sliceIndex_minusOne len z :
  (1 ≤ z ≤ Z.of_nat len + 1)%Z → sliceIndex len (minusOne (whole z)) = Z.to_nat (z - 1).
Proof.
  intros Hz. unfold sliceIndex, minusOne, whole.
  assert (Htruncate : truncate (inject_Z z - 1) = (z - 1)%Z).
  { rewrite <-(truncate_whole (z - 1)). unfold truncate.
    assert (Heq : (inject_Z z - 1 == inject_Z (z - 1))%Q).
    { unfold Qeq. simpl. lia. }
    rewrite (Qfloor_comp _ _ Heq), (Qceiling_comp _ _ Heq).
    assert (Qle_bool 0 (inject_Z z - 1) = Qle_bool 0 (inject_Z (z - 1))) as ->; [|done].
    unfold Qle_bool. simpl. f_equal. lia. }
  rewrite Htruncate. rewrite (proj2 (Z.ltb_ge _ _)) by lia. f_equal. lia.
Qed.

Lemma startLine_whole startLine0 :
  atLeastOne (default (whole 1) (whole <$> startLine0))
  = whole (Z.max 1 (default 1%Z startLine0)).
Proof. destruct startLine0 as [z|]; [apply atLeastOne_whole | apply (atLeastOne_whole 1)]. Qed.

Lemma endLine_whole n endLine0 :
  atMost n (default (whole (Z.of_nat n)) (whole <$> endLine0))
  = whole (Z.min (Z.of_nat n) (default (Z.of_nat n) endLine0)).
Proof. destruct endLine0 as [z|]; apply atMost_whole. Qed.

(** The selected lines, for whole line numbers within the file. *)
Lemma sliceList_range {A} (first last : Z) (l : list A) :
  (1 ≤ first)%Z → (first ≤ last)%Z → (last ≤ Z.of_nat (length l))%Z →
  sliceList (minusOne (whole first)) (whole last) l
  = take (Z.to_nat (last - first + 1)) (drop (Z.to_nat (first - 1)) l).
Proof.
  intros H1 H2 H3. unfold sliceList.
  rewrite sliceIndex_minusOne, sliceIndex_whole by lia. f_equal. lia.
Qed.

(** The [read_file] tool shows the selected lines with their numbers, for
    line numbers that are whole numbers whose sums with the indices are
    exact and print as decimal numerals.  When the path resolves to a file
    that can be read, the range from [max 1 startLine] to
    [min lines endLine] is not empty and the selected text fits in
    [maxToolOutputChars], the result names the range in its summary and its
    content has one line for each number of the range: the number, padded on
    the left to one common width, "| ", and the line of the file with that
    number. *)
Theorem read_file_numbers_lines plus numberToString (cwd : Process) fs config filePath
    startLine0 endLine0 absolutePath bytes :
  PathSandbox.resolveWorkspacePath cwd (workspaceRoot config) filePath
  = inr absolutePath →
  ioError cwd IoRead absolutePath fs = None →
  fs !! absolutePath = Some bytes →
  let lines := Grep.splitLines (utf8Decode cwd bytes) in
  let first := Z.max 1 (default 1%Z startLine0) in
  let last :=
    Z.min (Z.of_nat (length lines)) (default (Z.of_nat (length lines)) endLine0) in
  let selected :=
    take (Z.to_nat (last - first + 1)) (drop (Z.to_nat (first - 1)) lines) in
  let relative := toWorkspaceRelativePath cwd (workspaceRoot config) absolutePath in
  let width := String.length (numberText (last + 1)) in
  (first ≤ last)%Z →
  TextFacts.wholeLines plus numberToString first (length selected) →
  (Z.of_nat (String.length (JS.join newline selected)) ≤ maxToolOutputChars config)%Z →
  ∃ shown,
    readFileTool plus numberToString cwd fs config filePath
      (whole <$> startLine0) (whole <$> endLine0)
    = inr ("Read " +:+ relative +:+ ":" +:+ numberText first +:+ "-"
           +:+ numberText last, relative, shown)
    ∧ JS.split (ascii_of_nat 10) shown
      = (λ number,
           padStart width (numberText number) +:+ "| "
           +:+ default "" (lines !! Z.to_nat (number - 1)))
        <$> seqZ first (last - first + 1)
    ∧ ∀ number, (first ≤ number ≤ last)%Z →
        String.length (padStart width (numberText number)) = width.
Proof.
  intros Hresolve Hread Hfile lines first last selected relative width
    Hrange Hwhole Hfits.
  assert (1 ≤ first)%Z as Hfirst by (subst first; lia).
  assert (last ≤ Z.of_nat (length lines))%Z as Hlast by (subst last; lia).
  assert (length selected = Z.to_nat (last - first + 1)) as Hlength.
  { subst selected. rewrite length_take, length_drop. lia. }
  assert (Forall (noChar (ascii_of_nat 10)) selected) as Hclean.
  { subst selected. apply Forall_take, Forall_drop, splitLines_noNewline. }
  assert (JS.split (ascii_of_nat 10) (JS.join newline selected) = selected)
    as Hsplit.
  { apply TextFacts.split_join; [|done]. intros Hnil. rewrite Hnil in Hlength.
    simpl in Hlength. lia. }
  assert (Hstart : atLeastOne (default (whole 1) (whole <$> startLine0)) = whole first)
    by apply startLine_whole.
  assert (Hend : atMost (length lines)
                   (default (whole (Z.of_nat (length lines))) (whole <$> endLine0))
                 = whole last)
    by apply endLine_whole.
  assert (Hwhole' : TextFacts.wholeLines plus numberToString first
                      (length (JS.split (ascii_of_nat 10) (JS.join newline selected)))).
  { by rewrite Hsplit. }
  exists (TextFacts.numbered (JS.join newline selected) first).
  subst width. split; [|split].
  - unfold readFileTool, readFileSegment. rewrite Hresolve, Hread, Hfile.
    fold lines. rewrite Hstart, Hend.
    rewrite sliceList_range by done. fold selected.
    cbn [default path startLine endLine content].
    fold relative.
    unfold clipText. rewrite (proj2 (Z.leb_le _ _)) by done.
    rewrite TextFacts.withLineNumbers_whole by done.
    destruct (Hwhole 0 ltac:(lia)) as [_ Hfirst'].
    destruct (Hwhole (length selected) ltac:(lia)) as [_ Hlast'].
    (* the numerals of the first and the last line *)
    assert (numberToString (whole first) = numberText first) as ->.
    { by rewrite Z.add_0_r in Hfirst'. }
    assert (numberToString (whole last) = numberText last) as ->; [|done].
    destruct (Hwhole (length selected - 1) ltac:(lia)) as [_ H].
    replace (first + Z.of_nat (length selected - 1))%Z with last in H by lia.
    done.
  - rewrite TextFacts.numbered_split, Hsplit, Hlength.
    replace (first + Z.of_nat (Z.to_nat (last - first + 1)))%Z
      with (last + 1)%Z by lia.
    apply list_eq. intros index.
    rewrite list_lookup_imap, list_lookup_fmap.
    destruct (decide (index < Z.to_nat (last - first + 1))) as [Hin|Hout].
    + rewrite lookup_seqZ_lt by lia.
      subst selected. rewrite lookup_take, decide_True, lookup_drop by done.
      cbn [fmap option_fmap option_map].
      replace (Z.to_nat (first + Z.of_nat index - 1))
        with (Z.to_nat (first - 1) + index) by lia.
      destruct (lookup_lt_is_Some_2 lines (Z.to_nat (first - 1) + index))
        as [line Hline]; [lia|].
      by rewrite Hline.
    + rewrite lookup_seqZ_ge by lia.
      by rewrite (lookup_ge_None_2 selected index) by lia.
  - intros number Hnumber.
    apply TextFacts.padStart_length, TextFacts.numberText_length_mono. lia.
Qed.

End FileSegmentsFacts.

(** Reading lines 9 to 10 of a file of ten lines. *)
Definition notesText : string :=
  JS.join Strings.newline ["a"; "b"; "c"; "d"; "e"; "f"; "g"; "h"; "i"; "j"].

Lemma read_file_numbers_lines_witness :
  ∃ shown,
    FileSegments.readFileTool wholePlus wholeText "/"
      {[ "/ws/notes.txt" := notesText ]} demoConfig
      "./notes.txt" (Some (FileSegments.whole 9)) None
    = inr ("Read notes.txt:9-10", "notes.txt", shown)
    ∧ JS.split (ascii_of_nat 10) shown = [" 9| i"; "10| j"].
Proof.
  destruct (FileSegmentsFacts.read_file_numbers_lines wholePlus wholeText "/"
              {[ "/ws/notes.txt" := notesText ]} demoConfig "./notes.txt"
              (Some 9%Z) None "/ws/notes.txt" notesText eq_refl eq_refl
              ltac:(by vm_compute) ltac:(by vm_compute) (wholeLines_whole _ _)
              ltac:(by vm_compute))
    as (shown & Hresult & Hlines & _).
  exists shown. split; [exact Hresult|]. rewrite Hlines. reflexivity.
Defined.

(** ** Workspace-relative paths *)

Module WorkspacePathFacts.
Import JSFacts PathSandbox PathSandboxFacts FileSegments.

Lemma relativeSegments_extends R rest : relativeSegments R (R ++ rest) = rest.
Proof.
  induction R as [|seg R IH]; simpl; [by destruct rest|].
  by rewrite String.eqb_refl.
Qed.

(** A path returned by [resolveWorkspacePath] is canonical and extends the
    resolved root. *)
Lemma path_resolve_posix (cwd : string) args :
  posix_resolve cwd args = path_resolve cwd args.
Proof. reflexivity. Qed.

Lemma resolved_inside (cwd : string) workspaceRoot userPath absolutePath :
  JS.startsWith cwd "/" = true →
  resolveWorkspacePath cwd workspaceRoot userPath = inr absolutePath →
  ∃ R rest,
    Forall properSeg R ∧ Forall properSeg rest
    ∧ path_resolve cwd [workspaceRoot] = absPath R
    ∧ absolutePath = absPath (R ++ rest).
Proof.
  intros Hcwd Hresolve.
  destruct (path_resolve_canonical cwd [workspaceRoot] Hcwd) as (R & HR & Hroot).
  destruct (path_resolve_canonical cwd [path_resolve cwd [workspaceRoot]; userPath]
              Hcwd) as (C & HC & Hcand).
  unfold resolveWorkspacePath, normalizeForComparison, path_sep in Hresolve.
  cbn [platform Host.posix] in Hresolve.
  rewrite Hcand in Hresolve. rewrite Hroot in Hresolve.
  rewrite !path_resolve_idem in Hresolve by done.
  destruct (String.eqb_spec (absPath C) (absPath R)) as [Heq|Hne];
    cbn [negb andb] in Hresolve.
  { injection Hresolve as <-. exists R, []. rewrite app_nil_r. by repeat split. }
  set (rootPrefix := if JS.endsWith (absPath R) "/" then absPath R
                     else absPath R +:+ "/") in Hresolve.
  destruct (JS.startsWith (absPath C) rootPrefix) eqn:Hstarts;
    cbn [negb] in Hresolve; [|done].
  injection Hresolve as <-.
  apply sprefix_split in Hstarts as [t Ht].
  destruct (inside_decompose R C rootPrefix t) as (rest & _ & ->); try done.
  { subst rootPrefix. destruct (JS.endsWith (absPath R) "/") eqn:Hends; [|by left].
    right. apply endsWith_split in Hends as [r Hr]. eauto. }
  apply Forall_app in HC as [_ Hrest]. exists R, rest. by repeat split.
Qed.

Lemma join_proper_head rest :
  Forall properSeg rest → rest ≠ [] →
  ∃ c tail, JS.join "/" rest = String c tail ∧ c ≠ "/"%char.
Proof.
  intros Hall Hne. destruct rest as [|seg rest]; [done|].
  inversion_clear Hall as [|? ? (Hseg & _ & _ & Hno) _].
  destruct seg as [|c seg]; [done|]. destruct Hno as [Hc _].
  destruct rest; simpl; eauto.
Qed.

(** Resolving the joined components against a canonical root appends
    them. *)
Lemma candidate_below (cwd : string) R rest :
  Forall properSeg R → Forall properSeg rest →
  path_resolve cwd [absPath R; JS.join "/" rest] = absPath (R ++ rest).
Proof.
  intros HR Hrest. rewrite <-path_resolve_posix. unfold posix_resolve. cbn [rev app].
  assert (resolveLoop cwd [JS.join "/" rest; absPath R] ""
          = (absPath R +:+ String "/" (JS.join "/" rest +:+ String "/" ""), true)
          ∨ rest = []
            ∧ resolveLoop cwd [JS.join "/" rest; absPath R] ""
              = (absPath R +:+ String "/" "", true)) as [->|[-> ->]].
  { destruct (decide (rest = [])) as [->|Hne].
    { right. split; [done|]. apply (resolveLoop_absolute_head cwd _ [] ""). }
    left. destruct (join_proper_head rest Hrest Hne) as (c & tail & -> & Hc).
    cbn [resolveLoop JS.nonEmpty JS.startsWith String.prefix].
    destruct (Ascii.ascii_dec "/" c) as [<-|_]; [done|].
    apply (resolveLoop_absolute_head cwd _ []). }
  - cbn [negb]. unfold absPath at 2. f_equal. f_equal.
    rewrite normalizeSegments_canonical;
      rewrite !segments_app, segments_absPath, segments_join, app_nil_r; try done.
    by apply Forall_app.
  - cbn [negb]. rewrite app_nil_r. unfold absPath at 2. f_equal. f_equal.
    rewrite normalizeSegments_canonical;
      rewrite !segments_app, segments_absPath, app_nil_r; done.
Qed.

Lemma resolve_relative (cwd : string) workspaceRoot R rest :
  Forall properSeg R → Forall properSeg rest →
  path_resolve cwd [workspaceRoot] = absPath R →
  resolveWorkspacePath cwd workspaceRoot (JS.join "/" rest) = inr (absPath (R ++ rest)).
Proof.
  intros HR Hrest Hroot. unfold resolveWorkspacePath, normalizeForComparison, path_sep.
  cbn [platform Host.posix].
  rewrite Hroot, candidate_below by done.
  rewrite !path_resolve_idem by (try done; by apply Forall_app).
  destruct (decide (rest = [])) as [->|Hne].
  { by rewrite app_nil_r, String.eqb_refl. }
  rewrite inside_startsWith; [by rewrite andb_false_r|done|].
  destruct (JS.endsWith (absPath R) "/") eqn:Hends; [by right|].
  left. split; [done|]. by intros ->.
Qed.

Lemma relative_inside (cwd : string) workspaceRoot R rest :
  Forall properSeg R → Forall properSeg rest →
  path_resolve cwd [workspaceRoot] = absPath R →
  toWorkspaceRelativePath cwd workspaceRoot (absPath (R ++ rest)) = JS.join "/" rest.
Proof.
  intros HR Hrest Hroot. unfold toWorkspaceRelativePath, path_relative, sepChar.
  cbn [platform Host.posix workingDirectory]. unfold posix_relative.
  rewrite !path_resolve_posix, Hroot.
  rewrite !path_resolve_idem by (try done; by apply Forall_app).
  rewrite !segments_absPath by (try done; by apply Forall_app).
  rewrite relativeSegments_extends. apply TextFacts.join_split.
Qed.

(** On POSIX, the relative path of a path that [resolveWorkspacePath]
    returned leads back to it: [resolveWorkspacePath] accepts it and returns
    the same absolute path.  It has no ".." component, and it is empty
    exactly for the workspace root itself. *)
Theorem relative_path_round_trip (cwd : string) workspaceRoot userPath absolutePath :
  JS.startsWith cwd "/" = true →
  resolveWorkspacePath cwd workspaceRoot userPath = inr absolutePath →
  let relative := toWorkspaceRelativePath cwd workspaceRoot absolutePath in
  resolveWorkspacePath cwd workspaceRoot relative = inr absolutePath
  ∧ ¬ In ".." (JS.split "/" relative)
  ∧ (relative = "" ↔ absolutePath = path_resolve cwd [workspaceRoot]).
Proof.
  intros Hcwd Hresolve relative.
  destruct (resolved_inside _ _ _ _ Hcwd Hresolve) as (R & rest & HR & Hrest & Hroot & ->).
  subst relative. rewrite (relative_inside _ _ R rest) by done.
  split; [by apply resolve_relative|]. split.
  - destruct (decide (rest = [])) as [->|Hne].
    + simpl. by intros [?|[]].
    + change "/" with (String "/"%char "") at 1.
      rewrite TextFacts.split_join_char; [|done|].
      * intros Hin%list_elem_of_In. rewrite Forall_forall in Hrest.
        by destruct (Hrest _ Hin) as (_ & _ & ? & _).
      * eapply Forall_impl; [exact Hrest|]. by intros seg (_ & _ & _ & ?).
  - rewrite Hroot. split.
    + intros Hempty. destruct (decide (rest = [])) as [->|Hne].
      * by rewrite app_nil_r.
      * destruct (join_proper_head rest Hrest Hne) as (c & tail & Hjoin & _).
        by rewrite Hjoin in Hempty.
    + intros Heq. apply (f_equal segments) in Heq.
      rewrite !segments_absPath in Heq by (try done; by apply Forall_app).
      rewrite <-(app_nil_r R) in Heq at 2. by apply app_inv_head in Heq as ->.
Qed.

End WorkspacePathFacts.

(** The relative path of a file reached through "..", and of the root. *)
Lemma relative_path_round_trip_witness :
  FileSegments.toWorkspaceRelativePath "/home/u" "ws" "/home/u/ws/lib/a.ts" = "lib/a.ts"
  ∧ PathSandbox.resolveWorkspacePath "/home/u" "ws" "lib/a.ts"
    = inr "/home/u/ws/lib/a.ts"
  ∧ FileSegments.toWorkspaceRelativePath "/home/u" "ws" "/home/u/ws" = "".
Proof.
  split; [reflexivity|].
  destruct (WorkspacePathFacts.relative_path_round_trip "/home/u" "ws"
              "src/../lib/./a.ts" "/home/u/ws/lib/a.ts" eq_refl eq_refl)
    as (Hback & _ & Hroot).
  split; [exact Hback|].
  destruct (WorkspacePathFacts.relative_path_round_trip "/home/u" "ws"
              "." "/home/u/ws" eq_refl eq_refl) as (_ & _ & Hempty).
  apply Hempty. reflexivity.
Defined.

(** ** Diff statistics *)

Module DiffFacts.
Import Diff Orchestrator.

(** A line of a unified diff that adds a line: it starts with "+" and is
    not the header of the new file. *)
Definition isAddition (line : string) : bool :=
  JS.startsWith line "+" && negb (JS.startsWith line "+++ ").

(** A line that removes a line: it starts with "-" and is not the header of
    the old file. *)
Definition isRemoval (line : string) : bool :=
  JS.startsWith line "-" && negb (JS.startsWith line "--- ").

Lemma countLine_spec counts line :
  countLine counts line
  = (counts.1 + (if isAddition line then 1 else 0),
     counts.2 + (if isRemoval line then 1 else 0)).
Proof.
  destruct counts as [a r]. unfold countLine, isAddition, isRemoval.
  destruct line as [|c line]; cbn [JS.nonEmpty negb fst snd].
  { cbn. f_equal; lia. }
  cbn [JS.startsWith String.prefix].
  assert (String.prefix "" line = true) as Hempty by (by destruct line).
  destruct (Ascii.ascii_dec "+" c) as [Hplus|Hplus];
    destruct (Ascii.ascii_dec "-" c) as [Hminus|Hminus];
    destruct (Ascii.ascii_dec "@" c) as [Hat|Hat];
    try congruence; rewrite ?Hempty.
  - destruct (String.prefix "++ " line); cbn; f_equal; lia.
  - destruct (String.prefix "-- " line); cbn; f_equal; lia.
  - destruct (String.prefix "@" line); cbn; f_equal; lia.
  - cbn. f_equal; lia.
Qed.

Lemma countLines_spec lines counts :
  fold_left countLine lines counts
  = (counts.1 + length (List.filter isAddition lines),
     counts.2 + length (List.filter isRemoval lines)).
Proof.
  revert counts. induction lines as [|line lines IH]; intros counts.
  - destruct counts. cbn. f_equal; lia.
  - cbn [fold_left List.filter]. rewrite IH, countLine_spec. cbn [fst snd].
    destruct (isAddition line), (isRemoval line); cbn [length]; f_equal; lia.
Qed.

(** [computeDiffStats] counts as added the lines of the diff that start
    with "+" and not with "+++ ", and as removed the lines that start with
    "-" and not with "--- "; every other line, and so the hunk headers and
    the context lines, counts for nothing.  Hence a changed line whose own
    text starts with "++ " or "-- " is left out of the count. *)
Theorem computeDiffStats_counts unifiedDiff :
  let lines := JS.split (ascii_of_nat 10) unifiedDiff in
  added (computeDiffStats unifiedDiff) = length (List.filter isAddition lines)
  ∧ removed (computeDiffStats unifiedDiff) = length (List.filter isRemoval lines)
  ∧ added (computeDiffStats unifiedDiff) + removed (computeDiffStats unifiedDiff)
    ≤ length lines.
Proof.
  intros lines. unfold computeDiffStats. fold lines.
  rewrite countLines_spec. cbn [added removed fst snd]. split; [done|].
  split; [done|].
  clear. induction lines as [|line lines IH]; [done|]. cbn [List.filter].
  assert (isAddition line && isRemoval line = false) as Hexcl.
  { unfold isAddition, isRemoval. destruct line as [|c line]; [done|].
    cbn [JS.startsWith String.prefix].
    destruct (Ascii.ascii_dec "+" c) as [<-|?]; [|done].
    destruct (Ascii.ascii_dec "-" "+"); [done|]. by rewrite andb_false_r. }

  destruct (isAddition line), (isRemoval line); cbn [length] in *; try done; lia.
Qed.

End DiffFacts.

(** ** Private key blocks are always detected *)

Module SecretsMore.
Import Regex Secrets.

(** The kinds of private key that the last rule names. *)
Definition keyKinds : list string := ["RSA"; "OPENSSH"; "EC"; "DSA"].

Definition keyHeader (kind : string) : string :=
  "-----BEGIN " +:+ kind +:+ " PRIVATE KEY-----".

Definition keyRule : SecretRule :=
  {| rule_type := "Private key block";
     regex := Seq (lit "-----BEGIN ")
                (Seq (Alt (lit "RSA") (Alt (lit "OPENSSH") (Alt (lit "EC") (lit "DSA"))))
                     (lit " PRIVATE KEY-----")) |}.

Lemma rules_end_with_keyRule : ∃ rules, SECRET_RULES = rules ++ [keyRule].
Proof. by eexists [_; _; _; _; _]. Qed.

Lemma list_ascii_app s t :
  list_ascii_of_string (s +:+ t) = list_ascii_of_string s ++ list_ascii_of_string t.
Proof.
  induction s as [|c s IH]; [by rewrite JSFacts.sapp_nil_l|].
  rewrite JSFacts.sapp_cons. simpl. congruence.
Qed.

(** A literal consumes its own length. *)
Lemma run_lit_shrinks s st k e :
  run false (lit s) st k = Some e →
  ∃ st', k st' = Some e
         ∧ length (after st) = String.length s + length (after st').
Proof.
  revert st k. induction s as [|c s IH]; intros st k.
  { intros Hrun. by exists st. }
  assert (∀ k', run false (Chr c) st k' = Some e →
          ∃ st', k' st' = Some e ∧ length (after st) = S (length (after st')))
    as Hchr.
  { intros k'. cbn [run]. unfold consume. destruct (after st) as [|a rest]; [done|].
    destruct (sameChar false a c); [|done]. eauto. }
  destruct s as [|c' s].
  - intros Hrun. destruct (Hchr _ Hrun) as (st' & ? & ?). eauto.
  - change (lit (String c (String c' s))) with (Seq (Chr c) (lit (String c' s))).
    cbn [run]. intros Hrun. destruct (Hchr _ Hrun) as (st1 & Hrest & Hlen).
    destruct (IH _ _ Hrest) as (st' & Hk & Hlen'). exists st'. split; [done|].
    rewrite Hlen, Hlen'. simpl. lia.
Qed.

Lemma run_alt r1 r2 st k e :
  run false (Alt r1 r2) st k = Some e →
  run false r1 st k = Some e ∨ run false r2 st k = Some e.
Proof. cbn [run]. destruct (run false r1 st k); [by left | by right]. Qed.

Lemma run_seq r1 r2 st k :
  run false (Seq r1 r2) st k = run false r1 st (λ st', run false r2 st' k).
Proof. reflexivity. Qed.

(** A match of the private key rule is never empty. *)
Lemma keyRule_shrinks st e :
  matchHere false (regex keyRule) st = Some e →
  length (after e) < length (after st).
Proof.
  unfold matchHere. cbn [keyRule regex]. rewrite run_seq. intros Hrun.
  apply run_lit_shrinks in Hrun as (st1 & Hrun & Hlen1).
  rewrite run_seq in Hrun.
  assert (∃ st2, run false (lit " PRIVATE KEY-----") st2 Some = Some e
                 ∧ length (after st2) ≤ length (after st1)) as (st2 & Hrun2 & Hlen2).
  { repeat (apply run_alt in Hrun as [Hrun|Hrun]);
      apply run_lit_shrinks in Hrun as (st2 & Hrun & Hlen); exists st2;
      (split; [exact Hrun | lia]). }
  apply run_lit_shrinks in Hrun2 as (st3 & [= ->] & Hlen3).
  simpl in *. lia.
Qed.

(** At a header the rule matches. *)
Lemma keyRule_matches kind bef post cap :
  kind ∈ keyKinds →
  is_Some (matchHere false (regex keyRule)
             {| before := bef;
                after := list_ascii_of_string (keyHeader kind) ++ post;
                capture := cap |}).
Proof.
  intros Hkind%list_elem_of_In. simpl in Hkind.
  destruct Hkind as [<-|[<-|[<-|[<-|[]]]]]; vm_compute; eauto.
Qed.

Lemma search_sound ignoreCase r bef aft st e :
  search ignoreCase r bef aft = Some (st, e) →
  matchHere ignoreCase r st = Some e.
Proof.
  revert bef. induction aft as [|a aft IH]; intros bef; cbn [search].
  - destruct (matchHere ignoreCase r {| before := bef; after := []; capture := None |})
      eqn:Hm; [|done].
    intros Hfound. inversion Hfound. by subst.
  - destruct (matchHere ignoreCase r
                {| before := bef; after := a :: aft; capture := None |}) eqn:Hm;
      [|apply IH].
    intros Hfound. inversion Hfound. by subst.
Qed.

Lemma search_finds ignoreCase r pre bef aft :
  is_Some (matchHere ignoreCase r
             {| before := rev pre ++ bef; after := aft; capture := None |}) →
  is_Some (search ignoreCase r bef (pre ++ aft)).
Proof.
  revert bef. induction pre as [|a pre IH]; intros bef Hm.
  - simpl in *. destruct aft; cbn [search]; destruct Hm as [e ->]; eauto.
  - cbn [app search].
    destruct (matchHere ignoreCase r
                {| before := bef; after := a :: pre ++ aft; capture := None |});
      [by eexists|].
    apply IH. simpl in Hm. by rewrite <-app_assoc in Hm.
Qed.

(** The first match of the rule in a content with a header. *)
Lemma keyRule_first_match pre kind post :
  kind ∈ keyKinds →
  ∃ raw more,
    matchAll false (regex keyRule) (pre +:+ keyHeader kind +:+ post) = raw :: more
    ∧ raw ≠ "".
Proof.
  intros Hkind. unfold matchAll. cbn [matchAllFrom].
  rewrite !list_ascii_app.
  destruct (search_finds false (regex keyRule) (list_ascii_of_string pre) []
              (list_ascii_of_string (keyHeader kind) ++ list_ascii_of_string post))
    as [[st e] Hsearch]; [by apply keyRule_matches|].
  rewrite Hsearch.
  pose proof (keyRule_shrinks st e (search_sound _ _ _ _ _ _ Hsearch)) as Hshrink.
  rewrite (proj2 (Nat.eqb_neq _ _)) by lia.
  eexists _, _. split; [done|].
  unfold consumedBetween. destruct (after st) as [|a rest]; [simpl in *; lia|].
  destruct (length (a :: rest) - length (after e)) eqn:Hcut; [lia|]. done.
Qed.

Lemma scanMatches_adds ruleType raw more findings :
  raw ≠ "" →
  let result := scanMatches ruleType (raw :: more) findings in
  (result.1 = true → 20 ≤ length result.2)
  ∧ ∃ finding, finding ∈ result.2 ∧ type finding = ruleType.
Proof.
  intros Hraw. cbn [scanMatches]. destruct raw as [|c raw]; [done|].
  cbn [JS.nonEmpty negb].
  set (findings' := findings ++ [_]).
  assert (∀ matches acc,
            ((scanMatches ruleType matches acc).1 = true →
             20 ≤ length (scanMatches ruleType matches acc).2)
            ∧ acc `prefix_of` (scanMatches ruleType matches acc).2) as Hgen.
  { induction matches as [|m matches IH]; intros acc; cbn [scanMatches].
    { by split. }
    destruct (JS.nonEmpty m); cbn [negb]; [|apply IH].
    destruct (Nat.leb_spec 20 (length (acc ++ [{| type := ruleType; snippet := mask m |}])));
      cbn [fst snd].
    - split; [done|]. by apply prefix_app_r.
    - destruct (IH (acc ++ [{| type := ruleType; snippet := mask m |}])) as [? Hpre].
      split; [done|]. etrans; [|exact Hpre]. by apply prefix_app_r. }
  assert ({| type := ruleType; snippet := mask (String c raw) |} ∈ findings') as Hin.
  { subst findings'. apply elem_of_app. right. by left. }
  destruct (Nat.leb_spec 20 (length findings')); cbn [fst snd].
  - split; [done|]. eauto.
  - destruct (Hgen more findings') as [Hcap Hpre]. split; [done|].
    exists {| type := ruleType; snippet := mask (String c raw) |}.
    split; [|done]. by eapply elem_of_prefix.
Qed.

Lemma scanRules_last rules rule content findings raw more :
  matchAll false (regex rule) content = raw :: more → raw ≠ "" →
  let result := scanRules (rules ++ [rule]) content findings in
  20 ≤ length result ∨ ∃ finding, finding ∈ result ∧ type finding = rule_type rule.
Proof.
  intros Hmatch Hraw. revert findings.
  induction rules as [|first rules IH]; intros findings; cbn [app scanRules].
  - rewrite Hmatch.
    destruct (scanMatches_adds (rule_type rule) raw more findings Hraw)
      as [Hcap Hadds].
    destruct (scanMatches _ _ _) as [[] result]; cbn [fst snd] in *.
    + left. by apply Hcap.
    + by right.
  - destruct (scanMatches (rule_type first) _ findings) as [[] result] eqn:Hscan.
    + left.
      assert (∀ matches acc,
                (scanMatches (rule_type first) matches acc).1 = true →
                20 ≤ length (scanMatches (rule_type first) matches acc).2) as Hcap.
      { induction matches as [|m matches IHm]; intros acc; cbn [scanMatches];
          [done|].
        destruct (JS.nonEmpty m); cbn [negb]; [|apply IHm].
        destruct (Nat.leb_spec 20 (length (acc ++ [ {| type := rule_type first;
                                                        snippet := mask m |} ])));
          cbn [fst snd]; [done|apply IHm]. }
      specialize (Hcap (matchAll false (regex first) content) findings).
      rewrite Hscan in Hcap. by apply Hcap.
    + apply IH.
Qed.

Section Write.
Variable E : Orchestrator.Env.

(** A content that holds the header of a private key block, of one of the
    four kinds, always has findings: a finding of the type "Private key
    block", unless 20 findings were collected before.  With
    [allowPotentialSecrets] off, a [write_file] action with such a content
    fails and changes nothing. *)
Theorem private_key_detected pre kind post path w :
  kind ∈ keyKinds →
  let content := pre +:+ keyHeader kind +:+ post in
  detectSecrets content ≠ []
  ∧ (length (detectSecrets content) < 20 →
     ∃ finding, finding ∈ detectSecrets content ∧ type finding = "Private key block")
  ∧ (Policy.allowPotentialSecrets (Orchestrator.policy E) = false →
     Orchestrator.ok
       (Orchestrator.executeAction E (ResponseParser.WriteFile path content) w).1 = false
     ∧ (Orchestrator.executeAction E (ResponseParser.WriteFile path content) w).2 = w).
Proof.
  intros Hkind content.
  destruct (keyRule_first_match pre kind post Hkind) as (raw & more & Hmatch & Hraw).
  destruct rules_end_with_keyRule as [rules Hrules].
  pose proof (scanRules_last rules keyRule content [] raw more Hmatch Hraw) as Hlast.
  cbv zeta in Hlast. rewrite <-Hrules in Hlast.
  change (scanRules SECRET_RULES content []) with (detectSecrets content) in Hlast.
  assert (detectSecrets content ≠ []) as Hfound.
  { intros Hnone. rewrite Hnone in Hlast.
    destruct Hlast as [Hlen|(finding & Hin & _)]; [simpl in Hlen; lia|].
    by apply elem_of_nil in Hin. }
  split; [done|]. split.
  - intros Hlen. destruct Hlast as [?|?]; [lia|done].
  - intros Hpolicy. cbn [Orchestrator.executeAction].
    unfold Orchestrator.executeWriteFile.
    destruct (Policy.isWritePathAllowed _ _ _) as [[glob]|check]; [done|].
    destruct (Policy.allowed check); [|done]. cbn [negb].
    rewrite Hpolicy. by destruct (detectSecrets content).
Qed.

End Write.

End SecretsMore.

(** The header of an EC key in a file to write. *)
Lemma private_key_detected_witness :
  let content := "key: " +:+ SecretsMore.keyHeader "EC" +:+ " MHcCAQEE" in
  let w := Orchestrator.initialWorld ∅ in
  Secrets.detectSecrets content
  = [{| Secrets.type := "Private key block"; Secrets.snippet := "-----B...----" |}]
  ∧ Orchestrator.ok
      (Orchestrator.executeAction demoEnv
         (ResponseParser.WriteFile "id_ec" content) w).1 = false
  ∧ (Orchestrator.executeAction demoEnv
       (ResponseParser.WriteFile "id_ec" content) w).2 = w.
Proof.
  intros content w. split; [vm_compute; reflexivity|].
  destruct (SecretsMore.private_key_detected demoEnv "key: " "EC" " MHcCAQEE" "id_ec" w)
    as (_ & _ & Hwrite); [by apply (bool_decide_unpack _); vm_compute|].
  by apply Hwrite.
Defined.

(** ** Directory listing *)

Module ListFilesFacts.
Import JSFacts PathSandbox PathSandboxFacts FileTools FileSegments ListFiles.

(** A name as [readdir] returns it: not empty, no dot entry, no slash. *)
Fixpoint noSlash (s : string) : bool :=
  match s with
  | EmptyString => true
  | String c s' => negb (Ascii.eqb c "/") && noSlash s'
  end.

Definition properName (s : string) : bool :=
  JS.nonEmpty s && negb (String.eqb s ".") && negb (String.eqb s "..") && noSlash s.

(** A tree of entries with proper names in which every directory can be
    read. *)
Fixpoint readableTree (node : Node) : bool :=
  match node with
  | FileNode name => properName name
  | DirNode name entries => properName name && forallb readableTree entries
  | LockedDir _ _ => false
  end.

Definition ignored (name : string) : bool :=
  bool_decide (name ∈ DEFAULT_IGNORED_DIRS).

(** The entries below a directory that the walk is to list, without the
    limit on their number: each with its names from the directory down and
    whether it is a directory.  Ignored directories are left out with all
    they hold; the entries of a directory are listed when the walk is
    recursive and the depth of the directory is less than [maxDepth]. *)
Fixpoint entryNames (recursive : bool) (maxDepth : Json.number) (entry : Node)
    (depth : nat) : list (list string * bool) :=
  match entry with
  | FileNode name => [([name], false)]
  | DirNode name entries =>
      if ignored name then []
      else
        ([name], true)
        :: (if recursive && isBelow depth maxDepth
            then
              map (λ found, (name :: found.1, found.2))
                (flat_map (λ child, entryNames recursive maxDepth child (S depth))
                   entries)
            else [])
  | LockedDir name _ => if ignored name then [] else [([name], true)]
  end.

(** The text of an entry: its path from the workspace root, with a slash
    at the end for a directory. *)
Definition render (prefix : list string) (found : list string * bool) : string :=
  JS.join "/" (prefix ++ found.1) +:+ (if found.2 then "/" else "").

Lemma Node_nested_ind (P : Node → Prop) :
  (∀ name, P (FileNode name)) →
  (∀ name entries, Forall P entries → P (DirNode name entries)) →
  (∀ name message, P (LockedDir name message)) →
  ∀ node, P node.
Proof.
  intros Hfile Hdir Hlocked. fix IH 1.
  intros [name|name entries|name message]; [apply Hfile| |apply Hlocked].
  apply Hdir.
  exact ((fix all (l : list Node) : Forall P l :=
            match l with
            | [] => List.Forall_nil P
            | e :: l' => @List.Forall_cons _ P e l' (IH e) (all l')
            end) entries).
Qed.

Lemma noSlash_noChar s : noSlash s = true → noChar "/" s.
Proof.
  induction s as [|c s IH]; [done|]. simpl.
  intros [Hc Hs]%andb_true_iff. split; [|by apply IH].
  intros ->. by rewrite Ascii.eqb_refl in Hc.
Qed.

Lemma properName_properSeg s : properName s = true → properSeg s.
Proof.
  unfold properName.
  intros [[[H1 H2]%andb_true_iff H3]%andb_true_iff H4]%andb_true_iff.
  repeat split.
  - by destruct s.
  - intros ->. done.
  - intros ->. done.
  - by apply noSlash_noChar.
Qed.

Lemma join_proper_nonEmpty segs :
  Forall properSeg segs → segs ≠ [] → JS.nonEmpty (JS.join "/" segs) = true.
Proof.
  intros Hall Hne. destruct segs as [|seg segs]; [done|].
  inversion_clear Hall as [|? ? (Hseg & _) _].
  destruct seg as [|c seg]; [done|]. by destruct segs.
Qed.

Lemma no_trailing_slash pre name :
  properSeg name → JS.endsWith (pre +:+ String "/" name) "/" = false.
Proof.
  intros (Hne & _ & _ & Hno).
  destruct (JS.endsWith (pre +:+ String "/" name) "/") eqn:Hends; [|done].
  apply endsWith_split in Hends as [t Ht].
  apply (f_equal (JS.split "/")) in Ht.
  change (t +:+ "/") with (t +:+ String "/" "") in Ht.
  rewrite !split_app, (split_noChar _ name) in Ht by done.
  simpl in Ht. apply (f_equal (λ l, List.last l "")) in Ht.
  rewrite !last_last in Ht. done.
Qed.

(** On POSIX, joining a canonical absolute path and a name appends the
    name. *)
Lemma path_join_child (cwd : string) segs name :
  Forall properSeg segs → properSeg name →
  path_join cwd (absPath segs) name = absPath (segs ++ [name]).
Proof.
  intros Hsegs Hname. unfold path_join. cbn [platform Host.posix].
  unfold posix_join.
  change (JS.nonEmpty (absPath segs)) with true. cbv iota.
  destruct Hname as (Hne & Hname). destruct name as [|c name]; [done|].
  cbn [JS.nonEmpty]. set (child := String c name) in *.
  assert (properSeg child) as Hchild by (by split).
  change (absPath segs +:+ "/" +:+ child) with (absPath segs +:+ String "/" child).
  unfold path_normalize.
  assert (segments (absPath segs +:+ String "/" child) = segs ++ [child]) as Hseg.
  { by rewrite segments_app, segments_absPath, segments_proper. }
  assert (JS.endsWith (absPath segs +:+ String "/" child) "/" = false) as Hends
    by (by apply no_trailing_slash).
  set (joined := absPath segs +:+ String "/" child) in *.
  assert (∃ tail, joined = String "/" tail) as [tail Hjoined].
  { subst joined. unfold absPath.
    change ("/" +:+ JS.join "/" segs) with (String "/" (JS.join "/" segs)).
    rewrite sapp_cons. eauto. }
  assert (JS.nonEmpty joined = true) as -> by (by rewrite Hjoined).
  assert (JS.startsWith joined "/" = true) as ->.
  { rewrite Hjoined. unfold JS.startsWith. simpl. by destruct tail. }
  cbn [negb]. rewrite Hends.
  rewrite normalizeSegments_canonical; rewrite Hseg;
    [|apply Forall_app; split; [done|by constructor]].
  rewrite join_proper_nonEmpty; [done| |by destruct segs].
  apply Forall_app. split; [done|by constructor].
Qed.

(** The number of results at which a limit that is a finite number stops
    the walk: the least whole number that is not below it. *)
Definition capOf (limit : Q) : nat := Z.to_nat (Qceiling limit).

Lemma reaches_cap limit n :
  n ≤ capOf limit → reaches n (Json.Finite limit) = bool_decide (n = capOf limit).
Proof.
  intros Hn. unfold reaches, capOf in *. case_bool_decide as Hd.
  - apply Qle_bool_iff. eapply Qle_trans; [apply Qle_ceiling|].
    rewrite <-Zle_Qle. lia.
  - apply not_true_is_false. intros Hle%Qle_bool_iff.
    pose proof (Qceiling_lt limit) as Hlt.
    assert (Hlt' : (inject_Z (Qceiling limit - 1) < inject_Z (Z.of_nat n))%Q)
      by (by eapply Qlt_le_trans).
    rewrite <-Zlt_Qlt in Hlt'. lia.
Qed.

Section Walk.

Variable cwd : string.
Variable workspaceRoot : string.
Variable recursive : bool.
Variable maxDepth : Json.number.
Variable limit : Q.

(** The components of the resolved workspace root. *)
Variable R : list string.
Hypothesis R_proper : Forall properSeg R.
Hypothesis R_root : path_resolve cwd [workspaceRoot] = absPath R.

Local Abbreviation cap := (capOf limit).
Local Abbreviation visit :=
  (ListFiles.visit cwd workspaceRoot recursive maxDepth (Json.Finite limit)).
Local Abbreviation loop :=
  (ListFiles.loop cwd workspaceRoot recursive maxDepth (Json.Finite limit)).
Local Abbreviation names := (entryNames recursive maxDepth).

Lemma full_length results :
  length results ≤ cap →
  full (Json.Finite limit) results = bool_decide (length results = cap).
Proof. apply reaches_cap. Qed.

Lemma take_take_app {A} n (a b c : list A) :
  take n (take n (a ++ b) ++ c) = take n (a ++ b ++ c).
Proof.
  rewrite (app_assoc a b c).
  destruct (decide (length (a ++ b) ≤ n)) as [Hle|Hgt].
  - by rewrite (take_ge (a ++ b)) by done.
  - rewrite (take_app_le (a ++ b) c) by lia.
    rewrite take_app_le by (rewrite length_take; lia).
    by rewrite take_take, Nat.min_id.
Qed.

Lemma render_child prefix name found :
  render prefix (name :: found.1, found.2) = render (prefix ++ [name]) found.
Proof. unfold render. cbn [fst snd]. by rewrite <-app_assoc. Qed.

Lemma visit_spec entry :
  readableTree entry = true →
  ∀ prefix depth results,
    Forall properSeg prefix → length results < cap →
    visit entry (absPath (R ++ prefix)) depth results
    = inr (take cap (results ++ map (render prefix) (names entry depth))).
Proof.
  induction entry as [name|name entries IH|name message] using Node_nested_ind;
    intros Hproper prefix depth results Hprefix Hroom; [| |done].
  - apply properName_properSeg in Hproper.
    cbn [ListFiles.visit nodeName entryNames map].
    rewrite path_join_child by (first [done | by apply Forall_app]).
    rewrite <-app_assoc.
    rewrite (WorkspacePathFacts.relative_inside cwd workspaceRoot R (prefix ++ [name]));
      [|done|apply Forall_app; split; [done|by constructor]|done].
    rewrite take_ge by (rewrite length_app; simpl; lia).
    unfold render. cbn [fst snd]. by rewrite sapp_nil_r.
  - cbn [readableTree] in Hproper. apply andb_true_iff in Hproper as [Hname Hentries].
    apply properName_properSeg in Hname.
    cbn [ListFiles.visit nodeName entryNames]. fold (ignored name).
    destruct (ignored name).
    { simpl. rewrite app_nil_r. rewrite take_ge by lia. done. }
    rewrite path_join_child by (first [done | by apply Forall_app]).
    rewrite <-app_assoc.
    rewrite (WorkspacePathFacts.relative_inside cwd workspaceRoot R (prefix ++ [name]));
      [|done|apply Forall_app; split; [done|by constructor]|done].
    set (shown := JS.join "/" (prefix ++ [name]) +:+ "/").
    assert (render prefix ([name], true) = shown) as Hshown by done.
    cbn [map]. rewrite Hshown.
    assert (length (results ++ [shown]) ≤ cap) as Hlen
      by (rewrite length_app; simpl; lia).
    assert (∀ rest, results ++ shown :: rest = (results ++ [shown]) ++ rest)
      as Hassoc by (intros; by rewrite <-app_assoc).
    destruct (recursive && isBelow depth maxDepth).
    2: { cbn [map]. by rewrite take_ge by done. }
    rewrite (Hassoc (map _ _)). clear Hassoc.
    rewrite full_length by done. case_bool_decide as Hfull.
    { rewrite take_app_le by lia. by rewrite take_ge by lia. }
    rewrite map_map.
    rewrite (map_ext _ (render (prefix ++ [name])))
      by (intros found; apply render_child).
    assert (Forall properSeg (prefix ++ [name])) as Hprefix'
      by (apply Forall_app; split; [done|by constructor]).
    revert Hlen. generalize (results ++ [shown]). clear Hfull Hroom results.
    induction entries as [|child entries IHentries]; intros results Hlen.
    { simpl. rewrite app_nil_r. by rewrite take_ge by done. }
    cbn [forallb] in Hentries. apply andb_true_iff in Hentries as [Hchild Hrest].
    inversion_clear IH as [|? ? IHchild IHrest].
    rewrite full_length by done. case_bool_decide as Hfull.
    { rewrite take_app_le by lia. by rewrite take_ge by lia. }
    rewrite (IHchild Hchild (prefix ++ [name]) (S depth) results) by (done || lia).
    rewrite app_assoc in IHentries |- *.
    rewrite IHentries; [|done|done|rewrite length_take; lia].
    cbn [flat_map]. rewrite map_app. f_equal. apply take_take_app.
Qed.

Lemma loop_spec entries :
  forallb readableTree entries = true →
  ∀ prefix depth results,
    Forall properSeg prefix → length results ≤ cap →
    loop entries (absPath (R ++ prefix)) depth results
    = inr (take cap
             (results
              ++ map (render prefix) (flat_map (λ entry, names entry depth) entries))).
Proof.
  induction entries as [|entry entries IH];
    intros Hproper prefix depth results Hprefix Hlen.
  { simpl. rewrite app_nil_r. by rewrite take_ge by done. }
  cbn [forallb] in Hproper. apply andb_true_iff in Hproper as [Hentry Hrest].
  cbn [ListFiles.loop]. rewrite full_length by done. case_bool_decide as Hfull.
  { rewrite take_app_le by lia. by rewrite take_ge by lia. }
  rewrite visit_spec by (done || lia).
  rewrite IH; [|done|done|rewrite length_take; lia].
  cbn [flat_map]. rewrite map_app. f_equal. apply take_take_app.
Qed.

End Walk.

(** The directories on the way to an entry, the entry included when it is
    a directory. *)
Definition directoriesOf (found : list string * bool) : list string :=
  if found.2 then found.1 else removelast found.1.

(** An entry that may be listed: it has a name; it is an entry of the
    listed directory itself or, in a recursive walk, the depth of the
    directory that holds it is less than [maxDepth]; and no directory on
    the way to it is ignored. *)
Definition wellListed (recursive : bool) (maxDepth : Json.number) (depth : nat)
    (found : list string * bool) : Prop :=
  found.1 ≠ []
  ∧ (length found.1 = 1
     ∨ recursive = true ∧ isBelow (depth + length found.1 - 2) maxDepth = true)
  ∧ Forall (λ name, ignored name = false) (directoriesOf found).

Lemma entryNames_wellListed recursive maxDepth entry :
  ∀ depth, Forall (wellListed recursive maxDepth depth)
             (entryNames recursive maxDepth entry depth).
Proof.
  induction entry as [name|name entries IH|name message] using Node_nested_ind;
    intros depth.
  { constructor; [|constructor]. split; [done|]. split; [by left|]. constructor. }
  2: { cbn [entryNames]. destruct (ignored name) eqn:Hignored; [constructor|].
       constructor; [|constructor]. split; [done|]. split; [by left|].
       by constructor. }
  cbn [entryNames]. destruct (ignored name) eqn:Hignored; [constructor|].
  constructor.
  { split; [done|]. split; [by left|]. by constructor. }
  destruct recursive; cbn [andb]; [|constructor].
  destruct (isBelow depth maxDepth) eqn:Hdepth; [|constructor].
  apply Forall_fmap, Forall_flat_map.
  eapply Forall_impl; [exact IH|]. intros child Hchild. cbn beta.
  eapply Forall_impl; [apply (Hchild (S depth))|].
  intros [found isDir] (Hne & Hlevel & Hdirs).
  unfold wellListed, directoriesOf in *. simpl in *. split; [done|]. split.
  - right. split; [done|]. destruct Hlevel as [Hone|[_ Hlevel]].
    + rewrite Hone. by replace (depth + 2 - 2) with depth by lia.
    + destruct found as [|first found]; [done|]. simpl in *.
      by replace (depth + S (S (length found)) - 2)
        with (depth + S (length found) - 1) by lia.
  - destruct isDir; [by constructor|].
    destruct found as [|first found]; [done|]. by constructor.
Qed.

(** [listFiles] on POSIX, on a directory below which every directory can be
    read, with a limit that is a finite number: the first entries, in the
    order of the walk, of the entries to list, as many as the least whole
    number that is not below the limit.  Each is shown with its path from
    the workspace root, a directory with a slash at the end.  None lies in
    an ignored directory, and each lies in the listed directory itself or in
    a directory whose depth below it is less than [maxDepth]. *)
Theorem listFiles_listing (cwd : string) statAt input basePath name entries limit :
  JS.startsWith cwd "/" = true →
  resolveWorkspacePath cwd (workspaceRoot input) (default "." (lf_path input))
  = inr basePath →
  statAt basePath = inr (DirNode name entries) →
  forallb readableTree entries = true →
  default (whole 200) (maxEntries input) = Json.Finite limit →
  let recursive := default true (ListFiles.recursive input) in
  let maxDepth := default (whole 4) (depth input) in
  let prefix :=
    drop (length (segments (path_resolve cwd [workspaceRoot input])))
      (segments basePath) in
  let found := flat_map (λ entry, entryNames recursive maxDepth entry 0) entries in
  listFiles cwd statAt input = inr (take (capOf limit) (map (render prefix) found))
  ∧ Forall (wellListed recursive maxDepth 0) found.
Proof.
  intros Hcwd Hresolve Hnode Hproper Hlimit recursive maxDepth prefix found.
  split.
  2: { apply Forall_flat_map, Forall_forall. intros entry _.
       apply entryNames_wellListed. }
  destruct (WorkspacePathFacts.resolved_inside _ _ _ _ Hcwd Hresolve)
    as (R & rest & HR & Hrest & Hroot & ->).
  assert (prefix = rest) as ->.
  { subst prefix. rewrite Hroot, !segments_absPath by (try done; by apply Forall_app).
    by rewrite drop_app_length. }
  unfold listFiles. rewrite Hresolve, Hnode, Hlimit.
  fold recursive. fold maxDepth.
  unfold walk.
  rewrite (full_length limit []) by (simpl; lia).
  case_bool_decide as Hfull; [by rewrite <-Hfull|].
  by rewrite (loop_spec cwd (workspaceRoot input) recursive maxDepth limit
                R HR Hroot entries Hproper rest 0 []) by (done || (simpl; lia)).
Qed.

End ListFilesFacts.

(** A workspace with an ignored directory, listed with a depth of 1.5 and a
    limit of 3.5 entries. *)
Definition sampleTree : ListFiles.Node :=
  ListFiles.DirNode "ws"
    [ ListFiles.DirNode ".git" [ListFiles.FileNode "config"];
      ListFiles.FileNode "README.md";
      ListFiles.DirNode "src"
        [ ListFiles.FileNode "a.ts";
          ListFiles.DirNode "deep" [ListFiles.FileNode "b.ts"];
          ListFiles.FileNode "z.ts" ] ].

Definition sampleStat (absolute : string) : string + ListFiles.Node :=
  if String.eqb absolute "/ws" then inr sampleTree
  else inl ("ENOENT: no such file or directory, stat '" +:+ absolute +:+ "'").

Definition sampleInput : ListFiles.Input :=
  {| ListFiles.workspaceRoot := "/ws"; ListFiles.lf_path := None;
     ListFiles.recursive := None;
     ListFiles.depth := Some (Json.Finite (3 # 2));
     ListFiles.maxEntries := Some (Json.Finite (7 # 2)) |}.

Lemma listFiles_listing_witness :
  ListFiles.listFiles "/" sampleStat sampleInput
  = inr ["README.md"; "src/"; "src/a.ts"; "src/deep/"].
Proof.
  destruct (ListFilesFacts.listFiles_listing "/" sampleStat sampleInput
              "/ws" "ws" _ (7 # 2) eq_refl eq_refl eq_refl eq_refl eq_refl)
    as [-> _].
  reflexivity.
Defined.
